(** * ABL language tooling: scanner primitives, token classifier and validators

    A shallow embedding of the lexical scanner and the diagnostic engine of
    the ABL editor extension ([src/extension.ts]).

    Text model.  A JavaScript string is a sequence of UTF-16 code units; here
    a piece of text is a [list ascii], one element per code unit, restricted
    to code units below 256.  [s[i]] is [nth_error s i] ([None] stands for
    [undefined]), [s.length] is [length s], and a document is the list of its
    lines.  Indices are natural numbers; every place where the source
    computes [i - 1] guards it the way the source does. *)

From Stdlib Require Import List Ascii String Arith ZArith Bool Lia.
From Stdlib Require Import Sorted.
From stdpp Require Import gmap strings.
Import ListNotations.

Local Open Scope nat_scope.
Local Open Scope list_scope.

Abbreviation text := (list ascii).

(** A string literal as text. *)
Definition str (s : string) : text := list_ascii_of_string s.

(* ================================================================== *)
(** ** Character classes *)
(* ================================================================== *)

Module Chars.

Definition code (c : ascii) : nat := nat_of_ascii c.

Definition isUpper (c : ascii) : bool := (65 <=? code c) && (code c <=? 90).
Definition isLower (c : ascii) : bool := (97 <=? code c) && (code c <=? 122).
Definition isDigit (c : ascii) : bool := (48 <=? code c) && (code c <=? 57).

(** The regular-expression class [[A-Za-z_]]. *)
Definition isIdentStart (c : ascii) : bool :=
  isUpper c || isLower c || (code c =? 95).

(** The regular-expression class [[A-Za-z0-9_]], which is also [\w]. *)
Definition isWordChar (c : ascii) : bool := isIdentStart c || isDigit c.

(** The class [\s] on code units below 256: TAB, LF, VT, FF, CR, SPACE
    and NBSP.  [String.prototype.trim] strips the same code units. *)
Definition isSpace (c : ascii) : bool :=
  ((9 <=? code c) && (code c <=? 13)) || (code c =? 32) || (code c =? 160).

(** The class [[ \t]]. *)
Definition isBlankTab (c : ascii) : bool := (code c =? 32) || (code c =? 9).

(** Upper-casing of an ASCII letter: the canonicalisation of a
    case-insensitive match against a pattern made of ASCII characters (a
    code unit of 128 or more is never identified with an ASCII one). *)
Definition upcase (c : ascii) : ascii :=
  if isLower c then ascii_of_nat (code c - 32) else c.

(** [String.prototype.toLowerCase] on one code unit below 256. *)
Definition lowcase (c : ascii) : ascii :=
  if isUpper c then ascii_of_nat (code c + 32)
  else if (192 <=? code c) && (code c <=? 222) && negb (code c =? 215)
       then ascii_of_nat (code c + 32)
       else c.

Definition eqc (a b : ascii) : bool := Ascii.eqb a b.

(** Equality of two code units under the [i] flag. *)
Definition eqci (a b : ascii) : bool := Ascii.eqb (upcase a) (upcase b).

Definition quote : ascii := "'"%char.
Definition space : ascii := " "%char.

End Chars.
Import Chars.

(* ================================================================== *)
(** ** String primitives of the host language *)
(* ================================================================== *)

Module Js.

(** [s[i]] *)
Definition charAt (s : text) (i : nat) : option ascii := nth_error s i.

(** [i > 0 ? s[i - 1] : ''] *)
Definition prevChar (s : text) (i : nat) : option ascii :=
  match i with 0 => None | S j => nth_error s j end.

(** [s.slice(i)] and [s.slice(0, i)] for [0 <= i]. *)
Definition sliceFrom (s : text) (i : nat) : text := skipn i s.
Definition sliceTo (s : text) (i : nat) : text := firstn i s.

(** [s.slice(a, b)] for [0 <= a] and [0 <= b]. *)
Definition slice (s : text) (a b : nat) : text := firstn (b - a) (skipn a s).

(** [pat] is a prefix of [s], code units compared with [eq]. *)
Fixpoint prefixBy (eq : ascii -> ascii -> bool) (pat s : text) : bool :=
  match pat, s with
  | [], _ => true
  | _ :: _, [] => false
  | p :: pat', c :: s' => eq p c && prefixBy eq pat' s'
  end.

(** [s.startsWith(pat, i)] *)
Definition startsWith (s pat : text) (i : nat) : bool :=
  prefixBy eqc pat (skipn i s).

(** [s.startsWith(pat)] and [s.endsWith(pat)] *)
Definition startsWith0 (s pat : text) : bool := prefixBy eqc pat s.
Definition endsWith (s pat : text) : bool := prefixBy eqc (rev pat) (rev s).

Fixpoint dropWhile (p : ascii -> bool) (s : text) : text :=
  match s with
  | [] => []
  | c :: s' => if p c then dropWhile p s' else s
  end.

Fixpoint takeWhile (p : ascii -> bool) (s : text) : text :=
  match s with
  | [] => []
  | c :: s' => if p c then c :: takeWhile p s' else []
  end.

(** [s.trim()] *)
Definition trim (s : text) : text :=
  rev (dropWhile isSpace (rev (dropWhile isSpace s))).

(** [s.toLowerCase()] *)
Definition toLowerCase (s : text) : text := map lowcase s.

(** [s.indexOf(pat)], [None] standing for [-1]. *)
Fixpoint indexOfFrom (pat s : text) (i : nat) : option nat :=
  if prefixBy eqc pat s then Some i
  else match s with
       | [] => None
       | _ :: s' => indexOfFrom pat s' (S i)
       end.
Definition indexOf (s pat : text) : option nat := indexOfFrom pat s 0.

(** Is the optional code unit a word character?  [None] is the empty
    string of the source, on which every class test fails. *)
Definition optWord (c : option ascii) : bool :=
  match c with Some x => isWordChar x | None => false end.

Definition optIs (c : option ascii) (x : ascii) : bool :=
  match c with Some y => eqc y x | None => false end.

End Js.
Import Js.

(* ================================================================== *)
(** ** Utils *)
(* ================================================================== *)

(** [isIdentChar(ch)], [ch] possibly the empty string. *)
Definition isIdentChar (ch : option ascii) : bool := optWord ch.

(** [isAttachPunct(ch)] *)
Definition isAttachPunct (ch : option ascii) : bool :=
  optIs ch "("%char || optIs ch ")"%char || optIs ch ","%char || optIs ch "]"%char
  || optIs ch "|"%char || optIs ch "'"%char || optIs ch "034"%char || optIs ch "!"%char.

(** [isWordBoundary(text, start, length)] *)
Definition isWordBoundary (t : text) (start len : nat) : bool :=
  let before := prevChar t start in
  let after := if start + len <? length t then charAt t (start + len) else None in
  negb (isIdentChar before) && negb (isIdentChar after).

(** [isCommentLine(text)]: the line matches [/^[ \t]*#/]. *)
Definition isCommentLine (t : text) : bool :=
  match dropWhile isBlankTab t with
  | c :: _ => eqc c "#"%char
  | [] => false
  end.

(** [isCommentLine2(text)], the same test in the variable validator. *)
Definition isCommentLine2 (t : text) : bool := isCommentLine t.

(* ================================================================== *)
(** ** Single-quote stripping and masking *)
(* ================================================================== *)

(** [stripSingleQuoted(text)]: the loop over [i], with the state [inQ]; the
    two-character step [i++; continue] is the nested match on the rest. *)
Fixpoint stripSingleQuotedFrom (inQ : bool) (t : text) : text :=
  match t with
  | [] => []
  | ch :: rest =>
      if eqc ch quote then
        match rest with
        | next :: rest' =>
            if eqc next quote then stripSingleQuotedFrom inQ rest'
            else stripSingleQuotedFrom (negb inQ) rest
        | [] => stripSingleQuotedFrom (negb inQ) rest
        end
      else if inQ then stripSingleQuotedFrom inQ rest
           else ch :: stripSingleQuotedFrom inQ rest
  end.

Definition stripSingleQuoted (t : text) : text := stripSingleQuotedFrom false t.

(** [stripSingleQuoted2(line)]: quotes and quoted contents become blanks. *)
Fixpoint stripSingleQuoted2From (inQ : bool) (t : text) : text :=
  match t with
  | [] => []
  | ch :: rest =>
      if eqc ch quote then
        match rest with
        | next :: rest' =>
            if eqc next quote then space :: space :: stripSingleQuoted2From inQ rest'
            else space :: stripSingleQuoted2From (negb inQ) rest
        | [] => space :: stripSingleQuoted2From (negb inQ) rest
        end
      else (if inQ then space else ch) :: stripSingleQuoted2From inQ rest
  end.

Definition stripSingleQuoted2 (t : text) : text := stripSingleQuoted2From false t.

(* ================================================================== *)
(** ** Top-level splitting *)
(* ================================================================== *)

(** [stripOuterParens(s)].  Every round of the [while] loop removes two
    characters, so [length s] rounds are always enough. *)
Fixpoint stripOuterParensLoop (fuel : nat) (t : text) : text :=
  match fuel with
  | 0 => t
  | S fuel' =>
      if startsWith0 t (str "(") && endsWith t (str ")")
      then stripOuterParensLoop fuel' (trim (slice t 1 (length t - 1)))
      else t
  end.

Definition stripOuterParens (s : text) : text :=
  stripOuterParensLoop (length s) (trim s).

(** [splitByAndOrTopLevel(s)].  [start] is the index where the current
    fragment begins, [skip] the number of characters the loop jumps over
    after a keyword ([i += 2], [i += 1]). *)
Fixpoint splitByAndOrFrom (s : text) (i start depth : nat) (inQ : bool)
    (skip : nat) (rest : text) : list text :=
  match rest with
  | [] => [sliceFrom s start]
  | ch :: rest1 =>
      match skip with
      | S skip' => splitByAndOrFrom s (i + 1) start depth inQ skip' rest1
      | 0 =>
          if eqc ch quote then
            match rest1 with
            | next :: rest2 =>
                if eqc next quote
                then splitByAndOrFrom s (i + 2) start depth inQ 0 rest2
                else splitByAndOrFrom s (i + 1) start depth (negb inQ) 0 rest1
            | [] => splitByAndOrFrom s (i + 1) start depth (negb inQ) 0 rest1
            end
          else if inQ then splitByAndOrFrom s (i + 1) start depth inQ 0 rest1
          else if eqc ch "("%char
               then splitByAndOrFrom s (i + 1) start (depth + 1) inQ 0 rest1
          else if eqc ch ")"%char
               then splitByAndOrFrom s (i + 1) start
                      (if 0 <? depth then depth - 1 else depth) inQ 0 rest1
          else if negb (depth =? 0)
               then splitByAndOrFrom s (i + 1) start depth inQ 0 rest1
          else if startsWith s (str "And") i
                  && negb (isIdentChar (prevChar s i))
                  && negb (isIdentChar (charAt s (i + 3)))
               then slice s start i
                    :: splitByAndOrFrom s (i + 1) (i + 3) depth inQ 2 rest1
          else if startsWith s (str "Or") i
                  && negb (isIdentChar (prevChar s i))
                  && negb (isIdentChar (charAt s (i + 2)))
               then slice s start i
                    :: splitByAndOrFrom s (i + 1) (i + 2) depth inQ 1 rest1
          else splitByAndOrFrom s (i + 1) start depth inQ 0 rest1
      end
  end.

Definition splitByAndOrTopLevel (s : text) : list text :=
  splitByAndOrFrom s 0 0 0 false 0 s.

(** The comparison operators, in the order in which they are tried. *)
Definition compareOps : list text :=
  [str "<>"; str ">="; str "<="; str "="; str ">"; str "<"].

Record CompareSplit := mkCompareSplit { left : text; op : text; right : text }.

(** [for (const op of ops) if (expr.startsWith(op, i)) return ...] *)
Fixpoint firstOpAt (ops : list text) (expr : text) (i : nat) : option text :=
  match ops with
  | [] => None
  | o :: ops' => if startsWith expr o i then Some o else firstOpAt ops' expr i
  end.

(** [splitCompareTopLevel(expr)]: the loop over [i] with [depth] and [inQ];
    [rest] is the part of [expr] from [i] on. *)
Fixpoint splitCompareFrom (expr : text) (i depth : nat) (inQ : bool)
    (rest : text) : option CompareSplit :=
  match rest with
  | [] => None
  | ch :: rest1 =>
      if eqc ch quote then
        match rest1 with
        | next :: rest2 =>
            if eqc next quote
            then splitCompareFrom expr (i + 2) depth inQ rest2
            else splitCompareFrom expr (i + 1) depth (negb inQ) rest1
        | [] => splitCompareFrom expr (i + 1) depth (negb inQ) rest1
        end
      else if inQ then splitCompareFrom expr (i + 1) depth inQ rest1
      else if eqc ch "("%char then splitCompareFrom expr (i + 1) (depth + 1) inQ rest1
      else if eqc ch ")"%char
           then splitCompareFrom expr (i + 1)
                  (if 0 <? depth then depth - 1 else depth) inQ rest1
      else if negb (depth =? 0) then splitCompareFrom expr (i + 1) depth inQ rest1
      else match firstOpAt compareOps expr i with
           | Some o =>
               Some {| left := sliceTo expr i; op := o;
                       right := sliceFrom expr (i + length o) |}
           | None => splitCompareFrom expr (i + 1) depth inQ rest1
           end
  end.

Definition splitCompareTopLevel (expr : text) : option CompareSplit :=
  splitCompareFrom expr 0 0 false expr.

(** [isQuotedOperandOk(op)] *)
Definition isQuotedOperandOk (o : text) : bool :=
  let t := trim (stripOuterParens o) in
  if negb (startsWith0 t (str "'")) then true else endsWith t (str "'").

(* ================================================================== *)
(** ** Regular expressions of the validators *)
(* ================================================================== *)

Module Re.

(** A literal at the start of [s]; the result is the text after it. *)
Fixpoint lit (eq : ascii -> ascii -> bool) (pat s : text) : option text :=
  match pat with
  | [] => Some s
  | p :: pat' =>
      match s with
      | c :: s' => if eq p c then lit eq pat' s' else None
      | [] => None
      end
  end.

(** [\s*] and [\s+]; both are greedy, and none of the patterns below can
    succeed after giving a blank back. *)
Definition spaces0 (s : text) : text := dropWhile isSpace s.
Definition spaces1 (s : text) : option text :=
  match s with
  | c :: s' => if isSpace c then Some (dropWhile isSpace s') else None
  | [] => None
  end.

(** [\b] right after a word character: the text ends or goes on with a
    character that is not a word character. *)
Definition wordEnd (s : text) : bool :=
  match s with
  | [] => true
  | c :: _ => negb (isWordChar c)
  end.

(** [([A-Za-z_][A-Za-z0-9_]* )]: the identifier and the text after it. *)
Definition ident (s : text) : option (text * text) :=
  match s with
  | c :: s' =>
      if isIdentStart c
      then Some (c :: takeWhile isWordChar s', dropWhile isWordChar s')
      else None
  | [] => None
  end.

(** [^\s*@Kw\b] with the [i] flag; the result is the text after the match. *)
Definition keywordRest (kw : string) (t : text) : option text :=
  match lit eqci (str kw) (spaces0 t) with
  | Some r => if wordEnd r then Some r else None
  | None => None
  end.

(** [^\s*@Kw1\s+Kw2\b] with the [i] flag. *)
Definition keyword2Rest (kw1 kw2 : string) (t : text) : option text :=
  match lit eqci (str kw1) (spaces0 t) with
  | Some r =>
      match spaces1 r with
      | Some r1 =>
          match lit eqci (str kw2) r1 with
          | Some r2 => if wordEnd r2 then Some r2 else None
          | None => None
          end
      | None => None
      end
  | None => None
  end.

Definition test {A} (m : option A) : bool :=
  match m with Some _ => true | None => false end.

(** [/^\s*@If\b/i] and its relatives. *)
Definition ifRe (t : text) : option text := keywordRest "@If" t.
Definition elseIfRe (t : text) : option text := keyword2Rest "@Else" "If" t.
Definition endIfRe (t : text) : bool := test (keyword2Rest "@End" "If" t).
Definition thenStartRe (t : text) : bool := test (keywordRest "@Then" t).
Definition forRe (t : text) : bool := test (keywordRest "@For" t).
Definition endForRe (t : text) : bool := test (keyword2Rest "@End" "For" t).
(** [fnStartRe] and [fnEndRe] *)
Definition fnStartRe (t : text) : bool := test (keywordRest "@Function" t).
Definition fnEndRe (t : text) : bool := test (keyword2Rest "@End" "Function" t).

(** [/@Then\b/i.test(text)]: a match anywhere in the line. *)
Fixpoint thenAnywhereRe (t : text) : bool :=
  match lit eqci (str "@Then") t with
  | Some r =>
      if wordEnd r then true
      else match t with [] => false | _ :: t' => thenAnywhereRe t' end
  | None => match t with [] => false | _ :: t' => thenAnywhereRe t' end
  end.

(** [s.replace(re, '')] for an anchored pattern. *)
Definition replaceFirst (re : text -> option text) (t : text) : text :=
  match re t with Some r => r | None => t end.

(** [fnNameRe]: [/^\s*@Function\s+([A-Za-z_][A-Za-z0-9_]* )\s*(?:\(|$)/i];
    the result is the captured name. *)
Definition fnNameRe (t : text) : option text :=
  match lit eqci (str "@Function") (spaces0 t) with
  | Some r =>
      match spaces1 r with
      | Some r1 =>
          match ident r1 with
          | Some (name, r2) =>
              match spaces0 r2 with
              | [] => Some name
              | c :: _ => if eqc c "("%char then Some name else None
              end
          | None => None
          end
      | None => None
      end
  | None => None
  end.

(** [declRe]: [/^\s*@(String|Int)\s+([A-Za-z_][A-Za-z0-9_]* )\b/i]; the
    result is the captured name. *)
Definition declAfterType (r : text) : option text :=
  match spaces1 r with
  | Some r1 =>
      match ident r1 with
      | Some (name, _) => Some name
      | None => None
      end
  | None => None
  end.

Definition declRe (t : text) : option text :=
  match lit eqci (str "@") (spaces0 t) with
  | Some r =>
      match lit eqci (str "String") r with
      | Some r1 =>
          match declAfterType r1 with
          | Some name => Some name
          | None =>
              match lit eqci (str "Int") r with
              | Some r2 => declAfterType r2
              | None => None
              end
          end
      | None =>
          match lit eqci (str "Int") r with
          | Some r2 => declAfterType r2
          | None => None
          end
      end
  | None => None
  end.

(** One match of a pattern with one capture: the whole match [m[0]] and
    the capture [m[1]]. *)
Record Match := mkMatch { whole : text; capture : text }.

(** [setUseRe] at the start of [s]:
    [/@Set\s+([A-Za-z_][A-Za-z0-9_]* )\b/]. *)
Definition setUseAt (s : text) : option Match :=
  match lit eqc (str "@Set") s with
  | Some r =>
      match spaces1 r with
      | Some r1 =>
          match ident r1 with
          | Some (name, r2) =>
              Some {| whole := firstn (length s - length r2) s; capture := name |}
          | None => None
          end
      | None => None
      end
  | None => None
  end.

(** [getUseRe] at the start of [s]:
    [/@Get\(\s*([A-Za-z_][A-Za-z0-9_]* )\s*\)/]. *)
Definition getUseAt (s : text) : option Match :=
  match lit eqc (str "@Get(") s with
  | Some r =>
      match ident (spaces0 r) with
      | Some (name, r2) =>
          match spaces0 r2 with
          | c :: r3 =>
              if eqc c ")"%char
              then Some {| whole := firstn (length s - length r3) s; capture := name |}
              else None
          | [] => None
          end
      | None => None
      end
  | None => None
  end.

(** The [for (let m; (m = re.exec(text)); )] loop of a pattern with the
    [g] flag: every match with its index [m.index], from left to right,
    the search resuming right after each match.  [skip] counts the
    characters of the last match still to be passed. *)
Fixpoint execAll (at_ : text -> option Match) (s : text) (pos skip : nat)
  : list (nat * Match) :=
  match s with
  | [] => []
  | _ :: s' =>
      match skip with
      | S k => execAll at_ s' (pos + 1) k
      | 0 =>
          match at_ s with
          | Some m => (pos, m) :: execAll at_ s' (pos + 1) (length (whole m) - 1)
          | None => execAll at_ s' (pos + 1) 0
          end
      end
  end.

(** [s.lastIndexOf(pat)] *)
Fixpoint lastIndexOfFrom (pat s : text) (i : nat) (found : option nat) : option nat :=
  let found' := if prefixBy eqc pat s then Some i else found in
  match s with
  | [] => found'
  | _ :: s' => lastIndexOfFrom pat s' (S i) found'
  end.
Definition lastIndexOf (s pat : text) : option nat := lastIndexOfFrom pat s 0 None.

End Re.

(* ================================================================== *)
(** ** Documents and diagnostics *)
(* ================================================================== *)

(** The part of the host's document model the validators read. *)
Record TextDocument := mkDocument { languageId : text; lines : list text }.

Definition lineCount (doc : TextDocument) : nat := length (lines doc).

(** [doc.lineAt(line).text] *)
Definition lineAt (doc : TextDocument) (line : nat) : text := nth line (lines doc) [].

Definition abl (ls : list text) : TextDocument :=
  {| languageId := str "abl"; lines := ls |}.

Definition isAbl (doc : TextDocument) : bool :=
  bool_decide (languageId doc = str "abl").

Inductive Severity := Error.

(** [new vscode.Diagnostic(new vscode.Range(line, start, line, end), message,
    severity)] *)
Record Diagnostic := mkDiagnostic {
  d_line : nat;
  d_start : nat;
  d_end : nat;
  d_message : text;
  d_severity : Severity
}.

Definition msgThenMissing : text := str "@If / @Else If 문에 @Then 이 없습니다.".
Definition msgUnterminated : text := str "비교 항의 문자열(')이 닫히지 않았습니다.".
Definition msgEndIfUnmatched : text := str "@End If 에 대응되는 @If 가 없습니다.".
Definition msgEndFunctionUnmatched : text :=
  str "@End Function 에 대응되는 @Function 이 없습니다.".
Definition msgIfUnclosed : text := str "@If 에 대응되는 @End If 가 없습니다.".
Definition msgFunctionUnclosed : text :=
  str "@Function 에 대응되는 @End Function 이 없습니다.".
Definition msgEndForUnmatched : text := str "@End For 에 대응되는 @For 가 없습니다.".
Definition msgForUnclosed : text := str "@For 에 대응되는 @End For 가 없습니다.".
Definition msgUndeclaredGlobal : text := str "전역 영역에서 선언되지 않은 변수입니다: ".
Definition msgUndeclaredLocal : text :=
  str "Function/전역 어디에도 선언되지 않은 변수입니다: ".

(** A diagnostic over the whole line. *)
Definition lineDiagnostic (doc : TextDocument) (line : nat) (msg : text) : Diagnostic :=
  {| d_line := line; d_start := 0; d_end := length (lineAt doc line);
     d_message := msg; d_severity := Error |}.

(** [!raw.trim()] *)
Definition isBlankLine (raw : text) : bool :=
  match trim raw with [] => true | _ :: _ => false end.

(* ================================================================== *)
(** ** If, Function and For validators *)
(* ================================================================== *)

(** [hasThenNearNextLine(doc, fromLine)]: the loop over
    [fromLine + 1 <= i < min(lineCount, fromLine + 3)]. *)
Fixpoint hasThenLoop (doc : TextDocument) (idxs : list nat) : bool :=
  match idxs with
  | [] => false
  | i :: idxs' =>
      let raw := lineAt doc i in
      if isBlankLine raw then hasThenLoop doc idxs'
      else if isCommentLine raw then hasThenLoop doc idxs'
      else Re.thenStartRe raw
  end.

Definition hasThenNearNextLine (doc : TextDocument) (fromLine : nat) : bool :=
  hasThenLoop doc
    (seq (fromLine + 1) (Nat.min (lineCount doc) (fromLine + 3) - (fromLine + 1))).

(** The condition text of an [@If] line: everything before [@Then], without
    the leading keyword. *)
Definition conditionText (t : text) : text :=
  let condAll :=
    match indexOf (toLowerCase t) (str "@then") with
    | Some thenIdx => sliceTo t thenIdx
    | None => t
    end in
  Re.replaceFirst Re.elseIfRe (Re.replaceFirst Re.ifRe condAll).

(** A fragment whose comparison has an operand that opens a quote and does
    not close it. *)
Definition badComparison (p : text) : bool :=
  match splitCompareTopLevel p with
  | None => false
  | Some cmp => negb (isQuotedOperandOk (left cmp)) || negb (isQuotedOperandOk (right cmp))
  end.

(** The state of the loop of [provideIfDiagnostics].  The stacks are arrays:
    [push] appends, [pop] removes the last element. *)
Record IfState := mkIfState {
  diagnostics : list Diagnostic;
  ifStack : list nat;
  funcStack : list nat
}.

Definition pushDiag (st : IfState) (d : Diagnostic) : IfState :=
  {| diagnostics := diagnostics st ++ [d]; ifStack := ifStack st; funcStack := funcStack st |}.

(** The body of the loop of [provideIfDiagnostics] at one line. *)
Definition ifLine (doc : TextDocument) (st : IfState) (line : nat) : IfState :=
  let t := lineAt doc line in
  if isCommentLine t then st
  else
    let isIf := Re.test (Re.ifRe t) in
    let isElseIf := Re.test (Re.elseIfRe t) in
    if isIf || isElseIf then
      let hasThenSameLine := Re.thenAnywhereRe t in
      let hasThen := if hasThenSameLine then true else hasThenNearNextLine doc line in
      let st1 := if negb hasThen then pushDiag st (lineDiagnostic doc line msgThenMissing)
                 else st in
      let parts := splitByAndOrTopLevel (conditionText t) in
      let st2 := if existsb badComparison parts
                 then pushDiag st1 (lineDiagnostic doc line msgUnterminated)
                 else st1 in
      if isIf
      then {| diagnostics := diagnostics st2; ifStack := ifStack st2 ++ [line];
              funcStack := funcStack st2 |}
      else st2
    else
      let st1 :=
        if Re.endIfRe t then
          match ifStack st with
          | [] => pushDiag st (lineDiagnostic doc line msgEndIfUnmatched)
          | _ :: _ => {| diagnostics := diagnostics st; ifStack := removelast (ifStack st);
                         funcStack := funcStack st |}
          end
        else st in
      if Re.fnStartRe t
      then {| diagnostics := diagnostics st1; ifStack := ifStack st1;
              funcStack := funcStack st1 ++ [line] |}
      else if Re.fnEndRe t then
        match funcStack st1 with
        | [] => pushDiag st1 (lineDiagnostic doc line msgEndFunctionUnmatched)
        | _ :: _ => {| diagnostics := diagnostics st1; ifStack := ifStack st1;
                       funcStack := removelast (funcStack st1) |}
        end
      else st1.

(** The state of the loop of [provideForDiagnostics]. *)
Record ForState := mkForState { forDiagnostics : list Diagnostic; forStack : list nat }.

Definition forLine (doc : TextDocument) (st : ForState) (line : nat) : ForState :=
  let t := lineAt doc line in
  if isCommentLine t then st
  else if Re.forRe t
  then {| forDiagnostics := forDiagnostics st; forStack := forStack st ++ [line] |}
  else if Re.endForRe t then
    match forStack st with
    | [] => {| forDiagnostics := forDiagnostics st ++ [lineDiagnostic doc line msgEndForUnmatched];
               forStack := [] |}
    | _ :: _ => {| forDiagnostics := forDiagnostics st; forStack := removelast (forStack st) |}
    end
  else st.

(** [provideForDiagnostics(doc, diagnostics)]; the result is the array
    [diagnostics] after the call. *)
Definition provideForDiagnostics (doc : TextDocument) (ds : list Diagnostic)
  : list Diagnostic :=
  let st := fold_left (forLine doc) (seq 0 (lineCount doc))
              {| forDiagnostics := ds; forStack := [] |} in
  forDiagnostics st
  ++ map (fun line => lineDiagnostic doc line msgForUnclosed) (forStack st).

(** [provideIfDiagnostics(doc)]; the result is the list handed to the
    diagnostic collection, [None] when the function returns without
    touching the collection. *)
Definition provideIfDiagnostics (doc : TextDocument) : option (list Diagnostic) :=
  if negb (isAbl doc) then None
  else
    let st := fold_left (ifLine doc) (seq 0 (lineCount doc))
                {| diagnostics := []; ifStack := []; funcStack := [] |} in
    let ds := diagnostics st
              ++ map (fun line => lineDiagnostic doc line msgIfUnclosed) (ifStack st)
              ++ map (fun line => lineDiagnostic doc line msgFunctionUnclosed) (funcStack st) in
    Some (provideForDiagnostics doc ds).

(* ================================================================== *)
(** ** Function membership of the lines *)
(* ================================================================== *)

(** [buildFuncLineMap(doc)]: for every line the index of the function it
    belongs to, [-1] outside every function.  The loop state is [funcIdx]
    and [inFunc]. *)
Fixpoint funcLineLoop (ls : list text) (funcIdx : Z) (inFunc : bool) : list Z :=
  match ls with
  | [] => []
  | raw :: rest =>
      if Re.fnStartRe raw
      then (funcIdx + 1)%Z :: funcLineLoop rest (funcIdx + 1)%Z true
      else (if inFunc then funcIdx else (-1)%Z)
           :: funcLineLoop rest funcIdx (if Re.fnEndRe raw then false else inFunc)
  end.

Definition buildFuncLineMap (doc : TextDocument) : list Z :=
  funcLineLoop (lines doc) (-1)%Z false.

(** [buildFuncNameMap(doc)]: the declared name of each function that has
    one. *)
Fixpoint funcNameLoop (ls : list text) (funcIdx : Z) (m : gmap Z text) : gmap Z text :=
  match ls with
  | [] => m
  | raw :: rest =>
      if Re.fnStartRe raw
      then funcNameLoop rest (funcIdx + 1)%Z
             match Re.fnNameRe raw with
             | Some name => <[(funcIdx + 1)%Z := name]> m
             | None => m
             end
      else funcNameLoop rest funcIdx m
  end.

Definition buildFuncNameMap (doc : TextDocument) : gmap Z text :=
  funcNameLoop (lines doc) (-1)%Z ∅.

(* ================================================================== *)
(** ** Declaration and use validator *)
(* ================================================================== *)

(** The state of the walk of [provideUndeclaredVarDiagnostics].  An absent
    entry of [localDeclaredByFunc] stands for the empty set that
    [getLocalSet] creates on first access. *)
Record VarState := mkVarState {
  varDiagnostics : list Diagnostic;
  globalDeclared : gset text;
  localDeclaredByFunc : gmap Z (gset text)
}.

Definition getLocalSet (st : VarState) (funcId : Z) : gset text :=
  default ∅ (localDeclaredByFunc st !! funcId).

Definition addLocal (st : VarState) (funcId : Z) (name : text) : VarState :=
  {| varDiagnostics := varDiagnostics st;
     globalDeclared := globalDeclared st;
     localDeclaredByFunc :=
       <[funcId := {[name]} ∪ getLocalSet st funcId]> (localDeclaredByFunc st) |}.

Definition addGlobal (st : VarState) (name : text) : VarState :=
  {| varDiagnostics := varDiagnostics st;
     globalDeclared := {[name]} ∪ globalDeclared st;
     localDeclaredByFunc := localDeclaredByFunc st |}.

(** [allowedInThisLine(name)] *)
Definition allowedInThisLine (st : VarState) (funcId : Z) (name : text) : bool :=
  if (funcId =? -1)%Z then bool_decide (name ∈ globalDeclared st)
  else bool_decide (name ∈ getLocalSet st funcId) || bool_decide (name ∈ globalDeclared st).

(** Where the name of a match starts: [m.index + m[0].lastIndexOf(name)]
    for [@Set], [m.index + m[0].indexOf(name)] for [@Get].  The name is part
    of the match, so the search never fails. *)
Definition setNameStart (pm : nat * Re.Match) : nat :=
  match Re.lastIndexOf (Re.whole (snd pm)) (Re.capture (snd pm)) with
  | Some k => fst pm + k
  | None => fst pm - 1
  end.

Definition getNameStart (pm : nat * Re.Match) : nat :=
  match indexOf (Re.whole (snd pm)) (Re.capture (snd pm)) with
  | Some k => fst pm + k
  | None => fst pm - 1
  end.

(** The [@Set x] and [@Get(x)] uses of a masked line, each with the column
    where the diagnostic for it starts, in the order of the two loops. *)
Definition usesOf (t : text) : list (text * nat) :=
  map (fun pm => (Re.capture (snd pm), setNameStart pm)) (Re.execAll Re.setUseAt t 0 0)
  ++ map (fun pm => (Re.capture (snd pm), getNameStart pm)) (Re.execAll Re.getUseAt t 0 0).

Definition undeclaredDiagnostic (line : nat) (funcId : Z) (use : text * nat) : Diagnostic :=
  {| d_line := line; d_start := snd use; d_end := snd use + length (fst use);
     d_message := (if (funcId =? -1)%Z then msgUndeclaredGlobal else msgUndeclaredLocal)
                  ++ fst use;
     d_severity := Error |}.

(** The diagnostics of the use checks of one line. *)
Definition useDiagnostics (st : VarState) (line : nat) (funcId : Z) (t : text)
  : list Diagnostic :=
  map (undeclaredDiagnostic line funcId)
    (List.filter (fun use => negb (allowedInThisLine st funcId (fst use))) (usesOf t)).

(** The body of the loop of [provideUndeclaredVarDiagnostics] at one line. *)
Definition varLine (doc : TextDocument) (lineToFunc : list Z) (st : VarState) (line : nat)
  : VarState :=
  let raw := lineAt doc line in
  if isBlankLine raw then st
  else if isCommentLine2 raw then st
  else
    let funcId := nth line lineToFunc (-1)%Z in
    let t := stripSingleQuoted2 raw in
    match Re.fnNameRe t with
    | Some funcName =>
        if negb (funcId =? -1)%Z then addLocal st funcId funcName else st
    | None =>
        match Re.declRe t with
        | Some varName =>
            if (funcId =? -1)%Z then addGlobal st varName else addLocal st funcId varName
        | None =>
            {| varDiagnostics := varDiagnostics st ++ useDiagnostics st line funcId t;
               globalDeclared := globalDeclared st;
               localDeclaredByFunc := localDeclaredByFunc st |}
        end
    end.

Definition varWalk (doc : TextDocument) (n : nat) : VarState :=
  fold_left (varLine doc (buildFuncLineMap doc)) (seq 0 n)
    {| varDiagnostics := []; globalDeclared := ∅; localDeclaredByFunc := ∅ |}.

(** [provideUndeclaredVarDiagnostics(doc)]; the result is the list handed to
    the diagnostic collection, [None] when the function returns without
    touching the collection. *)
Definition provideUndeclaredVarDiagnostics (doc : TextDocument) : option (list Diagnostic) :=
  if negb (isAbl doc) then None
  else Some (varDiagnostics (varWalk doc (lineCount doc))).

(* ================================================================== *)
(** ** Semantic tokens *)
(* ================================================================== *)

(** The token types of the legend. *)
Inductive TokenKind :=
| ablMap | ablFunc | ablLogic | ablData
| ablFunctionDecl | ablFunctionEnd | ablFunctionCall | ablReturn.

(** The kinds a call frame can have. *)
Inductive CtxKind := ctxMap | ctxFunc | ctxFunctionCall.

Definition tokenKindOf (k : CtxKind) : TokenKind :=
  match k with
  | ctxMap => ablMap
  | ctxFunc => ablFunc
  | ctxFunctionCall => ablFunctionCall
  end.

Record Frame := mkFrame { kind : CtxKind; depth : nat }.

(** One call of [pushToken]: the builder receives the position of
    [baseOffset + i], which is column [i] of the line, the length and the
    kind. *)
Record Token := mkToken {
  t_line : nat;
  t_char : nat;
  t_length : nat;
  t_kind : TokenKind
}.

Inductive BuiltinKind := builtin | writer.

Definition FUNCTION_META : list (string * BuiltinKind) :=
  [ ("Get", builtin); ("Set", builtin); ("UpperCase", builtin); ("LowerCase", builtin);
    ("SubString", builtin); ("Replace", builtin); ("Length", builtin); ("LengthB", builtin);
    ("Pos", builtin); ("FilePath", builtin); ("Trim", builtin); ("Naming", builtin);
    ("SysDateTime", builtin); ("GetTabSpace", builtin); ("GetSpace", builtin);
    ("GetTokenSpace", builtin); ("Prespace", builtin); ("Pretab", builtin);
    ("Space", builtin);
    ("SetQueryClear", builtin); ("SetQueryAdd", builtin);
    ("GetSelectQueryResult", builtin); ("QueryExecution", builtin);
    ("QueryResultToMap", builtin);
    ("Data", writer); ("Base", writer); ("AddLine", writer); ("InsertLine", writer);
    ("AddLinePrespace", writer); ("InsertLinePrespace", writer);
    ("GenerationCreateFile", builtin); ("Tobe_File_Path", builtin);
    ("Tobe_File_Name", builtin) ]%string.

Definition isWriter (k : BuiltinKind) : bool :=
  match k with writer => true | builtin => false end.

Definition WRITER_KEYWORDS : list text :=
  map (fun f => str (fst f)) (List.filter (fun f => isWriter (snd f)) FUNCTION_META).

Definition BUILTIN_FUNCTIONS : list text :=
  map (fun f => str (fst f)) (List.filter (fun f => negb (isWriter (snd f))) FUNCTION_META).

Definition AT_CONTROL_WORDS : list text :=
  [str "If"; str "Then"; str "Else"; str "For"; str "End"; str "Break"; str "Continue";
   str "Function"].

(** [set.has(name)] *)
Definition has (set : list text) (name : text) : bool :=
  existsb (fun x => bool_decide (x = name)) set.

(** The patterns of the classifier. *)
Module TokenRe.

(** [/@Function\s+([A-Za-z_][A-Za-z0-9_]* )/] at the start of [s]. *)
Definition functionDeclAt (s : text) : option Re.Match :=
  match Re.lit eqc (str "@Function") s with
  | Some r =>
      match Re.spaces1 r with
      | Some r1 =>
          match Re.ident r1 with
          | Some (name, r2) =>
              Some {| Re.whole := firstn (length s - length r2) s; Re.capture := name |}
          | None => None
          end
      | None => None
      end
  | None => None
  end.

(** [re.exec(s)] for a pattern without flags: the leftmost match. *)
Fixpoint execFirst (at_ : text -> option Re.Match) (s : text) : option Re.Match :=
  match at_ s with
  | Some m => Some m
  | None => match s with [] => None | _ :: s' => execFirst at_ s' end
  end.

(** [/\s+If\b/.test(w)] *)
Fixpoint spacesIfRe (w : text) : bool :=
  match w with
  | [] => false
  | _ :: w' =>
      match Re.spaces1 w with
      | Some r =>
          match Re.lit eqc (str "If") r with
          | Some r2 => if Re.wordEnd r2 then true else spacesIfRe w'
          | None => spacesIfRe w'
          end
      | None => spacesIfRe w'
      end
  end.

(** The sticky pattern [/@Map\.(Get|Set|Clear)@?/y] at the start of [s]; the
    result is the length of the match. *)
Definition mapNameAt (s : text) : option nat :=
  match Re.lit eqc (str "@Map.") s with
  | Some r =>
      let after (r1 : text) : nat :=
        length s - length r1
        + match r1 with c :: _ => if eqc c "@"%char then 1 else 0 | [] => 0 end in
      match Re.lit eqc (str "Get") r with
      | Some r1 => Some (after r1)
      | None =>
          match Re.lit eqc (str "Set") r with
          | Some r1 => Some (after r1)
          | None =>
              match Re.lit eqc (str "Clear") r with
              | Some r1 => Some (after r1)
              | None => None
              end
          end
      end
  | None => None
  end.

(** [/^@([A-Za-z_][A-Za-z0-9_]* )/]; the result is the captured name. *)
Definition atNameRe (s : text) : option text :=
  match s with
  | c :: r =>
      if eqc c "@"%char
      then match Re.ident r with Some (name, _) => Some name | None => None end
      else None
  | [] => None
  end.

End TokenRe.

(** [while (j < lineText.length && p(lineText[j])) j++] *)
Definition skipWhile (p : ascii -> bool) (line : text) (j : nat) : nat :=
  j + length (takeWhile p (skipn j line)).

(** [while (j < lineText.length && lineText[j] !== ']') j++] *)
Definition notCloseBracket (c : ascii) : bool := negb (eqc c "]"%char).

(** [getCallParenIndex(lineText, startAt, nameLen)] *)
Definition getCallParenIndex (line : text) (startAt nameLen : nat) : option nat :=
  let j := startAt + 1 + nameLen in
  let j := if (j <? length line) && optIs (charAt line j) "@"%char then j + 1 else j in
  let j := skipWhile isSpace line j in
  if (j <? length line) && optIs (charAt line j) "("%char then Some j else None.

(** The state of the scan of one line. *)
Record LineState := mkLineState {
  stack : list Frame;       (* the innermost frame first *)
  ifMode : bool;
  ifParenDepth : nat;
  inSingleQuote : bool
}.

Definition initialLineState : LineState :=
  {| stack := []; ifMode := false; ifParenDepth := 0; inSingleQuote := false |}.

Definition pushFrame (st : LineState) (k : CtxKind) : LineState :=
  {| stack := {| kind := k; depth := 1 |} :: stack st; ifMode := ifMode st;
     ifParenDepth := ifParenDepth st; inSingleQuote := inSingleQuote st |}.

Definition setIf (st : LineState) (mode : bool) (d : nat) : LineState :=
  {| stack := stack st; ifMode := mode; ifParenDepth := d;
     inSingleQuote := inSingleQuote st |}.

(** The tokens of [@Function] and [@End Function] at index [i].  The name
    is looked up with a search in the rest of the line, and placed at [i]
    plus its first occurrence in the match. *)
Definition declTokens (line : text) (lineNo i : nat) : list Token :=
  (if startsWith line (str "@Function") i && isWordBoundary line i 9
   then {| t_line := lineNo; t_char := i; t_length := 9; t_kind := ablFunctionDecl |}
        :: match TokenRe.execFirst TokenRe.functionDeclAt (sliceFrom line i) with
           | Some mm =>
               let fn := Re.capture mm in
               let fnPos := match indexOf (Re.whole mm) fn with
                            | Some k => i + k
                            | None => i - 1
                            end in
               [{| t_line := lineNo; t_char := fnPos; t_length := length fn;
                   t_kind := ablReturn |}]
           | None => []
           end
   else [])
  ++ (if startsWith line (str "@End Function") i && isWordBoundary line i 13
      then [{| t_line := lineNo; t_char := i; t_length := 13; t_kind := ablFunctionEnd |}]
      else []).

(** The operator highlight of [+] and [=]. *)
Definition operatorTokens (line : text) (lineNo i : nat) (ch : ascii) : list Token :=
  if eqc ch "+"%char || eqc ch "="%char then
    let prev := prevChar line i in
    let next := if i + 1 <? length line then charAt line (i + 1) else None in
    if (eqc ch "="%char
        && (optIs prev ">"%char || optIs prev "<"%char || optIs prev "!"%char
            || optIs prev "="%char))
       || (eqc ch "="%char && optIs next "="%char)
    then []
    else [{| t_line := lineNo; t_char := i; t_length := 1; t_kind := ablLogic |}]
  else [].

(** The end [j] of a [^Data.*] or [^Class.*] extent that starts at [i]: the
    outer [while (j < lineText.length)] loop, one segment per round. *)
Fixpoint metaExtentLoop (fuel : nat) (line : text) (j : nat) : nat :=
  match fuel with
  | 0 => j
  | S fuel' =>
      match charAt line j with
      | None => j
      | Some c =>
          if eqc c "."%char
          then metaExtentLoop fuel' line (skipWhile isWordChar line (j + 1))
          else if eqc c "["%char
          then let j1 := skipWhile notCloseBracket line (j + 1) in
               let j2 := if (j1 <? length line) && optIs (charAt line j1) "]"%char
                         then j1 + 1 else j1 in
               metaExtentLoop fuel' line j2
          else if eqc c "!"%char then metaExtentLoop fuel' line (j + 1)
          else j
      end
  end.

Definition metaExtentEnd (line : text) (i : nat) : nat :=
  metaExtentLoop (length line) line (skipWhile isWordChar line (i + 1)).

Definition isIfAt (line : text) (i : nat) : bool :=
  startsWith line (str "@If") i && isWordBoundary line i 3.

Definition isElseIfAt (line : text) (i : nat) : bool :=
  startsWith line (str "@Else") i && isWordBoundary line i 5
  && TokenRe.spacesIfRe (slice line (i + 5) (i + 20)).

(** Where the scan goes on after [@If] or [@Else If]: the index of the
    opening parenthesis of the condition when there is one. *)
Definition ifParenIndex (line : text) (i : nat) (isIf : bool) : option nat :=
  let j := if isIf then i + 3 else i + 5 in
  let j := skipWhile isSpace line j in
  let j := if negb isIf && startsWith line (str "If") j then j + 2 else j in
  let j := skipWhile isSpace line j in
  let j := if optIs (charAt line j) "@"%char then j + 1 else j in
  let j := skipWhile isSpace line j in
  if optIs (charAt line j) "("%char then Some j else None.

(** [@Then], or an [@Else] that is not an [@Else If], while in If-mode. *)
Definition leavesIfMode (line : text) (i : nat) (st : LineState) : bool :=
  ifMode st
  && (startsWith line (str "@Then") i || startsWith line (str "@Else") i)
  && isWordBoundary line i 5
  && negb (startsWith line (str "@Else") i
           && TokenRe.spacesIfRe (slice line (i + 5) (i + 20))).

(** The logic operators of a condition: the token and the number of further
    characters the loop passes over. *)
Definition logicToken (line : text) (lineNo i : nat) (ch : ascii) : option (Token * nat) :=
  if startsWith line (str "And") i && isWordBoundary line i 3
  then Some ({| t_line := lineNo; t_char := i; t_length := 3; t_kind := ablLogic |}, 2)
  else if startsWith line (str "Or") i && isWordBoundary line i 2
  then Some ({| t_line := lineNo; t_char := i; t_length := 2; t_kind := ablLogic |}, 1)
  else if startsWith line (str ">=") i || startsWith line (str "<=") i
          || startsWith line (str "<>") i
  then Some ({| t_line := lineNo; t_char := i; t_length := 2; t_kind := ablLogic |}, 1)
  else if eqc ch "="%char || eqc ch ">"%char || eqc ch "<"%char
  then Some ({| t_line := lineNo; t_char := i; t_length := 1; t_kind := ablLogic |}, 0)
  else None.

(** A Map call that opens at [i]: the token and the index of its opening
    parenthesis. *)
Definition mapCall (line : text) (lineNo i : nat) : option (Token * nat) :=
  match TokenRe.mapNameAt (sliceFrom line i) with
  | Some len =>
      let lastIndex := i + len in
      let j := skipWhile isSpace line lastIndex in
      let j := if optIs (charAt line j) "@"%char then j + 1 else j in
      if optIs (charAt line j) "("%char
      then Some ({| t_line := lineNo; t_char := i; t_length := lastIndex - i;
                    t_kind := ablMap |}, j)
      else None
  | None => None
  end.

(** A call [@Something(] that opens at [i]: the token, the kind of the
    frame and the index of the opening parenthesis. *)
Definition genericCall (line : text) (lineNo i : nat) (ch : ascii)
  : option (Token * CtxKind * nat) :=
  if eqc ch "@"%char then
    match TokenRe.atNameRe (sliceFrom line i) with
    | Some name =>
        let afterName := charAt line (i + 1 + length name) in
        if bool_decide (name = str "Map") && optIs afterName "."%char then None
        else if has AT_CONTROL_WORDS name then None
        else if has WRITER_KEYWORDS name then None
        else
          match getCallParenIndex line i (length name) with
          | Some parenIdx =>
              let tokenLen := 1 + length name in
              let tokenLen := if optIs (charAt line (i + tokenLen)) "@"%char
                              then tokenLen + 1 else tokenLen in
              let k := if has BUILTIN_FUNCTIONS name then ctxFunc else ctxFunctionCall in
              Some ({| t_line := lineNo; t_char := i; t_length := tokenLen;
                       t_kind := tokenKindOf k |}, k, parenIdx)
          | None => None
          end
    | None => None
    end
  else None.

(** An [@] inside an open call, attached to its neighbours. *)
Definition innerAtTokens (line : text) (lineNo i : nat) (ch : ascii) (st : LineState)
  : list Token :=
  match stack st with
  | t :: _ =>
      if eqc ch "@"%char then
        let prev := prevChar line i in
        let next := if i + 1 <? length line then charAt line (i + 1) else None in
        let beforePunct := isAttachPunct next in
        let afterPunct := isAttachPunct prev in
        let afterIdent := isIdentChar prev in
        if beforePunct || afterPunct || afterIdent
        then [{| t_line := lineNo; t_char := i; t_length := 1; t_kind := tokenKindOf (kind t) |}]
        else []
      else []
  | [] => []
  end.

(** Depth tracking at the end of a round. *)
Definition trackIfParens (ch : ascii) (st : LineState) : LineState :=
  if 0 <? ifParenDepth st then
    if eqc ch "("%char then setIf st (ifMode st) (ifParenDepth st + 1)
    else if eqc ch ")"%char then
      if ifParenDepth st - 1 =? 0 then setIf st false 0
      else setIf st (ifMode st) (ifParenDepth st - 1)
    else st
  else st.

Definition trackCallParens (ch : ascii) (st : LineState) : LineState :=
  match stack st with
  | t :: below =>
      let withStack (s : list Frame) :=
        {| stack := s; ifMode := ifMode st; ifParenDepth := ifParenDepth st;
           inSingleQuote := inSingleQuote st |} in
      if eqc ch "("%char then withStack ({| kind := kind t; depth := depth t + 1 |} :: below)
      else if eqc ch ")"%char then
        if depth t - 1 =? 0 then withStack below
        else withStack ({| kind := kind t; depth := depth t - 1 |} :: below)
      else st
  | [] => st
  end.

(** One round of the loop over the characters of a line, at index [i] with
    [ch = lineText[i]]: the tokens pushed, the value of [i] when the round
    ends (a [continue] included) and the state. *)
Definition scanAt (line : text) (lineNo i : nat) (ch : ascii) (st : LineState)
  : list Token * nat * LineState :=
  let toks0 := declTokens line lineNo i in
  if eqc ch "^"%char && startsWith line (str "^Data") i
  then (toks0 ++ [{| t_line := lineNo; t_char := i; t_length := 5; t_kind := ablData |}], i, st)
  else if eqc ch "^"%char && startsWith line (str "^Class") i
  then (toks0 ++ [{| t_line := lineNo; t_char := i; t_length := 6; t_kind := ablData |}], i, st)
  else if inSingleQuote st then (toks0, i, st)
  else
    let toks1 := toks0 ++ operatorTokens line lineNo i ch in
    if eqc ch "^"%char
       && (startsWith line (str "^Data") i || startsWith line (str "^Class") i)
    then
      let j := metaExtentEnd line i in
      (toks1 ++ [{| t_line := lineNo; t_char := i; t_length := j - i; t_kind := ablFunc |}],
       j - 1, st)
    else if isIfAt line i || isElseIfAt line i then
      match ifParenIndex line i (isIfAt line i) with
      | Some j => (toks1, j, setIf st true 1)
      | None => (toks1, i, setIf st true 0)
      end
    else if leavesIfMode line i st then (toks1, i, setIf st false 0)
    else
      match (if ifMode st || (0 <? ifParenDepth st) then logicToken line lineNo i ch
             else None) with
      | Some (tok, skip) => (toks1 ++ [tok], i + skip, st)
      | None =>
          match mapCall line lineNo i with
          | Some (tok, j) => (toks1 ++ [tok], j, pushFrame st ctxMap)
          | None =>
              match genericCall line lineNo i ch with
              | Some (tok, k, parenIdx) => (toks1 ++ [tok], parenIdx, pushFrame st k)
              | None =>
                  (toks1 ++ innerAtTokens line lineNo i ch st, i,
                   trackCallParens ch (trackIfParens ch st))
              end
          end
      end.

(** The loop [for (let i = 0; i < lineText.length; i++)].  Every round
    leaves [i] where it was or further right, so [length line] rounds
    always reach the end of the line. *)
Fixpoint scanLoop (fuel : nat) (line : text) (lineNo i : nat) (st : LineState)
  : list Token :=
  match fuel with
  | 0 => []
  | S fuel' =>
      match charAt line i with
      | None => []
      | Some ch =>
          let '(toks, i', st') := scanAt line lineNo i ch st in
          toks ++ scanLoop fuel' line lineNo (i' + 1) st'
      end
  end.

Definition scanLine (line : text) (lineNo : nat) : list Token :=
  scanLoop (length line) line lineNo 0 initialLineState.

(** The [ablReturn] tokens of [@Set <function>] and [@Get(<function>)]
    inside a function that has a name. *)
Definition returnTokens (scanText : text) (lineNo : nat) (currentFuncName : option text)
  : list Token :=
  match currentFuncName with
  | Some fname =>
      map (fun pm => {| t_line := lineNo; t_char := setNameStart pm;
                        t_length := length (Re.capture (snd pm)); t_kind := ablReturn |})
        (List.filter (fun pm => bool_decide (Re.capture (snd pm) = fname))
           (Re.execAll Re.setUseAt scanText 0 0))
      ++ map (fun pm => {| t_line := lineNo; t_char := getNameStart pm;
                           t_length := length (Re.capture (snd pm)); t_kind := ablReturn |})
           (List.filter (fun pm => bool_decide (Re.capture (snd pm) = fname))
              (Re.execAll Re.getUseAt scanText 0 0))
  | None => []
  end.

(** The tokens of one line of [provideTokens]. *)
Definition lineTokens (doc : TextDocument) (lineToFunc : list Z)
    (funcNameById : gmap Z text) (lineNo : nat) : list Token :=
  let lineText := lineAt doc lineNo in
  let funcId := nth lineNo lineToFunc (-1)%Z in
  let currentFuncName := if (0 <=? funcId)%Z then funcNameById !! funcId else None in
  let scanText := stripSingleQuoted2 lineText in
  returnTokens scanText lineNo currentFuncName ++ scanLine lineText lineNo.

(** [provideTokens(doc)]: the tokens in the order in which they are pushed.
    The set [userFunctions] is only written, and is left out. *)
Definition provideTokens (doc : TextDocument) : list Token :=
  flat_map (lineTokens doc (buildFuncLineMap doc) (buildFuncNameMap doc))
    (seq 0 (lineCount doc)).

(* ================================================================== *)
(** ** Formatter *)
(* ================================================================== *)

Module FormatRe.

(** [/^@Then\b/i] at the start of [s]. *)
Definition atThen (s : text) : bool :=
  match Re.lit eqci (str "@Then") s with
  | Some r => Re.wordEnd r
  | None => false
  end.

(** [/^@If\b/i] *)
Definition ifStart (t : text) : bool :=
  match Re.lit eqci (str "@If") t with
  | Some r => Re.wordEnd r
  | None => false
  end.

(** [If\b] after [\s+]: the rest of [/^@Else\s+If\b/i] behind [@Else]. *)
Definition spacesIf (r : text) : option text :=
  match Re.spaces1 r with
  | Some r1 =>
      match Re.lit eqci (str "If") r1 with
      | Some r2 => if Re.wordEnd r2 then Some r2 else None
      | None => None
      end
  | None => None
  end.

(** [/^@Else\s+If\b/i] *)
Definition elseIfStart (t : text) : bool :=
  match Re.lit eqci (str "@Else") t with
  | Some r => Re.test (spacesIf r)
  | None => false
  end.

(** [/^@(End\s+(If|For|Function)|Else(\s+If)?\b)/i] *)
Definition outdentRe (t : text) : bool :=
  match Re.lit eqci (str "@") t with
  | Some r =>
      match Re.lit eqci (str "End") r with
      | Some r1 =>
          match Re.spaces1 r1 with
          | Some r2 =>
              Re.test (Re.lit eqci (str "If") r2)
              || Re.test (Re.lit eqci (str "For") r2)
              || Re.test (Re.lit eqci (str "Function") r2)
          | None => false
          end
      | None => false
      end
      || match Re.lit eqci (str "Else") r with
         | Some r1 => Re.test (spacesIf r1) || Re.wordEnd r1
         | None => false
         end
  | None => false
  end.

(** The dot of a pattern without the [s] flag: any code unit but a line
    terminator. *)
Definition isLineTerminator (c : ascii) : bool := (code c =? 10) || (code c =? 13).

(** [.*@Then\b] at the start of [t]. *)
Fixpoint dotStarThen (t : text) : bool :=
  atThen t
  || match t with
     | c :: t' => negb (isLineTerminator c) && dotStarThen t'
     | [] => false
     end.

(** [/^@(If\b.*@Then\b|Else\s+If\b.*@Then\b|Else\b|For\b|Function\b)/i] *)
Definition indentRe (t : text) : bool :=
  match Re.lit eqci (str "@") t with
  | Some r =>
      match Re.lit eqci (str "If") r with
      | Some r1 => Re.wordEnd r1 && dotStarThen r1
      | None => false
      end
      || match Re.lit eqci (str "Else") r with
         | Some r1 =>
             match spacesIf r1 with
             | Some r2 => dotStarThen r2
             | None => false
             end
             || Re.wordEnd r1
         | None => false
         end
      || match Re.lit eqci (str "For") r with
         | Some r1 => Re.wordEnd r1
         | None => false
         end
      || match Re.lit eqci (str "Function") r with
         | Some r1 => Re.wordEnd r1
         | None => false
         end
  | None => false
  end.

End FormatRe.

(** The loop of [normalizeThenSpacing] at index [i], with
    [pre = content.slice(0, i)] and [rest = content.slice(i)]: the split of
    the content at the first [@Then] outside quotes.  The test of the
    full-width commercial at is left out: the pattern [/^@Then\b/i] never
    matches at one. *)
Fixpoint findThen (pre rest : text) (inQ : bool) : option (text * text) :=
  match rest with
  | [] => None
  | ch :: rest1 =>
      if eqc ch quote then
        match rest1 with
        | next :: rest2 =>
            if eqc next quote then findThen (pre ++ [ch; next]) rest2 inQ
            else findThen (pre ++ [ch]) rest1 (negb inQ)
        | [] => findThen (pre ++ [ch]) rest1 (negb inQ)
        end
      else if inQ then findThen (pre ++ [ch]) rest1 inQ
      else if eqc ch "@"%char && FormatRe.atThen rest then Some (pre, rest)
      else findThen (pre ++ [ch]) rest1 inQ
  end.

(** [content.slice(0, j + 1)] after the walk of [j] to the left over spaces
    and tabs. *)
Definition dropBlankTail (pre : text) : text :=
  rev (dropWhile isBlankTab (rev pre)).

(** [normalizeThenSpacing(content)] *)
Definition normalizeThenSpacing (content : text) : text :=
  if negb (Re.thenAnywhereRe content) then content
  else match findThen [] content false with
       | Some (pre, after) => dropBlankTail pre ++ space :: after
       | None => content
       end.

(** [vscode.TextEdit.replace(new vscode.Range(line, 0, line, endChar),
    newText)] *)
Record TextEdit := mkTextEdit { e_line : nat; e_endChar : nat; e_newText : text }.

Definition tab : ascii := "009"%char.

(** [desiredLine] of a line that is neither blank nor a comment, at the
    indent level that applies to it. *)
Definition desiredLine (raw : text) (indentLevel : nat) : text :=
  let trimmed := trim raw in
  let expectedIndent := repeat tab indentLevel in
  let currentIndentMatch := takeWhile isBlankTab raw in
  let content := sliceFrom raw (length currentIndentMatch) in
  let normalizedContent :=
    if FormatRe.ifStart trimmed || FormatRe.elseIfStart trimmed
    then normalizeThenSpacing content else content in
  expectedIndent ++ normalizedContent.

(** One round of the loop of [provideDocumentFormattingEdits]: the indent
    level after the line and the edit of the line, if any. *)
Definition formatLine (raw : text) (line indentLevel : nat) : nat * list TextEdit :=
  if isBlankLine raw || isCommentLine raw then (indentLevel, [])
  else
    let trimmed := trim raw in
    let indentLevel :=
      if FormatRe.outdentRe trimmed then indentLevel - 1 else indentLevel in
    let desiredLine := desiredLine raw indentLevel in
    (if FormatRe.indentRe trimmed then indentLevel + 1 else indentLevel,
     if bool_decide (desiredLine = raw) then []
     else [{| e_line := line; e_endChar := length raw; e_newText := desiredLine |}]).

Fixpoint formatLoop (ls : list text) (line indentLevel : nat) : list TextEdit :=
  match ls with
  | [] => []
  | raw :: ls' =>
      snd (formatLine raw line indentLevel)
      ++ formatLoop ls' (S line) (fst (formatLine raw line indentLevel))
  end.

(** [formatterProvider.provideDocumentFormattingEdits(doc)] *)
Definition provideDocumentFormattingEdits (doc : TextDocument) : list TextEdit :=
  if negb (isAbl doc) then [] else formatLoop (lines doc) 0 0.

(* ================================================================== *)
(** ** Sorting *)
(* ================================================================== *)

(** [array.sort(cmp)], with [le a b] standing for [cmp(a, b) <= 0]: the
    sort of the host is stable, and so is the insertion sort that stands
    for it. *)
Fixpoint insertBy {A} (le : A -> A -> bool) (x : A) (l : list A) : list A :=
  match l with
  | [] => [x]
  | y :: l' => if le x y then x :: l else y :: insertBy le x l'
  end.

Definition sortBy {A} (le : A -> A -> bool) (l : list A) : list A :=
  fold_right (insertBy le) [] l.

(* ================================================================== *)
(** ** Folding ranges *)
(* ================================================================== *)

Inductive FoldKind := FoldFunction | FoldIf | FoldFor.

Definition foldKindEq (a b : FoldKind) : bool :=
  match a, b with
  | FoldFunction, FoldFunction | FoldIf, FoldIf | FoldFor, FoldFor => true
  | _, _ => false
  end.

Record FoldFrame := mkFoldFrame { fr_kind : FoldKind; fr_startLine : nat }.

(** [new vscode.FoldingRange(start, end)] *)
Record FoldingRange := mkFoldingRange { r_start : nat; r_end : nat }.

(** The loop [for (let i = stack.length - 1; i >= 0; i--)] of an end
    marker, with its [splice] and [break]: the innermost frame of kind [k]
    is taken out.  The stack is held innermost frame first. *)
Fixpoint spliceLast (k : FoldKind) (stack : list FoldFrame)
  : option (nat * list FoldFrame) :=
  match stack with
  | [] => None
  | f :: below =>
      if foldKindEq (fr_kind f) k then Some (fr_startLine f, below)
      else match spliceLast k below with
           | Some (start, below') => Some (start, f :: below')
           | None => None
           end
  end.

Definition closeFold (k : FoldKind) (line : nat) (st : list FoldFrame * list FoldingRange)
  : list FoldFrame * list FoldingRange :=
  match spliceLast k (fst st) with
  | Some (start, stack') =>
      (stack',
       if start <? line then snd st ++ [{| r_start := start; r_end := line |}] else snd st)
  | None => st
  end.

(** One round of the loop of [provideFoldingRanges]. *)
Definition foldLine (t : text) (line : nat) (st : list FoldFrame * list FoldingRange)
  : list FoldFrame * list FoldingRange :=
  if isBlankLine t then st
  else if isCommentLine t then st
  else if Re.fnStartRe t
  then ({| fr_kind := FoldFunction; fr_startLine := line |} :: fst st, snd st)
  else if Re.test (Re.ifRe t)
  then ({| fr_kind := FoldIf; fr_startLine := line |} :: fst st, snd st)
  else if Re.forRe t
  then ({| fr_kind := FoldFor; fr_startLine := line |} :: fst st, snd st)
  else if Re.fnEndRe t then closeFold FoldFunction line st
  else if Re.endIfRe t then closeFold FoldIf line st
  else if Re.endForRe t then closeFold FoldFor line st
  else st.

Fixpoint foldLoop (ls : list text) (line : nat) (st : list FoldFrame * list FoldingRange)
  : list FoldFrame * list FoldingRange :=
  match ls with
  | [] => st
  | t :: ls' => foldLoop ls' (S line) (foldLine t line st)
  end.

(** The comparator [(a, b) => (a.start - b.start) || (a.end - b.end)] is
    negative or zero. *)
Definition rangeLe (a b : FoldingRange) : bool :=
  (r_start a <? r_start b) || ((r_start a =? r_start b) && (r_end a <=? r_end b)).

Definition sortRanges (l : list FoldingRange) : list FoldingRange := sortBy rangeLe l.

(** [provideFoldingRanges(doc)] *)
Definition provideFoldingRanges (doc : TextDocument) : list FoldingRange :=
  if negb (isAbl doc) then []
  else sortRanges (snd (foldLoop (lines doc) 0 ([], []))).

(* ================================================================== *)
(** ** Function definitions and the outline *)
(* ================================================================== *)

(** [/^\s*@Function\s+([A-Za-z_][A-Za-z0-9_]* )/i], the pattern [re] of
    [findFunctionDefinitions] and [reStart] of [findFunctionBlocks]; the
    result is the captured name. *)
Definition fnDeclRe (t : text) : option text :=
  match Re.lit eqci (str "@Function") (Re.spaces0 t) with
  | Some r =>
      match Re.spaces1 r with
      | Some r1 =>
          match Re.ident r1 with
          | Some (name, _) => Some name
          | None => None
          end
      | None => None
      end
  | None => None
  end.

(** [Math.max(0, text.indexOf(name))] *)
Definition nameIndex (t name : text) : nat :=
  match indexOf t name with Some idx => idx | None => 0 end.

(** [new vscode.Position(line, character)] *)
Record Position := mkPosition { p_line : nat; p_character : nat }.

(** [findFunctionDefinitions(doc)]: the map from a function name to the
    position of the name, a later [map.set] replacing an earlier one. *)
Definition definitionStep (m : gmap text Position) (it : nat * text) : gmap text Position :=
  match fnDeclRe (snd it) with
  | Some name =>
      <[name := {| p_line := fst it; p_character := nameIndex (snd it) name |}]> m
  | None => m
  end.

Definition findFunctionDefinitions (doc : TextDocument) : gmap text Position :=
  fold_left definitionStep (combine (seq 0 (lineCount doc)) (lines doc)) ∅.

(** [new vscode.Range(startLine, startChar, endLine, endChar)] *)
Record Range := mkRange {
  rg_startLine : nat;
  rg_startChar : nat;
  rg_endLine : nat;
  rg_endChar : nat
}.

Record FuncFrame := mkFuncFrame {
  ff_name : text;
  ff_startLine : nat;
  ff_nameRange : Range
}.

Record FuncBlock := mkFuncBlock {
  b_name : text;
  b_range : Range;
  b_selectionRange : Range
}.

Definition nameRangeOf (t name : text) (line : nat) : Range :=
  let nameStart := nameIndex t name in
  let nameEnd := nameStart + length name in
  {| rg_startLine := line; rg_startChar := nameStart;
     rg_endLine := line; rg_endChar := nameEnd |}.

(** The block of a frame that ends on line [endLine] with text
    [endLineText]. *)
Definition blockOf (frame : FuncFrame) (endLine : nat) (endLineText : text) : FuncBlock :=
  {| b_name := ff_name frame;
     b_range := {| rg_startLine := ff_startLine frame; rg_startChar := 0;
                   rg_endLine := endLine; rg_endChar := length endLineText |};
     b_selectionRange := ff_nameRange frame |}.

(** One round of the first loop of [findFunctionBlocks]; the stack is held
    innermost frame first. *)
Definition blockLine (t : text) (line : nat) (st : list FuncFrame * list FuncBlock)
  : list FuncFrame * list FuncBlock :=
  if isBlankLine t then st
  else if isCommentLine t then st
  else
    match fnDeclRe t with
    | Some name =>
        ({| ff_name := name; ff_startLine := line; ff_nameRange := nameRangeOf t name line |}
         :: fst st, snd st)
    | None =>
        if Re.fnEndRe t then
          match fst st with
          | frame :: below => (below, snd st ++ [blockOf frame line t])
          | [] => st
          end
        else st
    end.

Fixpoint blockLoop (ls : list text) (line : nat) (st : list FuncFrame * list FuncBlock)
  : list FuncFrame * list FuncBlock :=
  match ls with
  | [] => st
  | t :: ls' => blockLoop ls' (S line) (blockLine t line st)
  end.

(** The comparator of the final sort of the blocks, by start position, is
    negative or zero. *)
Definition blockLe (a b : FuncBlock) : bool :=
  (rg_startLine (b_range a) <? rg_startLine (b_range b))
  || ((rg_startLine (b_range a) =? rg_startLine (b_range b))
      && (rg_startChar (b_range a) <=? rg_startChar (b_range b))).

(** [findFunctionBlocks(doc)]: the blocks closed by an [@End Function],
    then one block to the end of the document for each frame left on the
    stack, innermost first, all sorted by start position. *)
Definition findFunctionBlocks (doc : TextDocument) : list FuncBlock :=
  let st := blockLoop (lines doc) 0 ([], []) in
  let lastLine := lineCount doc - 1 in
  let lastText := lineAt doc lastLine in
  sortBy blockLe (snd st ++ map (fun frame => blockOf frame lastLine lastText) (fst st)).

(** [new vscode.DocumentSymbol(name, detail, kind, range, selectionRange)]
    of kind [Function]. *)
Record DocumentSymbol := mkDocumentSymbol {
  s_name : text;
  s_detail : text;
  s_range : Range;
  s_selectionRange : Range
}.

(** [documentSymbolProvider.provideDocumentSymbols(doc)] *)
Definition provideDocumentSymbols (doc : TextDocument) : list DocumentSymbol :=
  if negb (isAbl doc) then []
  else map (fun b => {| s_name := b_name b; s_detail := str "@Function";
                        s_range := b_range b; s_selectionRange := b_selectionRange b |})
         (findFunctionBlocks doc).

(* ================================================================== *)
(** ** References and rename *)
(* ================================================================== *)

(** [isSimpleIdent(s)]: [/^[A-Za-z_][A-Za-z0-9_]*$/]. *)
Definition isSimpleIdent (s : text) : bool :=
  match s with
  | c :: s' => isIdentStart c && forallb isWordChar s'
  | [] => false
  end.

(** The pattern [new RegExp(`@${name}(?:@)?\\s*\\(`, 'g')] at the start of
    [s], for a name that is an identifier (the name then stands for itself
    in the pattern). *)
Definition callAt (name s : text) : option Re.Match :=
  match Re.lit eqc ("@"%char :: name) s with
  | Some r =>
      let r1 := match r with
                | c :: r' => if eqc c "@"%char then r' else r
                | [] => r
                end in
      match Re.spaces0 r1 with
      | c :: r2 =>
          if eqc c "("%char
          then Some {| Re.whole := firstn (length s - length r2) s; Re.capture := [] |}
          else None
      | [] => None
      end
  | None => None
  end.

(** The pattern [new RegExp(`^\\s*@Function\\s+${name}\\b`, 'i')], for a
    name that is an identifier. *)
Definition declOf (name t : text) : bool :=
  match Re.lit eqci (str "@Function") (Re.spaces0 t) with
  | Some r =>
      match Re.spaces1 r with
      | Some r1 =>
          match Re.lit eqci name r1 with
          | Some r2 => Re.wordEnd r2
          | None => false
          end
      | None => false
      end
  | None => false
  end.

(** A range within one line: [new vscode.Range(line, start, line, end)]. *)
Record LineRange := mkLineRange { lr_line : nat; lr_start : nat; lr_end : nat }.

(** The body of the [while] loop of [findFunctionReferences] for the match
    at index [start]. *)
Definition referenceAt (targetName t : text) (line start : nat) : list LineRange :=
  let afterNameIdx := start + 1 + length targetName in
  let afterNameChar := if afterNameIdx <? length t then charAt t afterNameIdx else None in
  if bool_decide (targetName = str "Map") && optIs afterNameChar "."%char then []
  else
    let tokenLen := 1 + length targetName in
    let tokenLen := if optIs afterNameChar "@"%char then tokenLen + 1 else tokenLen in
    [{| lr_line := line; lr_start := start; lr_end := start + tokenLen |}].

(** [findFunctionReferences(doc, targetName)]: the ranges of the locations. *)
Definition findFunctionReferences (doc : TextDocument) (targetName : text) : list LineRange :=
  flat_map (fun it : nat * text =>
              let (line, t) := it in
              if isBlankLine t then []
              else if isCommentLine t then []
              else if declOf targetName t then []
              else flat_map (fun pm : nat * Re.Match => referenceAt targetName t line (fst pm))
                     (Re.execAll (callAt targetName) t 0 0))
    (combine (seq 0 (lineCount doc)) (lines doc)).

(** [collectRenameRanges(doc, name)] *)
Definition collectRenameRanges (doc : TextDocument) (name : text) : list LineRange :=
  flat_map (fun it : nat * text =>
              let (line, t) := it in
              if declOf name t then
                match indexOf t name with
                | Some idx => [{| lr_line := line; lr_start := idx;
                                  lr_end := idx + length name |}]
                | None => []
                end
              else [])
    (combine (seq 0 (lineCount doc)) (lines doc))
  ++ flat_map (fun it : nat * text =>
                 let (line, t) := it in
                 if isBlankLine t then []
                 else if isCommentLine t then []
                 else map (fun pm : nat * Re.Match =>
                             {| lr_line := line; lr_start := fst pm + 1;
                                lr_end := fst pm + 1 + length name |})
                        (Re.execAll (callAt name) t 0 0))
       (combine (seq 0 (lineCount doc)) (lines doc)).

(* ================================================================== *)
(** ** The caret token under the cursor *)
(* ================================================================== *)

(** [/[A-Za-z]/.test(ch)], [ch] possibly undefined. *)
Definition optLetter (c : option ascii) : bool :=
  match c with Some x => isUpper x || isLower x | None => false end.

(** Step 3 of [extractCaretTokenAt]: the scan of the path from index [i],
    with [rest = lineText.slice(i)]; the result is the index where the loop
    stops. *)
Fixpoint caretPathEnd (rest : text) (i bracketDepth : nat) : nat :=
  match rest with
  | [] => i
  | ch :: rest' =>
      if 0 <? bracketDepth then
        caretPathEnd rest' (i + 1)
          (if eqc ch "]"%char then bracketDepth - 1 else bracketDepth)
      else if eqc ch "["%char then caretPathEnd rest' (i + 1) (bracketDepth + 1)
      else if eqc ch "."%char then caretPathEnd rest' (i + 1) bracketDepth
      else if eqc ch "!"%char then caretPathEnd rest' (i + 1) bracketDepth
      else if isWordChar ch then caretPathEnd rest' (i + 1) bracketDepth
      else i
  end.

(** One round of the loop over [start]: the token that starts at [start],
    if it is one and holds the cursor. *)
Definition caretTokenFrom (lineText : text) (char start : nat)
  : option (text * nat * nat) :=
  if negb (optIs (charAt lineText start) "^"%char) then None
  else
    let hasWs :=
      existsb (fun c => eqc c " "%char || eqc c "009"%char)
        (slice lineText (start + 1) (Nat.min char (length lineText - 1) + 1)) in
    if hasWs then None
    else
      let i := start + 1 in
      if (length lineText <=? i) || negb (optLetter (charAt lineText i)) then None
      else
        let i := skipWhile isWordChar lineText i in
        let end_ := caretPathEnd (sliceFrom lineText i) i 0 in
        if (start <=? char) && (char <? end_)
        then Some (slice lineText start end_, start, end_)
        else None.

(** The loop [for (let start = char; start >= 0; start--)]. *)
Fixpoint extractCaretLoop (lineText : text) (char start : nat)
  : option (text * nat * nat) :=
  match caretTokenFrom lineText char start with
  | Some r => Some r
  | None =>
      match start with
      | 0 => None
      | S start' => extractCaretLoop lineText char start'
      end
  end.

(** [extractCaretTokenAt(lineText, char)]: the token, its start and its
    end. *)
Definition extractCaretTokenAt (lineText : text) (char : nat) : option (text * nat * nat) :=
  extractCaretLoop lineText char char.

(* ================================================================== *)
(** * Specification-side notions *)
(* ================================================================== *)

(* ------------------------------------------------------------------ *)
(** ** Quotes and top-level positions *)
(* ------------------------------------------------------------------ *)

(** A text without any single quote. *)
Definition quoteFree (t : text) : Prop := Forall (fun c => eqc c quote = false) t.

(** The quote and parenthesis automaton of the scanning primitives, as a
    step relation on configurations (index, inside a quoted literal,
    parenthesis depth): a quote toggles the quote state, a doubled quote is
    consumed as one two-character unit without toggling, and outside quotes
    an opening parenthesis increments the depth and a closing one decrements
    it, never below zero. *)
Inductive qstep (e : text) : nat * bool * nat -> nat * bool * nat -> Prop :=
| qs_pair i q d :
    charAt e i = Some quote -> charAt e (i + 1) = Some quote ->
    qstep e (i, q, d) (i + 2, q, d)
| qs_toggle i q d :
    charAt e i = Some quote -> charAt e (i + 1) <> Some quote ->
    qstep e (i, q, d) (i + 1, negb q, d)
| qs_inside i d c :
    charAt e i = Some c -> c <> quote ->
    qstep e (i, true, d) (i + 1, true, d)
| qs_open i d :
    charAt e i = Some "("%char ->
    qstep e (i, false, d) (i + 1, false, d + 1)
| qs_close i d :
    charAt e i = Some ")"%char ->
    qstep e (i, false, d) (i + 1, false, Nat.pred d)
| qs_other i d c :
    charAt e i = Some c -> c <> quote -> c <> "("%char -> c <> ")"%char ->
    qstep e (i, false, d) (i + 1, false, d).

(** The configurations the automaton passes through, started at [c0]. *)
Inductive qreach (e : text) (c0 : nat * bool * nat) : nat * bool * nat -> Prop :=
| qr_here : qreach e c0 c0
| qr_step c1 c2 : qreach e c0 c1 -> qstep e c1 c2 -> qreach e c0 c2.

(** Index [i] of [e] is at top level: the automaton arrives at [i] outside
    quotes and at depth zero. *)
Definition topLevel (e : text) (i : nat) : Prop := qreach e (0, false, 0) (i, false, 0).

(** A comparison operator occurs in [e] at index [i]. *)
Definition opOccursAt (e : text) (i : nat) : Prop :=
  exists o, In o compareOps /\ startsWith e o i = true.

(** [o] is the first operator, in priority order, that occurs at [i]. *)
Definition priorityOpAt (e : text) (i : nat) (o : text) : Prop :=
  exists before after,
    compareOps = before ++ o :: after
    /\ startsWith e o i = true
    /\ Forall (fun o' => startsWith e o' i = false) before.

(* ------------------------------------------------------------------ *)
(** ** Block matching *)
(* ------------------------------------------------------------------ *)

(** Equality of two texts, as a boolean. *)
Fixpoint eqText (a b : text) : bool :=
  match a, b with
  | [], [] => true
  | x :: a', y :: b' => eqc x y && eqText a' b'
  | _, _ => false
  end.

(** The three kinds of block. *)
Inductive BlockKind := KIf | KFor | KFunction.

(** A line that opens, respectively closes, a block of kind [k]. *)
Definition startMarker (k : BlockKind) (t : text) : bool :=
  match k with
  | KIf => Re.test (Re.ifRe t)
  | KFor => Re.forRe t
  | KFunction => Re.fnStartRe t
  end.

Definition endMarker (k : BlockKind) (t : text) : bool :=
  match k with
  | KIf => Re.endIfRe t
  | KFor => Re.endForRe t
  | KFunction => Re.fnEndRe t
  end.



(** The lines of a document with their numbers, and the stream of the lines
    that are not comments. *)
Definition numbered (doc : TextDocument) : list (nat * text) :=
  combine (seq 0 (lineCount doc)) (lines doc).







(** One line of a validator seen from one kind: what it does to the stack
    of that kind (an array), and whether it reports an unmatched end. *)
Definition arrayStep (k : BlockKind) (t : text) (line : nat) (s : list nat) : list nat :=
  if isCommentLine t then s
  else if startMarker k t then s ++ [line]
  else if endMarker k t then removelast s
  else s.

Definition unmatchedAt (k : BlockKind) (t : text) (s : list nat) : bool :=
  negb (isCommentLine t) && negb (startMarker k t) && endMarker k t
  && match s with [] => true | _ :: _ => false end.





(* ------------------------------------------------------------------ *)
(** ** One line of the If validator and the look-ahead for [@Then] *)
(* ------------------------------------------------------------------ *)

(** The diagnostics that one line of [provideIfDiagnostics] appends, by
    cause. *)
Definition thenMissingAt (doc : TextDocument) (line : nat) : bool :=
  let t := lineAt doc line in
  negb (isCommentLine t)
  && (Re.test (Re.ifRe t) || Re.test (Re.elseIfRe t))
  && negb (Re.thenAnywhereRe t)
  && negb (hasThenNearNextLine doc line).

Definition unterminatedAt (doc : TextDocument) (line : nat) : bool :=
  let t := lineAt doc line in
  negb (isCommentLine t)
  && (Re.test (Re.ifRe t) || Re.test (Re.elseIfRe t))
  && existsb badComparison (splitByAndOrTopLevel (conditionText t)).

Definition emitIf (b : bool) (d : Diagnostic) : list Diagnostic := if b then [d] else [].

(** The look-ahead of the [@Then] check, in words: one of the next two
    lines exists, is neither blank nor a comment, starts with [@Then], and
    every line between is blank or a comment. *)
Definition thenOnNextLine (doc : TextDocument) (line : nat) : Prop :=
  exists k, (k = 1 \/ k = 2)
    /\ line + k < lineCount doc
    /\ isBlankLine (lineAt doc (line + k)) = false
    /\ isCommentLine (lineAt doc (line + k)) = false
    /\ Re.thenStartRe (lineAt doc (line + k)) = true
    /\ forall k', 1 <= k' < k ->
         isBlankLine (lineAt doc (line + k')) = true
         \/ isCommentLine (lineAt doc (line + k')) = true.

(** The "missing [@Then]" diagnostics located on line [l]. *)
Definition thenAt (l : nat) (d : Diagnostic) : bool :=
  (d_line d =? l) && eqText (d_message d) msgThenMissing.

(* ------------------------------------------------------------------ *)
(** ** Scopes and declarations *)
(* ------------------------------------------------------------------ *)

(** The function a line belongs to ([-1] at top level), its masked text,
    and the role the declaration and use validator gives it. *)
Definition scopeOf (doc : TextDocument) (line : nat) : Z :=
  nth line (buildFuncLineMap doc) (-1)%Z.

Definition masked (doc : TextDocument) (line : nat) : text :=
  stripSingleQuoted2 (lineAt doc line).

Definition isProcessed (doc : TextDocument) (line : nat) : bool :=
  negb (isBlankLine (lineAt doc line)) && negb (isCommentLine2 (lineAt doc line)).

(** A line on which the [@Set] and [@Get] uses are checked. *)
Definition isUseLine (doc : TextDocument) (line : nat) : bool :=
  isProcessed doc line
  && negb (Re.test (Re.fnNameRe (masked doc line)))
  && negb (Re.test (Re.declRe (masked doc line))).




(** An undeclared-variable diagnostic about [name]. *)
Definition aboutName (name : text) (d : Diagnostic) : Prop :=
  d_message d = msgUndeclaredGlobal ++ name \/ d_message d = msgUndeclaredLocal ++ name.

(** What the use checks of line [l] append to the diagnostics. *)
Definition lineUseDiagnostics (doc : TextDocument) (l : nat) : list Diagnostic :=
  if isUseLine doc l
  then useDiagnostics (varWalk doc l) l (scopeOf doc l) (masked doc l)
  else [].

(* ------------------------------------------------------------------ *)
(** ** Spans *)
(* ------------------------------------------------------------------ *)

(** The one-character [ablLogic] span at column [i] of line [lineNo]. *)
Definition operatorSpan (lineNo i : nat) : Token :=
  {| t_line := lineNo; t_char := i; t_length := 1; t_kind := ablLogic |}.

(** Column [i] of [line] holds a [+], or an [=] whose left neighbour is none
    of [>], [<], [!], [=] and whose right neighbour is not [=]. *)
Definition plainOperatorAt (line : text) (i : nat) : Prop :=
  charAt line i = Some "+"%char
  \/ (charAt line i = Some "="%char
      /\ prevChar line i <> Some ">"%char /\ prevChar line i <> Some "<"%char
      /\ prevChar line i <> Some "!"%char /\ prevChar line i <> Some "="%char
      /\ charAt line (i + 1) <> Some "="%char).

(** A character that is neither [+] nor [=]. *)
Definition quietChar (c : ascii) : bool := negb (eqc c "+"%char) && negb (eqc c "="%char).

(** The columns from [a] up to [b], [b] excluded, hold neither [+] nor [=]. *)
Definition allQuiet (line : text) (a b : nat) : Prop :=
  forall k c, a <= k < b -> charAt line k = Some c -> quietChar c = true.

(** The columns from [a] up to [b], [b] excluded, get no operator
    highlight. *)
Definition noOperator (line : text) (lineNo a b : nat) : Prop :=
  forall k c, a <= k < b -> charAt line k = Some c -> operatorTokens line lineNo k c = [].

(** Two spans of one line that share a column. *)
Definition spansOverlap (a b : Token) : bool :=
  (t_line a =? t_line b)
  && (t_char a <? t_char b + t_length b)
  && (t_char b <? t_char a + t_length a).

(** No two spans of the list overlap. *)
Fixpoint noOverlap (ts : list Token) : bool :=
  match ts with
  | [] => true
  | t :: rest => forallb (fun u => negb (spansOverlap t u)) rest && noOverlap rest
  end.

(** The span covers column [c] of line [l]. *)
Definition covers (l c : nat) (t : Token) : bool :=
  (t_line t =? l) && (t_char t <=? c) && (c <? t_char t + t_length t).

(** An [@] at column [i] is attached to its neighbours: the character after
    it is attach punctuation, or the character before it is attach
    punctuation or an identifier character. *)
Definition attachedAt (line : text) (i : nat) : bool :=
  isAttachPunct (if i + 1 <? length line then charAt line (i + 1) else None)
  || isAttachPunct (prevChar line i)
  || isIdentChar (prevChar line i).

(* ------------------------------------------------------------------ *)
(** ** The automaton as a function *)
(* ------------------------------------------------------------------ *)

(** The successor configuration of the automaton, as a function. *)
Definition qnext (e : text) (c : nat * bool * nat) : option (nat * bool * nat) :=
  let '(i, q, d) := c in
  match charAt e i with
  | None => None
  | Some ch =>
      if eqc ch quote then
        if optIs (charAt e (i + 1)) quote then Some (i + 2, q, d)
        else Some (i + 1, negb q, d)
      else if q then Some (i + 1, true, d)
      else if eqc ch "("%char then Some (i + 1, false, d + 1)
      else if eqc ch ")"%char then Some (i + 1, false, Nat.pred d)
      else Some (i + 1, false, d)
  end.

(** What [splitCompareTopLevel] has to return when the scan is in
    configuration [c]: nothing when no top-level operator lies ahead,
    otherwise the split at the first one. *)
Definition splitResultFrom (e : text) (c : nat * bool * nat)
    (res : option CompareSplit) : Prop :=
  match res with
  | None => forall j, qreach e c (j, false, 0) -> firstOpAt compareOps e j = None
  | Some r =>
      exists j o,
        qreach e c (j, false, 0)
        /\ firstOpAt compareOps e j = Some o
        /\ r = {| left := sliceTo e j; op := o; right := sliceFrom e (j + length o) |}
        /\ forall j', j' < j -> qreach e c (j', false, 0) ->
                      firstOpAt compareOps e j' = None
  end.

(* ------------------------------------------------------------------ *)
(** ** Fragments and wrapping *)
(* ------------------------------------------------------------------ *)

(** The fragments of a split put back together, with a separator between
    each two neighbours. *)
Fixpoint joinWith (frags seps : list text) : text :=
  match frags, seps with
  | f :: frags', sep :: seps' => f ++ sep ++ joinWith frags' seps'
  | f :: _, [] => f
  | [], _ => []
  end.

(** A separator of [splitByAndOrTopLevel]. *)
Definition isAndOr (sep : text) : Prop := sep = str "And" \/ sep = str "Or".

(** The text has the form [( ... )]. *)
Definition isWrapped (t : text) : bool := startsWith0 t (str "(") && endsWith t (str ")").

(** The character of the output of a mask at a column: the character of the
    input, or a blank. *)
Definition maskedChar (cin cout : ascii) : Prop := cout = cin \/ cout = space.

(* ------------------------------------------------------------------ *)
(** ** Functions of a document *)
(* ------------------------------------------------------------------ *)

(** The number of [@Function] lines among the given lines. *)
Definition countStarts (ls : list text) : nat := length (List.filter Re.fnStartRe ls).

(** Line [l] lies in the function that starts on line [s]: no other
    [@Function] line comes after [s] up to [l], and no [@End Function] line
    lies strictly between them. *)
Definition inFunctionFrom (doc : TextDocument) (s l : nat) : Prop :=
  s <= l < lineCount doc
  /\ Re.fnStartRe (lineAt doc s) = true
  /\ (forall m, s < m <= l -> Re.fnStartRe (lineAt doc m) = false)
  /\ (forall m, s < m < l -> Re.fnEndRe (lineAt doc m) = false).

(* ------------------------------------------------------------------ *)
(** ** Ranges of diagnostics *)
(* ------------------------------------------------------------------ *)

(** A diagnostic that marks one whole line of the document. *)
Definition marksWholeLine (doc : TextDocument) (d : Diagnostic) : Prop :=
  d_line d < lineCount doc
  /\ d_start d = 0
  /\ d_end d = length (lineAt doc (d_line d)).

(** The "unterminated string" diagnostics located on line [l]. *)
Definition unterminatedOn (l : nat) (d : Diagnostic) : bool :=
  (d_line d =? l) && eqText (d_message d) msgUnterminated.

(* ------------------------------------------------------------------ *)
(** ** Shape of the tokens and of the scan state *)
(* ------------------------------------------------------------------ *)

(** A span of line [lineNo] that is not empty and ends within [line]. *)
Definition spanWithin (line : text) (lineNo : nat) (tok : Token) : Prop :=
  t_line tok = lineNo
  /\ 0 < t_length tok
  /\ t_char tok + t_length tok <= length line.

(** The states the scan of a line passes through: an open condition
    parenthesis implies If-mode, every call frame has a depth of at least
    one, and the quote flag is down. *)
Definition wellFormedState (st : LineState) : Prop :=
  (0 < ifParenDepth st -> ifMode st = true)
  /\ List.Forall (fun f => 1 <= depth f) (stack st)
  /\ inSingleQuote st = false.

(* ------------------------------------------------------------------ *)
(** ** Formatting *)
(* ------------------------------------------------------------------ *)

(** A text without its spaces and tabs. *)
Definition withoutBlanks (t : text) : text :=
  List.filter (fun c => negb (isBlankTab c)) t.

(** The lines of a document as the formatter wants them, from an indent
    level on. *)
Fixpoint formattedLines (ls : list text) (indentLevel : nat) : list text :=
  match ls with
  | [] => []
  | raw :: ls' =>
      (if isBlankLine raw || isCommentLine raw then raw
       else desiredLine raw
              (if FormatRe.outdentRe (trim raw) then indentLevel - 1 else indentLevel))
      :: formattedLines ls' (fst (formatLine raw 0 indentLevel))
  end.

(** The document after the edits of the formatter, each of which replaces
    one whole line. *)
Definition applyEdits (doc : TextDocument) (edits : list TextEdit) : TextDocument :=
  {| languageId := languageId doc;
     lines := fold_left (fun ls e => <[e_line e := e_newText e]> ls) edits (lines doc) |}.

(* ------------------------------------------------------------------ *)
(** ** Folding *)
(* ------------------------------------------------------------------ *)

(** The patterns that open and close a fold of kind [k]. *)
Definition foldStartTest (k : FoldKind) (t : text) : bool :=
  match k with
  | FoldFunction => Re.fnStartRe t
  | FoldIf => Re.test (Re.ifRe t)
  | FoldFor => Re.forRe t
  end.

Definition foldEndTest (k : FoldKind) (t : text) : bool :=
  match k with
  | FoldFunction => Re.fnEndRe t
  | FoldIf => Re.endIfRe t
  | FoldFor => Re.endForRe t
  end.

(** A line that is read: neither blank nor a comment. *)
Definition isReadLine (t : text) : bool := negb (isBlankLine t) && negb (isCommentLine t).

(** Line [s] opens a fold of kind [k], line [e] closes one. *)
Definition opensFold (doc : TextDocument) (k : FoldKind) (s : nat) : Prop :=
  isReadLine (lineAt doc s) = true /\ foldStartTest k (lineAt doc s) = true.

Definition closesFold (doc : TextDocument) (k : FoldKind) (e : nat) : Prop :=
  isReadLine (lineAt doc e) = true /\ foldEndTest k (lineAt doc e) = true.

(** Two ranges that do not cross: one lies within the other, or they have
    no line in common. *)
Definition nestedOrApart (a b : FoldingRange) : Prop :=
  (r_start a < r_start b /\ r_end b < r_end a)
  \/ (r_start b < r_start a /\ r_end a < r_end b)
  \/ r_end a < r_start b
  \/ r_end b < r_start a.

(** What holds of the stack and of the ranges of [provideFoldingRanges]
    before line [n] is read. *)
Definition foldInv (doc : TextDocument) (n : nat)
    (st : list FoldFrame * list FoldingRange) : Prop :=
  (forall f, In f (fst st) ->
     fr_startLine f < n /\ opensFold doc (fr_kind f) (fr_startLine f))
  /\ StronglySorted (fun f g => fr_startLine g < fr_startLine f) (fst st)
  /\ (forall r, In r (snd st) ->
        r_start r < r_end r /\ r_end r < n
        /\ exists k, opensFold doc k (r_start r) /\ closesFold doc k (r_end r))
  /\ List.NoDup (map r_start (snd st))
  /\ (forall r f, In r (snd st) -> In f (fst st) -> r_start r <> fr_startLine f)
  /\ List.NoDup (map r_end (snd st))
  /\ (forall r f, In r (snd st) -> In f (fst st) ->
        opensFold doc (fr_kind f) (r_start r) ->
        fr_startLine f < r_start r \/ r_end r < fr_startLine f)
  /\ (forall r1 r2 k, In r1 (snd st) -> In r2 (snd st) ->
        opensFold doc k (r_start r1) -> opensFold doc k (r_start r2) ->
        r1 = r2 \/ nestedOrApart r1 r2).

(* ------------------------------------------------------------------ *)
(** ** Function declarations *)
(* ------------------------------------------------------------------ *)

(** Line [l] declares the function [name]. *)
Definition declaresAt (doc : TextDocument) (l : nat) (name : text) : Prop :=
  l < lineCount doc /\ fnDeclRe (lineAt doc l) = Some name.

(** [c] is the column of the first occurrence of [name] in the text. *)
Definition firstOccurrence (t name : text) (c : nat) : Prop :=
  startsWith t name c = true /\ forall c', c' < c -> startsWith t name c' = false.

(** One range within another, positions compared by line, then column. *)
Definition posLe (l1 c1 l2 c2 : nat) : Prop := l1 < l2 \/ (l1 = l2 /\ c1 <= c2).

Definition rangeWithin (inner outer : Range) : Prop :=
  posLe (rg_startLine outer) (rg_startChar outer) (rg_startLine inner) (rg_startChar inner)
  /\ posLe (rg_endLine inner) (rg_endChar inner) (rg_endLine outer) (rg_endChar outer).

(** What holds of the stack and of the blocks of [findFunctionBlocks]
    before line [n] is read. *)
Definition frameOk (doc : TextDocument) (n : nat) (f : FuncFrame) : Prop :=
  ff_startLine f < n
  /\ isReadLine (lineAt doc (ff_startLine f)) = true
  /\ fnDeclRe (lineAt doc (ff_startLine f)) = Some (ff_name f)
  /\ ff_nameRange f = nameRangeOf (lineAt doc (ff_startLine f)) (ff_name f) (ff_startLine f).

Definition blockHead (doc : TextDocument) (b : FuncBlock) : Prop :=
  isReadLine (lineAt doc (rg_startLine (b_range b))) = true
  /\ fnDeclRe (lineAt doc (rg_startLine (b_range b))) = Some (b_name b)
  /\ rg_startChar (b_range b) = 0
  /\ b_selectionRange b
     = nameRangeOf (lineAt doc (rg_startLine (b_range b))) (b_name b)
         (rg_startLine (b_range b))
  /\ rg_endChar (b_range b) = length (lineAt doc (rg_endLine (b_range b))).

Definition closedBlock (doc : TextDocument) (b : FuncBlock) : Prop :=
  rg_startLine (b_range b) < rg_endLine (b_range b)
  /\ isReadLine (lineAt doc (rg_endLine (b_range b))) = true
  /\ Re.fnEndRe (lineAt doc (rg_endLine (b_range b))) = true.

Definition blockInv (doc : TextDocument) (n : nat)
    (st : list FuncFrame * list FuncBlock) : Prop :=
  (forall f, In f (fst st) -> frameOk doc n f)
  /\ (forall b, In b (snd st) ->
        blockHead doc b /\ closedBlock doc b /\ rg_endLine (b_range b) < n)
  /\ List.NoDup (map (fun b => rg_startLine (b_range b)) (snd st)
                 ++ map ff_startLine (fst st))
  /\ (forall l name, l < n -> isReadLine (lineAt doc l) = true ->
        fnDeclRe (lineAt doc l) = Some name ->
        (exists f, In f (fst st) /\ ff_startLine f = l /\ ff_name f = name)
        \/ (exists b, In b (snd st) /\ rg_startLine (b_range b) = l /\ b_name b = name)).

(** What holds of the map of [findFunctionDefinitions] before line [n] is
    read: a name is mapped to its last declaration so far. *)
Definition definitionsInv (doc : TextDocument) (n : nat) (m : gmap text Position) : Prop :=
  forall name,
    match m !! name with
    | Some pos =>
        p_line pos < n
        /\ fnDeclRe (lineAt doc (p_line pos)) = Some name
        /\ (forall l, p_line pos < l < n -> fnDeclRe (lineAt doc l) <> Some name)
        /\ firstOccurrence (lineAt doc (p_line pos)) name (p_character pos)
    | None => forall l, l < n -> fnDeclRe (lineAt doc l) <> Some name
    end.

(* ------------------------------------------------------------------ *)
(** ** Call sites *)
(* ------------------------------------------------------------------ *)

(** The text of a range of a document. *)
Definition textOf (doc : TextDocument) (r : LineRange) : text :=
  slice (lineAt doc (lr_line r)) (lr_start r) (lr_end r).

(** A call of [name] starts at column [c] of the text: [@name], an
    optional [@], optional white space and an opening parenthesis. *)
Definition callSite (name t : text) (c : nat) : Prop :=
  exists at_ ws rest,
    skipn c t = "@"%char :: name ++ at_ ++ ws ++ "("%char :: rest
    /\ (at_ = [] \/ at_ = ["@"%char])
    /\ forallb isSpace ws = true.

(* ------------------------------------------------------------------ *)
(** ** Caret tokens *)
(* ------------------------------------------------------------------ *)

(** A character that goes on a caret path outside brackets. *)
Definition isPathChar (c : ascii) : bool :=
  eqc c "["%char || eqc c "."%char || eqc c "!"%char || isWordChar c.

(* ------------------------------------------------------------------ *)
(** ** Data and class references *)
(* ------------------------------------------------------------------ *)

(** A character that is not a caret. *)
Definition notCaret (c : ascii) : bool := negb (eqc c "^"%char).

(** The columns from [a] up to [b], [b] excluded, hold no caret. *)
Definition caretFree (line : text) (a b : nat) : Prop :=
  forall k c, a <= k < b -> charAt line k = Some c -> notCaret c = true.

(** The [ablData] span of [len] characters at column [i] of line
    [lineNo]. *)
Definition dataSpan (lineNo i len : nat) : Token :=
  {| t_line := lineNo; t_char := i; t_length := len; t_kind := ablData |}.

(* ------------------------------------------------------------------ *)
(** ** Words of a line and quoted literals *)
(* ------------------------------------------------------------------ *)


(** White space, and an identifier: a letter or an underscore, then
    letters, digits and underscores. *)
Definition blanks (ws : text) : Prop := List.Forall (fun ch => isSpace ch = true) ws.


(** No word goes on at column [c] of [line]: the line ends there or holds
    a character that is not a word character. *)
Definition wordEndsAt (line : text) (c : nat) : Prop :=
  forall ch, charAt line c = Some ch -> isWordChar ch = false.

(** Two texts that differ in the case of their ASCII letters only. *)
Definition sameLetters (a b : text) : Prop := map upcase a = map upcase b.

(** Column [k] of [line] lies outside the quoted literals: the automaton
    arrives at [k] outside quotes, and the character there is not a quote
    itself. *)
Definition outsideQuotes (line : text) (k : nat) : Prop :=
  (exists d, qreach line (0, false, 0) (k, false, d))
  /\ charAt line k <> Some quote.

(** The columns from [a] up to [b], [b] excluded, lie outside the quoted
    literals. *)
Definition plainSpan (line : text) (a b : nat) : Prop :=
  forall k, a <= k < b -> outsideQuotes line k.

(* ------------------------------------------------------------------ *)
(** ** Uses of a variable *)
(* ------------------------------------------------------------------ *)





(* ------------------------------------------------------------------ *)
(** ** Keywords of a line *)
(* ------------------------------------------------------------------ *)

(** A line of white space only, and a comment line: a [#] after spaces and
    tabs only. *)
Definition blankLine (line : text) : Prop := blanks line.

Definition commentLine (line : text) : Prop :=
  exists ws rest,
    line = ws ++ "#"%char :: rest /\ List.Forall (fun ch => isBlankTab ch = true) ws.

(** [line] opens with the keyword [kw], in any letter case, after white
    space only, and the keyword ends as a word. *)
Definition opensWith (kw line : text) : Prop :=
  exists ws w rest,
    line = ws ++ w ++ rest /\ blanks ws /\ sameLetters w kw /\ wordEndsAt rest 0.

(** [line] opens with the two keywords [kw1] and [kw2], white space between
    them. *)
Definition opensWith2 (kw1 kw2 line : text) : Prop :=
  exists ws w1 gap w2 rest,
    line = ws ++ w1 ++ gap ++ w2 ++ rest
    /\ blanks ws /\ sameLetters w1 kw1
    /\ blanks gap /\ gap <> [] /\ sameLetters w2 kw2
    /\ wordEndsAt rest 0.

(** [line] holds the keyword [kw] somewhere, in any letter case, ending as
    a word. *)
Definition holdsKeyword (kw line : text) : Prop :=
  exists pre w rest,
    line = pre ++ w ++ rest /\ sameLetters w kw /\ wordEndsAt rest 0.

(** An [@If] or [@Else If] line. *)
Definition isIfLine (line : text) : Prop :=
  opensWith (str "@If") line \/ opensWith2 (str "@Else") (str "If") line.

(** [@Then] on the line itself. *)
Definition thenOnSameLine (line : text) : Prop := holdsKeyword (str "@Then") line.

(** [@Then] supplied by the look-ahead: one of the next two lines exists,
    is neither blank nor a comment, opens with [@Then], and every line
    between is blank or a comment. *)
Definition thenSupplied (doc : TextDocument) (line : nat) : Prop :=
  exists k, (k = 1 \/ k = 2)
    /\ line + k < lineCount doc
    /\ ~ blankLine (lineAt doc (line + k))
    /\ ~ commentLine (lineAt doc (line + k))
    /\ opensWith (str "@Then") (lineAt doc (line + k))
    /\ forall k', 1 <= k' < k ->
         blankLine (lineAt doc (line + k')) \/ commentLine (lineAt doc (line + k')).

(* ------------------------------------------------------------------ *)
(** ** The course of the scan of a line *)
(* ------------------------------------------------------------------ *)

(** The columns at which the scan of a line starts a round, each with the
    state the round starts in. *)
Inductive scanVisits (line : text) (lineNo : nat) : nat -> LineState -> Prop :=
| sv_start : scanVisits line lineNo 0 initialLineState
| sv_next i ch st toks i' st' :
    scanVisits line lineNo i st ->
    charAt line i = Some ch ->
    scanAt line lineNo i ch st = (toks, i', st') ->
    scanVisits line lineNo (i' + 1) st'.

(** The [@] at column [i] starts a construct of its own: [@If] or
    [@Else If], an [@Then] or [@Else] that ends If-mode, a Map call, or a
    call [@Name(]. *)
Definition opensConstruct (line : text) (lineNo i : nat) (st : LineState) : bool :=
  isIfAt line i || isElseIfAt line i || leavesIfMode line i st
  || Re.test (mapCall line lineNo i)
  || Re.test (genericCall line lineNo i "@"%char).

(* ------------------------------------------------------------------ *)
(** ** The end of a function block *)
(* ------------------------------------------------------------------ *)

(** A line that opens a function block, and a line that closes one. *)
Definition opensFunction (t : text) : bool := isReadLine t && Re.test (fnDeclRe t).

Definition closesFunction (t : text) : bool :=
  isReadLine t && negb (Re.test (fnDeclRe t)) && Re.fnEndRe t.

(** The line that closes a function block, searched in the lines [ls] that
    follow its header, the first of them being line [line]: the first
    closing line met at depth zero, where the depth counts the blocks
    opened on the way and not closed yet. *)
Fixpoint closerFrom (ls : list text) (line depth : nat) : option nat :=
  match ls with
  | [] => None
  | t :: ls' =>
      if opensFunction t then closerFrom ls' (S line) (S depth)
      else if closesFunction t then
        match depth with
        | 0 => Some line
        | S depth' => closerFrom ls' (S line) depth'
        end
      else closerFrom ls' (S line) depth
  end.

Definition closerOf (doc : TextDocument) (s : nat) : option nat :=
  closerFrom (skipn (S s) (lines doc)) (S s) 0.

(** What holds of the stack and of the blocks of [findFunctionBlocks]
    before line [n] is read, as to the ends of the blocks: a block ends on
    the line that closes it, and the frame with [j] frames above it is
    closed by the first closing line met from [n] on at depth [j]. *)
Definition closerInv (doc : TextDocument) (n : nat)
    (st : list FuncFrame * list FuncBlock) : Prop :=
  (forall b, In b (snd st) ->
     closerOf doc (rg_startLine (b_range b)) = Some (rg_endLine (b_range b)))
  /\ (forall j f, nth_error (fst st) j = Some f ->
        closerOf doc (ff_startLine f) = closerFrom (skipn n (lines doc)) n j).

(* ================================================================== *)
(** * Theorems *)
(* ================================================================== *)

Section QuoteFree.

Lemma stripSingleQuotedFrom_quoteFree inQ t :
  quoteFree (stripSingleQuotedFrom inQ t).
Proof.
  revert inQ. induction t as [t IH] using (induction_ltof1 _ (@length ascii)).
  unfold ltof in IH. intros inQ. destruct t as [|ch rest]; simpl.
  - constructor.
  - destruct (eqc ch quote) eqn:Hq.
    + destruct rest as [|next rest'].
      * simpl. constructor.
      * destruct (eqc next quote); apply IH; simpl; lia.
    + destruct inQ.
      * apply IH. simpl. lia.
      * constructor; [exact Hq|]. apply IH. simpl. lia.
Qed.

Lemma stripSingleQuoted2From_quoteFree inQ t :
  quoteFree (stripSingleQuoted2From inQ t).
Proof.
  revert inQ. induction t as [t IH] using (induction_ltof1 _ (@length ascii)).
  unfold ltof in IH. intros inQ. destruct t as [|ch rest]; simpl.
  - constructor.
  - destruct (eqc ch quote) eqn:Hq.
    + destruct rest as [|next rest'].
      * simpl. repeat constructor.
      * destruct (eqc next quote).
        -- repeat (constructor; [reflexivity|]). apply IH. simpl. lia.
        -- constructor; [reflexivity|]. apply IH. simpl. lia.
    + constructor.
      * destruct inQ; [reflexivity | exact Hq].
      * apply IH. simpl. lia.
Qed.

Lemma stripSingleQuotedFrom_id t :
  quoteFree t -> stripSingleQuotedFrom false t = t.
Proof.
  induction 1 as [|c t Hc _ IH]; simpl; [reflexivity|].
  rewrite Hc. f_equal. exact IH.
Qed.

Lemma stripSingleQuoted2From_id t :
  quoteFree t -> stripSingleQuoted2From false t = t.
Proof.
  induction 1 as [|c t Hc _ IH]; simpl; [reflexivity|].
  rewrite Hc. f_equal. exact IH.
Qed.

End QuoteFree.

(** C9.  Quote stripping and quote masking are idempotent: applying
    [stripSingleQuoted2] twice gives the same text as applying it once, and
    likewise for [stripSingleQuoted]. *)
Theorem strip_single_quoted_idempotent (s : text) :
  stripSingleQuoted2 (stripSingleQuoted2 s) = stripSingleQuoted2 s
  /\ stripSingleQuoted (stripSingleQuoted s) = stripSingleQuoted s.
Proof.
  split.
  - apply stripSingleQuoted2From_id, stripSingleQuoted2From_quoteFree.
  - apply stripSingleQuotedFrom_id, stripSingleQuotedFrom_quoteFree.
Qed.

(* ================================================================== *)
(** ** Basic facts on text *)
(* ================================================================== *)

Lemma eqc_true a b : eqc a b = true <-> a = b.
Proof. unfold eqc. apply Ascii.eqb_eq. Qed.

Lemma eqc_false a b : eqc a b = false <-> a <> b.
Proof. unfold eqc. apply Ascii.eqb_neq. Qed.

Lemma eqc_refl a : eqc a a = true.
Proof. apply eqc_true. reflexivity. Qed.

Lemma skipn_cons_charAt (e : text) i ch rest :
  skipn i e = ch :: rest -> charAt e i = Some ch /\ skipn (i + 1) e = rest.
Proof.
  revert e. induction i as [|i IH]; intros e H.
  - destruct e; simpl in H; [discriminate|]. inversion H. subst. split; reflexivity.
  - destruct e as [|c e]; simpl in H; [discriminate|]. apply IH in H. exact H.
Qed.

Lemma skipn_nil_charAt (e : text) i : skipn i e = [] -> charAt e i = None.
Proof.
  revert e. induction i as [|i IH]; intros e H.
  - destruct e; simpl in H; [reflexivity | discriminate].
  - destruct e as [|c e]; simpl in H; [reflexivity|]. apply IH. exact H.
Qed.

Lemma charAt_skipn (e : text) i ch :
  charAt e i = Some ch -> exists rest, skipn i e = ch :: rest.
Proof.
  revert e. induction i as [|i IH]; intros e H.
  - destruct e; simpl in H; [discriminate|]. inversion H. subst. eexists. reflexivity.
  - destruct e as [|c e]; simpl in H; [discriminate|]. apply IH in H. exact H.
Qed.

Lemma charAt_lt (e : text) i ch : charAt e i = Some ch -> i < length e.
Proof. intros H. apply nth_error_Some. unfold charAt in H. rewrite H. discriminate. Qed.

Lemma prefixBy_eqc_app (pat s : text) :
  prefixBy eqc pat s = true -> s = pat ++ skipn (length pat) s.
Proof.
  revert s. induction pat as [|p pat IH]; intros s H; simpl in *.
  - reflexivity.
  - destruct s as [|c s]; [discriminate|].
    apply andb_true_iff in H. destruct H as [H1 H2].
    apply eqc_true in H1. subst c. simpl. f_equal. apply IH. exact H2.
Qed.

Lemma prefixBy_eqc_iff (pat s : text) :
  prefixBy eqc pat s = true <-> exists t, s = pat ++ t.
Proof.
  split.
  - intros H. eexists. apply prefixBy_eqc_app. exact H.
  - intros [t ->]. induction pat as [|p pat IH]; simpl; [reflexivity|].
    rewrite eqc_refl. exact IH.
Qed.

Lemma startsWith_head (e pat : text) i p pat' :
  pat = p :: pat' -> startsWith e pat i = true -> charAt e i = Some p.
Proof.
  intros -> H. unfold startsWith in H.
  destruct (skipn i e) as [|c rest] eqn:Hs; simpl in H; [discriminate|].
  apply andb_true_iff in H. destruct H as [H _]. apply eqc_true in H. subst c.
  apply skipn_cons_charAt in Hs. apply Hs.
Qed.

Lemma startsWith_split (e pat : text) i :
  startsWith e pat i = true ->
  sliceTo e i ++ pat ++ sliceFrom e (i + length pat) = e.
Proof.
  unfold startsWith, sliceTo, sliceFrom. intros H.
  apply prefixBy_eqc_app in H.
  rewrite Nat.add_comm, <- skipn_skipn, <- H. apply firstn_skipn.
Qed.

(* ================================================================== *)
(** ** The quote and parenthesis automaton *)
(* ================================================================== *)

Lemma optIs_true c x : optIs c x = true <-> c = Some x.
Proof.
  destruct c as [y|]; simpl.
  - rewrite eqc_true. split; congruence.
  - split; discriminate.
Qed.

Lemma qstep_qnext e c c' : qstep e c c' <-> qnext e c = Some c'.
Proof.
  split.
  - intros H. destruct H as [i q d H1 H2|i q d H1 H2|i d c H1 H2|i d H1|i d H1|i d c H1 H2 H3 H4];
      unfold qnext; rewrite H1.
    + rewrite eqc_refl, H2. reflexivity.
    + rewrite eqc_refl. destruct (optIs (charAt e (i + 1)) quote) eqn:Ho.
      * apply optIs_true in Ho. contradiction.
      * reflexivity.
    + apply eqc_false in H2. rewrite H2. reflexivity.
    + reflexivity.
    + reflexivity.
    + apply eqc_false in H2, H3, H4. rewrite H2, H3, H4. reflexivity.
  - destruct c as [[i q] d]. unfold qnext.
    destruct (charAt e i) as [ch|] eqn:Hc; [|discriminate].
    destruct (eqc ch quote) eqn:Hq.
    + apply eqc_true in Hq. subst ch.
      destruct (optIs (charAt e (i + 1)) quote) eqn:Ho; intros H; inversion H; subst.
      * apply optIs_true in Ho. apply qs_pair; assumption.
      * apply qs_toggle; [assumption|]. intros Hn. apply optIs_true in Hn. congruence.
    + apply eqc_false in Hq. destruct q.
      * intros H; inversion H; subst. eapply qs_inside; eassumption.
      * destruct (eqc ch "("%char) eqn:Ho.
        { apply eqc_true in Ho. subst ch. intros H; inversion H; subst.
          apply qs_open. assumption. }
        destruct (eqc ch ")"%char) eqn:Hcl.
        { apply eqc_true in Hcl. subst ch. intros H; inversion H; subst.
          apply qs_close. assumption. }
        apply eqc_false in Ho, Hcl. intros H; inversion H; subst.
        eapply qs_other; eassumption.
Qed.

Lemma qstep_deterministic e c c1 c2 : qstep e c c1 -> qstep e c c2 -> c1 = c2.
Proof. rewrite !qstep_qnext. congruence. Qed.

Lemma qreach_trans e c0 c1 c2 : qreach e c0 c1 -> qreach e c1 c2 -> qreach e c0 c2.
Proof.
  intros H01 H12. induction H12 as [|c c' _ IH Hs]; [assumption|].
  eapply qr_step; eassumption.
Qed.

Lemma qreach_first e c0 c :
  qreach e c0 c -> c = c0 \/ exists c1, qstep e c0 c1 /\ qreach e c1 c.
Proof.
  induction 1 as [|c1 c2 _ IH Hs].
  - left. reflexivity.
  - right. destruct IH as [->|[c' [Hs' Hr]]].
    + exists c2. split; [assumption | constructor].
    + exists c'. split; [assumption|]. eapply qr_step; eassumption.
Qed.

Lemma qreach_next e c0 c1 c :
  qnext e c0 = Some c1 -> qreach e c0 c -> c = c0 \/ qreach e c1 c.
Proof.
  intros Hn Hr. apply qreach_first in Hr. destruct Hr as [->|[c' [Hs Hr]]].
  - left. reflexivity.
  - right. apply qstep_qnext in Hs. congruence.
Qed.

Lemma qreach_stuck e c0 c : qnext e c0 = None -> qreach e c0 c -> c = c0.
Proof.
  intros Hn Hr. apply qreach_first in Hr. destruct Hr as [->|[c' [Hs _]]].
  - reflexivity.
  - apply qstep_qnext in Hs. congruence.
Qed.

Lemma qnext_index e i q d j q' d' :
  qnext e (i, q, d) = Some (j, q', d') -> i < j.
Proof.
  unfold qnext. destruct (charAt e i) as [ch|]; [|discriminate].
  repeat match goal with
         | |- context [if ?b then _ else _] => destruct b
         end; intros H; inversion H; lia.
Qed.

Lemma qreach_index e c0 c : qreach e c0 c -> fst (fst c0) <= fst (fst c).
Proof.
  induction 1 as [|c1 c2 _ IH Hs]; [lia|].
  apply qstep_qnext in Hs. destruct c1 as [[i q] d], c2 as [[j q'] d'].
  apply qnext_index in Hs. simpl in *. lia.
Qed.

(* ================================================================== *)
(** ** splitCompareTopLevel *)
(* ================================================================== *)

Lemma firstOpAt_none ops e i :
  firstOpAt ops e i = None <-> Forall (fun o => startsWith e o i = false) ops.
Proof.
  induction ops as [|o ops IH]; simpl.
  - split; [constructor | reflexivity].
  - destruct (startsWith e o i) eqn:Ho.
    + split; [discriminate|]. intros H. inversion H. congruence.
    + rewrite IH. split.
      * intros H. constructor; assumption.
      * intros H. inversion H. assumption.
Qed.

Lemma firstOpAt_some ops e i o :
  firstOpAt ops e i = Some o ->
  exists before after,
    ops = before ++ o :: after
    /\ startsWith e o i = true
    /\ Forall (fun o' => startsWith e o' i = false) before.
Proof.
  induction ops as [|o1 ops IH]; simpl; [discriminate|].
  destruct (startsWith e o1 i) eqn:Ho.
  - intros H. inversion H. subst o1. exists [], ops. repeat split; auto.
  - intros H. destruct (IH H) as (before & after & -> & Hs & Hb).
    exists (o1 :: before), after. repeat split; auto.
Qed.

Lemma firstOpAt_head e i o :
  firstOpAt compareOps e i = Some o ->
  exists c, charAt e i = Some c /\ c <> quote /\ c <> "("%char /\ c <> ")"%char.
Proof.
  intros H. apply firstOpAt_some in H. destruct H as (before & after & Hops & Hs & _).
  assert (Hin : In o compareOps) by (rewrite Hops; apply in_or_app; right; left; reflexivity).
  unfold compareOps in Hin. simpl in Hin.
  repeat (destruct Hin as [<-|Hin];
          [ eexists; split;
            [ eapply startsWith_head; [reflexivity | exact Hs]
            | repeat split; discriminate ] | ]).
  contradiction.
Qed.

Lemma firstOpAt_quiet e i :
  (forall c, charAt e i = Some c -> c = quote \/ c = "("%char \/ c = ")"%char) ->
  firstOpAt compareOps e i = None.
Proof.
  intros H. destruct (firstOpAt compareOps e i) as [o|] eqn:Ho; [|reflexivity].
  apply firstOpAt_head in Ho. destruct Ho as (c & Hc & H1 & H2 & H3).
  destruct (H c Hc) as [?|[?|?]]; contradiction.
Qed.

Lemma splitResult_step e c0 c1 res :
  qnext e c0 = Some c1 ->
  (forall j, c0 = (j, false, 0) -> firstOpAt compareOps e j = None) ->
  splitResultFrom e c1 res -> splitResultFrom e c0 res.
Proof.
  intros Hn Hquiet Hres.
  assert (H01 : qreach e c0 c1).
  { eapply qr_step; [constructor | apply qstep_qnext; exact Hn]. }
  destruct res as [r|]; simpl in *.
  - destruct Hres as (j & o & Hr & Ho & Heq & Hmin).
    exists j, o. repeat split; auto.
    + eapply qreach_trans; eassumption.
    + intros j' Hlt Hr'. destruct (qreach_next _ _ _ _ Hn Hr') as [E|Hr1].
      * apply Hquiet. symmetry. exact E.
      * apply Hmin; assumption.
  - intros j Hr. destruct (qreach_next _ _ _ _ Hn Hr) as [E|Hr1].
    + apply Hquiet. symmetry. exact E.
    + apply Hres. exact Hr1.
Qed.

Lemma splitCompareFrom_spec e n :
  forall rest i d q,
    length rest <= n -> skipn i e = rest ->
    splitResultFrom e (i, q, d) (splitCompareFrom e i d q rest).
Proof.
  induction n as [|n IH]; intros rest i d q Hlen Hrest.
  - destruct rest; [|simpl in Hlen; lia]. simpl. intros j Hr.
    apply skipn_nil_charAt in Hrest.
    apply qreach_stuck in Hr; [|unfold qnext; rewrite Hrest; reflexivity].
    inversion Hr; subst. apply firstOpAt_quiet. intros c Hc. congruence.
  - destruct rest as [|ch rest1].
    { simpl. intros j Hr. apply skipn_nil_charAt in Hrest.
      apply qreach_stuck in Hr; [|unfold qnext; rewrite Hrest; reflexivity].
      inversion Hr; subst. apply firstOpAt_quiet. intros c Hc. congruence. }
    apply skipn_cons_charAt in Hrest. destruct Hrest as [Hch Hrest1].
    simpl in Hlen. cbn -[firstOpAt compareOps].
    destruct (eqc ch quote) eqn:Hq.
    + apply eqc_true in Hq. subst ch.
      assert (Hquiet : forall j, (i, q, d) = (j, false, 0) ->
                                 firstOpAt compareOps e j = None).
      { intros j E. inversion E; subst. apply firstOpAt_quiet.
        intros c Hc. left. congruence. }
      destruct rest1 as [|next rest2].
      * eapply splitResult_step; [|exact Hquiet|apply IH; [simpl; lia|exact Hrest1]].
        unfold qnext. rewrite Hch, eqc_refl.
        rewrite (skipn_nil_charAt _ _ Hrest1). reflexivity.
      * apply skipn_cons_charAt in Hrest1. destruct Hrest1 as [Hnext Hrest2].
        replace (i + 1 + 1) with (i + 2) in Hrest2 by lia.
        destruct (eqc next quote) eqn:Hq2.
        -- apply eqc_true in Hq2. subst next.
           eapply splitResult_step; [|exact Hquiet|apply IH; [simpl in *; lia|exact Hrest2]].
           unfold qnext. rewrite Hch, eqc_refl, Hnext. simpl. reflexivity.
        -- eapply splitResult_step; [|exact Hquiet|apply IH; [simpl in *; lia|]].
           ++ unfold qnext. rewrite Hch, eqc_refl, Hnext. simpl. rewrite Hq2. reflexivity.
           ++ destruct (charAt_skipn _ _ _ Hnext) as [r Hr]. rewrite Hr.
              apply skipn_cons_charAt in Hr. destruct Hr as [_ Hr].
              replace (i + 1 + 1) with (i + 2) in Hr by lia. congruence.
    + destruct q.
      * eapply splitResult_step; [| |apply IH; [lia|exact Hrest1]].
        -- unfold qnext. rewrite Hch, Hq. reflexivity.
        -- intros j E. inversion E.
      * destruct (eqc ch "("%char) eqn:Hop.
        { eapply splitResult_step; [| |apply IH; [lia|exact Hrest1]].
          - unfold qnext. rewrite Hch, Hq, Hop. reflexivity.
          - intros j E. inversion E; subst. apply firstOpAt_quiet.
            intros c Hc. apply eqc_true in Hop. right. left. congruence. }
        destruct (eqc ch ")"%char) eqn:Hcl.
        { match goal with
          | |- splitResultFrom _ _ (splitCompareFrom _ _ ?x _ _) =>
              replace x with (Nat.pred d) by (destruct d; simpl; lia)
          end.
          eapply splitResult_step; [| |apply IH; [lia|exact Hrest1]].
          - unfold qnext. rewrite Hch, Hq, Hop, Hcl. reflexivity.
          - intros j E. inversion E; subst. apply firstOpAt_quiet.
            intros c Hc. apply eqc_true in Hcl. right. right. congruence. }
        assert (Hnx : qnext e (i, false, d) = Some (i + 1, false, d)).
        { unfold qnext. rewrite Hch, Hq, Hop, Hcl. reflexivity. }
        destruct (d =? 0) eqn:Hd; cbn -[firstOpAt compareOps].
        -- apply Nat.eqb_eq in Hd. subst d.
           destruct (firstOpAt compareOps e i) as [o|] eqn:Ho.
           ++ unfold splitResultFrom. exists i, o. repeat split; auto.
              ** constructor.
              ** intros j' Hlt Hr. apply qreach_index in Hr. simpl in Hr. lia.
           ++ eapply splitResult_step; [exact Hnx| |apply IH; [lia|exact Hrest1]].
              intros j E. inversion E; subst. exact Ho.
        -- eapply splitResult_step; [exact Hnx| |apply IH; [lia|exact Hrest1]].
           intros j E. inversion E; subst. discriminate.
Qed.

Lemma opOccursAt_firstOpAt e i :
  opOccursAt e i <-> firstOpAt compareOps e i <> None.
Proof.
  unfold opOccursAt. split.
  - intros (o & Hin & Hs) Hn. apply firstOpAt_none in Hn.
    rewrite List.Forall_forall in Hn. apply Hn in Hin. congruence.
  - intros Hn. destruct (firstOpAt compareOps e i) as [o|] eqn:Ho; [|contradiction].
    apply firstOpAt_some in Ho. destruct Ho as (b & a & Hops & Hs & _).
    exists o. split; [|exact Hs]. rewrite Hops. apply in_or_app. right. left. reflexivity.
Qed.

(** C8.  [splitCompareTopLevel] returns nothing exactly when no comparison
    operator occurs at a top-level position (outside single quotes and
    outside parentheses); otherwise the operator returned is the first, in
    the priority order [<>], [>=], [<=], [=], [>], [<], of those occurring
    at the leftmost top-level position that holds one, [left] is the text
    before that position, and [left ++ op ++ right] is the input. *)
Theorem splitCompareTopLevel_spec (expr : text) :
  (splitCompareTopLevel expr = None
   <-> forall i, topLevel expr i -> ~ opOccursAt expr i)
  /\ (forall r, splitCompareTopLevel expr = Some r ->
        left r ++ op r ++ right r = expr
        /\ topLevel expr (length (left r))
        /\ priorityOpAt expr (length (left r)) (op r)
        /\ forall j, j < length (left r) -> topLevel expr j -> ~ opOccursAt expr j).
Proof.
  pose proof (splitCompareFrom_spec expr (length expr) expr 0 0 false
                (Nat.le_refl _) eq_refl) as H.
  fold (splitCompareTopLevel expr) in H.
  destruct (splitCompareTopLevel expr) as [r|]; unfold splitResultFrom in H.
  - destruct H as (j & o & Hr & Ho & -> & Hmin). cbn [left op right].
    pose proof (firstOpAt_some _ _ _ _ Ho) as (b & a & Hops & Hs & Hb).
    assert (Hj : length (sliceTo expr j) = j).
    { unfold sliceTo. apply firstn_length_le.
      destruct (firstOpAt_head _ _ _ Ho) as (c & Hc & _).
      apply charAt_lt in Hc. lia. }
    split.
    + split; [discriminate|]. intros Hall. exfalso.
      apply (Hall j Hr). apply opOccursAt_firstOpAt. congruence.
    + intros r' E. inversion E; subst r'. cbn [left op right]. rewrite Hj.
      split; [apply startsWith_split; exact Hs|].
      split; [exact Hr|].
      split; [exists b, a; auto|].
      intros j' Hlt Hr' Hocc. apply opOccursAt_firstOpAt in Hocc.
      apply Hocc. apply Hmin; assumption.
  - split; [|discriminate].
    split; [|reflexivity]. intros _ i Hr Hocc.
    apply opOccursAt_firstOpAt in Hocc. apply Hocc. apply H. exact Hr.
Qed.

(** The split of [a <= 'x=y'] is found at the [<=], outside the literal. *)
Lemma splitCompareTopLevel_spec_witness :
  splitCompareTopLevel (str "a <= 'x=y'")
  = Some {| left := str "a "; op := str "<="; right := str " 'x=y'" |}
  /\ str "a " ++ str "<=" ++ str " 'x=y'" = str "a <= 'x=y'"
  /\ topLevel (str "a <= 'x=y'") 2.
Proof.
  assert (E : splitCompareTopLevel (str "a <= 'x=y'")
              = Some {| left := str "a "; op := str "<="; right := str " 'x=y'" |})
    by reflexivity.
  split; [exact E|].
  destruct (proj2 (splitCompareTopLevel_spec (str "a <= 'x=y'")) _ E) as (H1 & H2 & _).
  split; [exact H1 | exact H2].
Defined.

(* ================================================================== *)
(** ** Keyword patterns exclude one another *)
(* ================================================================== *)

Lemma eqText_true a b : eqText a b = true <-> a = b.
Proof.
  revert b. induction a as [|x a IH]; intros [|y b]; simpl; split;
    try discriminate; try reflexivity.
  - intros H. apply andb_true_iff in H. destruct H as [H1 H2].
    apply eqc_true in H1. apply IH in H2. congruence.
  - intros H. inversion H; subst. rewrite eqc_refl. simpl. apply IH. reflexivity.
Qed.

Lemma lit_eqci_nth pat : forall s r i p,
  Re.lit eqci pat s = Some r -> nth_error pat i = Some p ->
  exists c, nth_error s i = Some c /\ upcase c = upcase p.
Proof.
  induction pat as [|p0 pat IH]; intros s r i p Hl Hn.
  - destruct i; discriminate.
  - simpl in Hl. destruct s as [|c s]; [discriminate|].
    destruct (eqci p0 c) eqn:He; [|discriminate].
    destruct i as [|i]; simpl in Hn.
    + inversion Hn; subst. exists c. split; [reflexivity|].
      unfold eqci in He. apply Ascii.eqb_eq in He. congruence.
    + simpl. eapply IH; eassumption.
Qed.

(** Two literals that differ, up to case, at some position never match the
    same text. *)
Lemma lit_conflict p1 p2 s r1 r2 i a b :
  Re.lit eqci p1 s = Some r1 -> Re.lit eqci p2 s = Some r2 ->
  nth_error p1 i = Some a -> nth_error p2 i = Some b ->
  upcase a = upcase b.
Proof.
  intros H1 H2 Ha Hb.
  destruct (lit_eqci_nth _ _ _ _ _ H1 Ha) as (c & Hc & E1).
  destruct (lit_eqci_nth _ _ _ _ _ H2 Hb) as (c' & Hc' & E2).
  congruence.
Qed.

Lemma keywordRest_lit kw t r :
  Re.keywordRest kw t = Some r -> Re.lit eqci (str kw) (Re.spaces0 t) = Some r.
Proof.
  unfold Re.keywordRest. destruct (Re.lit _ _ _) as [r'|]; [|discriminate].
  destruct (Re.wordEnd r'); congruence.
Qed.

Lemma keyword2Rest_lit kw1 kw2 t r :
  Re.keyword2Rest kw1 kw2 t = Some r ->
  exists r0 r1, Re.lit eqci (str kw1) (Re.spaces0 t) = Some r0
                /\ Re.spaces1 r0 = Some r1
                /\ Re.lit eqci (str kw2) r1 = Some r.
Proof.
  unfold Re.keyword2Rest.
  destruct (Re.lit eqci (str kw1) (Re.spaces0 t)) as [r0|] eqn:H0; [|discriminate].
  destruct (Re.spaces1 r0) as [r1|] eqn:H1; [|discriminate].
  destruct (Re.lit eqci (str kw2) r1) as [r2|] eqn:H2; [|discriminate].
  destruct (Re.wordEnd r2); [|discriminate]. intros E. inversion E; subst.
  exists r0, r1. auto.
Qed.

Lemma test_true {A} (m : option A) : Re.test m = true <-> exists r, m = Some r.
Proof. destruct m; simpl; split; eauto; try discriminate. intros [r ?]. discriminate. Qed.

Lemma keyword_keyword_excl kw kw' t i a b :
  nth_error (str kw) i = Some a -> nth_error (str kw') i = Some b ->
  upcase a <> upcase b ->
  Re.test (Re.keywordRest kw t) = true -> Re.test (Re.keywordRest kw' t) = false.
Proof.
  intros Ha Hb Hne H. apply test_true in H. destruct H as [r H].
  apply keywordRest_lit in H.
  destruct (Re.keywordRest kw' t) as [r'|] eqn:H'; [|reflexivity].
  apply keywordRest_lit in H'. exfalso. apply Hne.
  exact (lit_conflict _ _ _ _ _ _ _ _ H H' Ha Hb).
Qed.

Lemma keyword_keyword2_excl kw kw1 kw2 t i a b :
  nth_error (str kw) i = Some a -> nth_error (str kw1) i = Some b ->
  upcase a <> upcase b ->
  Re.test (Re.keywordRest kw t) = true -> Re.test (Re.keyword2Rest kw1 kw2 t) = false.
Proof.
  intros Ha Hb Hne H. apply test_true in H. destruct H as [r H].
  apply keywordRest_lit in H.
  destruct (Re.keyword2Rest kw1 kw2 t) as [r'|] eqn:H'; [|reflexivity].
  apply keyword2Rest_lit in H'. destruct H' as (r0 & r1 & H' & _).
  exfalso. apply Hne. exact (lit_conflict _ _ _ _ _ _ _ _ H H' Ha Hb).
Qed.

Lemma keyword2_keyword_excl kw kw1 kw2 t i a b :
  nth_error (str kw) i = Some a -> nth_error (str kw1) i = Some b ->
  upcase a <> upcase b ->
  Re.test (Re.keyword2Rest kw1 kw2 t) = true -> Re.test (Re.keywordRest kw t) = false.
Proof.
  intros Ha Hb Hne H.
  destruct (Re.test (Re.keywordRest kw t)) eqn:H'; [|reflexivity].
  rewrite (keyword_keyword2_excl kw kw1 kw2 t i a b Ha Hb Hne H') in H. discriminate.
Qed.

Lemma keyword2_keyword2_excl_first kw1 kw2 kw1' kw2' t i a b :
  nth_error (str kw1) i = Some a -> nth_error (str kw1') i = Some b ->
  upcase a <> upcase b ->
  Re.test (Re.keyword2Rest kw1 kw2 t) = true ->
  Re.test (Re.keyword2Rest kw1' kw2' t) = false.
Proof.
  intros Ha Hb Hne H. apply test_true in H. destruct H as [r H].
  apply keyword2Rest_lit in H. destruct H as (r0 & r1 & H & _).
  destruct (Re.keyword2Rest kw1' kw2' t) as [r'|] eqn:H'; [|reflexivity].
  apply keyword2Rest_lit in H'. destruct H' as (r0' & r1' & H' & _).
  exfalso. apply Hne. exact (lit_conflict _ _ _ _ _ _ _ _ H H' Ha Hb).
Qed.

Lemma keyword2_keyword2_excl_second kw1 kw2 kw2' t i a b :
  nth_error (str kw2) i = Some a -> nth_error (str kw2') i = Some b ->
  upcase a <> upcase b ->
  Re.test (Re.keyword2Rest kw1 kw2 t) = true ->
  Re.test (Re.keyword2Rest kw1 kw2' t) = false.
Proof.
  intros Ha Hb Hne H. apply test_true in H. destruct H as [r H].
  apply keyword2Rest_lit in H. destruct H as (r0 & r1 & H0 & H1 & H2).
  destruct (Re.keyword2Rest kw1 kw2' t) as [r'|] eqn:H'; [|reflexivity].
  apply keyword2Rest_lit in H'. destruct H' as (r0' & r1' & H0' & H1' & H2').
  exfalso. apply Hne. rewrite H0 in H0'. inversion H0'; subst r0'.
  rewrite H1 in H1'. inversion H1'; subst r1'.
  exact (lit_conflict _ _ _ _ _ _ _ _ H2 H2' Ha Hb).
Qed.

Lemma if_excl t :
  Re.test (Re.ifRe t) = true ->
  Re.test (Re.elseIfRe t) = false /\ Re.endIfRe t = false
  /\ Re.fnStartRe t = false /\ Re.fnEndRe t = false.
Proof.
  intros H. unfold Re.ifRe, Re.elseIfRe, Re.endIfRe, Re.fnStartRe, Re.fnEndRe in *.
  repeat split.
  - eapply (keyword_keyword2_excl _ _ _ _ 1); cycle 3; [exact H|reflexivity|reflexivity|discriminate].
  - eapply (keyword_keyword2_excl _ _ _ _ 1); cycle 3; [exact H|reflexivity|reflexivity|discriminate].
  - eapply (keyword_keyword_excl _ _ _ 1); cycle 3; [exact H|reflexivity|reflexivity|discriminate].
  - eapply (keyword_keyword2_excl _ _ _ _ 1); cycle 3; [exact H|reflexivity|reflexivity|discriminate].
Qed.

Lemma elseIf_excl t :
  Re.test (Re.elseIfRe t) = true ->
  Re.endIfRe t = false /\ Re.fnStartRe t = false /\ Re.fnEndRe t = false.
Proof.
  intros H. unfold Re.elseIfRe, Re.endIfRe, Re.fnStartRe, Re.fnEndRe in *.
  repeat split.
  - eapply (keyword2_keyword2_excl_first _ _ _ _ _ 2); cycle 3; [exact H|reflexivity|reflexivity|discriminate].
  - eapply (keyword2_keyword_excl _ _ _ _ 1); cycle 3; [exact H|reflexivity|reflexivity|discriminate].
  - eapply (keyword2_keyword2_excl_first _ _ _ _ _ 2); cycle 3; [exact H|reflexivity|reflexivity|discriminate].
Qed.

Lemma endIf_excl t :
  Re.endIfRe t = true -> Re.fnStartRe t = false /\ Re.fnEndRe t = false.
Proof.
  intros H. unfold Re.endIfRe, Re.fnStartRe, Re.fnEndRe in *. split.
  - eapply (keyword2_keyword_excl _ _ _ _ 1); cycle 3; [exact H|reflexivity|reflexivity|discriminate].
  - eapply (keyword2_keyword2_excl_second _ _ _ _ 0); cycle 3; [exact H|reflexivity|reflexivity|discriminate].
Qed.

Lemma fnStart_excl t : Re.fnStartRe t = true -> Re.fnEndRe t = false.
Proof.
  intros H. unfold Re.fnStartRe, Re.fnEndRe in *.
  eapply (keyword_keyword2_excl _ _ _ _ 1); cycle 3; [exact H|reflexivity|reflexivity|discriminate].
Qed.

Lemma for_excl t : Re.forRe t = true -> Re.endForRe t = false.
Proof.
  intros H. unfold Re.forRe, Re.endForRe in *.
  eapply (keyword_keyword2_excl _ _ _ _ 1); cycle 3; [exact H|reflexivity|reflexivity|discriminate].
Qed.

(* ================================================================== *)
(** ** The loops of the block validators *)
(* ================================================================== *)

Lemma numbered_In_gen (l : list text) a i t :
  In (i, t) (combine (seq a (length l)) l) -> a <= i /\ nth (i - a) l [] = t.
Proof.
  revert a. induction l as [|x l IH]; intros a H; simpl in H; [contradiction|].
  destruct H as [H|H].
  - inversion H; subst. rewrite Nat.sub_diag. split; [lia | reflexivity].
  - apply IH in H. destruct H as [Hle Hn]. split; [lia|].
    replace (i - a) with (S (i - S a)) by lia. exact Hn.
Qed.

Lemma numbered_lineAt doc i t : In (i, t) (numbered doc) -> lineAt doc i = t.
Proof.
  unfold numbered, lineCount, lineAt. intros H. apply numbered_In_gen in H.
  destruct H as [_ H]. rewrite Nat.sub_0_r in H. exact H.
Qed.

Lemma combine_seq_fst (l : list text) a :
  map fst (combine (seq a (length l)) l) = seq a (length l).
Proof.
  revert a. induction l as [|x l IH]; intros a; simpl; [reflexivity|].
  f_equal. apply IH.
Qed.

Lemma numbered_fst doc : map fst (numbered doc) = seq 0 (lineCount doc).
Proof. apply combine_seq_fst. Qed.




(** The shape of one round of the loop of [provideIfDiagnostics]. *)
Lemma ifLine_shape doc st i :
  let t := lineAt doc i in
  diagnostics (ifLine doc st i)
  = diagnostics st
    ++ emitIf (thenMissingAt doc i) (lineDiagnostic doc i msgThenMissing)
    ++ emitIf (unterminatedAt doc i) (lineDiagnostic doc i msgUnterminated)
    ++ emitIf (unmatchedAt KIf t (ifStack st)) (lineDiagnostic doc i msgEndIfUnmatched)
    ++ emitIf (unmatchedAt KFunction t (funcStack st))
         (lineDiagnostic doc i msgEndFunctionUnmatched)
  /\ ifStack (ifLine doc st i) = arrayStep KIf t i (ifStack st)
  /\ funcStack (ifLine doc st i) = arrayStep KFunction t i (funcStack st).
Proof.
  intros t. unfold ifLine, thenMissingAt, unterminatedAt, unmatchedAt, arrayStep.
  fold t. cbn [startMarker endMarker].
  destruct (isCommentLine t); [cbn; rewrite app_nil_r; auto|].
  destruct (Re.test (Re.ifRe t)) eqn:Hif.
  { destruct (if_excl t Hif) as (H1 & H2 & H3 & H4). rewrite H1, H2, H3, H4.
    cbn [orb negb andb].
    destruct (Re.thenAnywhereRe t); [|destruct (hasThenNearNextLine doc i)];
      destruct (existsb badComparison _); cbn; rewrite ?app_nil_r, <- ?app_assoc; auto. }
  destruct (Re.test (Re.elseIfRe t)) eqn:Hel.
  { destruct (elseIf_excl t Hel) as (H2 & H3 & H4). rewrite H2, H3, H4.
    cbn [orb negb andb].
    destruct (Re.thenAnywhereRe t); [|destruct (hasThenNearNextLine doc i)];
      destruct (existsb badComparison _); cbn; rewrite ?app_nil_r, <- ?app_assoc; auto. }
  cbn [orb negb andb emitIf app].
  destruct (Re.endIfRe t) eqn:Hend.
  { destruct (endIf_excl t Hend) as (H3 & H4). rewrite H3, H4.
    destruct (ifStack st) eqn:Hs; cbn; rewrite ?Hs, ?app_nil_r; auto. }
  destruct (Re.fnStartRe t) eqn:Hfs.
  { rewrite (fnStart_excl t Hfs). cbn. rewrite ?app_nil_r. auto. }
  destruct (Re.fnEndRe t) eqn:Hfe.
  { destruct (funcStack st) eqn:Hs; cbn; rewrite ?Hs, ?app_nil_r; auto. }
  cbn. rewrite app_nil_r. auto.
Qed.

(** The shape of one round of the loop of [provideForDiagnostics]. *)
Lemma forLine_shape doc st i :
  let t := lineAt doc i in
  forDiagnostics (forLine doc st i)
  = forDiagnostics st
    ++ emitIf (unmatchedAt KFor t (forStack st)) (lineDiagnostic doc i msgEndForUnmatched)
  /\ forStack (forLine doc st i) = arrayStep KFor t i (forStack st).
Proof.
  intros t. unfold forLine, unmatchedAt, arrayStep. fold t. cbn [startMarker endMarker].
  destruct (isCommentLine t); [cbn; rewrite app_nil_r; auto|].
  destruct (Re.forRe t) eqn:Hf.
  { cbn. rewrite app_nil_r. auto. }
  destruct (Re.endForRe t) eqn:He.
  { destruct (forStack st) eqn:Hs; cbn; rewrite ?Hs, ?app_nil_r; auto. }
  cbn. rewrite app_nil_r. auto.
Qed.





Section BlockLoops.

Variable doc : TextDocument.





End BlockLoops.



(* ================================================================== *)
(** ** Lines that start with a keyword *)
(* ================================================================== *)

Lemma dropWhile_nil_Forall p (t : text) :
  dropWhile p t = [] -> List.Forall (fun c => p c = true) t.
Proof.
  induction t as [|c t IH]; simpl; [constructor|].
  destruct (p c) eqn:Hp; [|discriminate]. intros H. constructor; auto.
Qed.

Lemma dropWhile_In p (t : text) c r :
  dropWhile p t = c :: r -> In c t /\ p c = false.
Proof.
  induction t as [|x t IH]; simpl; [discriminate|].
  destruct (p x) eqn:Hp.
  - intros H. apply IH in H. tauto.
  - intros H. inversion H; subst. auto.
Qed.

Lemma eqci_at c : eqci "@"%char c = true -> c = "@"%char.
Proof.
  destruct c as [[] [] [] [] [] [] [] []]; intros H; try discriminate H; reflexivity.
Qed.

(** A line that starts with an [@] keyword is neither blank nor a comment. *)
Lemma at_line_processed kw t r :
  Re.lit eqci ("@"%char :: kw) (Re.spaces0 t) = Some r ->
  isBlankLine t = false /\ isCommentLine t = false.
Proof.
  unfold Re.spaces0. intros H.
  destruct (dropWhile isSpace t) as [|c rest] eqn:Hd; [discriminate|].
  cbn [Re.lit] in H. destruct (eqci "@"%char c) eqn:Hc; [|discriminate].
  apply eqci_at in Hc. subst c. split.
  - unfold isBlankLine, trim. rewrite Hd.
    destruct (dropWhile isSpace (rev ("@"%char :: rest))) as [|x xs] eqn:Hr.
    + apply dropWhile_nil_Forall in Hr. rewrite List.Forall_forall in Hr.
      specialize (Hr "@"%char). cbn in Hr.
      assert (Hin : In "@"%char (rev rest ++ ["@"%char])).
      { apply in_or_app. right. left. reflexivity. }
      apply Hr in Hin. discriminate Hin.
    + destruct (rev (x :: xs)) eqn:Hrev; [|reflexivity].
      apply (f_equal (@length ascii)) in Hrev. rewrite length_rev in Hrev. discriminate.
  - unfold isCommentLine. clear H.
    induction t as [|x t IH]; [discriminate|].
    cbn [dropWhile] in *. destruct (isBlankTab x) eqn:Hb.
    + assert (Hs : isSpace x = true).
      { unfold isBlankTab in Hb. unfold isSpace.
        apply orb_true_iff in Hb. destruct Hb as [Hb|Hb]; apply Nat.eqb_eq in Hb;
          rewrite Hb; reflexivity. }
      rewrite Hs in Hd. apply IH. exact Hd.
    + destruct (isSpace x) eqn:Hs.
      * destruct (eqc x "#"%char) eqn:Hx; [|reflexivity].
        apply eqc_true in Hx. subst x. discriminate Hs.
      * inversion Hd; subst. reflexivity.
Qed.

Lemma if_line_not_comment t :
  Re.test (Re.ifRe t) = true \/ Re.test (Re.elseIfRe t) = true ->
  isCommentLine t = false.
Proof.
  intros [H|H]; apply test_true in H; destruct H as [r H].
  - apply keywordRest_lit in H. eapply at_line_processed. exact H.
  - apply keyword2Rest_lit in H. destruct H as (r0 & _ & H & _).
    eapply at_line_processed. exact H.
Qed.

(* ================================================================== *)
(** ** The [@Then] check *)
(* ================================================================== *)

Lemma hasThenNearNextLine_spec doc line :
  hasThenNearNextLine doc line = true <-> thenOnNextLine doc line.
Proof.
  unfold hasThenNearNextLine, thenOnNextLine.
  destruct (Nat.le_gt_cases (lineCount doc) (line + 1)) as [Hn|Hn].
  { replace (Nat.min (lineCount doc) (line + 3) - (line + 1)) with 0 by lia.
    simpl. split; [discriminate|]. intros (k & Hk & Hlt & _). lia. }
  destruct (Nat.eq_dec (lineCount doc) (line + 2)) as [Hn2|Hn2].
  { replace (Nat.min (lineCount doc) (line + 3) - (line + 1)) with 1 by lia.
    cbn [seq hasThenLoop].
    destruct (isBlankLine (lineAt doc (line + 1))) eqn:Hb.
    { split; [discriminate|]. intros (k & Hk & Hlt & Hb' & _).
      assert (k = 1) by lia. subst k. congruence. }
    destruct (isCommentLine (lineAt doc (line + 1))) eqn:Hc.
    { split; [discriminate|]. intros (k & Hk & Hlt & _ & Hc' & _).
      assert (k = 1) by lia. subst k. congruence. }
    split.
    - intros Ht. exists 1. repeat split; auto; intros; lia.
    - intros (k & Hk & Hlt & _ & _ & Ht & _). assert (k = 1) by lia. subst k. exact Ht. }
  replace (Nat.min (lineCount doc) (line + 3) - (line + 1)) with 2 by lia.
  cbn [seq hasThenLoop]. replace (S (line + 1)) with (line + 2) by lia.
  assert (Hskip :
    isBlankLine (lineAt doc (line + 1)) = true
    \/ isCommentLine (lineAt doc (line + 1)) = true ->
    (hasThenLoop doc [line + 2] = true <->
     exists k, (k = 1 \/ k = 2) /\ line + k < lineCount doc
       /\ isBlankLine (lineAt doc (line + k)) = false
       /\ isCommentLine (lineAt doc (line + k)) = false
       /\ Re.thenStartRe (lineAt doc (line + k)) = true
       /\ forall k', 1 <= k' < k ->
            isBlankLine (lineAt doc (line + k')) = true
            \/ isCommentLine (lineAt doc (line + k')) = true)).
  { intros Hfirst. cbn [hasThenLoop].
    destruct (isBlankLine (lineAt doc (line + 2))) eqn:Hb2.
    { split; [discriminate|]. intros (k & [->| ->] & _ & Hb' & Hc' & _).
      - destruct Hfirst; congruence.
      - congruence. }
    destruct (isCommentLine (lineAt doc (line + 2))) eqn:Hc2.
    { split; [discriminate|]. intros (k & [->| ->] & _ & Hb' & Hc' & _).
      - destruct Hfirst; congruence.
      - congruence. }
    split.
    - intros Ht. exists 2. repeat split; auto; try lia.
      intros k' Hk'. replace k' with 1 by lia. exact Hfirst.
    - intros (k & [->| ->] & _ & Hb' & Hc' & Ht & _).
      + destruct Hfirst; congruence.
      + exact Ht. }
  destruct (isBlankLine (lineAt doc (line + 1))) eqn:Hb.
  { apply Hskip. left. reflexivity. }
  destruct (isCommentLine (lineAt doc (line + 1))) eqn:Hc.
  { apply Hskip. right. reflexivity. }
  split.
  - intros Ht. exists 1. repeat split; auto; intros; lia.
  - intros (k & [->| ->] & _ & _ & _ & Ht & Hbetween).
    + exact Ht.
    + destruct (Hbetween 1 ltac:(lia)); congruence.
Qed.

Lemma thenAt_lineDiagnostic l doc i m :
  thenAt l (lineDiagnostic doc i m) = (i =? l) && eqText m msgThenMissing.
Proof. reflexivity. Qed.

Ltac then_compute :=
  repeat match goal with
         | |- context [eqText ?m msgThenMissing] =>
             let b := eval vm_compute in (eqText m msgThenMissing) in
             change (eqText m msgThenMissing) with b
         end.

Lemma filter_thenAt_emitIf l b doc i m :
  List.filter (thenAt l) (emitIf b (lineDiagnostic doc i m))
  = if (i =? l) && eqText m msgThenMissing then emitIf b (lineDiagnostic doc i m) else [].
Proof.
  destruct b; cbn [emitIf List.filter].
  - rewrite thenAt_lineDiagnostic. destruct ((i =? l) && eqText m msgThenMissing); reflexivity.
  - destruct ((i =? l) && eqText m msgThenMissing); reflexivity.
Qed.

Lemma filter_thenAt_map l doc m (xs : list nat) :
  eqText m msgThenMissing = false ->
  List.filter (thenAt l) (map (fun line => lineDiagnostic doc line m) xs) = [].
Proof.
  intros Hm. induction xs as [|x xs IH]; cbn [map List.filter]; [reflexivity|].
  rewrite thenAt_lineDiagnostic, Hm, andb_false_r. exact IH.
Qed.

Lemma ifLoop_thenAt doc l n : forall a st,
  List.filter (thenAt l) (diagnostics (fold_left (ifLine doc) (seq a n) st))
  = List.filter (thenAt l) (diagnostics st)
    ++ emitIf ((a <=? l) && (l <? a + n) && thenMissingAt doc l)
         (lineDiagnostic doc l msgThenMissing).
Proof.
  induction n as [|n IH]; intros a st; cbn [seq fold_left].
  - replace ((a <=? l) && (l <? a + 0)) with false.
    + cbn. rewrite app_nil_r. reflexivity.
    + symmetry. destruct (a <=? l) eqn:E1; [|reflexivity].
      apply Nat.leb_le in E1. cbn. apply Nat.ltb_ge. lia.
  - rewrite IH. destruct (ifLine_shape doc st a) as (Hd & _). rewrite Hd.
    rewrite !List.filter_app, !filter_thenAt_emitIf. then_compute.
    rewrite !andb_false_r, !andb_true_r. cbv iota.
    rewrite !app_nil_r, <- app_assoc. f_equal.
    destruct (a =? l) eqn:E.
    + apply Nat.eqb_eq in E. subst a.
      replace (S l <=? l) with false by (symmetry; apply Nat.leb_gt; lia).
      replace (l <=? l) with true by (symmetry; apply Nat.leb_le; lia).
      replace (l <? l + S n) with true by (symmetry; apply Nat.ltb_lt; lia).
      cbn [andb emitIf]. apply app_nil_r.
    + apply Nat.eqb_neq in E. cbn [app].
      replace ((S a <=? l) && (l <? S a + n)) with ((a <=? l) && (l <? a + S n)); [reflexivity|].
      destruct (a <=? l) eqn:E1, (S a <=? l) eqn:E2, (l <? a + S n) eqn:E3,
               (l <? S a + n) eqn:E4; try reflexivity; exfalso;
        rewrite ?Nat.leb_le, ?Nat.leb_gt, ?Nat.ltb_lt, ?Nat.ltb_ge in *; lia.
Qed.

Lemma forLoop_thenAt doc l idxs : forall st,
  List.filter (thenAt l) (forDiagnostics (fold_left (forLine doc) idxs st))
  = List.filter (thenAt l) (forDiagnostics st).
Proof.
  induction idxs as [|i idxs IH]; intros st; cbn [fold_left]; [reflexivity|].
  rewrite IH. destruct (forLine_shape doc st i) as (Hd & _). rewrite Hd.
  rewrite List.filter_app, filter_thenAt_emitIf. then_compute.
  rewrite andb_false_r. cbv iota. apply app_nil_r.
Qed.

(* ================================================================== *)
(** ** The declaration and use validator *)
(* ================================================================== *)

Lemma varWalk_S doc n :
  varWalk doc (S n) = varLine doc (buildFuncLineMap doc) (varWalk doc n) n.
Proof. unfold varWalk. rewrite seq_S, fold_left_app. reflexivity. Qed.

Lemma test_false {A} (m : option A) : Re.test m = false <-> m = None.
Proof. destruct m; simpl; split; congruence. Qed.

(** One round of the walk, by the role of the line. *)
Lemma varLine_cases doc n :
  let st := varWalk doc n in
  let st' := varWalk doc (S n) in
  (isProcessed doc n = false /\ st' = st)
  \/ (isProcessed doc n = true /\ exists name,
        Re.fnNameRe (masked doc n) = Some name
        /\ ((scopeOf doc n <> (-1)%Z /\ st' = addLocal st (scopeOf doc n) name)
            \/ (scopeOf doc n = (-1)%Z /\ st' = st)))
  \/ (isProcessed doc n = true /\ Re.fnNameRe (masked doc n) = None /\ exists name,
        Re.declRe (masked doc n) = Some name
        /\ ((scopeOf doc n = (-1)%Z /\ st' = addGlobal st name)
            \/ (scopeOf doc n <> (-1)%Z /\ st' = addLocal st (scopeOf doc n) name)))
  \/ (isUseLine doc n = true
      /\ Re.fnNameRe (masked doc n) = None /\ Re.declRe (masked doc n) = None
      /\ varDiagnostics st' = varDiagnostics st ++ lineUseDiagnostics doc n
      /\ globalDeclared st' = globalDeclared st
      /\ localDeclaredByFunc st' = localDeclaredByFunc st).
Proof.
  cbv zeta. rewrite varWalk_S.
  unfold varLine, lineUseDiagnostics, isUseLine, isProcessed.
  fold (scopeOf doc n). fold (masked doc n).
  destruct (isBlankLine (lineAt doc n)); [left; auto|].
  destruct (isCommentLine2 (lineAt doc n)); [left; auto|].
  right. cbn [negb andb].
  destruct (Re.fnNameRe (masked doc n)) as [fname|] eqn:Hfn.
  { left. split; [reflexivity|]. exists fname. split; [reflexivity|].
    destruct (scopeOf doc n =? -1)%Z eqn:E; cbn [negb].
    - right. apply Z.eqb_eq in E. auto.
    - left. apply Z.eqb_neq in E. auto. }
  right. destruct (Re.declRe (masked doc n)) as [vname|] eqn:Hd.
  { left. split; [reflexivity|]. split; [reflexivity|]. exists vname.
    split; [reflexivity|].
    destruct (scopeOf doc n =? -1)%Z eqn:E.
    - left. apply Z.eqb_eq in E. auto.
    - right. apply Z.eqb_neq in E. auto. }
  right. cbn. repeat split; reflexivity.
Qed.



(** The diagnostics after the first [n] lines. *)
Lemma varWalk_diagnostics doc n :
  varDiagnostics (varWalk doc n) = flat_map (lineUseDiagnostics doc) (seq 0 n).
Proof.
  induction n as [|n IH]; [reflexivity|].
  rewrite seq_S, flat_map_app. cbn [flat_map Nat.add]. rewrite app_nil_r, <- IH.
  destruct (varLine_cases doc n)
    as [(Hp & ->)
       |[(Hp & fname & Hfn & [(Hk & ->)|(Hk & ->)])
        |[(Hp & Hfn & vname & Hd & [(Hk & ->)|(Hk & ->)])
         |(Hu & _ & _ & Hdiag & _)]]];
    try exact Hdiag;
    cbn [addLocal addGlobal varDiagnostics];
    unfold lineUseDiagnostics, isUseLine;
    rewrite ?Hp, ?Hfn, ?Hd; cbn [Re.test negb andb]; rewrite ?andb_false_r, app_nil_r;
    reflexivity.
Qed.


Lemma lineUseDiagnostics_In doc l' d :
  In d (lineUseDiagnostics doc l') <->
  isUseLine doc l' = true
  /\ exists use, In use (usesOf (masked doc l'))
       /\ allowedInThisLine (varWalk doc l') (scopeOf doc l') (fst use) = false
       /\ d = undeclaredDiagnostic l' (scopeOf doc l') use.
Proof.
  unfold lineUseDiagnostics, useDiagnostics.
  destruct (isUseLine doc l').
  - rewrite in_map_iff. split.
    + intros (use & <- & Hin). apply filter_In in Hin. destruct Hin as [Hin Ha].
      apply negb_true_iff in Ha. split; [reflexivity|]. exists use. auto.
    + intros (_ & use & Hin & Ha & ->). exists use. split; [reflexivity|].
      apply filter_In. split; [exact Hin|]. rewrite Ha. reflexivity.
  - split; [contradiction|]. intros [H _]. discriminate.
Qed.

Lemma varDiagnostics_In doc n d :
  In d (varDiagnostics (varWalk doc n))
  <-> exists l', l' < n /\ In d (lineUseDiagnostics doc l').
Proof.
  rewrite varWalk_diagnostics, in_flat_map. split.
  - intros (l' & Hin & Hd). apply in_seq in Hin. exists l'. split; [lia | exact Hd].
  - intros (l' & Hlt & Hd). exists l'. split; [apply in_seq; lia | exact Hd].
Qed.









(* ================================================================== *)
(** ** The scan of a line *)
(* ================================================================== *)

Lemma takeWhile_nth p (l : text) : forall m c,
  m < length (takeWhile p l) -> nth_error l m = Some c -> p c = true.
Proof.
  induction l as [|x l IH]; intros m c Hm Hn; simpl in *; [lia|].
  destruct (p x) eqn:Hp; simpl in Hm; [|lia].
  destruct m as [|m]; simpl in Hn.
  - inversion Hn; subst. exact Hp.
  - apply (IH m); [lia | exact Hn].
Qed.

Lemma skipWhile_ge p line j : j <= skipWhile p line j.
Proof. unfold skipWhile. lia. Qed.

Lemma skipWhile_range p line j k c :
  j <= k < skipWhile p line j -> charAt line k = Some c -> p c = true.
Proof.
  unfold skipWhile, charAt. intros Hk Hc.
  apply (takeWhile_nth p (skipn j line) (k - j)); [lia|].
  rewrite nth_error_skipn. replace (j + (k - j)) with k by lia. exact Hc.
Qed.

Lemma startsWith_charAt line pat i k c :
  startsWith line pat i = true -> nth_error pat k = Some c -> charAt line (i + k) = Some c.
Proof.
  unfold startsWith, charAt. intros H Hk. apply prefixBy_eqc_iff in H. destruct H as [t Ht].
  rewrite <- nth_error_skipn, Ht.
  rewrite nth_error_app1; [exact Hk|]. apply nth_error_Some. congruence.
Qed.

Lemma allQuiet_trans line a b c :
  allQuiet line a b -> allQuiet line b c -> allQuiet line a c.
Proof.
  intros H1 H2 k x Hk Hx. destruct (Nat.lt_ge_cases k b).
  - apply (H1 k); [lia | exact Hx].
  - apply (H2 k); [lia | exact Hx].
Qed.

Lemma allQuiet_empty line a b : b <= a -> allQuiet line a b.
Proof. intros H k c Hk. lia. Qed.

Lemma allQuiet_skipWhile p line j :
  (forall c, p c = true -> quietChar c = true) ->
  allQuiet line j (skipWhile p line j).
Proof. intros Hp k c Hk Hc. apply Hp. eapply skipWhile_range; eassumption. Qed.

Lemma allQuiet_startsWith line pat i :
  startsWith line pat i = true -> forallb quietChar pat = true ->
  allQuiet line i (i + length pat).
Proof.
  intros Hs Hq k c Hk Hc.
  destruct (nth_error pat (k - i)) as [x|] eqn:Hx.
  - pose proof (startsWith_charAt _ _ _ _ _ Hs Hx) as Hc'.
    replace (i + (k - i)) with k in Hc' by lia.
    rewrite forallb_forall in Hq. apply Hq. apply nth_error_In in Hx. congruence.
  - apply nth_error_None in Hx. lia.
Qed.

Lemma allQuiet_one line j c :
  charAt line j = Some c -> quietChar c = true -> allQuiet line j (j + 1).
Proof.
  intros Hc Hq k x Hk Hx. replace k with j in Hx by lia. congruence.
Qed.

Lemma space_quiet c : isSpace c = true -> quietChar c = true.
Proof.
  destruct c as [[] [] [] [] [] [] [] []]; intros H; try discriminate H; reflexivity.
Qed.

Lemma word_quiet c : isWordChar c = true -> quietChar c = true.
Proof.
  destruct c as [[] [] [] [] [] [] [] []]; intros H; try discriminate H; reflexivity.
Qed.

Lemma optIs_quiet line j x :
  optIs (charAt line j) x = true -> quietChar x = true -> allQuiet line j (j + 1).
Proof.
  intros H Hq. apply optIs_true in H. eapply allQuiet_one; eassumption.
Qed.

Lemma operatorTokens_quiet line lineNo k c :
  quietChar c = true -> operatorTokens line lineNo k c = [].
Proof.
  unfold quietChar, operatorTokens. intros H. apply andb_true_iff in H.
  destruct H as [H1 H2]. apply negb_true_iff in H1, H2. rewrite H1, H2. reflexivity.
Qed.

Lemma allQuiet_noOperator line lineNo a b :
  allQuiet line a b -> noOperator line lineNo a b.
Proof. intros H k c Hk Hc. apply operatorTokens_quiet. eapply H; eassumption. Qed.

(** An optional [@] at [j]. *)
Lemma allQuiet_optional_at line j :
  allQuiet line j (if optIs (charAt line j) "@"%char then j + 1 else j).
Proof.
  destruct (optIs (charAt line j) "@"%char) eqn:H.
  - eapply optIs_quiet; [exact H | reflexivity].
  - apply allQuiet_empty. lia.
Qed.

Lemma ifParenIndex_quiet line i (isIf : bool) j :
  startsWith line (str (if isIf then "@If" else "@Else")%string) i = true ->
  ifParenIndex line i isIf = Some j ->
  i <= j /\ allQuiet line i (j + 1).
Proof.
  intros Hs. unfold ifParenIndex.
  set (j0 := if isIf then i + 3 else i + 5).
  set (j1 := skipWhile isSpace line j0).
  set (j2 := if negb isIf && startsWith line (str "If") j1 then j1 + 2 else j1).
  set (j3 := skipWhile isSpace line j2).
  set (j4 := if optIs (charAt line j3) "@"%char then j3 + 1 else j3).
  set (j5 := skipWhile isSpace line j4).
  destruct (optIs (charAt line j5) "("%char) eqn:Hp; [|discriminate].
  intros E. inversion E; subst j. clear E.
  assert (H0 : i <= j0 /\ allQuiet line i j0).
  { unfold j0. destruct isIf.
    - split; [lia|]. apply (allQuiet_startsWith line (str "@If") i Hs). reflexivity.
    - split; [lia|]. apply (allQuiet_startsWith line (str "@Else") i Hs). reflexivity. }
  assert (H1 : j0 <= j1 /\ allQuiet line j0 j1).
  { split; [apply skipWhile_ge | apply allQuiet_skipWhile, space_quiet]. }
  assert (H2 : j1 <= j2 /\ allQuiet line j1 j2).
  { unfold j2. destruct (negb isIf && startsWith line (str "If") j1) eqn:Hif.
    - apply andb_true_iff in Hif. destruct Hif as [_ Hif]. split; [lia|].
      apply (allQuiet_startsWith line (str "If") j1 Hif). reflexivity.
    - split; [lia | apply allQuiet_empty; lia]. }
  assert (H3 : j2 <= j3 /\ allQuiet line j2 j3).
  { split; [apply skipWhile_ge | apply allQuiet_skipWhile, space_quiet]. }
  assert (H4 : j3 <= j4 /\ allQuiet line j3 j4).
  { split; [unfold j4; destruct (optIs _ _); lia | apply allQuiet_optional_at]. }
  assert (H5 : j4 <= j5 /\ allQuiet line j4 j5).
  { split; [apply skipWhile_ge | apply allQuiet_skipWhile, space_quiet]. }
  assert (H6 : allQuiet line j5 (j5 + 1)).
  { eapply optIs_quiet; [exact Hp | reflexivity]. }
  split; [lia|].
  apply (allQuiet_trans _ _ j0); [tauto|].
  apply (allQuiet_trans _ _ j1); [tauto|].
  apply (allQuiet_trans _ _ j2); [tauto|].
  apply (allQuiet_trans _ _ j3); [tauto|].
  apply (allQuiet_trans _ _ j4); [tauto|].
  apply (allQuiet_trans _ _ j5); [tauto|].
  exact H6.
Qed.

Lemma lit_eqc_app pat : forall s r, Re.lit eqc pat s = Some r -> s = pat ++ r.
Proof.
  induction pat as [|p pat IH]; intros s r H; simpl in H.
  - inversion H. reflexivity.
  - destruct s as [|c s]; [discriminate|]. destruct (eqc p c) eqn:E; [|discriminate].
    apply eqc_true in E. subst c. simpl. f_equal. apply IH. exact H.
Qed.

(** A match of the Map pattern is one of six literals. *)
Lemma mapNameAt_spec s len :
  TokenRe.mapNameAt s = Some len ->
  exists pat, prefixBy eqc pat s = true /\ length pat = len
              /\ forallb quietChar pat = true /\ 0 < len.
Proof.
  unfold TokenRe.mapNameAt.
  destruct (Re.lit eqc (str "@Map.") s) as [r|] eqn:H0; [|discriminate].
  apply lit_eqc_app in H0.
  assert (Hkw : forall kw r1,
             r = str kw ++ r1 -> forallb quietChar (str kw) = true ->
             exists pat, prefixBy eqc pat s = true
               /\ length pat
                  = length s - length r1
                    + match r1 with
                      | c :: _ => if eqc c "@"%char then 1 else 0
                      | [] => 0
                      end
               /\ forallb quietChar pat = true /\ 0 < length pat).
  { intros kw r1 Hr Hq. subst r. subst s.
    assert (Hlen : length (str "@Map." ++ str kw ++ r1) - length r1
                   = length (str "@Map." ++ str kw)).
    { rewrite !length_app. lia. }
    rewrite Hlen.
    destruct r1 as [|c r1'].
    - exists (str "@Map." ++ str kw). repeat split.
      + apply prefixBy_eqc_iff. exists []. rewrite <- app_assoc. reflexivity.
      + lia.
      + rewrite forallb_app, Hq. reflexivity.
      + rewrite length_app. simpl. lia.
    - destruct (eqc c "@"%char) eqn:Hc.
      + apply eqc_true in Hc. subst c.
        exists ((str "@Map." ++ str kw) ++ ["@"%char]). repeat split.
        * apply prefixBy_eqc_iff. exists r1'. rewrite <- !app_assoc. reflexivity.
        * rewrite length_app. simpl. lia.
        * rewrite !forallb_app, Hq. reflexivity.
        * rewrite !length_app. simpl. lia.
      + exists (str "@Map." ++ str kw). repeat split.
        * apply prefixBy_eqc_iff. exists (c :: r1'). rewrite <- app_assoc. reflexivity.
        * lia.
        * rewrite forallb_app, Hq. reflexivity.
        * rewrite length_app. simpl. lia. }
  destruct (Re.lit eqc (str "Get") r) as [r1|] eqn:H1.
  { apply lit_eqc_app in H1. intros E. inversion E; subst len.
    destruct (Hkw "Get"%string r1 H1 eq_refl) as (pat & P1 & P2 & P3 & P4).
    exists pat. rewrite <- P2. auto. }
  destruct (Re.lit eqc (str "Set") r) as [r2|] eqn:H2.
  { apply lit_eqc_app in H2. intros E. inversion E; subst len.
    destruct (Hkw "Set"%string r2 H2 eq_refl) as (pat & P1 & P2 & P3 & P4).
    exists pat. rewrite <- P2. auto. }
  destruct (Re.lit eqc (str "Clear") r) as [r3|] eqn:H3; [|discriminate].
  apply lit_eqc_app in H3. intros E. inversion E; subst len.
  destruct (Hkw "Clear"%string r3 H3 eq_refl) as (pat & P1 & P2 & P3 & P4).
  exists pat. rewrite <- P2. auto.
Qed.

Lemma mapCall_quiet line lineNo i tok j :
  mapCall line lineNo i = Some (tok, j) -> i <= j /\ allQuiet line i (j + 1).
Proof.
  unfold mapCall.
  destruct (TokenRe.mapNameAt (sliceFrom line i)) as [len|] eqn:Hm; [|discriminate].
  apply mapNameAt_spec in Hm. destruct Hm as (pat & Hp & Hl & Hq & Hpos).
  set (j1 := skipWhile isSpace line (i + len)).
  set (j2 := if optIs (charAt line j1) "@"%char then j1 + 1 else j1).
  destruct (optIs (charAt line j2) "("%char) eqn:Hparen; [|discriminate].
  intros E. inversion E; subst. clear E.
  assert (H0 : allQuiet line i (i + length pat)).
  { apply allQuiet_startsWith; [exact Hp | exact Hq]. }
  assert (H1 : i + length pat <= j1 /\ allQuiet line (i + length pat) j1).
  { split; [apply skipWhile_ge | apply allQuiet_skipWhile, space_quiet]. }
  assert (H2 : j1 <= j2 /\ allQuiet line j1 j2).
  { split; [unfold j2; destruct (optIs _ _); lia | apply allQuiet_optional_at]. }
  assert (H3 : allQuiet line j2 (j2 + 1)).
  { eapply optIs_quiet; [exact Hparen | reflexivity]. }
  split; [lia|].
  apply (allQuiet_trans _ _ (i + length pat)); [tauto|].
  apply (allQuiet_trans _ _ j1); [tauto|].
  apply (allQuiet_trans _ _ j2); [tauto|].
  exact H3.
Qed.

Lemma takeWhile_all p (l : text) : forallb p (takeWhile p l) = true.
Proof.
  induction l as [|x l IH]; simpl; [reflexivity|].
  destruct (p x) eqn:Hp; simpl; [rewrite Hp; exact IH | reflexivity].
Qed.

Lemma takeWhile_dropWhile p (l : text) : takeWhile p l ++ dropWhile p l = l.
Proof.
  induction l as [|x l IH]; simpl; [reflexivity|].
  destruct (p x); simpl; [f_equal; exact IH | reflexivity].
Qed.

Lemma forallb_impl (p q : ascii -> bool) (l : text) :
  (forall c, p c = true -> q c = true) -> forallb p l = true -> forallb q l = true.
Proof.
  intros H. induction l as [|x l IH]; simpl; [reflexivity|].
  intros E. apply andb_true_iff in E. destruct E as [E1 E2].
  rewrite (H x E1), (IH E2). reflexivity.
Qed.

(** The name after an [@] is made of word characters. *)
Lemma atNameRe_spec s name :
  TokenRe.atNameRe s = Some name ->
  prefixBy eqc ("@"%char :: name) s = true /\ forallb quietChar name = true.
Proof.
  unfold TokenRe.atNameRe. destruct s as [|c r]; [discriminate|].
  destruct (eqc c "@"%char) eqn:Hc; [|discriminate]. apply eqc_true in Hc. subst c.
  unfold Re.ident. destruct r as [|x r]; [discriminate|].
  destruct (isIdentStart x) eqn:Hx; [|discriminate].
  intros E. inversion E; subst name. clear E. split.
  - apply prefixBy_eqc_iff. exists (dropWhile isWordChar r).
    simpl. rewrite takeWhile_dropWhile. reflexivity.
  - simpl. rewrite word_quiet by (unfold isWordChar; rewrite Hx; reflexivity).
    apply (forallb_impl isWordChar); [apply word_quiet | apply takeWhile_all].
Qed.

Lemma genericCall_quiet line lineNo i ch tok k j :
  genericCall line lineNo i ch = Some (tok, k, j) -> i <= j /\ allQuiet line i (j + 1).
Proof.
  unfold genericCall. destruct (eqc ch "@"%char); [|discriminate].
  destruct (TokenRe.atNameRe (sliceFrom line i)) as [name|] eqn:Hn; [|discriminate].
  apply atNameRe_spec in Hn. destruct Hn as [Hp Hq].
  destruct (bool_decide (name = str "Map") && optIs _ "."%char); [discriminate|].
  destruct (has AT_CONTROL_WORDS name); [discriminate|].
  destruct (has WRITER_KEYWORDS name); [discriminate|].
  destruct (getCallParenIndex line i (length name)) as [parenIdx|] eqn:Hg; [|discriminate].
  intros E. inversion E; subst. clear E.
  unfold getCallParenIndex in Hg.
  set (j0 := i + 1 + length name) in *.
  set (j1 := if (j0 <? length line) && optIs (charAt line j0) "@"%char then j0 + 1 else j0) in *.
  set (j2 := skipWhile isSpace line j1) in *.
  destruct ((j2 <? length line) && optIs (charAt line j2) "("%char) eqn:Hparen; [|discriminate].
  inversion Hg; subst j. clear Hg.
  apply andb_true_iff in Hparen. destruct Hparen as [_ Hparen].
  assert (H0 : allQuiet line i j0).
  { replace j0 with (i + length ("@"%char :: name)) by (unfold j0; simpl; lia).
    apply allQuiet_startsWith; [exact Hp|]. simpl. exact Hq. }
  assert (H1 : j0 <= j1 /\ allQuiet line j0 j1).
  { unfold j1. destruct ((j0 <? length line) && optIs (charAt line j0) "@"%char) eqn:Ha.
    - apply andb_true_iff in Ha. destruct Ha as [_ Ha]. split; [lia|].
      eapply optIs_quiet; [exact Ha | reflexivity].
    - split; [lia | apply allQuiet_empty; lia]. }
  assert (H2 : j1 <= j2 /\ allQuiet line j1 j2).
  { split; [apply skipWhile_ge | apply allQuiet_skipWhile, space_quiet]. }
  assert (H3 : allQuiet line j2 (j2 + 1)).
  { eapply optIs_quiet; [exact Hparen | reflexivity]. }
  split; [unfold j0 in *; lia|].
  apply (allQuiet_trans _ _ j0); [tauto|].
  apply (allQuiet_trans _ _ j1); [tauto|].
  apply (allQuiet_trans _ _ j2); [tauto|].
  exact H3.
Qed.

Lemma noOperator_empty line lineNo a b : b <= a -> noOperator line lineNo a b.
Proof. intros H k c Hk. lia. Qed.

Lemma noOperator_sub line lineNo a b a' b' :
  a <= a' -> b' <= b -> noOperator line lineNo a b -> noOperator line lineNo a' b'.
Proof. intros Ha Hb H k c Hk Hc. apply (H k c); [lia | exact Hc]. Qed.

Lemma startsWith_two line (x y : ascii) i :
  startsWith line [x; y] i = true ->
  charAt line i = Some x /\ charAt line (i + 1) = Some y.
Proof.
  intros H. split.
  - rewrite <- (Nat.add_0_r i). eapply startsWith_charAt; [exact H | reflexivity].
  - eapply startsWith_charAt; [exact H | reflexivity].
Qed.

(** After [>] or [<] an [=] gets no operator highlight. *)
Lemma operatorTokens_after_angle line lineNo i (x : ascii) :
  x = ">"%char \/ x = "<"%char ->
  charAt line i = Some x ->
  operatorTokens line lineNo (i + 1) "="%char = [].
Proof.
  intros Hx Hc. unfold operatorTokens.
  replace (prevChar line (i + 1)) with (Some x)
    by (rewrite Nat.add_1_r; simpl; unfold charAt in Hc; congruence).
  destruct Hx as [-> | ->]; reflexivity.
Qed.

Lemma logicToken_quiet line lineNo i ch tok skip :
  logicToken line lineNo i ch = Some (tok, skip) ->
  noOperator line lineNo (i + 1) (i + skip + 1).
Proof.
  unfold logicToken.
  destruct (startsWith line (str "And") i && isWordBoundary line i 3) eqn:Hand.
  { intros E. inversion E; subst. apply andb_true_iff in Hand. destruct Hand as [Hs _].
    apply allQuiet_noOperator.
    intros k c Hk Hc. apply (allQuiet_startsWith line (str "And") i Hs eq_refl k c); [|exact Hc].
    simpl. lia. }
  destruct (startsWith line (str "Or") i && isWordBoundary line i 2) eqn:Hor.
  { intros E. inversion E; subst. apply andb_true_iff in Hor. destruct Hor as [Hs _].
    apply allQuiet_noOperator.
    intros k c Hk Hc. apply (allQuiet_startsWith line (str "Or") i Hs eq_refl k c); [|exact Hc].
    simpl. lia. }
  destruct (startsWith line (str ">=") i) eqn:Hge.
  { intros E. inversion E; subst. apply startsWith_two in Hge. destruct Hge as [H1 H2].
    intros k c Hk Hc. replace k with (i + 1) in * by lia.
    assert (c = "="%char) by congruence. subst c.
    eapply operatorTokens_after_angle; [left; reflexivity | exact H1]. }
  destruct (startsWith line (str "<=") i) eqn:Hle.
  { intros E. inversion E; subst. apply startsWith_two in Hle. destruct Hle as [H1 H2].
    intros k c Hk Hc. replace k with (i + 1) in * by lia.
    assert (c = "="%char) by congruence. subst c.
    eapply operatorTokens_after_angle; [right; reflexivity | exact H1]. }
  destruct (startsWith line (str "<>") i) eqn:Hne.
  { intros E. inversion E; subst. apply startsWith_two in Hne. destruct Hne as [H1 H2].
    intros k c Hk Hc. replace k with (i + 1) in * by lia.
    assert (c = ">"%char) by congruence. subst c. reflexivity. }
  cbn [orb].
  destruct (eqc ch "="%char || eqc ch ">"%char || eqc ch "<"%char); [|discriminate].
  intros E. inversion E; subst. apply noOperator_empty. lia.
Qed.

Lemma metaExtentLoop_ge fuel line : forall j, j <= metaExtentLoop fuel line j.
Proof.
  induction fuel as [|fuel IH]; intros j; simpl; [lia|].
  destruct (charAt line j) as [c|]; [|lia].
  destruct (eqc c "."%char).
  { etransitivity; [|apply IH]. pose proof (skipWhile_ge isWordChar line (j + 1)). lia. }
  destruct (eqc c "["%char).
  { etransitivity; [|apply IH].
    pose proof (skipWhile_ge notCloseBracket line (j + 1)).
    destruct (_ && _); lia. }
  destruct (eqc c "!"%char); [|lia].
  etransitivity; [|apply IH]. lia.
Qed.

Lemma metaExtentEnd_gt line i : i < metaExtentEnd line i.
Proof.
  unfold metaExtentEnd.
  pose proof (metaExtentLoop_ge (length line) line (skipWhile isWordChar line (i + 1))).
  pose proof (skipWhile_ge isWordChar line (i + 1)). lia.
Qed.

Lemma trackIfParens_quote ch st : inSingleQuote (trackIfParens ch st) = inSingleQuote st.
Proof.
  unfold trackIfParens. destruct (0 <? ifParenDepth st); [|reflexivity].
  destruct (eqc ch "("%char); [reflexivity|].
  destruct (eqc ch ")"%char); [|reflexivity].
  destruct (ifParenDepth st - 1 =? 0); reflexivity.
Qed.

Lemma trackCallParens_quote ch st : inSingleQuote (trackCallParens ch st) = inSingleQuote st.
Proof.
  unfold trackCallParens. destruct (stack st) as [|t below]; [reflexivity|].
  destruct (eqc ch "("%char); [reflexivity|].
  destruct (eqc ch ")"%char); [|reflexivity].
  destruct (depth t - 1 =? 0); reflexivity.
Qed.

(** One round of the scan: the index does not go back, the quote flag stays
    down, the operator highlight of the round is among its tokens, and no
    column the round jumps over would have got one. *)
Lemma scanAt_spec line lineNo i ch st :
  charAt line i = Some ch -> inSingleQuote st = false ->
  i <= snd (fst (scanAt line lineNo i ch st))
  /\ inSingleQuote (snd (scanAt line lineNo i ch st)) = false
  /\ (forall t, In t (operatorTokens line lineNo i ch) ->
                In t (fst (fst (scanAt line lineNo i ch st))))
  /\ noOperator line lineNo (i + 1) (snd (fst (scanAt line lineNo i ch st)) + 1).
Proof.
  intros Hch Hq. unfold scanAt.
  assert (Hcaret : eqc ch "^"%char = true ->
                   forall t, In t (operatorTokens line lineNo i ch) -> False).
  { intros E t. apply eqc_true in E. subst ch. simpl. auto. }
  destruct (eqc ch "^"%char && startsWith line (str "^Data") i) eqn:B1.
  { cbn [fst snd]. apply andb_true_iff in B1. destruct B1 as [B1 _].
    repeat split; [lia | exact Hq | | apply noOperator_empty; lia].
    intros t Ht. exfalso. exact (Hcaret B1 t Ht). }
  destruct (eqc ch "^"%char && startsWith line (str "^Class") i) eqn:B2.
  { cbn [fst snd]. apply andb_true_iff in B2. destruct B2 as [B2 _].
    repeat split; [lia | exact Hq | | apply noOperator_empty; lia].
    intros t Ht. exfalso. exact (Hcaret B2 t Ht). }
  rewrite Hq.
  destruct (eqc ch "^"%char
            && (startsWith line (str "^Data") i || startsWith line (str "^Class") i)) eqn:B3.
  { exfalso. destruct (eqc ch "^"%char); [|discriminate].
    cbn [andb] in *. rewrite B1, B2 in B3. discriminate. }
  set (toks1 := declTokens line lineNo i ++ operatorTokens line lineNo i ch).
  assert (Hin : forall t, In t (operatorTokens line lineNo i ch) -> In t toks1).
  { intros t Ht. apply in_or_app. right. exact Ht. }
  assert (Hin' : forall more t, In t (operatorTokens line lineNo i ch) -> In t (toks1 ++ more)).
  { intros more t Ht. apply in_or_app. left. apply Hin. exact Ht. }
  destruct (isIfAt line i || isElseIfAt line i) eqn:B4.
  { destruct (ifParenIndex line i (isIfAt line i)) as [j|] eqn:Hj; cbn [fst snd].
    - assert (Hs : startsWith line (str (if isIfAt line i then "@If" else "@Else")%string) i
                   = true).
      { destruct (isIfAt line i) eqn:Hif.
        - unfold isIfAt in Hif. apply andb_true_iff in Hif. apply Hif.
        - cbn [orb] in B4. unfold isElseIfAt in B4.
          apply andb_true_iff in B4. destruct B4 as [B4 _].
          apply andb_true_iff in B4. apply B4. }
      destruct (ifParenIndex_quiet _ _ _ _ Hs Hj) as [Hle Hquiet].
      repeat split; [exact Hle | exact Hq | exact Hin |].
      apply allQuiet_noOperator. intros k c Hk Hc. apply (Hquiet k c); [lia | exact Hc].
    - repeat split; [lia | exact Hq | exact Hin | apply noOperator_empty; lia]. }
  destruct (leavesIfMode line i st).
  { cbn [fst snd]. repeat split; [lia | exact Hq | exact Hin | apply noOperator_empty; lia]. }
  destruct (if ifMode st || (0 <? ifParenDepth st) then logicToken line lineNo i ch else None)
    as [[tok skip]|] eqn:B5.
  { cbn [fst snd]. repeat split; [lia | exact Hq | apply Hin' |].
    destruct (ifMode st || (0 <? ifParenDepth st)); [|discriminate].
    eapply logicToken_quiet. exact B5. }
  destruct (mapCall line lineNo i) as [[tok j]|] eqn:B6.
  { cbn [fst snd]. destruct (mapCall_quiet _ _ _ _ _ B6) as [Hle Hquiet].
    repeat split; [exact Hle | exact Hq | apply Hin' |].
    apply allQuiet_noOperator. intros k c Hk Hc. apply (Hquiet k c); [lia | exact Hc]. }
  destruct (genericCall line lineNo i ch) as [[[tok k] j]|] eqn:B7.
  { cbn [fst snd]. destruct (genericCall_quiet _ _ _ _ _ _ _ B7) as [Hle Hquiet].
    repeat split; [exact Hle | exact Hq | apply Hin' |].
    apply allQuiet_noOperator. intros k' c Hk Hc. apply (Hquiet k' c); [lia | exact Hc]. }
  cbn [fst snd]. rewrite trackCallParens_quote, trackIfParens_quote.
  repeat split; [lia | exact Hq | apply Hin' | apply noOperator_empty; lia].
Qed.

Lemma scanLoop_unfold fuel line lineNo i ch st :
  charAt line i = Some ch ->
  scanLoop (S fuel) line lineNo i st
  = fst (fst (scanAt line lineNo i ch st))
    ++ scanLoop fuel line lineNo (snd (fst (scanAt line lineNo i ch st)) + 1)
         (snd (scanAt line lineNo i ch st)).
Proof.
  intros Hch. cbn [scanLoop]. rewrite Hch.
  destruct (scanAt line lineNo i ch st) as [[toks i'] st']. reflexivity.
Qed.

(** The rounds given to the loop are enough: more of them change nothing. *)
Lemma scanLoop_fuel line lineNo fuel : forall extra i st,
  inSingleQuote st = false ->
  length line - i <= fuel ->
  scanLoop (fuel + extra) line lineNo i st = scanLoop fuel line lineNo i st.
Proof.
  induction fuel as [|fuel IH]; intros extra i st Hq Hfuel.
  - assert (Hnone : charAt line i = None) by (apply nth_error_None; lia).
    destruct extra; cbn [Nat.add scanLoop]; [reflexivity|]. rewrite Hnone. reflexivity.
  - destruct (charAt line i) as [ch|] eqn:Hch.
    + cbn [Nat.add]. rewrite !(scanLoop_unfold _ _ _ _ _ _ Hch).
      destruct (scanAt_spec line lineNo i ch st Hch Hq) as (Hle & Hq' & _ & _).
      f_equal. apply IH; [exact Hq'|]. apply charAt_lt in Hch. lia.
    + cbn [Nat.add scanLoop]. rewrite Hch. reflexivity.
Qed.

(** Every operator highlight due at or after [i] is among the tokens of the
    loop started at [i]. *)
Lemma scanLoop_operator line lineNo fuel : forall i st k ch t,
  inSingleQuote st = false ->
  length line - i <= fuel ->
  i <= k -> charAt line k = Some ch ->
  In t (operatorTokens line lineNo k ch) ->
  In t (scanLoop fuel line lineNo i st).
Proof.
  induction fuel as [|fuel IH]; intros i st k ch t Hq Hfuel Hik Hch Ht.
  - apply charAt_lt in Hch. lia.
  - destruct (charAt line i) as [c0|] eqn:Hc0.
    2: { apply nth_error_None in Hc0. apply charAt_lt in Hch. lia. }
    rewrite (scanLoop_unfold _ _ _ _ _ _ Hc0).
    destruct (scanAt_spec line lineNo i c0 st Hc0 Hq) as (Hle & Hq' & Hown & Hjump).
    apply in_or_app. destruct (Nat.eq_dec k i) as [->|Hne].
    + left. apply Hown. assert (ch = c0) by congruence. subst c0. exact Ht.
    + right.
      destruct (Nat.le_gt_cases k (snd (fst (scanAt line lineNo i c0 st)))) as [Hin|Hout].
      * exfalso. rewrite (Hjump k ch) in Ht; [contradiction | lia | exact Hch].
      * apply (IH _ _ k ch);
          [exact Hq' | apply charAt_lt in Hc0; lia | lia | exact Hch | exact Ht].
Qed.

Lemma plainOperator_token line lineNo i :
  plainOperatorAt line i ->
  exists ch, charAt line i = Some ch
             /\ operatorTokens line lineNo i ch = [operatorSpan lineNo i].
Proof.
  assert (Hno : forall (o : option ascii) x, o <> Some x -> optIs o x = false).
  { intros o x H. destruct (optIs o x) eqn:E; [|reflexivity].
    apply optIs_true in E. contradiction. }
  intros [Hplus|(Heq & H1 & H2 & H3 & H4 & H5)].
  - exists "+"%char. split; [exact Hplus | reflexivity].
  - exists "="%char. split; [exact Heq|]. unfold operatorTokens.
    rewrite (Hno _ _ H1), (Hno _ _ H2), (Hno _ _ H3), (Hno _ _ H4).
    replace (optIs (if i + 1 <? length line then charAt line (i + 1) else None) "="%char)
      with false; [reflexivity|].
    destruct (i + 1 <? length line); [symmetry; apply Hno; exact H5 | reflexivity].
Qed.

(** C10.  On every line, whether or not it holds an [@If] condition, the
    classifier emits a one-character [ablLogic] span at every [+], and at
    every [=] whose left neighbour is none of [>], [<], [!], [=] and whose
    right neighbour is not [=]. *)
Theorem operator_spans_on_every_line (doc : TextDocument) (lineNo i : nat) :
  lineNo < lineCount doc ->
  plainOperatorAt (lineAt doc lineNo) i ->
  In (operatorSpan lineNo i) (provideTokens doc).
Proof.
  intros Hline Hop. unfold provideTokens. apply in_flat_map.
  exists lineNo. split; [apply in_seq; lia|].
  unfold lineTokens. apply in_or_app. right. unfold scanLine.
  destruct (plainOperator_token _ lineNo _ Hop) as (ch & Hch & Htok).
  apply (scanLoop_operator _ _ _ 0 initialLineState i ch); auto; try lia.
  rewrite Htok. left. reflexivity.
Qed.

(** The [=] of the writer assignment [@Data(3) = d] gets its span. *)
Lemma operator_spans_on_every_line_witness :
  In (operatorSpan 0 9) (provideTokens (abl [str "@Data(3) = d"])).
Proof.
  apply (operator_spans_on_every_line (abl [str "@Data(3) = d"]) 0 9).
  - cbn. lia.
  - right. repeat split; discriminate || reflexivity.
Defined.

(* ================================================================== *)
(** ** The classifier on the scenarios of the specification *)
(* ================================================================== *)

(** C6.  On the document [@If a = b @Then] / [statement] / [@End If] the
    validators produce no diagnostic, and the classifier pushes the
    [ablLogic] span of the [=] of line 1 twice: once as an operator
    highlight, once as a comparison operator of the condition. *)
Theorem if_then_document :
  provideIfDiagnostics (abl [str "@If a = b @Then"; str "statement"; str "@End If"])
  = Some []
  /\ provideUndeclaredVarDiagnostics
       (abl [str "@If a = b @Then"; str "statement"; str "@End If"])
     = Some []
  /\ provideTokens (abl [str "@If a = b @Then"; str "statement"; str "@End If"])
     = [operatorSpan 0 6; operatorSpan 0 6].
Proof. repeat split; vm_compute; reflexivity. Qed.

(** C2.  The spans of a line can overlap: on [@If a = b @Then] two spans
    cover the [=], and on [@Function n] the [ablReturn] span of the name
    lies inside the [ablFunctionDecl] span of the keyword. *)
Theorem classifier_spans_overlap :
  noOverlap (provideTokens (abl [str "@If a = b @Then"])) = false
  /\ length (List.filter (covers 0 6) (provideTokens (abl [str "@If a = b @Then"]))) = 2
  /\ provideTokens (abl [str "@Function n"])
     = [ {| t_line := 0; t_char := 0; t_length := 9; t_kind := ablFunctionDecl |};
         {| t_line := 0; t_char := 3; t_length := 1; t_kind := ablReturn |} ].
Proof. repeat split; vm_compute; reflexivity. Qed.

(* ================================================================== *)
(** * Further properties of the scanner primitives *)
(* ================================================================== *)

Lemma stripSingleQuoted2From_mask t : forall inQ,
  Forall2 maskedChar t (stripSingleQuoted2From inQ t).
Proof.
  induction t as [t IH] using (induction_ltof1 _ (@length ascii)).
  unfold ltof in IH. intros inQ. destruct t as [|ch rest]; cbn [stripSingleQuoted2From].
  - constructor.
  - destruct (eqc ch quote) eqn:Hq.
    + destruct rest as [|next rest'].
      * constructor; [right; reflexivity | constructor].
      * destruct (eqc next quote).
        -- constructor; [right; reflexivity|]. constructor; [right; reflexivity|].
           apply IH. simpl. lia.
        -- constructor; [right; reflexivity|]. apply IH. simpl. lia.
    + constructor.
      * destruct inQ; [right | left]; reflexivity.
      * apply IH. simpl. lia.
Qed.

Lemma stripSingleQuoted2_length line :
  length (stripSingleQuoted2 line) = length line.
Proof.
  symmetry. eapply Forall2_length. apply stripSingleQuoted2From_mask.
Qed.

(** X1.  Masking keeps the columns: [stripSingleQuoted2] returns a text of
    the same length in which every character is the character of the input
    at that column or a blank, and no character is a single quote. *)
Theorem stripSingleQuoted2_keeps_columns (line : text) :
  length (stripSingleQuoted2 line) = length line
  /\ Forall2 maskedChar line (stripSingleQuoted2 line)
  /\ quoteFree (stripSingleQuoted2 line).
Proof.
  pose proof (stripSingleQuoted2From_mask line false) as H.
  split; [symmetry; eapply Forall2_length; exact H|].
  split; [exact H | apply stripSingleQuoted2From_quoteFree].
Qed.

Lemma stripSingleQuotedFrom_sub t : forall inQ,
  sublist (stripSingleQuotedFrom inQ t) t.
Proof.
  induction t as [t IH] using (induction_ltof1 _ (@length ascii)).
  unfold ltof in IH. intros inQ. destruct t as [|ch rest]; cbn [stripSingleQuotedFrom].
  - constructor.
  - destruct (eqc ch quote) eqn:Hq.
    + destruct rest as [|next rest'].
      * apply sublist_cons. apply IH. simpl. lia.
      * destruct (eqc next quote).
        -- do 2 apply sublist_cons. apply IH. simpl. lia.
        -- apply sublist_cons. apply IH. simpl. lia.
    + destruct inQ.
      * apply sublist_cons. apply IH. simpl. lia.
      * apply sublist_skip. apply IH. simpl. lia.
Qed.

(** X2.  [stripSingleQuoted] only removes characters: its result is a
    subsequence of the input without any single quote, and a text without
    single quotes comes back unchanged from both stripping functions. *)
Theorem stripSingleQuoted_only_removes (t : text) :
  sublist (stripSingleQuoted t) t
  /\ quoteFree (stripSingleQuoted t)
  /\ (quoteFree t -> stripSingleQuoted t = t /\ stripSingleQuoted2 t = t).
Proof.
  split; [apply stripSingleQuotedFrom_sub|].
  split; [apply stripSingleQuotedFrom_quoteFree|].
  intros H. split; [apply stripSingleQuotedFrom_id | apply stripSingleQuoted2From_id]; exact H.
Qed.

Lemma stripSingleQuoted_only_removes_witness :
  stripSingleQuoted (str "@Set x = 1") = str "@Set x = 1"
  /\ stripSingleQuoted2 (str "@Set x = 1") = str "@Set x = 1".
Proof.
  apply (proj2 (proj2 (stripSingleQuoted_only_removes (str "@Set x = 1")))).
  unfold quoteFree. repeat constructor.
Defined.

Lemma dropWhile_head p (l : text) c r : dropWhile p l = c :: r -> p c = false.
Proof. intros H. apply dropWhile_In in H. apply H. Qed.

Lemma dropWhile_fixed p (l : text) :
  match l with [] => True | c :: _ => p c = false end -> dropWhile p l = l.
Proof. destruct l as [|c l]; simpl; [reflexivity|]. intros ->. reflexivity. Qed.

Lemma dropWhile_length p (l : text) : length (dropWhile p l) <= length l.
Proof.
  induction l as [|c l IH]; simpl; [lia|]. destruct (p c); simpl; lia.
Qed.

Lemma dropWhile_suffix p (l : text) : exists w, l = w ++ dropWhile p l.
Proof.
  exists (takeWhile p l). symmetry. apply takeWhile_dropWhile.
Qed.

Lemma trim_length t : length (trim t) <= length t.
Proof.
  unfold trim. rewrite length_rev.
  etransitivity; [apply dropWhile_length|]. rewrite length_rev. apply dropWhile_length.
Qed.

(** A trimmed text starts and ends with a character that is not white
    space. *)
Lemma trim_ends t :
  match trim t with [] => True | c :: _ => isSpace c = false end
  /\ match rev (trim t) with [] => True | c :: _ => isSpace c = false end.
Proof.
  unfold trim. rewrite rev_involutive.
  set (d := dropWhile isSpace t).
  destruct (dropWhile isSpace (rev d)) as [|x xs] eqn:Hx.
  - split; exact I.
  - split; [|eapply dropWhile_head; exact Hx].
    destruct (dropWhile_suffix isSpace (rev d)) as [w Hw]. rewrite Hx in Hw.
    apply (f_equal (@rev ascii)) in Hw. rewrite rev_involutive, rev_app_distr in Hw.
    destruct (rev (x :: xs)) as [|y ys] eqn:Hy.
    + exact I.
    + destruct d as [|c0 d0] eqn:Hd; [discriminate|].
      simpl in Hw. inversion Hw; subst y. eapply dropWhile_head. exact Hd.
Qed.

Lemma trim_fixed t :
  match t with [] => True | c :: _ => isSpace c = false end ->
  match rev t with [] => True | c :: _ => isSpace c = false end ->
  trim t = t.
Proof.
  intros H1 H2. unfold trim. rewrite (dropWhile_fixed _ t H1).
  rewrite (dropWhile_fixed _ (rev t) H2). apply rev_involutive.
Qed.

Lemma trim_idempotent t : trim (trim t) = trim t.
Proof. destruct (trim_ends t) as [H1 H2]. apply trim_fixed; assumption. Qed.

Lemma isWrapped_length t : isWrapped t = true -> 2 <= length t.
Proof.
  unfold isWrapped, startsWith0, endsWith. intros H. apply andb_true_iff in H.
  destruct H as [H1 H2]. destruct t as [|c t]; [discriminate|].
  destruct t as [|c' t]; [|simpl; lia].
  exfalso. destruct c as [[] [] [] [] [] [] [] []]; discriminate.
Qed.

Lemma slice_length (t : text) a b : length (slice t a b) <= length t - a.
Proof.
  unfold slice. rewrite length_firstn, length_skipn. lia.
Qed.

Lemma stripOuterParensLoop_spec fuel : forall t,
  length t <= fuel -> trim t = t ->
  isWrapped (stripOuterParensLoop fuel t) = false
  /\ trim (stripOuterParensLoop fuel t) = stripOuterParensLoop fuel t
  /\ length (stripOuterParensLoop fuel t) <= length t.
Proof.
  induction fuel as [|fuel IH]; intros t Hlen Htrim.
  - destruct t; [|simpl in Hlen; lia]. repeat split; auto.
  - cbn [stripOuterParensLoop]. fold (isWrapped t).
    destruct (isWrapped t) eqn:Hw.
    + pose proof (isWrapped_length t Hw) as H2.
      pose proof (trim_length (slice t 1 (length t - 1))) as Ht.
      pose proof (slice_length t 1 (length t - 1)) as Hs.
      destruct (IH (trim (slice t 1 (length t - 1)))) as (I1 & I2 & I3);
        [lia | apply trim_idempotent |].
      repeat split; [exact I1 | exact I2 | lia].
    + repeat split; [exact Hw | exact Htrim | lia].
Qed.

(** X3.  [stripOuterParens] removes every layer of enclosing parentheses:
    its result is trimmed and is not of the form [( ... )], it is never
    longer than the input, and stripping it again changes nothing. *)
Theorem stripOuterParens_strips_all (s : text) :
  isWrapped (stripOuterParens s) = false
  /\ trim (stripOuterParens s) = stripOuterParens s
  /\ length (stripOuterParens s) <= length s
  /\ stripOuterParens (stripOuterParens s) = stripOuterParens s.
Proof.
  unfold stripOuterParens at 1 2 3 4 5.
  destruct (stripOuterParensLoop_spec (length s) (trim s) (trim_length s) (trim_idempotent s))
    as (H1 & H2 & H3).
  pose proof (trim_length s) as Hl.
  repeat split; [exact H1 | exact H2 | lia |].
  unfold stripOuterParens.
  set (r := stripOuterParensLoop (length s) (trim s)) in *.
  rewrite H2. destruct (length r) eqn:Hr.
  - reflexivity.
  - cbn [stripOuterParensLoop]. fold (isWrapped r). rewrite H1. reflexivity.
Qed.

(* ------------------------------------------------------------------ *)

Lemma skipn_decompose (s : text) a b :
  a <= b -> skipn a s = slice s a b ++ skipn b s.
Proof.
  intros H. unfold slice.
  rewrite <- (firstn_skipn (b - a) (skipn a s)) at 1. f_equal.
  rewrite skipn_skipn. f_equal. lia.
Qed.

Lemma startsWith_skipn (s pat : text) i :
  startsWith s pat i = true -> skipn i s = pat ++ skipn (i + length pat) s.
Proof.
  unfold startsWith. intros H. apply prefixBy_eqc_app in H.
  rewrite H at 1. f_equal. rewrite skipn_skipn. f_equal. lia.
Qed.

(** The fragments from [start] on, joined by the keywords found, give the
    text from [start] on. *)
Lemma splitByAndOrFrom_join s : forall rest i start depth inQ skip,
  skipn i s = rest -> start <= i + skip ->
  exists seps,
    length (splitByAndOrFrom s i start depth inQ skip rest) = S (length seps)
    /\ List.Forall isAndOr seps
    /\ joinWith (splitByAndOrFrom s i start depth inQ skip rest) seps = skipn start s.
Proof.
  intros rest. induction rest as [rest IH] using (induction_ltof1 _ (@length ascii)).
  unfold ltof in IH. intros i start depth inQ skip Hrest Hstart.
  destruct rest as [|ch rest1].
  { exists []. cbn. repeat split; auto. }
  apply skipn_cons_charAt in Hrest. destruct Hrest as [Hch Hrest1].
  assert (Hcont : forall depth' inQ' skip',
             start <= i + 1 + skip' ->
             exists seps,
               length (splitByAndOrFrom s (i + 1) start depth' inQ' skip' rest1)
               = S (length seps)
               /\ List.Forall isAndOr seps
               /\ joinWith (splitByAndOrFrom s (i + 1) start depth' inQ' skip' rest1) seps
                  = skipn start s).
  { intros depth' inQ' skip' Hs. apply IH; [simpl; lia | exact Hrest1 | exact Hs]. }
  cbn [splitByAndOrFrom]. destruct skip as [|skip'].
  2: { apply Hcont. lia. }
  assert (Hkw : forall kw start' skip',
             startsWith s kw i = true -> isAndOr kw ->
             start' = i + length kw -> start' = i + 1 + skip' ->
             exists seps,
               length (slice s start i
                       :: splitByAndOrFrom s (i + 1) start' depth inQ skip' rest1)
               = S (length seps)
               /\ List.Forall isAndOr seps
               /\ joinWith (slice s start i
                            :: splitByAndOrFrom s (i + 1) start' depth inQ skip' rest1) seps
                  = skipn start s).
  { intros kw start' skip' Hs Hkw Hst Hsk.
    destruct (IH rest1 ltac:(simpl; lia) (i + 1) start' depth inQ skip' Hrest1 ltac:(lia))
      as (seps & Hl & Hf & Hj).
    exists (kw :: seps). split; [simpl; rewrite Hl; reflexivity|].
    split; [constructor; assumption|].
    cbn [joinWith]. rewrite Hj. subst start'.
    rewrite (skipn_decompose s start i) by lia.
    rewrite (startsWith_skipn s kw i Hs). reflexivity. }
  destruct (eqc ch quote).
  { destruct rest1 as [|next rest2].
    - apply Hcont. lia.
    - destruct (eqc next quote).
      + apply skipn_cons_charAt in Hrest1. destruct Hrest1 as [_ Hrest2].
        replace (i + 1 + 1) with (i + 2) in Hrest2 by lia.
        apply IH; [simpl; lia | exact Hrest2 | lia].
      + apply Hcont. lia. }
  destruct inQ; [apply Hcont; lia|].
  destruct (eqc ch "("%char); [apply Hcont; lia|].
  destruct (eqc ch ")"%char); [apply Hcont; lia|].
  destruct (negb (depth =? 0)); [apply Hcont; lia|].
  destruct (startsWith s (str "And") i && negb (isIdentChar (prevChar s i))
            && negb (isIdentChar (charAt s (i + 3)))) eqn:Hand.
  { apply andb_true_iff in Hand. destruct Hand as [Hand _].
    apply andb_true_iff in Hand. destruct Hand as [Hand _].
    apply (Hkw (str "And") (i + 3) 2 Hand); [left; reflexivity | reflexivity | lia]. }
  destruct (startsWith s (str "Or") i && negb (isIdentChar (prevChar s i))
            && negb (isIdentChar (charAt s (i + 2)))) eqn:Hor.
  { apply andb_true_iff in Hor. destruct Hor as [Hor _].
    apply andb_true_iff in Hor. destruct Hor as [Hor _].
    apply (Hkw (str "Or") (i + 2) 1 Hor); [right; reflexivity | reflexivity | lia]. }
  apply Hcont. lia.
Qed.

(** X4.  [splitByAndOrTopLevel] loses nothing: a split at N keywords gives
    N + 1 fragments (so at least one), and the fragments joined by the
    keywords [And] and [Or] at which the text was split give the text
    back. *)
Theorem splitByAndOrTopLevel_join (s : text) :
  exists seps,
    length (splitByAndOrTopLevel s) = S (length seps)
    /\ List.Forall isAndOr seps
    /\ joinWith (splitByAndOrTopLevel s) seps = s.
Proof.
  destruct (splitByAndOrFrom_join s s 0 0 0 false 0 eq_refl ltac:(lia))
    as (seps & H1 & H2 & H3).
  exists seps. auto.
Qed.

(* ================================================================== *)
(** * Further properties of the function maps *)
(* ================================================================== *)

Lemma funcLineLoop_length ls : forall idx inF,
  length (funcLineLoop ls idx inF) = length ls.
Proof.
  induction ls as [|raw ls IH]; intros idx inF; cbn [funcLineLoop]; [reflexivity|].
  destruct (Re.fnStartRe raw); simpl; rewrite IH; reflexivity.
Qed.

Lemma funcLineLoop_outside ls : forall idx l,
  l < length ls ->
  (forall m, m <= l -> Re.fnStartRe (nth m ls []) = false) ->
  nth l (funcLineLoop ls idx false) (-1)%Z = (-1)%Z.
Proof.
  induction ls as [|raw ls IH]; intros idx l Hl Hno; [simpl in Hl; lia|].
  cbn [funcLineLoop]. pose proof (Hno 0 ltac:(lia)) as H0. cbn [nth] in H0. rewrite H0.
  destruct l as [|l]; [reflexivity|]. cbn [nth].
  replace (if Re.fnEndRe raw then false else false) with false
    by (destruct (Re.fnEndRe raw); reflexivity).
  apply IH; [simpl in Hl; lia|]. intros m Hm. apply (Hno (S m)). lia.
Qed.

Lemma funcLineLoop_inside ls : forall idx l,
  l < length ls ->
  (forall m, m <= l -> Re.fnStartRe (nth m ls []) = false) ->
  (forall m, m < l -> Re.fnEndRe (nth m ls []) = false) ->
  nth l (funcLineLoop ls idx true) (-1)%Z = idx.
Proof.
  induction ls as [|raw ls IH]; intros idx l Hl Hno Hne; [simpl in Hl; lia|].
  cbn [funcLineLoop]. pose proof (Hno 0 ltac:(lia)) as H0. cbn [nth] in H0. rewrite H0.
  destruct l as [|l]; [reflexivity|]. cbn [nth].
  pose proof (Hne 0 ltac:(lia)) as H1. cbn [nth] in H1. rewrite H1.
  apply IH; [simpl in Hl; lia| |].
  - intros m Hm. apply (Hno (S m)). lia.
  - intros m Hm. apply (Hne (S m)). lia.
Qed.

Lemma funcLineLoop_after_end ls : forall idx inF e l,
  e < l < length ls ->
  Re.fnEndRe (nth e ls []) = true ->
  (forall m, e < m <= l -> Re.fnStartRe (nth m ls []) = false) ->
  nth l (funcLineLoop ls idx inF) (-1)%Z = (-1)%Z.
Proof.
  induction ls as [|raw ls IH]; intros idx inF e l Hl He Hno; [simpl in Hl; lia|].
  destruct l as [|l]; [lia|]. cbn [funcLineLoop].
  destruct e as [|e].
  - cbn [nth] in He.
    assert (Hs : Re.fnStartRe raw = false).
    { destruct (Re.fnStartRe raw) eqn:E; [|reflexivity].
      apply fnStart_excl in E. congruence. }
    rewrite Hs, He. cbn [nth].
    apply funcLineLoop_outside; [simpl in Hl; lia|].
    intros m Hm. apply (Hno (S m)). lia.
  - destruct (Re.fnStartRe raw); cbn [nth];
      (apply (IH _ _ e); [simpl in Hl; lia | exact He |
                          intros m Hm; apply (Hno (S m)); lia]).
Qed.

Lemma countStarts_cons raw ls :
  countStarts (raw :: ls) = (if Re.fnStartRe raw then 1 else 0) + countStarts ls.
Proof. unfold countStarts. simpl. destruct (Re.fnStartRe raw); reflexivity. Qed.

Lemma funcLineLoop_start_id ls : forall idx inF s,
  s < length ls -> Re.fnStartRe (nth s ls []) = true ->
  nth s (funcLineLoop ls idx inF) (-1)%Z
  = (idx + 1 + Z.of_nat (countStarts (firstn s ls)))%Z.
Proof.
  induction ls as [|raw ls IH]; intros idx inF s Hs Hst; [simpl in Hs; lia|].
  destruct s as [|s].
  - cbn [nth] in Hst. cbn [funcLineLoop]. rewrite Hst. cbn. lia.
  - cbn [nth] in Hst. cbn [funcLineLoop firstn]. rewrite countStarts_cons.
    assert (Hs' : s < length ls) by (simpl in Hs; lia).
    destruct (Re.fnStartRe raw); cbn [nth]; rewrite (IH _ _ s Hs' Hst); lia.
Qed.

Lemma funcLineLoop_body ls : forall idx inF s l,
  s <= l < length ls ->
  Re.fnStartRe (nth s ls []) = true ->
  (forall m, s < m <= l -> Re.fnStartRe (nth m ls []) = false) ->
  (forall m, s < m < l -> Re.fnEndRe (nth m ls []) = false) ->
  nth l (funcLineLoop ls idx inF) (-1)%Z = nth s (funcLineLoop ls idx inF) (-1)%Z.
Proof.
  induction ls as [|raw ls IH]; intros idx inF s l Hl Hst Hno Hne; [simpl in Hl; lia|].
  destruct s as [|s].
  - cbn [nth] in Hst. cbn [funcLineLoop]. rewrite Hst.
    destruct l as [|l]; [reflexivity|]. cbn [nth].
    apply funcLineLoop_inside; [simpl in Hl; lia| |].
    + intros m Hm. apply (Hno (S m)). lia.
    + intros m Hm. apply (Hne (S m)). lia.
  - destruct l as [|l]; [lia|]. cbn [nth] in Hst. cbn [funcLineLoop].
    destruct (Re.fnStartRe raw); cbn [nth];
      (apply IH; [simpl in Hl; lia | exact Hst
                 | intros m Hm; apply (Hno (S m)); lia
                 | intros m Hm; apply (Hne (S m)); lia]).
Qed.

Lemma scopeOf_start doc s :
  s < lineCount doc -> Re.fnStartRe (lineAt doc s) = true ->
  scopeOf doc s = Z.of_nat (countStarts (firstn s (lines doc))).
Proof.
  unfold scopeOf, buildFuncLineMap, lineCount, lineAt. intros Hs Hst.
  rewrite funcLineLoop_start_id by assumption. lia.
Qed.

Lemma scopeOf_body doc s l : inFunctionFrom doc s l -> scopeOf doc l = scopeOf doc s.
Proof.
  unfold inFunctionFrom, scopeOf, buildFuncLineMap, lineCount, lineAt.
  intros (Hl & Hst & Hno & Hne). apply funcLineLoop_body; assumption.
Qed.

(** X5.  [buildFuncLineMap] has one entry per line.  The [@Function] lines
    are numbered 0, 1, 2, ... in document order; a line gets the number of
    the last [@Function] line before it when no [@End Function] line lies
    strictly between them (the [@End Function] line itself still belongs to
    the function); a line after an [@End Function] line, or before the first
    [@Function] line, gets [-1]. *)
Theorem func_line_map_membership (doc : TextDocument) :
  length (buildFuncLineMap doc) = lineCount doc
  /\ (forall s, s < lineCount doc -> Re.fnStartRe (lineAt doc s) = true ->
        scopeOf doc s = Z.of_nat (countStarts (firstn s (lines doc))))
  /\ (forall s l, inFunctionFrom doc s l -> scopeOf doc l = scopeOf doc s)
  /\ (forall e l, e < l < lineCount doc -> Re.fnEndRe (lineAt doc e) = true ->
        (forall m, e < m <= l -> Re.fnStartRe (lineAt doc m) = false) ->
        scopeOf doc l = (-1)%Z)
  /\ (forall l, l < lineCount doc ->
        (forall m, m <= l -> Re.fnStartRe (lineAt doc m) = false) ->
        scopeOf doc l = (-1)%Z).
Proof.
  split; [apply funcLineLoop_length|].
  split; [apply scopeOf_start|].
  split; [apply scopeOf_body|].
  unfold scopeOf, buildFuncLineMap, lineCount, lineAt.
  split.
  { intros e l Hl He Hno. apply (funcLineLoop_after_end _ _ _ e); assumption. }
  intros l Hl Hno. apply funcLineLoop_outside; assumption.
Qed.

(** The [@End Function] line belongs to the function, the line after it is
    at top level. *)
Lemma func_line_map_membership_witness :
  scopeOf (abl [str "x"; str "@Function f"; str "y"; str "@End Function"; str "z"]) 3
  = scopeOf (abl [str "x"; str "@Function f"; str "y"; str "@End Function"; str "z"]) 1
  /\ scopeOf (abl [str "x"; str "@Function f"; str "y"; str "@End Function"; str "z"]) 4
     = (-1)%Z.
Proof.
  pose proof (func_line_map_membership
                (abl [str "x"; str "@Function f"; str "y"; str "@End Function"; str "z"]))
    as (_ & _ & Hbody & Hafter & _).
  split.
  - apply Hbody. unfold inFunctionFrom. split; [cbn; lia|].
    split; [reflexivity|]. split.
    + intros m Hm. assert (m = 2 \/ m = 3) as [-> | ->] by lia; reflexivity.
    + intros m Hm. assert (m = 2) as -> by lia. reflexivity.
  - apply (Hafter 3 4); [cbn; lia | reflexivity |].
    intros m Hm. assert (m = 4) as -> by lia. reflexivity.
Defined.

Lemma funcNameLoop_below ls : forall idx (m : gmap Z text) k,
  (k <= idx)%Z -> funcNameLoop ls idx m !! k = m !! k.
Proof.
  induction ls as [|raw ls IH]; intros idx m k Hk; cbn [funcNameLoop]; [reflexivity|].
  destruct (Re.fnStartRe raw); [|apply IH; exact Hk].
  rewrite IH by lia. destruct (Re.fnNameRe raw); [|reflexivity].
  apply lookup_insert_ne. lia.
Qed.

Lemma funcNameLoop_start ls : forall idx (m : gmap Z text) s,
  (forall k, (idx < k)%Z -> m !! k = None) ->
  s < length ls -> Re.fnStartRe (nth s ls []) = true ->
  funcNameLoop ls idx m !! (idx + 1 + Z.of_nat (countStarts (firstn s ls)))%Z
  = Re.fnNameRe (nth s ls []).
Proof.
  induction ls as [|raw ls IH]; intros idx m s Hm Hs Hst; [simpl in Hs; lia|].
  assert (Hm' : forall k, (idx + 1 < k)%Z ->
                match Re.fnNameRe raw with
                | Some name => <[(idx + 1)%Z := name]> m
                | None => m
                end !! k = None).
  { intros k Hk. destruct (Re.fnNameRe raw).
    - rewrite lookup_insert_ne by lia. apply Hm. lia.
    - apply Hm. lia. }
  destruct s as [|s].
  - cbn [nth] in Hst. cbn [funcNameLoop firstn]. rewrite Hst.
    change (countStarts []) with 0. rewrite funcNameLoop_below by lia.
    replace (idx + 1 + Z.of_nat 0)%Z with (idx + 1)%Z by lia. cbn [nth].
    destruct (Re.fnNameRe raw).
    + apply lookup_insert_eq.
    + apply Hm. lia.
  - cbn [nth] in Hst. cbn [funcNameLoop firstn nth]. rewrite countStarts_cons.
    assert (Hs' : s < length ls) by (simpl in Hs; lia).
    destruct (Re.fnStartRe raw).
    + rewrite <- (IH (idx + 1)%Z _ s Hm' Hs' Hst). f_equal. lia.
    + rewrite <- (IH idx m s Hm Hs' Hst). f_equal.
Qed.

(** X6.  The two function maps agree: on every line of a function, the
    entry of [buildFuncNameMap] for the function of the line is what the
    name pattern finds on the [@Function] line of that function, and there
    is no entry when that line carries no name. *)
Theorem func_name_map_agrees (doc : TextDocument) (s l : nat) :
  inFunctionFrom doc s l ->
  buildFuncNameMap doc !! scopeOf doc l = Re.fnNameRe (lineAt doc s).
Proof.
  intros Hin. pose proof Hin as (Hl & Hst & _).
  rewrite (scopeOf_body doc s l Hin), (scopeOf_start doc s ltac:(lia) Hst).
  unfold buildFuncNameMap, lineAt.
  rewrite <- (funcNameLoop_start (lines doc) (-1)%Z ∅ s).
  - f_equal.
  - intros k _. apply lookup_empty.
  - unfold lineCount in Hl. lia.
  - exact Hst.
Qed.

(** The name of the second function, looked up from its body. *)
Lemma func_name_map_agrees_witness :
  buildFuncNameMap
    (abl [str "@Function f"; str "@End Function"; str "@Function g("; str "@Set g"])
  !! scopeOf
       (abl [str "@Function f"; str "@End Function"; str "@Function g("; str "@Set g"]) 3
  = Some (str "g").
Proof.
  apply (func_name_map_agrees
           (abl [str "@Function f"; str "@End Function"; str "@Function g("; str "@Set g"])
           2 3).
  unfold inFunctionFrom. split; [cbn; lia|]. split; [reflexivity|]. split.
  - intros m Hm. assert (m = 3) as -> by lia. reflexivity.
  - intros m Hm. lia.
Defined.

(* ================================================================== *)
(** * Further properties of the validators *)
(* ================================================================== *)

Lemma removelast_In {A} (l : list A) x : In x (removelast l) -> In x l.
Proof.
  induction l as [|a l IH]; simpl; [auto|].
  destruct l as [|b l]; [contradiction|].
  intros [H|H]; [left; exact H | right; apply IH; exact H].
Qed.

Lemma arrayStep_In k t i s x : In x (arrayStep k t i s) -> x = i \/ In x s.
Proof.
  unfold arrayStep. destruct (isCommentLine t); [auto|].
  destruct (startMarker k t).
  { intros H. apply in_app_or in H. destruct H as [H|[H|[]]]; auto. }
  destruct (endMarker k t); [|auto].
  intros H. right. apply removelast_In. exact H.
Qed.

Lemma emitIf_In b d x : In x (emitIf b d) -> x = d.
Proof. destruct b; simpl; [intros [H|[]]; auto | contradiction]. Qed.

Lemma lineDiagnostic_whole doc i m :
  i < lineCount doc -> marksWholeLine doc (lineDiagnostic doc i m).
Proof. intros H. unfold marksWholeLine. cbn. auto. Qed.

Lemma ifLoop_whole doc idxs : forall st,
  (forall i, In i idxs -> i < lineCount doc) ->
  (forall d, In d (diagnostics st) -> marksWholeLine doc d) ->
  (forall x, In x (ifStack st) -> x < lineCount doc) ->
  (forall x, In x (funcStack st) -> x < lineCount doc) ->
  let st' := fold_left (ifLine doc) idxs st in
  (forall d, In d (diagnostics st') -> marksWholeLine doc d)
  /\ (forall x, In x (ifStack st') -> x < lineCount doc)
  /\ (forall x, In x (funcStack st') -> x < lineCount doc).
Proof.
  induction idxs as [|i idxs IH]; intros st Hidx Hd Hi Hf; cbn [fold_left].
  - auto.
  - assert (Hlt : i < lineCount doc) by (apply Hidx; left; reflexivity).
    destruct (ifLine_shape doc st i) as (Sd & Si & Sf).
    apply IH.
    + intros j Hj. apply Hidx. right. exact Hj.
    + intros d Hin. rewrite Sd in Hin.
      repeat (apply in_app_or in Hin; destruct Hin as [Hin|Hin]);
        try (apply Hd; exact Hin);
        apply emitIf_In in Hin; subst d; apply lineDiagnostic_whole; exact Hlt.
    + intros x Hin. rewrite Si in Hin. apply arrayStep_In in Hin.
      destruct Hin as [->|Hin]; [exact Hlt | apply Hi; exact Hin].
    + intros x Hin. rewrite Sf in Hin. apply arrayStep_In in Hin.
      destruct Hin as [->|Hin]; [exact Hlt | apply Hf; exact Hin].
Qed.

Lemma forLoop_whole doc idxs : forall st,
  (forall i, In i idxs -> i < lineCount doc) ->
  (forall d, In d (forDiagnostics st) -> marksWholeLine doc d) ->
  (forall x, In x (forStack st) -> x < lineCount doc) ->
  let st' := fold_left (forLine doc) idxs st in
  (forall d, In d (forDiagnostics st') -> marksWholeLine doc d)
  /\ (forall x, In x (forStack st') -> x < lineCount doc).
Proof.
  induction idxs as [|i idxs IH]; intros st Hidx Hd Hf; cbn [fold_left].
  - auto.
  - assert (Hlt : i < lineCount doc) by (apply Hidx; left; reflexivity).
    destruct (forLine_shape doc st i) as (Sd & Sf).
    apply IH.
    + intros j Hj. apply Hidx. right. exact Hj.
    + intros d Hin. rewrite Sd in Hin. apply in_app_or in Hin.
      destruct Hin as [Hin|Hin]; [apply Hd; exact Hin|].
      apply emitIf_In in Hin. subst d. apply lineDiagnostic_whole. exact Hlt.
    + intros x Hin. rewrite Sf in Hin. apply arrayStep_In in Hin.
      destruct Hin as [->|Hin]; [exact Hlt | apply Hf; exact Hin].
Qed.

Lemma map_line_whole doc m (xs : list nat) d :
  (forall x, In x xs -> x < lineCount doc) ->
  In d (map (fun line => lineDiagnostic doc line m) xs) -> marksWholeLine doc d.
Proof.
  intros Hx Hin. apply in_map_iff in Hin. destruct Hin as (x & <- & Hin).
  apply lineDiagnostic_whole. apply Hx. exact Hin.
Qed.

(** X7.  Every diagnostic of the block, [@Then] and quoted-operand checks
    marks one whole line of the document: its line exists, and its range
    runs from column 0 to the length of that line. *)
Theorem if_diagnostics_mark_whole_lines (doc : TextDocument) (ds : list Diagnostic) :
  provideIfDiagnostics doc = Some ds ->
  forall d, In d ds -> marksWholeLine doc d.
Proof.
  unfold provideIfDiagnostics. destruct (negb (isAbl doc)); [discriminate|].
  intros E. inversion E as [E']. clear E E'.
  assert (Hseq : forall i, In i (seq 0 (lineCount doc)) -> i < lineCount doc).
  { intros i Hi. apply in_seq in Hi. lia. }
  destruct (ifLoop_whole doc (seq 0 (lineCount doc))
              {| diagnostics := []; ifStack := []; funcStack := [] |} Hseq)
    as (Hd & Hi & Hf); try (intros x []).
  cbv zeta in Hd, Hi, Hf.
  set (st := fold_left (ifLine doc) (seq 0 (lineCount doc))
               {| diagnostics := []; ifStack := []; funcStack := [] |}) in *.
  unfold provideForDiagnostics.
  set (ds0 := diagnostics st
              ++ map (fun line => lineDiagnostic doc line msgIfUnclosed) (ifStack st)
              ++ map (fun line => lineDiagnostic doc line msgFunctionUnclosed)
                   (funcStack st)).
  assert (Hds0 : forall d, In d ds0 -> marksWholeLine doc d).
  { intros d Hin. unfold ds0 in Hin.
    apply in_app_or in Hin. destruct Hin as [Hin|Hin]; [apply Hd; exact Hin|].
    apply in_app_or in Hin. destruct Hin as [Hin|Hin].
    - exact (map_line_whole doc _ _ d Hi Hin).
    - exact (map_line_whole doc _ _ d Hf Hin). }
  destruct (forLoop_whole doc (seq 0 (lineCount doc))
              {| forDiagnostics := ds0; forStack := [] |} Hseq Hds0)
    as (Fd & Ff); try (intros x []).
  cbv zeta in Fd, Ff.
  intros d Hin. apply in_app_or in Hin. destruct Hin as [Hin|Hin].
  - apply Fd. exact Hin.
  - exact (map_line_whole doc _ _ d Ff Hin).
Qed.

Lemma if_diagnostics_mark_whole_lines_witness :
  provideIfDiagnostics (abl [str "@End If"])
  = Some [lineDiagnostic (abl [str "@End If"]) 0 msgEndIfUnmatched]
  /\ marksWholeLine (abl [str "@End If"])
       (lineDiagnostic (abl [str "@End If"]) 0 msgEndIfUnmatched).
Proof.
  split; [reflexivity|].
  apply (if_diagnostics_mark_whole_lines (abl [str "@End If"])
           [lineDiagnostic (abl [str "@End If"]) 0 msgEndIfUnmatched]).
  - reflexivity.
  - left. reflexivity.
Defined.

Lemma unterminatedOn_lineDiagnostic l doc i m :
  unterminatedOn l (lineDiagnostic doc i m) = (i =? l) && eqText m msgUnterminated.
Proof. reflexivity. Qed.

Ltac unterminated_compute :=
  repeat match goal with
         | |- context [eqText ?m msgUnterminated] =>
             let b := eval vm_compute in (eqText m msgUnterminated) in
             change (eqText m msgUnterminated) with b
         end.

Lemma filter_unterminatedOn_emitIf l b doc i m :
  List.filter (unterminatedOn l) (emitIf b (lineDiagnostic doc i m))
  = if (i =? l) && eqText m msgUnterminated then emitIf b (lineDiagnostic doc i m) else [].
Proof.
  destruct b; cbn [emitIf List.filter].
  - rewrite unterminatedOn_lineDiagnostic.
    destruct ((i =? l) && eqText m msgUnterminated); reflexivity.
  - destruct ((i =? l) && eqText m msgUnterminated); reflexivity.
Qed.

Lemma filter_unterminatedOn_map l doc m (xs : list nat) :
  eqText m msgUnterminated = false ->
  List.filter (unterminatedOn l) (map (fun line => lineDiagnostic doc line m) xs) = [].
Proof.
  intros Hm. induction xs as [|x xs IH]; cbn [map List.filter]; [reflexivity|].
  rewrite unterminatedOn_lineDiagnostic, Hm, andb_false_r. exact IH.
Qed.

Lemma ifLoop_unterminatedOn doc l n : forall a st,
  List.filter (unterminatedOn l) (diagnostics (fold_left (ifLine doc) (seq a n) st))
  = List.filter (unterminatedOn l) (diagnostics st)
    ++ emitIf ((a <=? l) && (l <? a + n) && unterminatedAt doc l)
         (lineDiagnostic doc l msgUnterminated).
Proof.
  induction n as [|n IH]; intros a st; cbn [seq fold_left].
  - replace ((a <=? l) && (l <? a + 0)) with false.
    + cbn. rewrite app_nil_r. reflexivity.
    + symmetry. destruct (a <=? l) eqn:E1; [|reflexivity].
      apply Nat.leb_le in E1. cbn. apply Nat.ltb_ge. lia.
  - rewrite IH. destruct (ifLine_shape doc st a) as (Hd & _). rewrite Hd.
    rewrite !List.filter_app, !filter_unterminatedOn_emitIf. unterminated_compute.
    rewrite !andb_false_r, !andb_true_r. cbv iota.
    rewrite !app_nil_r, !app_nil_l, <- app_assoc. f_equal.
    destruct (a =? l) eqn:E.
    + apply Nat.eqb_eq in E. subst a.
      replace (S l <=? l) with false by (symmetry; apply Nat.leb_gt; lia).
      replace (l <=? l) with true by (symmetry; apply Nat.leb_le; lia).
      replace (l <? l + S n) with true by (symmetry; apply Nat.ltb_lt; lia).
      cbn [andb emitIf]. apply app_nil_r.
    + apply Nat.eqb_neq in E. cbn [app].
      replace ((S a <=? l) && (l <? S a + n)) with ((a <=? l) && (l <? a + S n)); [reflexivity|].
      destruct (a <=? l) eqn:E1, (S a <=? l) eqn:E2, (l <? a + S n) eqn:E3,
               (l <? S a + n) eqn:E4; try reflexivity; exfalso;
        rewrite ?Nat.leb_le, ?Nat.leb_gt, ?Nat.ltb_lt, ?Nat.ltb_ge in *; lia.
Qed.

Lemma forLoop_unterminatedOn doc l idxs : forall st,
  List.filter (unterminatedOn l) (forDiagnostics (fold_left (forLine doc) idxs st))
  = List.filter (unterminatedOn l) (forDiagnostics st).
Proof.
  induction idxs as [|i idxs IH]; intros st; cbn [fold_left]; [reflexivity|].
  rewrite IH. destruct (forLine_shape doc st i) as (Hd & _). rewrite Hd.
  rewrite List.filter_app, filter_unterminatedOn_emitIf. unterminated_compute.
  rewrite andb_false_r. cbv iota. apply app_nil_r.
Qed.

(* ------------------------------------------------------------------ *)

Lemma execAll_In at_ s : forall pos skip p m,
  In (p, m) (Re.execAll at_ s pos skip) ->
  exists k, p = pos + k /\ k < length s /\ at_ (skipn k s) = Some m.
Proof.
  induction s as [|c s IH]; intros pos skip p m Hin; cbn [Re.execAll] in Hin; [contradiction|].
  assert (Hrec : forall skip', In (p, m) (Re.execAll at_ s (pos + 1) skip') ->
                 exists k, p = pos + k /\ k < length (c :: s)
                           /\ at_ (skipn k (c :: s)) = Some m).
  { intros skip' H. apply IH in H. destruct H as (k & -> & Hk & Hm).
    exists (S k). repeat split; [lia | simpl; lia | exact Hm]. }
  destruct skip as [|skip']; [|apply (Hrec skip'); exact Hin].
  destruct (at_ (c :: s)) as [m0|] eqn:Hat; [|apply (Hrec 0); exact Hin].
  destruct Hin as [Hin|Hin]; [|eapply Hrec; exact Hin].
  inversion Hin; subst. exists 0. repeat split; [lia | simpl; lia | exact Hat].
Qed.

Lemma spaces1_app r r1 : Re.spaces1 r = Some r1 -> exists ws, r = ws ++ r1.
Proof.
  unfold Re.spaces1. destruct r as [|c r']; [discriminate|].
  destruct (isSpace c); [|discriminate]. intros E. inversion E.
  exists (c :: takeWhile isSpace r'). simpl. rewrite takeWhile_dropWhile. reflexivity.
Qed.

Lemma spaces0_app r : exists ws, r = ws ++ Re.spaces0 r.
Proof. apply dropWhile_suffix. Qed.

(** A captured identifier is made of word characters, and is not empty. *)
Lemma ident_app r name r2 :
  Re.ident r = Some (name, r2) ->
  r = name ++ r2 /\ name <> [] /\ forallb isWordChar name = true.
Proof.
  unfold Re.ident. destruct r as [|c r']; [discriminate|].
  destruct (isIdentStart c) eqn:Hc; [|discriminate]. intros E. inversion E; subst.
  split; [simpl; rewrite takeWhile_dropWhile; reflexivity|].
  split; [discriminate|].
  simpl. unfold isWordChar at 1. rewrite Hc. simpl. apply takeWhile_all.
Qed.

Lemma firstn_app_exact (a b : text) : firstn (length (a ++ b) - length b) (a ++ b) = a.
Proof.
  rewrite length_app. replace (length a + length b - length b) with (length a) by lia.
  rewrite firstn_app, Nat.sub_diag, firstn_all. simpl. apply app_nil_r.
Qed.

Lemma setUseAt_spec s m :
  Re.setUseAt s = Some m ->
  exists pre r2,
    s = Re.whole m ++ r2 /\ Re.whole m = pre ++ Re.capture m
    /\ Re.capture m <> [] /\ forallb isWordChar (Re.capture m) = true.
Proof.
  unfold Re.setUseAt.
  destruct (Re.lit eqc (str "@Set") s) as [r|] eqn:H0; [|discriminate].
  apply lit_eqc_app in H0.
  destruct (Re.spaces1 r) as [r1|] eqn:H1; [|discriminate].
  apply spaces1_app in H1. destruct H1 as [ws H1].
  destruct (Re.ident r1) as [[name r2]|] eqn:H2; [|discriminate].
  apply ident_app in H2. destruct H2 as (H2 & Hne & Hw).
  intros E. inversion E; subst m. cbn [Re.whole Re.capture].
  assert (Hs : s = (str "@Set" ++ ws ++ name) ++ r2).
  { rewrite H0, H1, H2, <- !app_assoc. reflexivity. }
  assert (Hwhole : firstn (length s - length r2) s = str "@Set" ++ ws ++ name).
  { rewrite Hs. apply firstn_app_exact. }
  exists (str "@Set" ++ ws), r2. rewrite Hwhole.
  split; [exact Hs|]. split; [apply app_assoc|]. split; [exact Hne | exact Hw].
Qed.

Lemma getUseAt_spec s m :
  Re.getUseAt s = Some m ->
  exists pre post r3,
    s = Re.whole m ++ r3 /\ Re.whole m = pre ++ Re.capture m ++ post
    /\ Re.capture m <> [] /\ forallb isWordChar (Re.capture m) = true.
Proof.
  unfold Re.getUseAt.
  destruct (Re.lit eqc (str "@Get(") s) as [r|] eqn:H0; [|discriminate].
  apply lit_eqc_app in H0.
  destruct (spaces0_app r) as [ws1 H1].
  destruct (Re.ident (Re.spaces0 r)) as [[name r2]|] eqn:H2; [|discriminate].
  apply ident_app in H2. destruct H2 as (H2 & Hne & Hw).
  destruct (spaces0_app r2) as [ws2 H3].
  destruct (Re.spaces0 r2) as [|c r3] eqn:H4; [discriminate|].
  destruct (eqc c ")"%char) eqn:Hc; [|discriminate].
  intros E. inversion E; subst m. cbn [Re.whole Re.capture].
  assert (Hs : s = (str "@Get(" ++ ws1 ++ name ++ ws2 ++ [c]) ++ r3).
  { rewrite H0, H1, H2, H3, <- !app_assoc. reflexivity. }
  assert (Hwhole : firstn (length s - length r3) s
                   = str "@Get(" ++ ws1 ++ name ++ ws2 ++ [c]).
  { rewrite Hs. apply firstn_app_exact. }
  exists (str "@Get(" ++ ws1), (ws2 ++ [c]), r3. rewrite Hwhole.
  split; [exact Hs|]. split; [rewrite <- !app_assoc; reflexivity|].
  split; [exact Hne | exact Hw].
Qed.

Lemma prefixBy_short (pat s : text) :
  length s < length pat -> prefixBy eqc pat s = false.
Proof.
  intros H. destruct (prefixBy eqc pat s) eqn:E; [|reflexivity].
  apply prefixBy_eqc_iff in E. destruct E as [t ->]. rewrite length_app in H. lia.
Qed.

Lemma lastIndexOfFrom_short pat s : forall i found,
  length s < length pat -> Re.lastIndexOfFrom pat s i found = found.
Proof.
  induction s as [|c s IH]; intros i found H; cbn [Re.lastIndexOfFrom].
  - rewrite prefixBy_short by exact H. reflexivity.
  - rewrite prefixBy_short by exact H. apply IH. simpl in H. lia.
Qed.

Lemma lastIndexOfFrom_suffix pat pre : forall i found,
  pat <> [] -> Re.lastIndexOfFrom pat (pre ++ pat) i found = Some (i + length pre).
Proof.
  induction pre as [|c pre IH]; intros i found Hne.
  - cbn [app length]. destruct pat as [|x pat']; [congruence|].
    cbn [Re.lastIndexOfFrom].
    replace (prefixBy eqc (x :: pat') (x :: pat')) with true
      by (symmetry; apply prefixBy_eqc_iff; exists []; rewrite app_nil_r; reflexivity).
    rewrite lastIndexOfFrom_short by (simpl; lia). f_equal. lia.
  - cbn [app Re.lastIndexOfFrom length]. rewrite IH by exact Hne. f_equal. lia.
Qed.

Lemma indexOfFrom_hit pat s i :
  prefixBy eqc pat s = true -> indexOfFrom pat s i = Some i.
Proof. intros H. destruct s; cbn [indexOfFrom]; rewrite H; reflexivity. Qed.

Lemma indexOfFrom_found pat pre post : forall i,
  exists k, indexOfFrom pat (pre ++ pat ++ post) i = Some (i + k)
            /\ k <= length pre
            /\ prefixBy eqc pat (skipn k (pre ++ pat ++ post)) = true.
Proof.
  induction pre as [|c pre IH]; intros i.
  - assert (Hp : prefixBy eqc pat (pat ++ post) = true)
      by (apply prefixBy_eqc_iff; eauto).
    exists 0. cbn [app length skipn]. rewrite (indexOfFrom_hit _ _ _ Hp).
    split; [f_equal; lia|]. split; [lia | exact Hp].
  - destruct (prefixBy eqc pat ((c :: pre) ++ pat ++ post)) eqn:Hp.
    + exists 0. rewrite (indexOfFrom_hit _ _ _ Hp).
      split; [f_equal; lia|]. split; [lia | exact Hp].
    + destruct (IH (S i)) as (k & Hk & Hle & Hpk).
      exists (S k). cbn [app indexOfFrom] in *. rewrite Hp, Hk.
      split; [f_equal; lia|]. split; [simpl; lia | exact Hpk].
Qed.

(** The column recorded for a use holds a copy of the name. *)
Lemma usesOf_holds_name t name start :
  In (name, start) (usesOf t) ->
  startsWith t name start = true /\ name <> [] /\ forallb isWordChar name = true.
Proof.
  unfold usesOf. intros Hin. apply in_app_or in Hin. destruct Hin as [Hin|Hin];
    apply in_map_iff in Hin; destruct Hin as ([p m] & E & Hin); inversion E; subst; clear E;
    apply execAll_In in Hin; destruct Hin as (k & -> & Hk & Hat); cbn [fst snd].
  - apply setUseAt_spec in Hat. destruct Hat as (pre & r2 & Hs & Hw & Hne & Hword).
    split; [|auto]. unfold setNameStart. cbn [fst snd].
    unfold Re.lastIndexOf. rewrite Hw, lastIndexOfFrom_suffix by exact Hne.
    unfold startsWith. apply prefixBy_eqc_iff. exists r2.
    replace (0 + k + (0 + length pre)) with (length pre + k) by lia.
    rewrite <- skipn_skipn, Hs, Hw, <- app_assoc.
    rewrite skipn_app, Nat.sub_diag, skipn_all. reflexivity.
  - apply getUseAt_spec in Hat. destruct Hat as (pre & post & r3 & Hs & Hw & Hne & Hword).
    split; [|auto]. unfold getNameStart. cbn [fst snd].
    unfold indexOf. rewrite Hw.
    destruct (indexOfFrom_found (Re.capture m) pre post 0) as (j & Hj & Hle & Hp).
    rewrite Hj. unfold startsWith.
    replace (0 + k + (0 + j)) with (j + k) by lia.
    rewrite <- skipn_skipn, Hs, Hw.
    apply prefixBy_eqc_iff in Hp. destruct Hp as [rest Hrest].
    apply prefixBy_eqc_iff. exists (rest ++ r3).
    rewrite skipn_app, Hrest.
    replace (j - length (pre ++ Re.capture m ++ post)) with 0
      by (rewrite !length_app; lia).
    rewrite <- app_assoc. reflexivity.
Qed.

Lemma word_not_space c : isWordChar c = true -> c <> space.
Proof. intros H E. subst c. discriminate H. Qed.

(** Where the mask shows word characters, the line has the same
    characters. *)
Lemma mask_reveals raw masked_ name : forall start,
  Forall2 maskedChar raw masked_ ->
  forallb isWordChar name = true ->
  startsWith masked_ name start = true -> startsWith raw name start = true.
Proof.
  intros start HF Hw. revert start. induction HF as [|cin cout raw' masked' Hc HF IH]; intros start.
  - unfold startsWith. rewrite !skipn_nil. auto.
  - destruct start as [|start]; [|apply IH].
    unfold startsWith. cbn [skipn]. clear IH.
    revert name Hw cin cout Hc. induction HF as [|a b l1 l2 Hab HF' IH2];
      intros name Hw cin cout Hc H.
    + destruct name as [|x name]; [reflexivity|]. cbn [prefixBy] in *.
      apply andb_true_iff in H. destruct H as [Hx Hrest].
      cbn [forallb] in Hw. apply andb_true_iff in Hw. destruct Hw as [Hwx _].
      apply eqc_true in Hx. subst cout.
      destruct Hc as [->|Hs]; [rewrite eqc_refl; exact Hrest|].
      exfalso. exact (word_not_space x Hwx Hs).
    + destruct name as [|x name]; [reflexivity|]. cbn [prefixBy] in *.
      apply andb_true_iff in H. destruct H as [Hx Hrest].
      cbn [forallb] in Hw. apply andb_true_iff in Hw. destruct Hw as [Hwx Hw'].
      apply eqc_true in Hx. subst cout.
      destruct Hc as [->|Hs]; [|exfalso; exact (word_not_space x Hwx Hs)].
      rewrite eqc_refl. cbn [andb]. apply (IH2 name Hw' a b Hab). exact Hrest.
Qed.

(* ================================================================== *)
(** * Further properties of the classifier *)
(* ================================================================== *)

Lemma startsWith_length line pat i :
  startsWith line pat i = true -> 0 < length pat -> i + length pat <= length line.
Proof.
  unfold startsWith. intros H Hpos. apply prefixBy_eqc_iff in H. destruct H as [t Ht].
  apply (f_equal (@length ascii)) in Ht. rewrite length_skipn, length_app in Ht. lia.
Qed.

Lemma execFirst_spec at_ s m :
  TokenRe.execFirst at_ s = Some m -> exists p, at_ (skipn p s) = Some m.
Proof.
  induction s as [|c s IH]; cbn [TokenRe.execFirst].
  - destruct (at_ []) eqn:E; [|discriminate]. intros H. inversion H; subst.
    exists 0. exact E.
  - destruct (at_ (c :: s)) eqn:E.
    + intros H. inversion H; subst. exists 0. exact E.
    + intros H. apply IH in H. destruct H as [p Hp]. exists (S p). exact Hp.
Qed.

Lemma functionDeclAt_spec s m :
  TokenRe.functionDeclAt s = Some m ->
  exists pre r2,
    s = Re.whole m ++ r2 /\ Re.whole m = pre ++ Re.capture m /\ Re.capture m <> [].
Proof.
  unfold TokenRe.functionDeclAt.
  destruct (Re.lit eqc (str "@Function") s) as [r|] eqn:H0; [|discriminate].
  apply lit_eqc_app in H0.
  destruct (Re.spaces1 r) as [r1|] eqn:H1; [|discriminate].
  apply spaces1_app in H1. destruct H1 as [ws H1].
  destruct (Re.ident r1) as [[name r2]|] eqn:H2; [|discriminate].
  apply ident_app in H2. destruct H2 as (H2 & Hne & Hw).
  intros E. inversion E; subst m. cbn [Re.whole Re.capture].
  assert (Hs : s = (str "@Function" ++ ws ++ name) ++ r2).
  { rewrite H0, H1, H2, <- !app_assoc. reflexivity. }
  assert (Hwhole : firstn (length s - length r2) s = str "@Function" ++ ws ++ name).
  { rewrite Hs. apply firstn_app_exact. }
  exists (str "@Function" ++ ws), r2. rewrite Hwhole.
  split; [exact Hs|]. split; [apply app_assoc | exact Hne].
Qed.

Lemma declTokens_within line lineNo i tok :
  In tok (declTokens line lineNo i) -> spanWithin line lineNo tok.
Proof.
  unfold declTokens. intros Hin. apply in_app_or in Hin. destruct Hin as [Hin|Hin].
  - destruct (startsWith line (str "@Function") i && isWordBoundary line i 9) eqn:B;
      [|contradiction].
    apply andb_true_iff in B. destruct B as [Hs _].
    pose proof (startsWith_length _ _ _ Hs) as Hlen. change (length (str "@Function")) with 9 in Hlen.
    destruct Hin as [<-|Hin]; [unfold spanWithin; cbn; lia|].
    destruct (TokenRe.execFirst TokenRe.functionDeclAt (sliceFrom line i)) as [mm|] eqn:Hm;
      [|contradiction].
    destruct Hin as [<-|[]].
    apply execFirst_spec in Hm. destruct Hm as [p Hp].
    apply functionDeclAt_spec in Hp. destruct Hp as (pre & r2 & Hs2 & Hw & Hne).
    destruct (indexOfFrom_found (Re.capture mm) pre [] 0) as (k & Hk & Hle & _).
    rewrite app_nil_r in Hk. unfold indexOf. rewrite Hw, Hk.
    unfold spanWithin. cbn [t_line t_char t_length].
    split; [reflexivity|]. split; [destruct (Re.capture mm); [congruence | simpl; lia]|].
    apply (f_equal (@length ascii)) in Hs2. unfold sliceFrom in Hs2.
    rewrite !length_skipn, length_app, Hw, length_app in Hs2. lia.
  - destruct (startsWith line (str "@End Function") i && isWordBoundary line i 13) eqn:B;
      [|contradiction].
    apply andb_true_iff in B. destruct B as [Hs _].
    pose proof (startsWith_length _ _ _ Hs) as Hlen.
    change (length (str "@End Function")) with 13 in Hlen.
    destruct Hin as [<-|[]]. unfold spanWithin; cbn; lia.
Qed.

Lemma operatorTokens_within line lineNo i ch tok :
  charAt line i = Some ch ->
  In tok (operatorTokens line lineNo i ch) -> spanWithin line lineNo tok.
Proof.
  intros Hch. apply charAt_lt in Hch. unfold operatorTokens.
  destruct (eqc ch "+"%char || eqc ch "="%char); [|contradiction].
  destruct (_ || _); [contradiction|].
  intros [<-|[]]. unfold spanWithin; cbn; lia.
Qed.

Lemma logicToken_within line lineNo i ch tok skip :
  charAt line i = Some ch ->
  logicToken line lineNo i ch = Some (tok, skip) -> spanWithin line lineNo tok.
Proof.
  intros Hch. apply charAt_lt in Hch. unfold logicToken.
  destruct (startsWith line (str "And") i && isWordBoundary line i 3) eqn:B1.
  { apply andb_true_iff in B1. destruct B1 as [Hs _]. apply startsWith_length in Hs; [|cbn; lia].
    intros E. inversion E; subst. unfold spanWithin; cbn in *; lia. }
  destruct (startsWith line (str "Or") i && isWordBoundary line i 2) eqn:B2.
  { apply andb_true_iff in B2. destruct B2 as [Hs _]. apply startsWith_length in Hs; [|cbn; lia].
    intros E. inversion E; subst. unfold spanWithin; cbn in *; lia. }
  destruct (startsWith line (str ">=") i) eqn:B3.
  { apply startsWith_length in B3; [|cbn; lia]. intros E. inversion E; subst.
    unfold spanWithin; cbn in *; lia. }
  destruct (startsWith line (str "<=") i) eqn:B4.
  { apply startsWith_length in B4; [|cbn; lia]. intros E. inversion E; subst.
    unfold spanWithin; cbn in *; lia. }
  destruct (startsWith line (str "<>") i) eqn:B5.
  { apply startsWith_length in B5; [|cbn; lia]. intros E. inversion E; subst.
    unfold spanWithin; cbn in *; lia. }
  cbn [orb]. destruct (_ || _); [|discriminate].
  intros E. inversion E; subst. unfold spanWithin; cbn; lia.
Qed.

Lemma mapCall_within line lineNo i tok j :
  mapCall line lineNo i = Some (tok, j) -> spanWithin line lineNo tok.
Proof.
  unfold mapCall.
  destruct (TokenRe.mapNameAt (sliceFrom line i)) as [len|] eqn:Hm; [|discriminate].
  apply mapNameAt_spec in Hm. destruct Hm as (pat & Hp & Hl & _ & Hpos).
  destruct (optIs _ "("%char); [|discriminate].
  intros E. inversion E; subst.
  assert (Hs : startsWith line pat i = true) by exact Hp.
  apply startsWith_length in Hs; [|lia]. unfold spanWithin; cbn; lia.
Qed.

Lemma genericCall_within line lineNo i ch tok k j :
  genericCall line lineNo i ch = Some (tok, k, j) -> spanWithin line lineNo tok.
Proof.
  unfold genericCall. destruct (eqc ch "@"%char); [|discriminate].
  destruct (TokenRe.atNameRe (sliceFrom line i)) as [name|] eqn:Hn; [|discriminate].
  apply atNameRe_spec in Hn. destruct Hn as [Hp _].
  destruct (bool_decide (name = str "Map") && optIs _ "."%char); [discriminate|].
  destruct (has AT_CONTROL_WORDS name); [discriminate|].
  destruct (has WRITER_KEYWORDS name); [discriminate|].
  destruct (getCallParenIndex line i (length name)); [|discriminate].
  intros E. inversion E; subst. clear E.
  assert (Hs : startsWith line ("@"%char :: name) i = true) by exact Hp.
  apply startsWith_length in Hs; [|cbn; lia]. cbn [length] in Hs.
  unfold spanWithin. cbn [t_line t_char t_length].
  destruct (optIs (charAt line (i + S (length name))) "@"%char) eqn:Hat.
  - apply optIs_true in Hat. apply charAt_lt in Hat. lia.
  - lia.
Qed.

Lemma innerAtTokens_within line lineNo i ch st tok :
  charAt line i = Some ch ->
  In tok (innerAtTokens line lineNo i ch st) -> spanWithin line lineNo tok.
Proof.
  intros Hch. apply charAt_lt in Hch. unfold innerAtTokens.
  destruct (stack st); [contradiction|].
  destruct (eqc ch "@"%char); [|contradiction].
  destruct (_ || _); [|contradiction].
  intros [<-|[]]. unfold spanWithin; cbn; lia.
Qed.

Lemma scanAt_within line lineNo i ch st tok :
  charAt line i = Some ch ->
  In tok (fst (fst (scanAt line lineNo i ch st))) -> spanWithin line lineNo tok.
Proof.
  intros Hch. unfold scanAt.
  assert (Hdecl : forall t, In t (declTokens line lineNo i) -> spanWithin line lineNo t)
    by (intros t; apply declTokens_within).
  assert (Hone : forall more,
             (forall t, In t more -> spanWithin line lineNo t) ->
             In tok (declTokens line lineNo i ++ more) -> spanWithin line lineNo tok).
  { intros more Hm Hin. apply in_app_or in Hin. destruct Hin; auto. }
  assert (Htoks1 : forall t, In t (declTokens line lineNo i ++ operatorTokens line lineNo i ch)
                             -> spanWithin line lineNo t).
  { intros t Hin. apply in_app_or in Hin. destruct Hin as [Hin|Hin]; [auto|].
    eapply operatorTokens_within; eassumption. }
  assert (Htwo : forall more,
             (forall t, In t more -> spanWithin line lineNo t) ->
             In tok ((declTokens line lineNo i ++ operatorTokens line lineNo i ch) ++ more)
             -> spanWithin line lineNo tok).
  { intros more Hm Hin. apply in_app_or in Hin. destruct Hin; auto. }
  destruct (eqc ch "^"%char && startsWith line (str "^Data") i) eqn:B1.
  { cbn [fst]. apply Hone. intros t [<-|[]].
    apply andb_true_iff in B1. destruct B1 as [_ Hs]. apply startsWith_length in Hs; [|cbn; lia].
    unfold spanWithin; cbn in *; lia. }
  destruct (eqc ch "^"%char && startsWith line (str "^Class") i) eqn:B2.
  { cbn [fst]. apply Hone. intros t [<-|[]].
    apply andb_true_iff in B2. destruct B2 as [_ Hs]. apply startsWith_length in Hs; [|cbn; lia].
    unfold spanWithin; cbn in *; lia. }
  destruct (inSingleQuote st); [cbn [fst]; apply Hdecl|].
  destruct (eqc ch "^"%char
            && (startsWith line (str "^Data") i || startsWith line (str "^Class") i)) eqn:B3.
  { exfalso. destruct (eqc ch "^"%char); [|discriminate].
    cbn [andb] in *. rewrite B1, B2 in B3. discriminate. }
  destruct (isIfAt line i || isElseIfAt line i).
  { destruct (ifParenIndex line i (isIfAt line i)); cbn [fst]; apply Htoks1. }
  destruct (leavesIfMode line i st); [cbn [fst]; apply Htoks1|].
  destruct (if ifMode st || (0 <? ifParenDepth st) then logicToken line lineNo i ch else None)
    as [[tk skip]|] eqn:B5.
  { cbn [fst]. apply Htwo. intros t [<-|[]].
    destruct (ifMode st || (0 <? ifParenDepth st)); [|discriminate].
    eapply logicToken_within; eassumption. }
  destruct (mapCall line lineNo i) as [[tk j]|] eqn:B6.
  { cbn [fst]. apply Htwo. intros t [<-|[]]. eapply mapCall_within; eassumption. }
  destruct (genericCall line lineNo i ch) as [[[tk k] j]|] eqn:B7.
  { cbn [fst]. apply Htwo. intros t [<-|[]]. eapply genericCall_within; eassumption. }
  cbn [fst]. apply Htwo. intros t Hin. eapply innerAtTokens_within; eassumption.
Qed.

Lemma scanLoop_within line lineNo fuel : forall i st tok,
  In tok (scanLoop fuel line lineNo i st) -> spanWithin line lineNo tok.
Proof.
  induction fuel as [|fuel IH]; intros i st tok Hin; [contradiction|].
  destruct (charAt line i) as [ch|] eqn:Hch.
  - rewrite (scanLoop_unfold _ _ _ _ _ _ Hch) in Hin. apply in_app_or in Hin.
    destruct Hin as [Hin|Hin]; [eapply scanAt_within; eassumption | eapply IH; exact Hin].
  - cbn [scanLoop] in Hin. rewrite Hch in Hin. contradiction.
Qed.

Lemma returnTokens_within line lineNo fname tok :
  In tok (returnTokens (stripSingleQuoted2 line) lineNo fname) -> spanWithin line lineNo tok.
Proof.
  unfold returnTokens. destruct fname as [fname|]; [|contradiction].
  assert (Huse : forall name start,
             In (name, start) (usesOf (stripSingleQuoted2 line)) ->
             spanWithin line lineNo
               {| t_line := lineNo; t_char := start; t_length := length name;
                  t_kind := ablReturn |}).
  { intros name start Hin. apply usesOf_holds_name in Hin. destruct Hin as (Hs & Hne & _).
    apply startsWith_length in Hs; [|destruct name; [congruence | simpl; lia]].
    rewrite stripSingleQuoted2_length in Hs.
    unfold spanWithin. cbn. destruct name; [congruence | simpl in *; lia]. }
  intros Hin. apply in_app_or in Hin. destruct Hin as [Hin|Hin];
    apply in_map_iff in Hin; destruct Hin as (pm & <- & Hin);
    apply filter_In in Hin; destruct Hin as [Hin _].
  - apply (Huse (Re.capture (snd pm)) (setNameStart pm)). unfold usesOf.
    apply in_or_app. left. apply in_map_iff. exists pm. auto.
  - apply (Huse (Re.capture (snd pm)) (getNameStart pm)). unfold usesOf.
    apply in_or_app. right. apply in_map_iff. exists pm. auto.
Qed.

Lemma lineTokens_within doc l2f names lineNo tok :
  In tok (lineTokens doc l2f names lineNo) -> spanWithin (lineAt doc lineNo) lineNo tok.
Proof.
  unfold lineTokens. intros Hin. apply in_app_or in Hin. destruct Hin as [Hin|Hin].
  - eapply returnTokens_within. exact Hin.
  - eapply scanLoop_within. exact Hin.
Qed.

Lemma flat_map_line_sorted (f : nat -> list Token) n : forall a,
  (forall l tok, In tok (f l) -> t_line tok = l) ->
  StronglySorted (fun x y => t_line x <= t_line y) (flat_map f (seq a n)).
Proof.
  induction n as [|n IH]; intros a Hf; cbn [seq flat_map]; [constructor|].
  assert (Hrest : List.Forall (fun y => a <= t_line y) (flat_map f (seq (S a) n))).
  { apply List.Forall_forall. intros y Hy. apply in_flat_map in Hy.
    destruct Hy as (l & Hl & Hy). apply in_seq in Hl. apply Hf in Hy. lia. }
  specialize (IH (S a) Hf).
  assert (Hall : forall chunk,
             (forall tok, In tok chunk -> t_line tok = a) ->
             StronglySorted (fun x y => t_line x <= t_line y)
               (chunk ++ flat_map f (seq (S a) n))).
  { induction chunk as [|x chunk IHc]; intros Hc; [exact IH|].
    cbn [app]. constructor.
    - apply IHc. intros tok Ht. apply Hc. right. exact Ht.
    - apply List.Forall_app. split.
      + apply List.Forall_forall. intros y Hy.
        rewrite (Hc x (or_introl eq_refl)), (Hc y (or_intror Hy)). lia.
      + rewrite (Hc x (or_introl eq_refl)). exact Hrest. }
  apply Hall. intros tok Ht. apply Hf. exact Ht.
Qed.

(** X10.  Every span the classifier emits lies on an existing line, is not
    empty and ends within its line; and the spans are emitted in line
    order. *)
Theorem tokens_within_lines (doc : TextDocument) :
  (forall tok, In tok (provideTokens doc) ->
     t_line tok < lineCount doc
     /\ 0 < t_length tok
     /\ t_char tok + t_length tok <= length (lineAt doc (t_line tok)))
  /\ StronglySorted (fun x y => t_line x <= t_line y) (provideTokens doc).
Proof.
  unfold provideTokens. split.
  - intros tok Hin. apply in_flat_map in Hin. destruct Hin as (l & Hl & Hin).
    apply in_seq in Hl. apply lineTokens_within in Hin.
    destruct Hin as (H1 & H2 & H3). rewrite H1. repeat split; [lia | exact H2 | exact H3].
  - apply flat_map_line_sorted. intros l tok Hin.
    apply lineTokens_within in Hin. apply Hin.
Qed.

Lemma trackIfParens_wf ch st :
  wellFormedState st -> wellFormedState (trackIfParens ch st).
Proof.
  intros (Hif & Hst & Hq). unfold trackIfParens.
  destruct (0 <? ifParenDepth st) eqn:Hd; [|repeat split; assumption].
  apply Nat.ltb_lt in Hd.
  destruct (eqc ch "("%char).
  { repeat split; cbn; auto. }
  destruct (eqc ch ")"%char); [|repeat split; assumption].
  destruct (ifParenDepth st - 1 =? 0) eqn:Hz.
  - repeat split; cbn; auto. lia.
  - repeat split; cbn; auto.
Qed.

Lemma trackCallParens_wf ch st :
  wellFormedState st -> wellFormedState (trackCallParens ch st).
Proof.
  intros (Hif & Hst & Hq). unfold trackCallParens.
  destruct (stack st) as [|t below] eqn:Hs; [repeat split; try assumption; rewrite Hs; constructor|].
  inversion Hst as [|? ? Ht Hbelow]; subst.
  destruct (eqc ch "("%char).
  { repeat split; cbn; auto. constructor; [cbn; lia | assumption]. }
  destruct (eqc ch ")"%char); [|repeat split; try assumption; rewrite Hs; assumption].
  destruct (depth t - 1 =? 0) eqn:Hz.
  - repeat split; cbn; auto.
  - apply Nat.eqb_neq in Hz. repeat split; cbn; auto.
    constructor; [cbn; lia | assumption].
Qed.

Lemma pushFrame_wf st k : wellFormedState st -> wellFormedState (pushFrame st k).
Proof.
  intros (Hif & Hst & Hq). repeat split; cbn; auto.
Qed.

Lemma setIf_wf st mode d :
  wellFormedState st -> (0 < d -> mode = true) -> wellFormedState (setIf st mode d).
Proof.
  intros (Hif & Hst & Hq) Hd. repeat split; cbn; auto.
Qed.

Lemma ifParenIndex_lt line i isIf j :
  ifParenIndex line i isIf = Some j -> j < length line.
Proof.
  unfold ifParenIndex. cbv zeta.
  match goal with |- context [optIs (charAt line ?x) "("%char] =>
    destruct (optIs (charAt line x) "("%char) eqn:Hp; [|discriminate];
    intros E; inversion E; subst;
    apply optIs_true in Hp; apply charAt_lt in Hp; exact Hp
  end.
Qed.

Lemma mapCall_lt line lineNo i tok j :
  mapCall line lineNo i = Some (tok, j) -> j < length line.
Proof.
  unfold mapCall. destruct (TokenRe.mapNameAt (sliceFrom line i)); [|discriminate].
  cbv zeta.
  match goal with |- context [optIs (charAt line ?x) "("%char] =>
    destruct (optIs (charAt line x) "("%char) eqn:Hp; [|discriminate];
    intros E; inversion E; subst;
    apply optIs_true in Hp; apply charAt_lt in Hp; exact Hp
  end.
Qed.

Lemma genericCall_lt line lineNo i ch tok k j :
  genericCall line lineNo i ch = Some (tok, k, j) -> j < length line.
Proof.
  unfold genericCall. destruct (eqc ch "@"%char); [|discriminate].
  destruct (TokenRe.atNameRe (sliceFrom line i)) as [name|]; [|discriminate].
  destruct (bool_decide (name = str "Map") && optIs _ "."%char); [discriminate|].
  destruct (has AT_CONTROL_WORDS name); [discriminate|].
  destruct (has WRITER_KEYWORDS name); [discriminate|].
  destruct (getCallParenIndex line i (length name)) as [p|] eqn:Hg; [|discriminate].
  intros E. inversion E; subst. clear E.
  unfold getCallParenIndex in Hg. cbv zeta in Hg.
  match type of Hg with context [optIs (charAt line ?x) "("%char] =>
    destruct (x <? length line) eqn:Hlt; [|discriminate];
    destruct (optIs (charAt line x) "("%char); [|discriminate];
    inversion Hg; subst; apply Nat.ltb_lt in Hlt; exact Hlt
  end.
Qed.

Lemma logicToken_lt line lineNo i ch tok skip :
  charAt line i = Some ch ->
  logicToken line lineNo i ch = Some (tok, skip) -> i + skip < length line.
Proof.
  intros Hch Hl. pose proof (logicToken_within _ _ _ _ _ _ Hch Hl) as (_ & _ & Hb).
  apply charAt_lt in Hch. revert Hl Hb. unfold logicToken.
  repeat match goal with
         | |- context [if ?b then Some _ else _] => destruct b
         end; intros E; inversion E; subst; cbn; lia.
Qed.

(** X11.  One round of the scan of a line keeps the scan state well formed
    and leaves the index where it was or further right, still on the line;
    so a line of [n] characters is scanned in at most [n] rounds. *)
Theorem scan_round_invariant (line : text) (lineNo i : nat) (ch : ascii) (st : LineState) :
  charAt line i = Some ch ->
  wellFormedState st ->
  i <= snd (fst (scanAt line lineNo i ch st)) < length line
  /\ wellFormedState (snd (scanAt line lineNo i ch st))
  /\ forall extra,
       scanLoop (length line + extra) line lineNo 0 initialLineState = scanLine line lineNo.
Proof.
  intros Hch Hwf.
  assert (Hq : inSingleQuote st = false) by apply Hwf.
  pose proof (scanAt_spec line lineNo i ch st Hch Hq) as (Hge & _).
  pose proof (charAt_lt _ _ _ Hch) as Hi.
  split; [split; [exact Hge|] | split].
  - clear Hge. unfold scanAt.
    destruct (eqc ch "^"%char && startsWith line (str "^Data") i) eqn:B1; [exact Hi|].
    destruct (eqc ch "^"%char && startsWith line (str "^Class") i) eqn:B2; [exact Hi|].
    rewrite Hq.
    destruct (eqc ch "^"%char
              && (startsWith line (str "^Data") i || startsWith line (str "^Class") i)) eqn:B3.
    { exfalso. destruct (eqc ch "^"%char); [|discriminate].
      cbn [andb] in *. rewrite B1, B2 in B3. discriminate. }
    destruct (isIfAt line i || isElseIfAt line i).
    { destruct (ifParenIndex line i (isIfAt line i)) as [j|] eqn:Hj; cbn [fst snd];
        [eapply ifParenIndex_lt; exact Hj | exact Hi]. }
    destruct (leavesIfMode line i st); [exact Hi|].
    destruct (if ifMode st || (0 <? ifParenDepth st) then logicToken line lineNo i ch else None)
      as [[tk skip]|] eqn:B5.
    { cbn [fst snd]. destruct (ifMode st || (0 <? ifParenDepth st)); [|discriminate].
      eapply logicToken_lt; eassumption. }
    destruct (mapCall line lineNo i) as [[tk j]|] eqn:B6.
    { cbn [fst snd]. eapply mapCall_lt; exact B6. }
    destruct (genericCall line lineNo i ch) as [[[tk k] j]|] eqn:B7.
    { cbn [fst snd]. eapply genericCall_lt; exact B7. }
    exact Hi.
  - clear Hge. unfold scanAt.
    destruct (eqc ch "^"%char && startsWith line (str "^Data") i); [exact Hwf|].
    destruct (eqc ch "^"%char && startsWith line (str "^Class") i); [exact Hwf|].
    rewrite Hq.
    destruct (eqc ch "^"%char
              && (startsWith line (str "^Data") i || startsWith line (str "^Class") i));
      [exact Hwf|].
    destruct (isIfAt line i || isElseIfAt line i).
    { destruct (ifParenIndex line i (isIfAt line i)); cbn [snd];
        apply setIf_wf; auto. }
    destruct (leavesIfMode line i st); [cbn [snd]; apply setIf_wf; auto; lia|].
    destruct (if ifMode st || (0 <? ifParenDepth st) then logicToken line lineNo i ch else None)
      as [[tk skip]|]; [exact Hwf|].
    destruct (mapCall line lineNo i) as [[tk j]|]; [cbn [snd]; apply pushFrame_wf; exact Hwf|].
    destruct (genericCall line lineNo i ch) as [[[tk k] j]|];
      [cbn [snd]; apply pushFrame_wf; exact Hwf|].
    cbn [snd]. apply trackCallParens_wf, trackIfParens_wf, Hwf.
  - intros extra. unfold scanLine. apply scanLoop_fuel; [reflexivity | lia].
Qed.

Lemma scan_round_invariant_witness :
  0 <= snd (fst (scanAt (str "@If (a = 1) @Then") 0 0 "@"%char initialLineState))
    < length (str "@If (a = 1) @Then")
  /\ wellFormedState (snd (scanAt (str "@If (a = 1) @Then") 0 0 "@"%char initialLineState))
  /\ forall extra,
       scanLoop (length (str "@If (a = 1) @Then") + extra) (str "@If (a = 1) @Then") 0 0
         initialLineState
       = scanLine (str "@If (a = 1) @Then") 0.
Proof.
  apply (scan_round_invariant (str "@If (a = 1) @Then") 0 0 "@"%char initialLineState).
  - reflexivity.
  - repeat split; cbn; [lia | constructor].
Defined.

(* ================================================================== *)
(** * The formatter *)
(* ================================================================== *)

Lemma blank_cases c : isBlankTab c = true -> c = space \/ c = tab.
Proof. destruct c as [[] [] [] [] [] [] [] []]; vm_compute; intros H; auto; discriminate. Qed.

Lemma word_eqci_blank p c :
  isWordChar p = true -> isBlankTab c = true \/ c = "@"%char -> eqci p c = false.
Proof.
  intros Hp [Hc| ->]; [apply blank_cases in Hc; destruct Hc as [-> | ->]|];
    revert Hp; destruct p as [[] [] [] [] [] [] [] []]; vm_compute; congruence.
Qed.

Lemma blank_props c :
  isBlankTab c = true ->
  eqc c quote = false /\ eqc c "@"%char = false /\ isWordChar c = false
  /\ isSpace c = true /\ FormatRe.isLineTerminator c = false.
Proof.
  intros H. apply blank_cases in H. destruct H as [-> | ->]; vm_compute; tauto.
Qed.

Lemma atThen_head a : FormatRe.atThen a = true -> exists a', a = "@"%char :: a'.
Proof.
  unfold FormatRe.atThen. destruct a as [|c a']; [discriminate|].
  cbn [Re.lit str list_ascii_of_string]. destruct (eqci "@"%char c) eqn:E; [|discriminate].
  apply eqci_at in E. subst c. intros _. exists a'. reflexivity.
Qed.

Section Squeeze.

Variables (blanks a : text).
Hypothesis Hblanks : forallb isBlankTab blanks = true.
Hypothesis Ha : FormatRe.atThen a = true.

Lemma squeeze_head_old :
  match blanks ++ a with
  | [] => False
  | c :: _ => isBlankTab c = true \/ c = "@"%char
  end.
Proof.
  destruct blanks as [|b bl]; cbn [app].
  - destruct (atThen_head a Ha) as [a' ->]. right. reflexivity.
  - cbn [forallb] in Hblanks. apply andb_true_iff in Hblanks. left. tauto.
Qed.

Lemma litWord_squeeze p : forall x,
  forallb isWordChar p = true ->
  match Re.lit eqci p (x ++ blanks ++ a) with Some r => Re.wordEnd r | None => false end
  = match Re.lit eqci p (x ++ space :: a) with Some r => Re.wordEnd r | None => false end.
Proof.
  induction p as [|pc p IH]; intros x Hp.
  - cbn [Re.lit]. destruct x as [|c x]; [|reflexivity]. cbn [app].
    pose proof squeeze_head_old as Hh. destruct (blanks ++ a) as [|c r]; [contradiction|].
    cbn [Re.wordEnd]. destruct Hh as [Hc | ->]; [|reflexivity].
    apply blank_props in Hc. destruct Hc as (_ & _ & -> & _). reflexivity.
  - cbn [forallb] in Hp. apply andb_true_iff in Hp. destruct Hp as [Hpc Hp].
    destruct x as [|c x]; cbn [app Re.lit].
    + pose proof squeeze_head_old as Hh. destruct (blanks ++ a) as [|c r]; [contradiction|].
      rewrite (word_eqci_blank pc c Hpc Hh).
      rewrite (word_eqci_blank pc space Hpc (or_introl eq_refl)). reflexivity.
    + destruct (eqci pc c); [apply IH; exact Hp | reflexivity].
Qed.

Lemma atThen_squeeze c x :
  FormatRe.atThen (c :: x ++ blanks ++ a) = FormatRe.atThen (c :: x ++ space :: a).
Proof.
  unfold FormatRe.atThen. change (str "@Then") with ("@"%char :: str "Then").
  cbn [Re.lit]. destruct (eqci "@"%char c); [|reflexivity].
  apply litWord_squeeze. reflexivity.
Qed.

Lemma findThen_blanks : forall bl pre inQ,
  forallb isBlankTab bl = true ->
  findThen pre (bl ++ a) inQ = findThen (pre ++ bl) a inQ.
Proof.
  induction bl as [|b bl IH]; intros pre inQ Hbl; cbn [app].
  - rewrite app_nil_r. reflexivity.
  - cbn [forallb] in Hbl. apply andb_true_iff in Hbl. destruct Hbl as [Hb Hbl].
    apply blank_props in Hb. destruct Hb as (Hq & Hat & _).
    cbn [findThen]. rewrite Hq, Hat. cbn [andb].
    replace (pre ++ b :: bl) with ((pre ++ [b]) ++ bl) by (rewrite <- app_assoc; reflexivity).
    destruct inQ; apply IH; exact Hbl.
Qed.

End Squeeze.

Lemma findThen_split : forall rest pre inQ p a,
  findThen pre rest inQ = Some (p, a) ->
  exists mid, p = pre ++ mid /\ rest = mid ++ a /\ FormatRe.atThen a = true.
Proof.
  intros rest. induction rest as [rest IH] using (induction_ltof1 _ (@length ascii)).
  unfold ltof in IH. intros pre inQ p a H.
  destruct rest as [|ch rest1]; [discriminate|]. cbn [findThen] in H.
  destruct (eqc ch quote).
  - destruct rest1 as [|next rest2].
    + cbn [findThen] in H. discriminate.
    + destruct (eqc next quote).
      * apply IH in H; [|cbn; lia]. destruct H as (mid & -> & -> & Hat).
        exists (ch :: next :: mid). rewrite <- app_assoc. auto.
      * apply IH in H; [|cbn; lia]. destruct H as (mid & -> & Hr & Hat).
        exists (ch :: mid). rewrite <- app_assoc, Hr. auto.
  - destruct inQ.
    + apply IH in H; [|cbn; lia]. destruct H as (mid & -> & -> & Hat).
      exists (ch :: mid). rewrite <- app_assoc. auto.
    + destruct (eqc ch "@"%char && FormatRe.atThen (ch :: rest1)) eqn:E.
      * inversion H; subst. apply andb_true_iff in E. exists []. rewrite app_nil_r. tauto.
      * apply IH in H; [|cbn; lia]. destruct H as (mid & -> & -> & Hat).
        exists (ch :: mid). rewrite <- app_assoc. auto.
Qed.

Lemma findThen_length pre rest inQ p a :
  findThen pre rest inQ = Some (p, a) ->
  length p + length a = length pre + length rest /\ length pre <= length p.
Proof.
  intros H. apply findThen_split in H. destruct H as (mid & -> & -> & _).
  rewrite !length_app. lia.
Qed.

Lemma findThen_squeeze blanks a :
  forallb isBlankTab blanks = true ->
  FormatRe.atThen a = true ->
  forall m0 pre inQ,
    findThen pre (m0 ++ blanks ++ a) inQ = Some (pre ++ m0 ++ blanks, a) ->
    findThen pre (m0 ++ space :: a) inQ = Some (pre ++ m0 ++ [space], a).
Proof.
  intros Hbl Ha m0.
  induction m0 as [m0 IH] using (induction_ltof1 _ (@length ascii)).
  unfold ltof in IH. intros pre inQ H.
  destruct (atThen_head a Ha) as [a' Ea].
  assert (Hbase : forall pre inQ,
             findThen pre (blanks ++ a) inQ = Some (pre ++ blanks, a) ->
             findThen pre (space :: a) inQ = Some (pre ++ [space], a)).
  { clear pre inQ H. intros pre inQ H.
    rewrite (findThen_blanks a blanks pre inQ Hbl) in H.
    assert (inQ = false) as ->.
    { destruct inQ; [|reflexivity]. exfalso. rewrite Ea in H. cbn [findThen] in H.
      change (eqc "@"%char quote) with false in H. cbv iota in H.
      apply findThen_length in H. rewrite !length_app in H. cbn [length] in H. lia. }
    cbn [findThen]. change (eqc space quote) with false. cbv iota.
    change (eqc space "@"%char) with false. cbn [andb].
    rewrite Ea. cbn [findThen]. change (eqc "@"%char quote) with false. cbv iota.
    change (eqc "@"%char "@"%char) with true. rewrite <- Ea, Ha. reflexivity. }
  destruct m0 as [|ch m1].
  { cbn [app] in *. apply Hbase. exact H. }
  cbn [app] in H |- *. cbn [findThen] in H |- *.
  assert (Hpre : forall t : text, pre ++ ch :: t = (pre ++ [ch]) ++ t)
    by (intros t; rewrite <- app_assoc; reflexivity).
  destruct (eqc ch quote) eqn:Eq.
  - destruct m1 as [|next m2].
    + cbn [app] in H |- *.
      change (eqc space quote) with false. cbv iota.
      assert (Hhead : exists c r, blanks ++ a = c :: r /\ eqc c quote = false).
      { pose proof (squeeze_head_old blanks a Hbl Ha) as Hh.
        destruct (blanks ++ a) as [|c r]; [contradiction|]. exists c, r.
        split; [reflexivity|].
        destruct Hh as [Hc | ->]; [apply blank_props in Hc; tauto | reflexivity]. }
      destruct Hhead as (c & r & Eba & Hcq).
      rewrite Eba in H. rewrite Hcq in H. rewrite <- Eba in H. rewrite (Hpre blanks) in H.
      apply Hbase in H. rewrite H, <- app_assoc. reflexivity.
    + cbn [app] in H |- *. destruct (eqc next quote).
      * replace (pre ++ ch :: next :: m2 ++ blanks)
          with ((pre ++ [ch; next]) ++ m2 ++ blanks) in H
          by (rewrite <- app_assoc; reflexivity).
        apply IH in H; [|cbn; lia]. rewrite H, <- app_assoc. reflexivity.
      * change (next :: m2 ++ blanks ++ a) with ((next :: m2) ++ blanks ++ a) in H.
        rewrite (Hpre (next :: m2 ++ blanks)) in H. apply IH in H; [|cbn; lia].
        change (next :: m2 ++ space :: a) with ((next :: m2) ++ space :: a).
        rewrite H, <- app_assoc. reflexivity.
  - destruct inQ.
    + rewrite (Hpre (m1 ++ blanks)) in H. apply IH in H; [|cbn; lia].
      rewrite H, <- app_assoc. reflexivity.
    + rewrite <- (atThen_squeeze blanks a Hbl Ha ch m1).
      destruct (eqc ch "@"%char && FormatRe.atThen (ch :: m1 ++ blanks ++ a)).
      * exfalso. inversion H as [Hp]. apply (f_equal (@length ascii)) in Hp.
        rewrite length_app in Hp. cbn [length] in Hp. lia.
      * rewrite (Hpre (m1 ++ blanks)) in H. apply IH in H; [|cbn; lia].
        rewrite H, <- app_assoc. reflexivity.
Qed.

Lemma dropBlankTail_split pre :
  exists blanks, pre = dropBlankTail pre ++ blanks /\ forallb isBlankTab blanks = true.
Proof.
  unfold dropBlankTail. exists (rev (takeWhile isBlankTab (rev pre))). split.
  - rewrite <- rev_app_distr, takeWhile_dropWhile, rev_involutive. reflexivity.
  - rewrite forallb_forall. intros c Hc. rewrite <- in_rev in Hc.
    pose proof (takeWhile_all isBlankTab (rev pre)) as Hall.
    rewrite forallb_forall in Hall. apply Hall. exact Hc.
Qed.

Lemma dropBlankTail_ends pre :
  match rev (dropBlankTail pre) with [] => True | c :: _ => isBlankTab c = false end.
Proof.
  unfold dropBlankTail. rewrite rev_involutive.
  destruct (dropWhile isBlankTab (rev pre)) as [|c r] eqn:E; [exact I|].
  eapply dropWhile_head. exact E.
Qed.

Lemma dropBlankTail_fixed pre :
  match rev pre with [] => True | c :: _ => isBlankTab c = false end ->
  dropBlankTail pre = pre.
Proof.
  intros H. unfold dropBlankTail. rewrite dropWhile_fixed by exact H. apply rev_involutive.
Qed.

Lemma dropBlankTail_blanks pre blanks :
  forallb isBlankTab blanks = true ->
  dropBlankTail (dropBlankTail pre ++ blanks) = dropBlankTail pre.
Proof.
  intros Hbl. unfold dropBlankTail at 1. rewrite rev_app_distr.
  assert (Hdrop : forall (bl r : text), forallb isBlankTab bl = true ->
                    dropWhile isBlankTab (bl ++ r) = dropWhile isBlankTab r).
  { induction bl as [|b bl IHb]; intros r Hb; [reflexivity|].
    cbn [forallb] in Hb. apply andb_true_iff in Hb. destruct Hb as [Hb1 Hb2].
    cbn [app dropWhile]. rewrite Hb1. apply IHb. exact Hb2. }
  rewrite Hdrop.
  - fold (dropBlankTail (dropBlankTail pre)). apply dropBlankTail_fixed, dropBlankTail_ends.
  - rewrite forallb_forall. intros c Hc. rewrite <- in_rev in Hc.
    rewrite forallb_forall in Hbl. apply Hbl. exact Hc.
Qed.

Lemma thenAnywhereRe_app x a :
  FormatRe.atThen a = true -> Re.thenAnywhereRe (x ++ a) = true.
Proof.
  intros Ha. induction x as [|c x IH]; cbn [app].
  - unfold FormatRe.atThen in Ha. destruct a as [|c a']; [discriminate|].
    cbn [Re.thenAnywhereRe].
    destruct (Re.lit eqci (str "@Then") (c :: a')) as [r|]; [|discriminate].
    rewrite Ha. reflexivity.
  - cbn [Re.thenAnywhereRe].
    destruct (Re.lit eqci (str "@Then") (c :: x ++ a)) as [r|]; [|exact IH].
    destruct (Re.wordEnd r); [reflexivity | exact IH].
Qed.

Lemma withoutBlanks_blanks blanks :
  forallb isBlankTab blanks = true -> withoutBlanks blanks = [].
Proof.
  induction blanks as [|b bl IH]; [reflexivity|]. cbn [forallb]. intros H.
  apply andb_true_iff in H. destruct H as [Hb Hbl].
  unfold withoutBlanks. cbn [List.filter]. rewrite Hb. cbn [negb]. apply IH. exact Hbl.
Qed.

Lemma withoutBlanks_app x y : withoutBlanks (x ++ y) = withoutBlanks x ++ withoutBlanks y.
Proof. unfold withoutBlanks. apply List.filter_app. Qed.

(** The shape of a content that [normalizeThenSpacing] changes. *)
Lemma normalizeThenSpacing_shape content :
  normalizeThenSpacing content = content
  \/ exists before blanks after,
       content = before ++ blanks ++ after
       /\ forallb isBlankTab blanks = true
       /\ match rev before with [] => True | c :: _ => isBlankTab c = false end
       /\ FormatRe.atThen after = true
       /\ findThen [] content false = Some (before ++ blanks, after)
       /\ normalizeThenSpacing content = before ++ space :: after.
Proof.
  unfold normalizeThenSpacing.
  destruct (negb (Re.thenAnywhereRe content)); [left; reflexivity|].
  destruct (findThen [] content false) as [[pre after]|] eqn:E; [|left; reflexivity].
  right. pose proof (findThen_split _ _ _ _ _ E) as (mid & Hp & Hc & Ha).
  cbn [app] in Hp. subst mid.
  destruct (dropBlankTail_split pre) as (blanks & Hpre & Hbl).
  exists (dropBlankTail pre), blanks, after.
  rewrite app_assoc, <- Hpre.
  repeat split; auto. apply dropBlankTail_ends.
Qed.

Lemma normalizeThenSpacing_blanks content :
  withoutBlanks (normalizeThenSpacing content) = withoutBlanks content.
Proof.
  destruct (normalizeThenSpacing_shape content)
    as [Hid | (before & blanks & after & Hc & Hbl & Hend & Ha & Hf & Hn)].
  - rewrite Hid. reflexivity.
  - rewrite Hn, Hc, !withoutBlanks_app, (withoutBlanks_blanks blanks Hbl).
    change (space :: after) with ([space] ++ after). rewrite withoutBlanks_app.
    reflexivity.
Qed.

Lemma normalizeThenSpacing_twice content :
  normalizeThenSpacing (normalizeThenSpacing content) = normalizeThenSpacing content.
Proof.
  destruct (normalizeThenSpacing_shape content)
    as [Hid | (before & blanks & after & Hc & Hbl & Hend & Ha & Hf & Hn)].
  - rewrite !Hid. reflexivity.
  - rewrite Hn. rewrite Hc in Hf.
    pose proof (findThen_squeeze blanks after Hbl Ha before [] false Hf) as Hs.
    cbn [app] in Hs. unfold normalizeThenSpacing.
    pose proof (thenAnywhereRe_app (before ++ [space]) after Ha) as Hw.
    rewrite <- app_assoc in Hw. cbn [app] in Hw. rewrite Hw.
    cbn [negb]. rewrite Hs.
    rewrite <- (dropBlankTail_fixed before Hend) at 1.
    rewrite (dropBlankTail_blanks before [space] eq_refl).
    rewrite (dropBlankTail_fixed before Hend). reflexivity.
Qed.

(** X12.  [normalizeThenSpacing] changes nothing but spaces and tabs, a
    content that it changes has the run of spaces and tabs before its first
    [@Then] outside quotes replaced by one space, and normalising twice is
    normalising once. *)
Theorem normalizeThenSpacing_idempotent (content : text) :
  withoutBlanks (normalizeThenSpacing content) = withoutBlanks content
  /\ normalizeThenSpacing (normalizeThenSpacing content) = normalizeThenSpacing content
  /\ (normalizeThenSpacing content = content
      \/ exists before blanks after,
           content = before ++ blanks ++ after
           /\ forallb isBlankTab blanks = true
           /\ match rev before with [] => True | c :: _ => isBlankTab c = false end
           /\ FormatRe.atThen after = true
           /\ normalizeThenSpacing content = before ++ space :: after).
Proof.
  split; [apply normalizeThenSpacing_blanks|].
  split; [apply normalizeThenSpacing_twice|].
  destruct (normalizeThenSpacing_shape content)
    as [Hid | (before & blanks & after & Hc & Hbl & Hend & Ha & Hf & Hn)].
  - left. exact Hid.
  - right. exists before, blanks, after. auto.
Qed.

Lemma dropWhile_app_all p (bl r : text) :
  forallb p bl = true -> dropWhile p (bl ++ r) = dropWhile p r.
Proof.
  induction bl as [|b bl IH]; intros Hb; [reflexivity|].
  cbn [forallb] in Hb. apply andb_true_iff in Hb. destruct Hb as [Hb1 Hb2].
  cbn [app dropWhile]. rewrite Hb1. apply IH. exact Hb2.
Qed.

Lemma blanks_are_spaces bl : forallb isBlankTab bl = true -> forallb isSpace bl = true.
Proof.
  rewrite !forallb_forall. intros H c Hc. apply H in Hc. apply blank_props in Hc. tauto.
Qed.

Lemma trim_app_spaces bl t : forallb isSpace bl = true -> trim (bl ++ t) = trim t.
Proof. intros H. unfold trim. rewrite dropWhile_app_all by exact H. reflexivity. Qed.

Lemma repeat_tab_blank n : forallb isBlankTab (repeat tab n) = true.
Proof. induction n as [|n IH]; [reflexivity|]. cbn [repeat forallb]. rewrite IH. reflexivity. Qed.

Lemma skipn_takeWhile p (l : text) : skipn (length (takeWhile p l)) l = dropWhile p l.
Proof.
  induction l as [|c l IH]; [reflexivity|]. cbn [takeWhile dropWhile].
  destruct (p c); [cbn [length skipn]; exact IH | reflexivity].
Qed.

(** The content of a line that is not blank: the line without its leading
    spaces and tabs. *)
Lemma content_of_line raw :
  isBlankLine raw = false ->
  exists c r,
    sliceFrom raw (length (takeWhile isBlankTab raw)) = c :: r
    /\ isBlankTab c = false
    /\ raw = takeWhile isBlankTab raw ++ c :: r
    /\ trim (c :: r) = trim raw.
Proof.
  intros Hb. unfold sliceFrom. rewrite skipn_takeWhile.
  pose proof (takeWhile_dropWhile isBlankTab raw) as Hsplit.
  pose proof (takeWhile_all isBlankTab raw) as Hall.
  destruct (dropWhile isBlankTab raw) as [|c r] eqn:E.
  - exfalso. unfold isBlankLine in Hb. rewrite <- Hsplit in Hb.
    rewrite trim_app_spaces in Hb by (apply blanks_are_spaces; exact Hall).
    discriminate.
  - exists c, r. split; [reflexivity|]. split; [eapply dropWhile_head; exact E|].
    split; [symmetry; exact Hsplit|].
    rewrite <- Hsplit at 1. symmetry. apply trim_app_spaces, blanks_are_spaces, Hall.
Qed.

Lemma lit_app eq p : forall s r w, Re.lit eq p s = Some r -> Re.lit eq p (s ++ w) = Some (r ++ w).
Proof.
  induction p as [|pc p IH]; intros s r w H; cbn [Re.lit] in *.
  - inversion H. reflexivity.
  - destruct s as [|c s]; [discriminate|]. cbn [app].
    destruct (eq pc c); [apply IH; exact H | discriminate].
Qed.

(** A text that starts with a character that is no white space is, once
    trimmed, a prefix of itself. *)
Lemma trim_prefix c r :
  isSpace c = false -> exists w, c :: r = trim (c :: r) ++ w.
Proof.
  intros Hc. unfold trim. rewrite (dropWhile_fixed isSpace (c :: r)) by exact Hc.
  destruct (dropWhile_suffix isSpace (rev (c :: r))) as [w Hw].
  exists (rev w). rewrite <- rev_app_distr, <- Hw, rev_involutive. reflexivity.
Qed.

Lemma at_not_space c : c = "@"%char -> isSpace c = false.
Proof. intros ->. reflexivity. Qed.

(** A line that starts with [@Then] does not start with [@If] or
    [@Else If]. *)
Lemma atThen_not_if content :
  FormatRe.atThen content = true ->
  FormatRe.ifStart (trim content) = false /\ FormatRe.elseIfStart (trim content) = false.
Proof.
  intros Ha. destruct (atThen_head _ Ha) as [a' ->].
  destruct (trim_prefix "@"%char a' eq_refl) as [w Hw].
  unfold FormatRe.atThen in Ha.
  destruct (Re.lit eqci (str "@Then") ("@"%char :: a')) as [rt|] eqn:Et; [|discriminate].
  split.
  - unfold FormatRe.ifStart.
    destruct (Re.lit eqci (str "@If") (trim ("@"%char :: a'))) as [r|] eqn:E; [|reflexivity].
    exfalso. apply (lit_app _ _ _ _ w) in E. rewrite <- Hw in E.
    pose proof (lit_conflict _ _ _ _ _ 1 "I"%char "T"%char E Et eq_refl eq_refl) as Hx.
    discriminate Hx.
  - unfold FormatRe.elseIfStart.
    destruct (Re.lit eqci (str "@Else") (trim ("@"%char :: a'))) as [r|] eqn:E; [|reflexivity].
    exfalso. apply (lit_app _ _ _ _ w) in E. rewrite <- Hw in E.
    pose proof (lit_conflict _ _ _ _ _ 1 "E"%char "T"%char E Et eq_refl eq_refl) as Hx.
    discriminate Hx.
Qed.

(** What the formatter does with the content [c :: r] of a line: nothing,
    or the replacement of a run of spaces and tabs behind a text that is
    not empty. *)
Lemma normalized_content c r :
  isBlankTab c = false ->
  let n := if FormatRe.ifStart (trim (c :: r)) || FormatRe.elseIfStart (trim (c :: r))
           then normalizeThenSpacing (c :: r) else c :: r in
  n = c :: r
  \/ exists before blanks after,
       c :: r = (c :: before) ++ blanks ++ after
       /\ n = (c :: before) ++ space :: after
       /\ n = normalizeThenSpacing (c :: r)
       /\ forallb isBlankTab blanks = true
       /\ FormatRe.atThen after = true.
Proof.
  intros Hc n. subst n.
  destruct (FormatRe.ifStart (trim (c :: r)) || FormatRe.elseIfStart (trim (c :: r))) eqn:Hflag;
    [|left; reflexivity].
  destruct (normalizeThenSpacing_shape (c :: r))
    as [Hid | (before & blanks & after & Hcont & Hbl & Hend & Ha & Hf & Hn)];
    [left; exact Hid|].
  right. destruct before as [|b before].
  - exfalso. cbn [app] in Hcont. destruct blanks as [|bl blanks].
    + cbn [app] in Hcont. rewrite <- Hcont in Ha.
      destruct (atThen_not_if _ Ha) as [H1 H2]. rewrite H1, H2 in Hflag. discriminate.
    + cbn [app] in Hcont. inversion Hcont; subst bl.
      cbn [forallb] in Hbl. rewrite Hc in Hbl. discriminate.
  - assert (b = c) by (cbn [app] in Hcont; congruence). subst b.
    exists before, blanks, after. auto.
Qed.

Lemma withoutBlanks_all bl : forallb isBlankTab bl = true -> withoutBlanks bl = [].
Proof. apply withoutBlanks_blanks. Qed.

(** The line the formatter wants differs from the line in spaces and tabs
    only, and is indented with tabs. *)
Lemma desiredLine_spec raw lvl :
  isBlankLine raw = false ->
  withoutBlanks (desiredLine raw lvl) = withoutBlanks raw
  /\ exists c rest, desiredLine raw lvl = repeat tab lvl ++ c :: rest /\ isBlankTab c = false.
Proof.
  intros Hb. destruct (content_of_line raw Hb) as (c & r & Hcont & Hc & Hraw & Htrim).
  unfold desiredLine. cbv zeta. rewrite Hcont, <- Htrim.
  pose proof (normalized_content c r Hc) as Hn. cbv zeta in Hn.
  set (n := if FormatRe.ifStart (trim (c :: r)) || FormatRe.elseIfStart (trim (c :: r))
            then normalizeThenSpacing (c :: r) else c :: r) in *.
  assert (Hwb : withoutBlanks n = withoutBlanks (c :: r)).
  { destruct Hn as [-> | (before & blanks & after & _ & _ & -> & _)];
      [reflexivity | apply normalizeThenSpacing_blanks]. }
  split.
  - rewrite withoutBlanks_app, Hwb, (withoutBlanks_all _ (repeat_tab_blank lvl)).
    rewrite Hraw at 1.
    rewrite withoutBlanks_app, (withoutBlanks_all _ (takeWhile_all isBlankTab raw)).
    reflexivity.
  - destruct Hn as [-> | (before & blanks & after & _ & -> & _)].
    + exists c, r. auto.
    + exists c, (before ++ space :: after). auto.
Qed.

Lemma formatLine_edit raw line lvl e :
  In e (snd (formatLine raw line lvl)) ->
  e_line e = line
  /\ e_endChar e = length raw
  /\ isBlankLine raw = false /\ isCommentLine raw = false
  /\ e_newText e <> raw
  /\ withoutBlanks (e_newText e) = withoutBlanks raw
  /\ exists n c rest, e_newText e = repeat tab n ++ c :: rest /\ isBlankTab c = false.
Proof.
  unfold formatLine.
  destruct (isBlankLine raw) eqn:Hb; [contradiction|].
  destruct (isCommentLine raw) eqn:Hc; [contradiction|].
  cbn [orb]. cbv zeta. cbn [snd].
  set (lvl1 := if FormatRe.outdentRe (trim raw) then lvl - 1 else lvl).
  destruct (bool_decide (desiredLine raw lvl1 = raw)) eqn:Hd; [contradiction|].
  intros [<-|[]]. cbn [e_line e_endChar e_newText].
  apply bool_decide_eq_false in Hd.
  destruct (desiredLine_spec raw lvl1 Hb) as (Hwb & c & rest & Hshape & Hnb).
  repeat split; auto. exists lvl1, c, rest. auto.
Qed.

Lemma formatLoop_In ls : forall line lvl e,
  In e (formatLoop ls line lvl) ->
  exists k lvl', k < length ls /\ In e (snd (formatLine (nth k ls []) (line + k) lvl')).
Proof.
  induction ls as [|raw ls IH]; intros line lvl e Hin; [contradiction|].
  cbn [formatLoop] in Hin. apply in_app_or in Hin. destruct Hin as [Hin|Hin].
  - exists 0, lvl. cbn [nth length]. rewrite Nat.add_0_r. split; [lia | exact Hin].
  - apply IH in Hin. destruct Hin as (k & lvl' & Hk & Hin).
    exists (S k), lvl'. cbn [nth length]. rewrite Nat.add_succ_r. split; [lia | exact Hin].
Qed.

Lemma formatLoop_sorted ls : forall line lvl,
  StronglySorted (fun e1 e2 => e_line e1 < e_line e2) (formatLoop ls line lvl).
Proof.
  induction ls as [|raw ls IH]; intros line lvl; [constructor|].
  cbn [formatLoop].
  assert (Hrest : List.Forall (fun e2 => line < e_line e2)
                    (formatLoop ls (S line) (fst (formatLine raw line lvl)))).
  { apply List.Forall_forall. intros e He. apply formatLoop_In in He.
    destruct He as (k & lvl' & _ & He). apply formatLine_edit in He. lia. }
  unfold formatLine at 1.
  destruct (isBlankLine raw || isCommentLine raw); [apply IH|].
  cbv zeta. cbn [snd]. destruct (bool_decide _); [apply IH|].
  cbn [app]. constructor; [apply IH|]. exact Hrest.
Qed.

(** X13.  Every edit of the formatter replaces one whole line that is
    neither blank nor a comment by a text that differs from it, and only in
    spaces and tabs; the new text is indented with tabs alone.  There is
    at most one edit per line, in the order of the lines. *)
Theorem formatting_edits_change_blanks_only (doc : TextDocument) :
  (forall e, In e (provideDocumentFormattingEdits doc) ->
     languageId doc = str "abl"
     /\ e_line e < lineCount doc
     /\ isBlankLine (lineAt doc (e_line e)) = false
     /\ isCommentLine (lineAt doc (e_line e)) = false
     /\ e_endChar e = length (lineAt doc (e_line e))
     /\ e_newText e <> lineAt doc (e_line e)
     /\ withoutBlanks (e_newText e) = withoutBlanks (lineAt doc (e_line e))
     /\ exists n c rest, e_newText e = repeat tab n ++ c :: rest /\ isBlankTab c = false)
  /\ StronglySorted (fun e1 e2 => e_line e1 < e_line e2) (provideDocumentFormattingEdits doc).
Proof.
  unfold provideDocumentFormattingEdits, isAbl.
  destruct (bool_decide (languageId doc = str "abl")) eqn:Habl; cbn [negb].
  - apply bool_decide_eq_true in Habl. split; [|apply formatLoop_sorted].
    intros e Hin. apply formatLoop_In in Hin. destruct Hin as (k & lvl' & Hk & Hin).
    apply formatLine_edit in Hin. cbn [Nat.add] in Hin.
    destruct Hin as (Hl & Hend & Hb & Hc & Hne & Hwb & Hshape).
    unfold lineAt, lineCount. rewrite Hl. tauto.
  - split; [intros e []|constructor].
Qed.

(* ------------------------------------------------------------------ *)
(** ** The patterns of the formatter do not see the normalisation *)
(* ------------------------------------------------------------------ *)

Lemma dropWhile_app_stop p (l r : text) d y :
  dropWhile p l = d :: y -> dropWhile p (l ++ r) = (d :: y) ++ r.
Proof.
  induction l as [|c l IH]; cbn [dropWhile app]; [discriminate|].
  destruct (p c); [exact IH|]. intros H. inversion H; subst. reflexivity.
Qed.

Lemma dropWhile_nil_app p (l r : text) :
  dropWhile p l = [] -> dropWhile p (l ++ r) = dropWhile p r.
Proof.
  induction l as [|c l IH]; cbn [dropWhile app]; [reflexivity|].
  destruct (p c); [exact IH | discriminate].
Qed.

Lemma lit_word_at p pc a' :
  isWordChar pc = true -> Re.lit eqci (pc :: p) ("@"%char :: a') = None.
Proof.
  intros Hp. cbn [Re.lit]. rewrite (word_eqci_blank pc "@"%char Hp (or_intror eq_refl)).
  reflexivity.
Qed.

Section SqueezeRe.

Variables (blanks a : text).
Hypothesis Hbl : forallb isBlankTab blanks = true.
Hypothesis Ha : FormatRe.atThen a = true.

Lemma dropSpaces_old : dropWhile isSpace (blanks ++ a) = a.
Proof.
  rewrite dropWhile_app_all by (apply blanks_are_spaces; exact Hbl).
  destruct (atThen_head a Ha) as [a' ->]. reflexivity.
Qed.

Lemma dropSpaces_new : dropWhile isSpace (space :: a) = a.
Proof. destruct (atThen_head a Ha) as [a' ->]. reflexivity. Qed.

Lemma lit_squeeze p : forall x,
  forallb isWordChar p = true ->
  (Re.lit eqci p (x ++ blanks ++ a) = None /\ Re.lit eqci p (x ++ space :: a) = None)
  \/ exists x', Re.lit eqci p (x ++ blanks ++ a) = Some (x' ++ blanks ++ a)
                /\ Re.lit eqci p (x ++ space :: a) = Some (x' ++ space :: a).
Proof.
  induction p as [|pc p IH]; intros x Hp.
  - right. exists x. cbn [Re.lit]. auto.
  - cbn [forallb] in Hp. apply andb_true_iff in Hp. destruct Hp as [Hpc Hp].
    destruct x as [|c x]; cbn [app Re.lit].
    + left. pose proof (squeeze_head_old blanks a Hbl Ha) as Hh.
      destruct (blanks ++ a) as [|c r]; [contradiction|].
      rewrite (word_eqci_blank pc c Hpc Hh).
      rewrite (word_eqci_blank pc space Hpc (or_introl eq_refl)). auto.
    + destruct (eqci pc c); [apply IH; exact Hp | left; auto].
Qed.

Lemma litTest_squeeze p x :
  forallb isWordChar p = true ->
  Re.test (Re.lit eqci p (x ++ blanks ++ a)) = Re.test (Re.lit eqci p (x ++ space :: a)).
Proof.
  intros Hp. destruct (lit_squeeze p x Hp) as [[-> ->] | (x' & -> & ->)]; reflexivity.
Qed.

Lemma wordEnd_squeeze x :
  Re.wordEnd (x ++ blanks ++ a) = Re.wordEnd (x ++ space :: a).
Proof. exact (litWord_squeeze blanks a Hbl Ha [] x eq_refl). Qed.

Lemma spaces1_squeeze x :
  (Re.spaces1 (x ++ blanks ++ a) = None /\ Re.spaces1 (x ++ space :: a) = None)
  \/ (exists y, Re.spaces1 (x ++ blanks ++ a) = Some (y ++ blanks ++ a)
                /\ Re.spaces1 (x ++ space :: a) = Some (y ++ space :: a))
  \/ (Re.spaces1 (x ++ space :: a) = Some a
      /\ (Re.spaces1 (x ++ blanks ++ a) = None \/ Re.spaces1 (x ++ blanks ++ a) = Some a)).
Proof.
  destruct x as [|c x1].
  - right. right. cbn [app]. split.
    + unfold Re.spaces1. change (isSpace space) with true. cbv iota.
      f_equal. exact dropSpaces_new.
    + pose proof dropSpaces_old as Hd. pose proof Hbl as Hbl'.
      pose proof (atThen_head a Ha) as [a' Ea].
      destruct blanks as [|b bl]; cbn [app] in Hd |- *.
      * left. rewrite Ea. reflexivity.
      * right. unfold Re.spaces1.
        assert (Hb : isSpace b = true).
        { cbn [forallb] in Hbl'. apply andb_true_iff in Hbl'. destruct Hbl' as [Hb _].
          apply blank_props in Hb. tauto. }
        cbn [dropWhile] in Hd. rewrite Hb in Hd |- *. f_equal. exact Hd.
  - cbn [app]. unfold Re.spaces1. destruct (isSpace c); [|left; auto].
    destruct (dropWhile isSpace x1) as [|d y] eqn:Ed.
    + right. right.
      rewrite !(dropWhile_nil_app _ _ _ Ed), dropSpaces_old, dropSpaces_new. auto.
    + right. left. exists (d :: y).
      rewrite !(dropWhile_app_stop _ _ _ _ _ Ed). auto.
Qed.

Lemma spacesIf_squeeze x :
  (FormatRe.spacesIf (x ++ blanks ++ a) = None /\ FormatRe.spacesIf (x ++ space :: a) = None)
  \/ exists x', FormatRe.spacesIf (x ++ blanks ++ a) = Some (x' ++ blanks ++ a)
                /\ FormatRe.spacesIf (x ++ space :: a) = Some (x' ++ space :: a).
Proof.
  unfold FormatRe.spacesIf. destruct (atThen_head a Ha) as [a' Ea].
  destruct (spaces1_squeeze x) as [[-> ->] | [(y & -> & ->) | [-> Hold]]].
  - left. auto.
  - destruct (lit_squeeze (str "If") y eq_refl) as [[-> ->] | (x' & -> & ->)]; [left; auto|].
    rewrite (wordEnd_squeeze x').
    destruct (Re.wordEnd (x' ++ space :: a)); [right; exists x'; auto | left; auto].
  - left. assert (Hlit : Re.lit eqci (str "If") a = None)
      by (rewrite Ea; apply lit_word_at; reflexivity).
    rewrite Hlit. destruct Hold as [-> | ->]; [auto | rewrite Hlit; auto].
Qed.

Lemma dotStarThen_blanks : forall bl,
  forallb isBlankTab bl = true -> FormatRe.dotStarThen (bl ++ a) = true.
Proof.
  induction bl as [|b bl IH]; intros Hb; cbn [app].
  - destruct a as [|c a']; [discriminate Ha|]. cbn [FormatRe.dotStarThen]. rewrite Ha.
    reflexivity.
  - cbn [forallb] in Hb. apply andb_true_iff in Hb. destruct Hb as [Hb1 Hb2].
    cbn [FormatRe.dotStarThen]. apply blank_props in Hb1.
    destruct Hb1 as (_ & _ & _ & _ & ->). rewrite (IH Hb2). cbn [negb andb].
    apply orb_true_r.
Qed.

Lemma dotStarThen_squeeze x :
  FormatRe.dotStarThen (x ++ blanks ++ a) = FormatRe.dotStarThen (x ++ space :: a).
Proof.
  induction x as [|c x IH].
  - cbn [app]. rewrite (dotStarThen_blanks blanks Hbl).
    symmetry. exact (dotStarThen_blanks [space] eq_refl).
  - cbn [app FormatRe.dotStarThen].
    rewrite (atThen_squeeze blanks a Hbl Ha c x), IH. reflexivity.
Qed.

Lemma ifStart_squeeze c x :
  FormatRe.ifStart (c :: x ++ blanks ++ a) = FormatRe.ifStart (c :: x ++ space :: a).
Proof.
  unfold FormatRe.ifStart. change (str "@If") with ("@"%char :: str "If").
  cbn [Re.lit]. destruct (eqci "@"%char c); [|reflexivity].
  exact (litWord_squeeze blanks a Hbl Ha (str "If") x eq_refl).
Qed.

Lemma elseIfStart_squeeze c x :
  FormatRe.elseIfStart (c :: x ++ blanks ++ a) = FormatRe.elseIfStart (c :: x ++ space :: a).
Proof.
  unfold FormatRe.elseIfStart. change (str "@Else") with ("@"%char :: str "Else").
  cbn [Re.lit]. destruct (eqci "@"%char c); [|reflexivity].
  destruct (lit_squeeze (str "Else") x eq_refl) as [[-> ->] | (x' & -> & ->)]; [reflexivity|].
  destruct (spacesIf_squeeze x') as [[-> ->] | (x2 & -> & ->)]; reflexivity.
Qed.

Lemma endPart_squeeze x :
  match Re.lit eqci (str "End") (x ++ blanks ++ a) with
  | Some r1 =>
      match Re.spaces1 r1 with
      | Some r2 =>
          Re.test (Re.lit eqci (str "If") r2)
          || Re.test (Re.lit eqci (str "For") r2)
          || Re.test (Re.lit eqci (str "Function") r2)
      | None => false
      end
  | None => false
  end
  = match Re.lit eqci (str "End") (x ++ space :: a) with
    | Some r1 =>
        match Re.spaces1 r1 with
        | Some r2 =>
            Re.test (Re.lit eqci (str "If") r2)
            || Re.test (Re.lit eqci (str "For") r2)
            || Re.test (Re.lit eqci (str "Function") r2)
        | None => false
        end
    | None => false
    end.
Proof.
  destruct (atThen_head a Ha) as [a' Ea].
  destruct (lit_squeeze (str "End") x eq_refl) as [[-> ->] | (x' & -> & ->)]; [reflexivity|].
  destruct (spaces1_squeeze x') as [[-> ->] | [(y & -> & ->) | [-> Hold]]].
  - reflexivity.
  - rewrite (litTest_squeeze (str "If") y eq_refl), (litTest_squeeze (str "For") y eq_refl),
      (litTest_squeeze (str "Function") y eq_refl). reflexivity.
  - assert (Hdead : Re.test (Re.lit eqci (str "If") a)
                    || Re.test (Re.lit eqci (str "For") a)
                    || Re.test (Re.lit eqci (str "Function") a) = false).
    { rewrite Ea. reflexivity. }
    rewrite Hdead. destruct Hold as [-> | ->]; [reflexivity | exact Hdead].
Qed.

Lemma elsePart_squeeze x :
  match Re.lit eqci (str "Else") (x ++ blanks ++ a) with
  | Some r1 => Re.test (FormatRe.spacesIf r1) || Re.wordEnd r1
  | None => false
  end
  = match Re.lit eqci (str "Else") (x ++ space :: a) with
    | Some r1 => Re.test (FormatRe.spacesIf r1) || Re.wordEnd r1
    | None => false
    end.
Proof.
  destruct (lit_squeeze (str "Else") x eq_refl) as [[-> ->] | (x' & -> & ->)]; [reflexivity|].
  rewrite (wordEnd_squeeze x').
  destruct (spacesIf_squeeze x') as [[-> ->] | (x2 & -> & ->)]; reflexivity.
Qed.

Lemma outdentRe_squeeze c x :
  FormatRe.outdentRe (c :: x ++ blanks ++ a) = FormatRe.outdentRe (c :: x ++ space :: a).
Proof.
  unfold FormatRe.outdentRe. change (str "@") with ["@"%char].
  cbn [Re.lit]. destruct (eqci "@"%char c); [|reflexivity].
  rewrite endPart_squeeze, elsePart_squeeze. reflexivity.
Qed.

Lemma indentRe_squeeze c x :
  FormatRe.indentRe (c :: x ++ blanks ++ a) = FormatRe.indentRe (c :: x ++ space :: a).
Proof.
  unfold FormatRe.indentRe. change (str "@") with ["@"%char].
  cbn [Re.lit]. destruct (eqci "@"%char c); [|reflexivity].
  f_equal; [f_equal; [f_equal|]|].
  - destruct (lit_squeeze (str "If") x eq_refl) as [[-> ->] | (x' & -> & ->)]; [reflexivity|].
    rewrite (wordEnd_squeeze x'), (dotStarThen_squeeze x'). reflexivity.
  - destruct (lit_squeeze (str "Else") x eq_refl) as [[-> ->] | (x' & -> & ->)]; [reflexivity|].
    rewrite (wordEnd_squeeze x').
    destruct (spacesIf_squeeze x') as [[-> ->] | (x2 & -> & ->)]; [reflexivity|].
    rewrite (dotStarThen_squeeze x2). reflexivity.
  - exact (litWord_squeeze blanks a Hbl Ha (str "For") x eq_refl).
  - exact (litWord_squeeze blanks a Hbl Ha (str "Function") x eq_refl).
Qed.

End SqueezeRe.

Lemma then_char_not_space pc c :
  In pc (str "@Then") -> isSpace c = true -> eqci pc c = false.
Proof.
  intros Hin Hc. destruct c as [[] [] [] [] [] [] [] []]; try discriminate Hc;
    cbn in Hin; repeat (destruct Hin as [<- | Hin]; [reflexivity|]); contradiction.
Qed.

Lemma lit_unapp p : forall t w r,
  (forall pc c, In pc p -> isSpace c = true -> eqci pc c = false) ->
  forallb isSpace w = true ->
  Re.lit eqci p (t ++ w) = Some r ->
  exists r1, Re.lit eqci p t = Some r1 /\ r = r1 ++ w.
Proof.
  induction p as [|pc p IH]; intros t w r Hp Hw H; cbn [Re.lit] in *.
  - inversion H. exists t. auto.
  - destruct t as [|c t]; cbn [app] in H.
    + exfalso. destruct w as [|c w]; [discriminate|].
      cbn [forallb] in Hw. apply andb_true_iff in Hw. destruct Hw as [Hc _].
      rewrite (Hp pc c (or_introl eq_refl) Hc) in H. discriminate.
    + destruct (eqci pc c); [|discriminate].
      apply IH; auto. intros pc' c' Hin. apply Hp. right. exact Hin.
Qed.

(** Dropping the white space at the end of a text that starts with [@Then]
    leaves a text that starts with [@Then]. *)
Lemma atThen_trimEnd a :
  FormatRe.atThen a = true ->
  FormatRe.atThen (rev (dropWhile isSpace (rev a))) = true
  /\ dropWhile isSpace (rev a) <> [].
Proof.
  intros Ha. split.
  - pose proof (takeWhile_dropWhile isSpace (rev a)) as Hsplit.
    apply (f_equal (@rev ascii)) in Hsplit. rewrite rev_app_distr, rev_involutive in Hsplit.
    set (a1 := rev (dropWhile isSpace (rev a))) in *.
    set (w := rev (takeWhile isSpace (rev a))) in *.
    assert (Hw : forallb isSpace w = true).
    { subst w. rewrite forallb_forall. intros c Hin. rewrite <- in_rev in Hin.
      pose proof (takeWhile_all isSpace (rev a)) as Hall.
      rewrite forallb_forall in Hall. apply Hall. exact Hin. }
    unfold FormatRe.atThen in *. rewrite <- Hsplit in Ha.
    destruct (Re.lit eqci (str "@Then") (a1 ++ w)) as [r|] eqn:E; [|discriminate].
    apply lit_unapp in E; [|apply then_char_not_space | exact Hw].
    destruct E as (r1 & -> & ->). destruct r1 as [|e r1]; [reflexivity | exact Ha].
  - intros Hnil. apply dropWhile_nil_Forall in Hnil.
    destruct (atThen_head a Ha) as [a' ->]. rewrite List.Forall_forall in Hnil.
    specialize (Hnil "@"%char). rewrite <- in_rev in Hnil.
    specialize (Hnil (or_introl eq_refl)). discriminate.
Qed.

Lemma trimEnd_app (y t : text) :
  dropWhile isSpace (rev t) <> [] ->
  rev (dropWhile isSpace (rev (y ++ t))) = y ++ rev (dropWhile isSpace (rev t)).
Proof.
  intros Hne. rewrite rev_app_distr.
  destruct (dropWhile isSpace (rev t)) as [|e z] eqn:E; [contradiction|].
  rewrite (dropWhile_app_stop _ _ _ _ _ E), rev_app_distr, rev_involutive. reflexivity.
Qed.

(** Trimming before and after the normalisation. *)
Lemma trim_squeeze c before blanks a :
  forallb isBlankTab blanks = true ->
  FormatRe.atThen a = true ->
  trim ((c :: before) ++ blanks ++ a) = trim ((c :: before) ++ space :: a)
  \/ exists d x a1,
       FormatRe.atThen a1 = true
       /\ trim ((c :: before) ++ blanks ++ a) = d :: x ++ blanks ++ a1
       /\ trim ((c :: before) ++ space :: a) = d :: x ++ space :: a1.
Proof.
  intros Hbl Ha. unfold trim.
  destruct (dropWhile isSpace (c :: before)) as [|d x] eqn:Ed.
  - left. rewrite !(dropWhile_nil_app _ _ _ Ed).
    rewrite (dropSpaces_old blanks a Hbl Ha), (dropSpaces_new a Ha). reflexivity.
  - right. destruct (atThen_trimEnd a Ha) as [Ha1 Hne].
    exists d, x, (rev (dropWhile isSpace (rev a))). split; [exact Ha1|].
    rewrite !(dropWhile_app_stop _ _ _ _ _ Ed). split.
    + rewrite app_assoc, (trimEnd_app _ _ Hne), <- app_assoc. reflexivity.
    + change ((d :: x) ++ space :: a) with ((d :: x) ++ [space] ++ a).
      rewrite app_assoc, (trimEnd_app _ _ Hne), <- app_assoc. reflexivity.
Qed.

(** The normalised content of a line passes the tests of the formatter as
    the content does, and is its own normalisation. *)
Lemma normalized_tests c r :
  isBlankTab c = false ->
  trim (c :: r) <> [] ->
  let flag := FormatRe.ifStart (trim (c :: r)) || FormatRe.elseIfStart (trim (c :: r)) in
  let n := if flag then normalizeThenSpacing (c :: r) else c :: r in
  (exists rest, n = c :: rest)
  /\ trim n <> []
  /\ FormatRe.ifStart (trim n) = FormatRe.ifStart (trim (c :: r))
  /\ FormatRe.elseIfStart (trim n) = FormatRe.elseIfStart (trim (c :: r))
  /\ FormatRe.outdentRe (trim n) = FormatRe.outdentRe (trim (c :: r))
  /\ FormatRe.indentRe (trim n) = FormatRe.indentRe (trim (c :: r))
  /\ (if flag then normalizeThenSpacing n else n) = n.
Proof.
  intros Hc Hne flag n.
  pose proof (normalized_content c r Hc) as Hn. cbv zeta in Hn. fold flag in Hn. fold n in Hn.
  assert (Hfix : (if flag then normalizeThenSpacing n else n) = n).
  { subst n. destruct flag; [apply normalizeThenSpacing_twice | reflexivity]. }
  destruct Hn as [Hn | (before & blanks & after & Hold & Hnew & _ & Hbl & Ha)].
  - rewrite Hn. repeat split; auto. exists r. reflexivity.
  - split; [exists (before ++ space :: after); exact Hnew|].
    rewrite Hnew, Hold in *.
    destruct (trim_squeeze c before blanks after Hbl Ha)
      as [Heq | (d & x & a1 & Ha1 & Ho & Hn')].
    + rewrite <- Heq. repeat split; auto.
    + rewrite Hn', Ho. split; [discriminate|].
      split; [symmetry; apply ifStart_squeeze; assumption|].
      split; [symmetry; apply elseIfStart_squeeze; assumption|].
      split; [symmetry; apply outdentRe_squeeze; assumption|].
      split; [symmetry; apply indentRe_squeeze; assumption|].
      exact Hfix.
Qed.

Lemma dropBlanks_line raw c r :
  sliceFrom raw (length (takeWhile isBlankTab raw)) = c :: r ->
  dropWhile isBlankTab raw = c :: r.
Proof. unfold sliceFrom. rewrite skipn_takeWhile. auto. Qed.

(** The line the formatter wants is a line the formatter leaves alone, and
    it moves the indent level as the line it comes from. *)
Lemma formatLine_fixed raw line lvl :
  formatLine
    (if isBlankLine raw || isCommentLine raw then raw
     else desiredLine raw (if FormatRe.outdentRe (trim raw) then lvl - 1 else lvl))
    line lvl
  = (fst (formatLine raw line lvl), []).
Proof.
  destruct (isBlankLine raw || isCommentLine raw) eqn:Hskip.
  { unfold formatLine. rewrite Hskip. reflexivity. }
  apply orb_false_iff in Hskip. destruct Hskip as [Hb Hcm].
  destruct (content_of_line raw Hb) as (c & r & Hcont & Hc & Hraw & Htrim).
  pose proof (dropBlanks_line raw c r Hcont) as Hdrop.
  assert (Hne : trim (c :: r) <> []).
  { rewrite Htrim. unfold isBlankLine in Hb. destruct (trim raw); [discriminate | discriminate]. }
  pose proof (normalized_tests c r Hc Hne) as Hn. cbv zeta in Hn.
  destruct Hn as ((rest & Hshape) & Hn0 & Hif & Helse & Hout & Hind & Hfix).
  set (lvl1 := if FormatRe.outdentRe (trim raw) then lvl - 1 else lvl).
  assert (HD : desiredLine raw lvl1
               = repeat tab lvl1
                 ++ (if FormatRe.ifStart (trim (c :: r)) || FormatRe.elseIfStart (trim (c :: r))
                     then normalizeThenSpacing (c :: r) else c :: r)).
  { unfold desiredLine. cbv zeta. rewrite Hcont, Htrim. reflexivity. }
  set (n := if FormatRe.ifStart (trim (c :: r)) || FormatRe.elseIfStart (trim (c :: r))
            then normalizeThenSpacing (c :: r) else c :: r) in *.
  assert (HtrimD : trim (desiredLine raw lvl1) = trim n).
  { rewrite HD. apply trim_app_spaces, blanks_are_spaces, repeat_tab_blank. }
  assert (HdropD : dropWhile isBlankTab (desiredLine raw lvl1) = n).
  { rewrite HD, dropWhile_app_all by apply repeat_tab_blank.
    rewrite Hshape. cbn [dropWhile]. rewrite Hc. reflexivity. }
  assert (HblankD : isBlankLine (desiredLine raw lvl1) = false).
  { unfold isBlankLine. rewrite HtrimD. destruct (trim n); [contradiction | reflexivity]. }
  assert (HcmD : isCommentLine (desiredLine raw lvl1) = false).
  { unfold isCommentLine in *. rewrite HdropD, Hshape. rewrite Hdrop in Hcm. exact Hcm. }
  assert (Hself : desiredLine (desiredLine raw lvl1) lvl1 = desiredLine raw lvl1).
  { unfold desiredLine at 1. cbv zeta. unfold sliceFrom. rewrite skipn_takeWhile.
    rewrite HdropD, HtrimD, Hif, Helse. fold n. rewrite Hfix. symmetry. exact HD. }
  unfold formatLine. rewrite HblankD, HcmD, Hb, Hcm. cbn [orb]. cbv zeta. cbn [fst].
  rewrite HtrimD, Hout, Hind, Htrim. fold lvl1. rewrite Hself.
  rewrite bool_decide_eq_true_2 by reflexivity. reflexivity.
Qed.

Lemma formatLine_level raw line line' lvl :
  fst (formatLine raw line lvl) = fst (formatLine raw line' lvl).
Proof.
  unfold formatLine. destruct (isBlankLine raw || isCommentLine raw); reflexivity.
Qed.

Lemma formatLoop_formatted ls : forall line lvl,
  formatLoop (formattedLines ls lvl) line lvl = [].
Proof.
  induction ls as [|raw ls IH]; intros line lvl; [reflexivity|].
  cbn [formattedLines formatLoop]. rewrite formatLine_fixed. cbn [fst snd app].
  rewrite (formatLine_level raw line 0 lvl). apply IH.
Qed.

Lemma formatLoop_applied ls : forall pre lvl,
  fold_left (fun l e => <[e_line e := e_newText e]> l) (formatLoop ls (length pre) lvl)
    (pre ++ ls)
  = pre ++ formattedLines ls lvl.
Proof.
  induction ls as [|raw ls IH]; intros pre lvl; [reflexivity|].
  cbn [formatLoop formattedLines]. rewrite fold_left_app.
  set (new := if isBlankLine raw || isCommentLine raw then raw
              else desiredLine raw
                     (if FormatRe.outdentRe (trim raw) then lvl - 1 else lvl)).
  assert (Hone : fold_left (fun l e => <[e_line e := e_newText e]> l)
                   (snd (formatLine raw (length pre) lvl)) (pre ++ raw :: ls)
                 = (pre ++ [new]) ++ ls).
  { subst new. unfold formatLine. rewrite <- app_assoc. cbn [app].
    destruct (isBlankLine raw || isCommentLine raw); [reflexivity|].
    cbv zeta. cbn [snd].
    destruct (bool_decide _) eqn:Hd.
    - apply bool_decide_eq_true in Hd. rewrite Hd. reflexivity.
    - cbn [fold_left e_line e_newText].
      rewrite <- (Nat.add_0_r (length pre)) at 1. rewrite insert_app_r. reflexivity. }
  rewrite Hone.
  replace (S (length pre)) with (length (pre ++ [new]))
    by (rewrite length_app; cbn; lia).
  rewrite (formatLine_level raw (length pre) 0 lvl), IH, <- app_assoc. reflexivity.
Qed.

(** X14.  Formatting is idempotent: a document to which the edits of the
    formatter have been applied gets no further edit.  The edits keep the
    number of lines. *)
Theorem formatting_is_idempotent (doc : TextDocument) :
  provideDocumentFormattingEdits (applyEdits doc (provideDocumentFormattingEdits doc)) = []
  /\ lineCount (applyEdits doc (provideDocumentFormattingEdits doc)) = lineCount doc.
Proof.
  unfold provideDocumentFormattingEdits, applyEdits, isAbl, lineCount.
  cbn [languageId lines].
  destruct (bool_decide (languageId doc = str "abl")); cbn [negb]; [|auto].
  pose proof (formatLoop_applied (lines doc) [] 0) as Happ. cbn [app length] in Happ.
  rewrite Happ. split; [apply formatLoop_formatted|].
  rewrite <- Happ. clear Happ.
  generalize (formatLoop (lines doc) 0 0). intros es. generalize (lines doc).
  induction es as [|e es IH]; intros ls; [reflexivity|].
  cbn [fold_left]. rewrite IH. apply length_insert.
Qed.

Lemma tokens_within_lines_witness :
  In {| t_line := 1; t_char := 0; t_length := 4; t_kind := ablFunc |}
     (provideTokens (abl [str "x"; str "@Get(a) + 1"]))
  /\ 1 < lineCount (abl [str "x"; str "@Get(a) + 1"])
  /\ 0 < 4
  /\ 0 + 4 <= length (lineAt (abl [str "x"; str "@Get(a) + 1"]) 1).
Proof.
  split; [left; reflexivity|].
  apply (proj1 (tokens_within_lines (abl [str "x"; str "@Get(a) + 1"]))
           {| t_line := 1; t_char := 0; t_length := 4; t_kind := ablFunc |}).
  left. reflexivity.
Defined.

Lemma formatting_edits_change_blanks_only_witness :
  In {| e_line := 0; e_endChar := 13; e_newText := str "@If a @Then" |}
     (provideDocumentFormattingEdits (abl [str "@If a   @Then"]))
  /\ withoutBlanks (str "@If a @Then")
     = withoutBlanks (lineAt (abl [str "@If a   @Then"]) 0).
Proof.
  split; [left; reflexivity|].
  apply (proj1 (formatting_edits_change_blanks_only (abl [str "@If a   @Then"]))
           {| e_line := 0; e_endChar := 13; e_newText := str "@If a @Then" |}).
  left. reflexivity.
Defined.

(* ================================================================== *)
(** * Folding ranges *)
(* ================================================================== *)

Lemma foldKindEq_true a b : foldKindEq a b = true <-> a = b.
Proof. destruct a, b; cbn; split; congruence. Qed.

Lemma keywordRest_test_lit kw t :
  Re.test (Re.keywordRest kw t) = true ->
  exists r, Re.lit eqci (str kw) (Re.spaces0 t) = Some r.
Proof.
  unfold Re.keywordRest. destruct (Re.lit eqci (str kw) (Re.spaces0 t)) as [r|]; [|discriminate].
  intros _. exists r. reflexivity.
Qed.

(** A line opens a fold of one kind at most. *)
Lemma foldStartTest_unique k k' t :
  foldStartTest k t = true -> foldStartTest k' t = true -> k = k'.
Proof.
  intros H H'.
  assert (Hfn : Re.fnStartRe t = true ->
                exists r, Re.lit eqci (str "@Function") (Re.spaces0 t) = Some r)
    by apply keywordRest_test_lit.
  assert (Hif : Re.test (Re.ifRe t) = true ->
                exists r, Re.lit eqci (str "@If") (Re.spaces0 t) = Some r)
    by apply keywordRest_test_lit.
  assert (Hfor : Re.forRe t = true ->
                exists r, Re.lit eqci (str "@For") (Re.spaces0 t) = Some r)
    by apply keywordRest_test_lit.
  destruct k, k'; cbn [foldStartTest] in H, H'; try reflexivity; exfalso;
    repeat match goal with
           | Hx : Re.fnStartRe t = true |- _ => apply Hfn in Hx; destruct Hx as [? Hx]
           | Hx : Re.test (Re.ifRe t) = true |- _ => apply Hif in Hx; destruct Hx as [? Hx]
           | Hx : Re.forRe t = true |- _ => apply Hfor in Hx; destruct Hx as [? Hx]
           end.
  - pose proof (lit_conflict _ _ _ _ _ 1 "F"%char "I"%char H H' eq_refl eq_refl) as Hx.
    discriminate Hx.
  - pose proof (lit_conflict _ _ _ _ _ 2 "u"%char "o"%char H H' eq_refl eq_refl) as Hx.
    discriminate Hx.
  - pose proof (lit_conflict _ _ _ _ _ 1 "I"%char "F"%char H H' eq_refl eq_refl) as Hx.
    discriminate Hx.
  - pose proof (lit_conflict _ _ _ _ _ 1 "I"%char "F"%char H H' eq_refl eq_refl) as Hx.
    discriminate Hx.
  - pose proof (lit_conflict _ _ _ _ _ 2 "o"%char "u"%char H H' eq_refl eq_refl) as Hx.
    discriminate Hx.
  - pose proof (lit_conflict _ _ _ _ _ 1 "F"%char "I"%char H H' eq_refl eq_refl) as Hx.
    discriminate Hx.
Qed.

Lemma opensFold_unique doc k k' s : opensFold doc k s -> opensFold doc k' s -> k = k'.
Proof. intros [_ H] [_ H']. eapply foldStartTest_unique; eassumption. Qed.

Lemma spliceLast_spec k : forall stk s stk',
  spliceLast k stk = Some (s, stk') ->
  exists pre g post,
    stk = pre ++ g :: post /\ stk' = pre ++ post
    /\ fr_kind g = k /\ fr_startLine g = s
    /\ forall f, In f pre -> fr_kind f <> k.
Proof.
  induction stk as [|f below IH]; intros s stk' H; [discriminate|].
  cbn [spliceLast] in H. destruct (foldKindEq (fr_kind f) k) eqn:E.
  - inversion H; subst. apply foldKindEq_true in E.
    exists [], f, stk'. cbn. repeat split; auto.
  - destruct (spliceLast k below) as [[s0 below']|] eqn:Eb; [|discriminate].
    inversion H; subst. destruct (IH _ _ eq_refl) as (pre & g & post & -> & -> & Hk & Hs & Hpre).
    exists (f :: pre), g, post. cbn. repeat split; auto.
    intros f0 [<- | Hin]; [|apply Hpre; exact Hin].
    intros Hf. apply foldKindEq_true in Hf. congruence.
Qed.

Lemma sorted_remove {A} (R : A -> A -> Prop) pre g post :
  StronglySorted R (pre ++ g :: post) ->
  StronglySorted R (pre ++ post)
  /\ (forall f, In f pre -> R f g)
  /\ (forall f, In f post -> R g f).
Proof.
  induction pre as [|x pre IH]; cbn [app]; intros H.
  - apply StronglySorted_inv in H. destruct H as [H1 H2].
    split; [exact H1|]. split; [intros ? []|]. apply List.Forall_forall. exact H2.
  - apply StronglySorted_inv in H. destruct H as [H1 H2].
    destruct (IH H1) as (Hs & Hpre & Hpost). rewrite List.Forall_forall in H2.
    split; [|split].
    + constructor; [exact Hs|]. apply List.Forall_forall. intros y Hy. apply H2.
      apply in_app_or in Hy. apply in_or_app. destruct Hy; [left | right; right]; assumption.
    + intros f [<- | Hin]; [|apply Hpre; exact Hin].
      apply H2. apply in_or_app. right. left. reflexivity.
    + exact Hpost.
Qed.

Lemma NoDup_snoc {A} (l : list A) x : List.NoDup l -> ~ In x l -> List.NoDup (l ++ [x]).
Proof.
  intros Hl Hx. apply List.NoDup_app; [exact Hl | constructor; [intros [] | constructor]|].
  intros a Ha [<- | []]. exact (Hx Ha).
Qed.

Lemma foldInv_skip doc n st : foldInv doc n st -> foldInv doc (S n) st.
Proof.
  intros (I1 & I2 & I3 & I4 & I5 & I6 & I7 & I8).
  split; [|split; [exact I2|]]; [|split; [|tauto]].
  - intros f Hf. destruct (I1 f Hf). split; [lia | assumption].
  - intros r Hr. destruct (I3 r Hr) as (H1 & H2 & H3). split; [exact H1|]. split; [lia | exact H3].
Qed.

Lemma foldInv_push doc n stack ranges k :
  foldInv doc n (stack, ranges) ->
  opensFold doc k n ->
  foldInv doc (S n) ({| fr_kind := k; fr_startLine := n |} :: stack, ranges).
Proof.
  intros (I1 & I2 & I3 & I4 & I5 & I6 & I7 & I8) Hopen. cbn [fst snd] in *.
  repeat split; cbn [fst snd].
  - destruct H as [<- | Hf]; [cbn; lia | destruct (I1 f Hf); lia].
  - destruct H as [<- | Hf]; [exact (proj1 Hopen) | destruct (I1 f Hf) as [_ [Hx _]]; exact Hx].
  - destruct H as [<- | Hf]; [exact (proj2 Hopen) | destruct (I1 f Hf) as [_ [_ Hx]]; exact Hx].
  - constructor; [exact I2|]. apply List.Forall_forall. intros f Hf. cbn.
    destruct (I1 f Hf). assumption.
  - destruct (I3 r H) as (H1 & _). exact H1.
  - destruct (I3 r H) as (_ & H2 & _). lia.
  - destruct (I3 r H) as (_ & _ & H3). exact H3.
  - exact I4.
  - intros r f Hr [<- | Hf]; [|apply I5; assumption].
    cbn. destruct (I3 r Hr) as (H1 & H2 & _). lia.
  - exact I6.
  - intros r f Hr [<- | Hf] Ho; [|apply I7; assumption].
    cbn. right. destruct (I3 r Hr) as (_ & H2 & _). exact H2.
  - exact I8.
Qed.

Lemma foldInv_close doc n st k :
  foldInv doc n st ->
  closesFold doc k n ->
  foldInv doc (S n) (closeFold k n st).
Proof.
  intros Hinv Hclose. unfold closeFold.
  destruct (spliceLast k (fst st)) as [[s stack']|] eqn:Esp; [|apply foldInv_skip; exact Hinv].
  destruct st as [stack ranges]. cbn [fst snd] in *.
  destruct (spliceLast_spec _ _ _ _ Esp) as (pre & g & post & -> & -> & Hk & Hs & Hpre).
  destruct Hinv as (I1 & I2 & I3 & I4 & I5 & I6 & I7 & I8). cbn [fst snd] in *.
  assert (Hg : In g (pre ++ g :: post)) by (apply in_or_app; right; left; reflexivity).
  assert (Hsub : forall f, In f (pre ++ post) -> In f (pre ++ g :: post)).
  { intros f Hf. apply in_app_or in Hf. apply in_or_app.
    destruct Hf; [left | right; right]; assumption. }
  destruct (I1 g Hg) as [Hlt Hopen]. rewrite Hs, Hk in *.
  destruct (sorted_remove _ _ _ _ I2) as (Hsorted & Hbefore & Hafter).
  rewrite Hs in Hbefore, Hafter.
  apply Nat.ltb_lt in Hlt as Hltb. rewrite Hltb.
  assert (Hends : forall r, In r ranges -> r_end r < n)
    by (intros r Hr; destruct (I3 r Hr) as (_ & H2 & _); exact H2).
  split; [|split; [exact Hsorted|]]; [|split; [|split; [|split; [|split; [|split]]]]];
    cbn [fst snd].
  - intros f Hf. destruct (I1 f (Hsub f Hf)). split; [lia | assumption].
  - intros r Hr. apply in_app_or in Hr. destruct Hr as [Hr | [<- | []]].
    + destruct (I3 r Hr) as (H1 & H2 & H3). split; [exact H1|]. split; [lia | exact H3].
    + cbn. split; [exact Hlt|]. split; [lia|]. exists k. auto.
  - rewrite map_app. cbn [map]. apply NoDup_snoc; [exact I4|].
    intros Hin. apply in_map_iff in Hin. destruct Hin as (r & Hr1 & Hr2).
    apply (I5 r g Hr2 Hg). rewrite Hs. cbn in Hr1. exact Hr1.
  - intros r f Hr Hf. apply in_app_or in Hr. destruct Hr as [Hr | [<- | []]].
    + apply I5; [exact Hr | apply Hsub; exact Hf].
    + cbn. apply in_app_or in Hf. destruct Hf as [Hf | Hf].
      * specialize (Hbefore f Hf). lia.
      * specialize (Hafter f Hf). lia.
  - rewrite map_app. cbn [map]. apply NoDup_snoc; [exact I6|].
    intros Hin. apply in_map_iff in Hin. destruct Hin as (r & Hr1 & Hr2).
    specialize (Hends r Hr2). cbn in Hr1. lia.
  - intros r f Hr Hf Ho. apply in_app_or in Hr. destruct Hr as [Hr | [<- | []]].
    + apply I7; [exact Hr | apply Hsub; exact Hf | exact Ho].
    + cbn in Ho |- *. pose proof (opensFold_unique _ _ _ _ Ho Hopen) as Hkind.
      apply in_app_or in Hf. destruct Hf as [Hf | Hf].
      * exfalso. exact (Hpre f Hf Hkind).
      * left. exact (Hafter f Hf).
  - assert (Hcross : forall r k', In r ranges ->
                       opensFold doc k' (r_start r) -> opensFold doc k' s ->
                       s < r_start r \/ r_end r < s).
    { intros r k' Hr Ho1 Ho2. pose proof (opensFold_unique _ _ _ _ Ho2 Hopen) as ->.
      pose proof (I7 r g Hr Hg) as Hx. rewrite Hk, Hs in Hx. apply Hx. exact Ho1. }
    intros r1 r2 k' H1 H2 Ho1 Ho2.
    apply in_app_or in H1. apply in_app_or in H2.
    destruct H1 as [H1 | [<- | []]], H2 as [H2 | [<- | []]].
    + eapply I8; eassumption.
    + right. cbn in Ho2. specialize (Hends r1 H1).
      destruct (Hcross r1 k' H1 Ho1 Ho2) as [Hx | Hx]; unfold nestedOrApart; cbn; lia.
    + right. cbn in Ho1. specialize (Hends r2 H2).
      destruct (Hcross r2 k' H2 Ho2 Ho1) as [Hx | Hx]; unfold nestedOrApart; cbn; lia.
    + left. reflexivity.
Qed.

Lemma foldLine_inv doc n st :
  foldInv doc n st -> foldInv doc (S n) (foldLine (lineAt doc n) n st).
Proof.
  intros Hinv. unfold foldLine.
  destruct (isBlankLine (lineAt doc n)) eqn:Hb; [apply foldInv_skip; exact Hinv|].
  destruct (isCommentLine (lineAt doc n)) eqn:Hc; [apply foldInv_skip; exact Hinv|].
  assert (Hread : isReadLine (lineAt doc n) = true) by (unfold isReadLine; rewrite Hb, Hc; reflexivity).
  destruct st as [stack ranges]. cbn [fst snd].
  destruct (Re.fnStartRe (lineAt doc n)) eqn:E1.
  { apply foldInv_push; [exact Hinv | split; [exact Hread | exact E1]]. }
  destruct (Re.test (Re.ifRe (lineAt doc n))) eqn:E2.
  { apply foldInv_push; [exact Hinv | split; [exact Hread | exact E2]]. }
  destruct (Re.forRe (lineAt doc n)) eqn:E3.
  { apply foldInv_push; [exact Hinv | split; [exact Hread | exact E3]]. }
  destruct (Re.fnEndRe (lineAt doc n)) eqn:E4.
  { apply foldInv_close; [exact Hinv | split; [exact Hread | exact E4]]. }
  destruct (Re.endIfRe (lineAt doc n)) eqn:E5.
  { apply foldInv_close; [exact Hinv | split; [exact Hread | exact E5]]. }
  destruct (Re.endForRe (lineAt doc n)) eqn:E6.
  { apply foldInv_close; [exact Hinv | split; [exact Hread | exact E6]]. }
  apply foldInv_skip. exact Hinv.
Qed.

Lemma foldLoop_inv doc : forall ls pre st,
  lines doc = pre ++ ls ->
  foldInv doc (length pre) st ->
  foldInv doc (lineCount doc) (foldLoop ls (length pre) st).
Proof.
  induction ls as [|t ls IH]; intros pre st Hl Hinv.
  - cbn [foldLoop]. unfold lineCount. rewrite Hl, app_nil_r. exact Hinv.
  - cbn [foldLoop].
    assert (Ht : lineAt doc (length pre) = t).
    { unfold lineAt. rewrite Hl, app_nth2, Nat.sub_diag by lia. reflexivity. }
    replace (S (length pre)) with (length (pre ++ [t])) by (rewrite length_app; cbn; lia).
    apply IH.
    + rewrite Hl, <- app_assoc. reflexivity.
    + rewrite length_app. cbn [length]. rewrite Nat.add_1_r, <- Ht.
      apply foldLine_inv. exact Hinv.
Qed.

Lemma foldInv_initial doc : foldInv doc 0 ([], []).
Proof.
  repeat split; cbn [fst snd map]; try constructor; try contradiction; intros; contradiction.
Qed.

Lemma insertBy_perm {A} (le : A -> A -> bool) x l : Permutation (insertBy le x l) (x :: l).
Proof.
  induction l as [|y l IH]; cbn [insertBy]; [reflexivity|].
  destruct (le x y); [reflexivity|].
  eapply perm_trans; [apply perm_skip; exact IH | apply perm_swap].
Qed.

Lemma sortBy_perm {A} (le : A -> A -> bool) l : Permutation (sortBy le l) l.
Proof.
  induction l as [|x l IH]; cbn [sortBy fold_right]; [reflexivity|].
  eapply perm_trans; [apply insertBy_perm | apply perm_skip; exact IH].
Qed.

Lemma sortBy_sorted {A} (le : A -> A -> bool) :
  (forall a b, le a b = false -> le b a = true) ->
  (forall a b c, le a b = true -> le b c = true -> le a c = true) ->
  forall l, StronglySorted (fun a b => le a b = true) (sortBy le l).
Proof.
  intros Htotal Htrans.
  assert (Hins : forall x l, StronglySorted (fun a b => le a b = true) l ->
                   StronglySorted (fun a b => le a b = true) (insertBy le x l)).
  { intros x l. induction l as [|y l IH]; intros Hs; cbn [insertBy].
    - constructor; constructor.
    - apply StronglySorted_inv in Hs as [Hs Hy].
      destruct (le x y) eqn:E.
      + constructor; [constructor; assumption|].
        constructor; [exact E|]. rewrite List.Forall_forall in *. intros z Hz.
        eapply Htrans; [exact E | apply Hy; exact Hz].
      + constructor; [apply IH; exact Hs|].
        apply List.Forall_forall. intros z Hz.
        apply (Permutation_in _ (insertBy_perm le x l)) in Hz.
        destruct Hz as [<- | Hz]; [apply Htotal; exact E|].
        rewrite List.Forall_forall in Hy. apply Hy. exact Hz. }
  induction l as [|x l IH]; cbn [sortBy fold_right]; [constructor|].
  apply Hins. exact IH.
Qed.

Lemma sortRanges_perm l : Permutation (sortRanges l) l.
Proof. apply sortBy_perm. Qed.

Lemma rangeLe_total a b : rangeLe a b = false -> rangeLe b a = true.
Proof.
  unfold rangeLe. intros H. apply orb_false_iff in H. destruct H as [H1 H2].
  apply Nat.ltb_ge in H1. apply andb_false_iff in H2.
  apply orb_true_iff. destruct (Nat.eq_dec (r_start a) (r_start b)) as [E | E].
  - right. apply andb_true_iff. split; [apply Nat.eqb_eq; lia|].
    destruct H2 as [H2 | H2]; [apply Nat.eqb_neq in H2; lia|].
    apply Nat.leb_gt in H2. apply Nat.leb_le. lia.
  - left. apply Nat.ltb_lt. lia.
Qed.

Lemma rangeLe_trans a b c : rangeLe a b = true -> rangeLe b c = true -> rangeLe a c = true.
Proof.
  unfold rangeLe. intros H1 H2.
  apply orb_true_iff in H1. apply orb_true_iff in H2. apply orb_true_iff.
  rewrite !andb_true_iff, !Nat.ltb_lt, !Nat.eqb_eq, !Nat.leb_le in *. lia.
Qed.

Lemma sortRanges_sorted l :
  StronglySorted (fun a b => rangeLe a b = true) (sortRanges l).
Proof. apply sortBy_sorted; [apply rangeLe_total | apply rangeLe_trans]. Qed.

Lemma sorted_strict l :
  StronglySorted (fun a b => rangeLe a b = true) l ->
  List.NoDup (map r_start l) ->
  StronglySorted (fun a b => r_start a < r_start b) l.
Proof.
  induction l as [|x l IH]; intros Hs Hn; [constructor|].
  apply StronglySorted_inv in Hs as [Hs Hx]. cbn [map] in Hn.
  apply List.NoDup_cons_iff in Hn as [Hnx Hn].
  constructor; [apply IH; assumption|].
  rewrite List.Forall_forall in *. intros y Hy. specialize (Hx y Hy).
  assert (r_start x <> r_start y).
  { intros E. apply Hnx. rewrite E. apply in_map. exact Hy. }
  unfold rangeLe in Hx. apply orb_true_iff in Hx.
  rewrite andb_true_iff, Nat.ltb_lt, Nat.eqb_eq in Hx. lia.
Qed.

(** X15.  Every folding range starts on a line that opens a block and ends
    on a later line that closes a block of the same kind; no line starts or
    ends two ranges; ranges of the same kind never cross; and the ranges
    come sorted by start line. *)
Theorem folding_ranges_match_markers (doc : TextDocument) :
  (forall r, In r (provideFoldingRanges doc) ->
     r_start r < r_end r /\ r_end r < lineCount doc
     /\ exists k, opensFold doc k (r_start r) /\ closesFold doc k (r_end r))
  /\ List.NoDup (map r_start (provideFoldingRanges doc))
  /\ List.NoDup (map r_end (provideFoldingRanges doc))
  /\ (forall r1 r2 k, In r1 (provideFoldingRanges doc) -> In r2 (provideFoldingRanges doc) ->
        opensFold doc k (r_start r1) -> opensFold doc k (r_start r2) ->
        r1 = r2 \/ nestedOrApart r1 r2)
  /\ StronglySorted (fun a b => r_start a < r_start b) (provideFoldingRanges doc).
Proof.
  unfold provideFoldingRanges. destruct (negb (isAbl doc)).
  { repeat split; try constructor; intros; contradiction. }
  pose proof (foldLoop_inv doc (lines doc) [] ([], []) eq_refl (foldInv_initial doc)) as Hinv.
  cbn [length] in Hinv.
  set (st := foldLoop (lines doc) 0 ([], [])) in *.
  destruct Hinv as (_ & _ & I3 & I4 & _ & I6 & _ & I8).
  pose proof (sortRanges_perm (snd st)) as Hperm.
  assert (Hin : forall r, In r (sortRanges (snd st)) -> In r (snd st))
    by (intros r; apply Permutation_in; exact Hperm).
  assert (Hstarts : List.NoDup (map r_start (sortRanges (snd st)))).
  { eapply Permutation_NoDup; [|exact I4]. apply Permutation_map.
    apply Permutation_sym. exact Hperm. }
  split; [intros r Hr; apply I3, Hin, Hr|].
  split; [exact Hstarts|].
  split.
  { eapply Permutation_NoDup; [|exact I6]. apply Permutation_map.
    apply Permutation_sym. exact Hperm. }
  split; [intros r1 r2 k H1 H2; apply I8; apply Hin; assumption|].
  apply sorted_strict; [apply sortRanges_sorted | exact Hstarts].
Qed.

(* ================================================================== *)
(** * Function definitions and the outline *)
(* ================================================================== *)

Lemma lit_suffix eq p : forall s r, Re.lit eq p s = Some r -> exists m, s = m ++ r.
Proof.
  induction p as [|pc p IH]; intros s r H; cbn [Re.lit] in H.
  - inversion H. exists []. reflexivity.
  - destruct s as [|c s]; [discriminate|]. destruct (eq pc c); [|discriminate].
    destruct (IH _ _ H) as [m ->]. exists (c :: m). reflexivity.
Qed.

(** The declared name is a word of the line. *)
Lemma fnDeclRe_occurs t name :
  fnDeclRe t = Some name ->
  name <> [] /\ exists pre post, t = pre ++ name ++ post.
Proof.
  unfold fnDeclRe.
  destruct (Re.lit eqci (str "@Function") (Re.spaces0 t)) as [r|] eqn:H0; [|discriminate].
  destruct (Re.spaces1 r) as [r1|] eqn:H1; [|discriminate].
  destruct (Re.ident r1) as [[nm r2]|] eqn:H2; [|discriminate].
  intros E. inversion E; subst nm.
  apply lit_suffix in H0. destruct H0 as [kw Hkw].
  apply spaces1_app in H1. destruct H1 as [ws Hws].
  apply ident_app in H2. destruct H2 as (Hr1 & Hne & _).
  destruct (dropWhile_suffix isSpace t) as [w Hw].
  split; [exact Hne|]. exists (w ++ kw ++ ws), r2.
  rewrite Hw at 1. unfold Re.spaces0 in Hkw. rewrite Hkw, Hws, Hr1, <- !app_assoc.
  reflexivity.
Qed.

Lemma indexOfFrom_first pat : forall s i j,
  indexOfFrom pat s i = Some j ->
  i <= j /\ prefixBy eqc pat (skipn (j - i) s) = true
  /\ forall c, c < j - i -> prefixBy eqc pat (skipn c s) = false.
Proof.
  induction s as [|x s IH]; intros i j H; cbn [indexOfFrom] in H.
  - destruct (prefixBy eqc pat []) eqn:E; [|discriminate]. inversion H; subst.
    rewrite Nat.sub_diag. cbn [skipn]. split; [lia|]. split; [exact E|]. intros c Hc. lia.
  - destruct (prefixBy eqc pat (x :: s)) eqn:E.
    + inversion H; subst. rewrite Nat.sub_diag. cbn [skipn].
      split; [lia|]. split; [exact E|]. intros c Hc. lia.
    + apply IH in H. destruct H as (Hle & Hp & Hfirst).
      split; [lia|]. replace (j - i) with (S (j - S i)) by lia. cbn [skipn].
      split; [exact Hp|]. intros c Hc. destruct c as [|c]; [exact E|].
      cbn [skipn]. apply Hfirst. lia.
Qed.

(** The column that [nameIndex] gives for a declared name is the first
    occurrence of the name in the line. *)
Lemma nameIndex_first t name :
  fnDeclRe t = Some name ->
  firstOccurrence t name (nameIndex t name)
  /\ nameIndex t name + length name <= length t.
Proof.
  intros H. apply fnDeclRe_occurs in H. destruct H as (Hne & pre & post & ->).
  destruct (indexOfFrom_found name pre post 0) as (k & Hk & _ & _).
  unfold nameIndex, indexOf. rewrite Hk. cbn [Nat.add].
  apply indexOfFrom_first in Hk. destruct Hk as (_ & Hp & Hfirst).
  rewrite Nat.sub_0_r in Hp, Hfirst.
  assert (Hs : startsWith (pre ++ name ++ post) name k = true) by exact Hp.
  split; [split; [exact Hs | exact Hfirst]|].
  apply startsWith_length; [exact Hs|]. destruct name; [congruence | cbn; lia].
Qed.

Lemma definitionStep_inv doc n m :
  definitionsInv doc n m ->
  definitionsInv doc (S n) (definitionStep m (n, lineAt doc n)).
Proof.
  intros Hinv name. unfold definitionStep. cbn [fst snd].
  destruct (fnDeclRe (lineAt doc n)) as [nm|] eqn:E.
  - destruct (decide (nm = name)) as [-> | Hne].
    + rewrite lookup_insert_eq. cbn [p_line p_character].
      split; [lia|]. split; [exact E|]. split; [intros l Hl; lia|].
      apply nameIndex_first. exact E.
    + rewrite lookup_insert_ne by exact Hne. specialize (Hinv name).
      destruct (m !! name) as [pos|].
      * destruct Hinv as (H1 & H2 & H3 & H4). split; [lia|]. split; [exact H2|].
        split; [|exact H4]. intros l Hl. destruct (Nat.eq_dec l n) as [-> | Hln].
        -- rewrite E. congruence.
        -- apply H3. lia.
      * intros l Hl. destruct (Nat.eq_dec l n) as [-> | Hln].
        -- rewrite E. congruence.
        -- apply Hinv. lia.
  - specialize (Hinv name). destruct (m !! name) as [pos|].
    + destruct Hinv as (H1 & H2 & H3 & H4). split; [lia|]. split; [exact H2|].
      split; [|exact H4]. intros l Hl. destruct (Nat.eq_dec l n) as [-> | Hln].
      * rewrite E. discriminate.
      * apply H3. lia.
    + intros l Hl. destruct (Nat.eq_dec l n) as [-> | Hln].
      * rewrite E. discriminate.
      * apply Hinv. lia.
Qed.

Lemma definitionLoop_inv doc : forall ls pre m,
  lines doc = pre ++ ls ->
  definitionsInv doc (length pre) m ->
  definitionsInv doc (lineCount doc)
    (fold_left definitionStep (combine (seq (length pre) (length ls)) ls) m).
Proof.
  induction ls as [|t ls IH]; intros pre m Hl Hinv.
  - cbn. unfold lineCount. rewrite Hl, app_nil_r. exact Hinv.
  - cbn [length seq combine fold_left].
    assert (Ht : lineAt doc (length pre) = t).
    { unfold lineAt. rewrite Hl, app_nth2, Nat.sub_diag by lia. reflexivity. }
    replace (S (length pre)) with (length (pre ++ [t])) by (rewrite length_app; cbn; lia).
    apply IH.
    + rewrite Hl, <- app_assoc. reflexivity.
    + rewrite length_app. cbn [length]. rewrite Nat.add_1_r, <- Ht.
      apply definitionStep_inv. exact Hinv.
Qed.

(** X16.  [findFunctionDefinitions] maps a name to a position exactly when
    some line declares a function of that name; the position is on the
    last line that declares it, at the first occurrence of the name in the
    text of that line. *)
Theorem function_definitions_last_wins (doc : TextDocument) (name : text) :
  match findFunctionDefinitions doc !! name with
  | Some pos =>
      declaresAt doc (p_line pos) name
      /\ (forall l, p_line pos < l -> ~ declaresAt doc l name)
      /\ firstOccurrence (lineAt doc (p_line pos)) name (p_character pos)
  | None => forall l, ~ declaresAt doc l name
  end.
Proof.
  assert (Hinit : definitionsInv doc 0 ∅).
  { intros nm. rewrite lookup_empty. intros l Hl. lia. }
  pose proof (definitionLoop_inv doc (lines doc) [] ∅ eq_refl Hinit name) as Hinv.
  cbn [length] in Hinv. unfold findFunctionDefinitions, lineCount.
  unfold lineCount in Hinv.
  destruct (fold_left definitionStep (combine (seq 0 (length (lines doc))) (lines doc)) ∅
            !! name) as [pos|].
  - destruct Hinv as (H1 & H2 & H3 & H4). unfold declaresAt, lineCount.
    split; [split; assumption|]. split; [|exact H4].
    intros l Hl [Hlt Hd]. apply (H3 l); [lia | exact Hd].
  - intros l [Hlt Hd]. apply (Hinv l); assumption.
Qed.

Lemma blockInv_skip doc n st :
  blockInv doc n st ->
  (isReadLine (lineAt doc n) = true -> fnDeclRe (lineAt doc n) = None) ->
  blockInv doc (S n) st.
Proof.
  intros (J1 & J2 & J3 & J4) Hnone. split; [|split; [|split; [exact J3|]]].
  - intros f Hf. destruct (J1 f Hf) as (H1 & H2). split; [lia | exact H2].
  - intros b Hb. destruct (J2 b Hb) as (H1 & H2 & H3). split; [exact H1|]. split; [exact H2 | lia].
  - intros l name Hl Hread Hd. destruct (Nat.eq_dec l n) as [-> | Hln].
    + rewrite (Hnone Hread) in Hd. discriminate.
    + apply J4; [lia | exact Hread | exact Hd].
Qed.

Lemma blockInv_push doc n stk blocks name :
  blockInv doc n (stk, blocks) ->
  isReadLine (lineAt doc n) = true ->
  fnDeclRe (lineAt doc n) = Some name ->
  blockInv doc (S n)
    ({| ff_name := name; ff_startLine := n;
        ff_nameRange := nameRangeOf (lineAt doc n) name n |} :: stk, blocks).
Proof.
  intros (J1 & J2 & J3 & J4) Hread Hd. cbn [fst snd] in *.
  split; [|split; [|split]]; cbn [fst snd].
  - intros f [<- | Hf].
    + unfold frameOk. cbn. repeat split; auto.
    + destruct (J1 f Hf) as (H1 & H2). split; [lia | exact H2].
  - intros b Hb. destruct (J2 b Hb) as (H1 & H2 & H3). split; [exact H1|]. split; [exact H2 | lia].
  - cbn [map]. apply List.NoDup_app.
    + apply List.NoDup_app_remove_r in J3. exact J3.
    + constructor; [|apply List.NoDup_app_remove_l in J3; exact J3].
      intros Hin. apply in_map_iff in Hin. destruct Hin as (f & Hf1 & Hf2).
      destruct (J1 f Hf2) as (H1 & _). cbn in Hf1. lia.
    + intros a Ha [<- | Hin].
      * apply in_map_iff in Ha. destruct Ha as (b & Hb1 & Hb2).
        destruct (J2 b Hb2) as (_ & (Hlt & _) & Hend). cbn in Hb1. lia.
      * revert a Ha Hin. clear -J3. revert J3.
        generalize (map (fun b => rg_startLine (b_range b)) blocks) (map ff_startLine stk).
        intros l1 l2 Hnd a H1 H2. induction l1 as [|x l1 IH]; [contradiction|].
        cbn [app] in Hnd. apply List.NoDup_cons_iff in Hnd as [Hx Hnd].
        destruct H1 as [-> | H1]; [apply Hx, in_or_app; right; exact H2 | exact (IH Hnd H1)].
  - intros l nm Hl Hr Hdl. destruct (Nat.eq_dec l n) as [-> | Hln].
    + left. eexists. split; [left; reflexivity|]. cbn. split; [reflexivity | congruence].
    + destruct (J4 l nm ltac:(lia) Hr Hdl) as [(f & Hf & Hx) | Hb]; [|right; exact Hb].
      left. exists f. split; [right; exact Hf | exact Hx].
Qed.

Lemma blockInv_pop doc n frame below blocks :
  blockInv doc n (frame :: below, blocks) ->
  isReadLine (lineAt doc n) = true ->
  fnDeclRe (lineAt doc n) = None ->
  Re.fnEndRe (lineAt doc n) = true ->
  blockInv doc (S n) (below, blocks ++ [blockOf frame n (lineAt doc n)]).
Proof.
  intros (J1 & J2 & J3 & J4) Hread Hnone Hend. cbn [fst snd] in *.
  destruct (J1 frame (or_introl eq_refl)) as (F1 & F2 & F3 & F4).
  split; [|split; [|split]]; cbn [fst snd].
  - intros f Hf. destruct (J1 f (or_intror Hf)) as (H1 & H2). split; [lia | exact H2].
  - intros b Hb. apply in_app_or in Hb. destruct Hb as [Hb | [<- | []]].
    + destruct (J2 b Hb) as (H1 & H2 & H3). split; [exact H1|]. split; [exact H2 | lia].
    + unfold blockHead, closedBlock, blockOf. cbn. repeat split; auto.
  - rewrite map_app. cbn [map blockOf b_range rg_startLine].
    rewrite <- app_assoc. exact J3.
  - intros l nm Hl Hr Hdl. destruct (Nat.eq_dec l n) as [-> | Hln].
    + rewrite Hnone in Hdl. discriminate.
    + destruct (J4 l nm ltac:(lia) Hr Hdl) as [(f & [<- | Hf] & Hx1 & Hx2) | (b & Hb & Hx)].
      * right. eexists. split; [apply in_or_app; right; left; reflexivity|].
        cbn. auto.
      * left. exists f. auto.
      * right. exists b. split; [apply in_or_app; left; exact Hb | exact Hx].
Qed.

Lemma blockLine_inv doc n st :
  blockInv doc n st -> blockInv doc (S n) (blockLine (lineAt doc n) n st).
Proof.
  intros Hinv. unfold blockLine.
  destruct (isBlankLine (lineAt doc n)) eqn:Hb.
  { apply blockInv_skip; [exact Hinv|]. unfold isReadLine. rewrite Hb. discriminate. }
  destruct (isCommentLine (lineAt doc n)) eqn:Hc.
  { apply blockInv_skip; [exact Hinv|]. unfold isReadLine. rewrite Hc, andb_false_r.
    discriminate. }
  assert (Hread : isReadLine (lineAt doc n) = true)
    by (unfold isReadLine; rewrite Hb, Hc; reflexivity).
  destruct st as [stk blocks]. cbn [fst snd].
  destruct (fnDeclRe (lineAt doc n)) as [name|] eqn:Hd.
  { apply blockInv_push; assumption. }
  destruct (Re.fnEndRe (lineAt doc n)) eqn:He; [|apply blockInv_skip; auto].
  destruct stk as [|frame below]; [apply blockInv_skip; auto|].
  apply blockInv_pop; assumption.
Qed.

Lemma blockLoop_inv doc : forall ls pre st,
  lines doc = pre ++ ls ->
  blockInv doc (length pre) st ->
  blockInv doc (lineCount doc) (blockLoop ls (length pre) st).
Proof.
  induction ls as [|t ls IH]; intros pre st Hl Hinv.
  - cbn [blockLoop]. unfold lineCount. rewrite Hl, app_nil_r. exact Hinv.
  - cbn [blockLoop].
    assert (Ht : lineAt doc (length pre) = t).
    { unfold lineAt. rewrite Hl, app_nth2, Nat.sub_diag by lia. reflexivity. }
    replace (S (length pre)) with (length (pre ++ [t])) by (rewrite length_app; cbn; lia).
    apply IH.
    + rewrite Hl, <- app_assoc. reflexivity.
    + rewrite length_app. cbn [length]. rewrite Nat.add_1_r, <- Ht.
      apply blockLine_inv. exact Hinv.
Qed.

Lemma blockLe_total a b : blockLe a b = false -> blockLe b a = true.
Proof.
  unfold blockLe. intros H. apply orb_false_iff in H. destruct H as [H1 H2].
  apply Nat.ltb_ge in H1. apply andb_false_iff in H2. apply orb_true_iff.
  destruct (Nat.eq_dec (rg_startLine (b_range a)) (rg_startLine (b_range b))) as [E | E].
  - right. apply andb_true_iff. split; [apply Nat.eqb_eq; lia|].
    destruct H2 as [H2 | H2]; [apply Nat.eqb_neq in H2; lia|].
    apply Nat.leb_gt in H2. apply Nat.leb_le. lia.
  - left. apply Nat.ltb_lt. lia.
Qed.

Lemma blockLe_trans a b c : blockLe a b = true -> blockLe b c = true -> blockLe a c = true.
Proof.
  unfold blockLe. intros H1 H2.
  apply orb_true_iff in H1. apply orb_true_iff in H2. apply orb_true_iff.
  rewrite !andb_true_iff, !Nat.ltb_lt, !Nat.eqb_eq, !Nat.leb_le in *. lia.
Qed.

Lemma blocks_sorted_strict l :
  StronglySorted (fun a b => blockLe a b = true) l ->
  List.NoDup (map (fun b => rg_startLine (b_range b)) l) ->
  StronglySorted (fun a b => rg_startLine (b_range a) < rg_startLine (b_range b)) l.
Proof.
  induction l as [|x l IH]; intros Hs Hn; [constructor|].
  apply StronglySorted_inv in Hs as [Hs Hx]. cbn [map] in Hn.
  apply List.NoDup_cons_iff in Hn as [Hnx Hn].
  constructor; [apply IH; assumption|].
  rewrite List.Forall_forall in *. intros y Hy. specialize (Hx y Hy).
  assert (rg_startLine (b_range x) <> rg_startLine (b_range y)).
  { intros E. apply Hnx. rewrite E.
    apply (in_map (fun b => rg_startLine (b_range b))). exact Hy. }
  unfold blockLe in Hx. apply orb_true_iff in Hx.
  rewrite andb_true_iff, Nat.ltb_lt, Nat.eqb_eq in Hx. lia.
Qed.

(* ================================================================== *)
(** * References and rename *)
(* ================================================================== *)

Lemma numbered_bound doc i t : In (i, t) (numbered doc) -> i < lineCount doc /\ lineAt doc i = t.
Proof.
  intros H. split; [|eapply numbered_lineAt; exact H].
  assert (Hi : In i (map fst (numbered doc))) by (apply in_map_iff; exists (i, t); auto).
  rewrite numbered_fst in Hi. apply in_seq in Hi. lia.
Qed.

Lemma callAt_spec name s m :
  callAt name s = Some m ->
  exists at_ ws rest,
    s = "@"%char :: name ++ at_ ++ ws ++ "("%char :: rest
    /\ (at_ = [] \/ at_ = ["@"%char])
    /\ forallb isSpace ws = true
    /\ match at_ ++ ws ++ "("%char :: rest with
       | c :: _ => eqc c "@"%char = match at_ with [] => false | _ :: _ => true end
       | [] => False
       end.
Proof.
  unfold callAt. destruct (Re.lit eqc ("@"%char :: name) s) as [r|] eqn:Hl; [|discriminate].
  apply lit_eqc_app in Hl. cbv zeta.
  set (r1 := match r with c :: r' => if eqc c "@"%char then r' else r | [] => r end).
  destruct (Re.spaces0 r1) as [|c r2] eqn:Hs; [discriminate|].
  destruct (eqc c "("%char) eqn:Hc; [|discriminate]. intros _.
  apply eqc_true in Hc. subst c.
  pose proof (takeWhile_dropWhile isSpace r1) as Hsplit.
  pose proof (takeWhile_all isSpace r1) as Hall.
  unfold Re.spaces0 in Hs. rewrite Hs in Hsplit.
  assert (Hhead : forall ws rest, forallb isSpace ws = true ->
            match ws ++ "("%char :: rest with
            | c :: _ => eqc c "@"%char = false
            | [] => False
            end).
  { intros ws rest Hws. destruct ws as [|w ws]; cbn [app]; [reflexivity|].
    cbn [forallb] in Hws. apply andb_true_iff in Hws. destruct Hws as [Hw _].
    destruct w as [[] [] [] [] [] [] [] []]; try discriminate Hw; reflexivity. }
  destruct r as [|c r'].
  - exfalso. subst r1. cbn in Hs. discriminate.
  - destruct (eqc c "@"%char) eqn:Hat.
    + apply eqc_true in Hat. subst c. subst r1.
      exists ["@"%char], (takeWhile isSpace r'), r2.
      split; [rewrite Hl, Hsplit; reflexivity|].
      split; [right; reflexivity|]. split; [exact Hall | reflexivity].
    + subst r1. exists [], (takeWhile isSpace (c :: r')), r2.
      split; [rewrite Hl; cbn [app]; rewrite Hsplit; reflexivity|].
      split; [left; reflexivity|]. split; [exact Hall|].
      cbn [app]. apply Hhead. exact Hall.
Qed.

Lemma callAt_at name t k m :
  callAt name (skipn k t) = Some m ->
  callSite name t k
  /\ k + 1 + length name < length t
  /\ slice t (k + 1) (k + 1 + length name) = name
  /\ exists c, charAt t (k + 1 + length name) = Some c
     /\ slice t k (k + (if eqc c "@"%char then 1 + length name + 1 else 1 + length name))
        = "@"%char :: name ++ (if eqc c "@"%char then ["@"%char] else []).
Proof.
  intros H. apply callAt_spec in H.
  destruct H as (at_ & ws & rest & Hs & Hat & Hws & Hhead).
  split; [exists at_, ws, rest; auto|].
  assert (Hlen : length (skipn k t) = S (length name + length (at_ ++ ws ++ "("%char :: rest))).
  { rewrite Hs. cbn [length]. rewrite length_app. reflexivity. }
  rewrite length_skipn in Hlen.
  assert (Htail : 0 < length (at_ ++ ws ++ "("%char :: rest)).
  { rewrite !length_app. cbn [length]. lia. }
  split; [lia|].
  assert (Hname : skipn (k + 1) t = name ++ at_ ++ ws ++ "("%char :: rest).
  { rewrite Nat.add_comm, <- skipn_skipn, Hs. reflexivity. }
  split.
  { unfold slice. rewrite Hname.
    replace (k + 1 + length name - (k + 1)) with (length name) by lia.
    rewrite firstn_app, Nat.sub_diag, firstn_all. cbn [firstn]. apply app_nil_r. }
  assert (Hafter : skipn (k + 1 + length name) t = at_ ++ ws ++ "("%char :: rest).
  { rewrite (Nat.add_comm (k + 1)), <- skipn_skipn, Hname, skipn_app, Nat.sub_diag, skipn_all.
    reflexivity. }
  destruct (at_ ++ ws ++ "("%char :: rest) as [|c tail] eqn:Etail; [contradiction|].
  exists c. split.
  { unfold charAt. rewrite <- (firstn_skipn (k + 1 + length name) t), Hafter.
    rewrite nth_error_app2; rewrite length_firstn; [|lia].
    replace (k + 1 + length name - Init.Nat.min (k + 1 + length name) (length t)) with 0 by lia.
    reflexivity. }
  unfold slice. rewrite Hs.
  destruct Hat as [-> | ->]; rewrite Hhead.
  - replace (k + (1 + length name) - k) with (S (length name)) by lia.
    cbn [firstn]. f_equal. rewrite firstn_app, Nat.sub_diag, firstn_all. cbn [firstn].
    reflexivity.
  - replace (k + (1 + length name + 1) - k) with (S (length name + 1)) by lia.
    cbn [firstn]. f_equal. cbn [app] in Etail. inversion Etail; subst c.
    rewrite firstn_app, firstn_all2 by lia.
    replace (length name + 1 - length name) with 1 by lia. reflexivity.
Qed.

Lemma referenceAt_In name t line start r m :
  In (start, m) (Re.execAll (callAt name) t 0 0) ->
  In r (referenceAt name t line start) ->
  lr_line r = line /\ lr_start r = start
  /\ callSite name t start
  /\ lr_end r <= length t
  /\ (slice t (lr_start r) (lr_end r) = "@"%char :: name
      \/ slice t (lr_start r) (lr_end r) = "@"%char :: name ++ ["@"%char]).
Proof.
  intros Hm Hr. apply execAll_In in Hm. destruct Hm as (k & Hk & Hlt & Hm).
  cbn [Nat.add] in Hk. subst k.
  apply callAt_at in Hm. destruct Hm as (Hsite & Hlen & _ & c & Hc & Hslice).
  unfold referenceAt in Hr. cbv zeta in Hr.
  apply Nat.ltb_lt in Hlen as Hltb. rewrite Hltb, Hc in Hr. cbn [optIs] in Hr.
  destruct (bool_decide (name = str "Map") && eqc c "."%char); [contradiction|].
  destruct Hr as [<- | []]. cbn [lr_line lr_start lr_end].
  split; [reflexivity|]. split; [reflexivity|]. split; [exact Hsite|].
  destruct (eqc c "@"%char).
  - split; [lia|]. right. rewrite Hslice. reflexivity.
  - split; [lia|]. left. rewrite Hslice, app_nil_r. reflexivity.
Qed.

(** X18.  Every reference that [findFunctionReferences] reports for an
    identifier [name] is a call site of [name] on a line that is read and
    does not declare [name]: the range lies within the line and reads
    [@name] or [@name@], and an opening parenthesis follows after optional
    white space. *)
Theorem references_are_call_sites (doc : TextDocument) (name : text) (r : LineRange) :
  isSimpleIdent name = true ->
  In r (findFunctionReferences doc name) ->
  lr_line r < lineCount doc
  /\ isReadLine (lineAt doc (lr_line r)) = true
  /\ declOf name (lineAt doc (lr_line r)) = false
  /\ callSite name (lineAt doc (lr_line r)) (lr_start r)
  /\ lr_end r <= length (lineAt doc (lr_line r))
  /\ (textOf doc r = "@"%char :: name \/ textOf doc r = "@"%char :: name ++ ["@"%char]).
Proof.
  intros _ Hin. unfold findFunctionReferences in Hin.
  apply in_flat_map in Hin. destruct Hin as ([line t] & Hit & Hin).
  apply (numbered_bound doc) in Hit. destruct Hit as [Hline Ht].
  destruct (isBlankLine t) eqn:Hb; [contradiction|].
  destruct (isCommentLine t) eqn:Hc; [contradiction|].
  destruct (declOf name t) eqn:Hd; [contradiction|].
  apply in_flat_map in Hin. destruct Hin as ([start m] & Hm & Hr). cbn [fst] in Hr.
  destruct (referenceAt_In _ _ _ _ _ _ Hm Hr) as (Hl & Hs & Hsite & Hend & Htext).
  unfold textOf, isReadLine. rewrite Hl, Ht, Hb, Hc, Hd, Hs. rewrite Hs in Htext.
  repeat split; auto.
Qed.

Lemma references_are_call_sites_witness :
  In {| lr_line := 1; lr_start := 4; lr_end := 9 |}
     (findFunctionReferences
        (abl [str "@Function add(a)"; str "x = @add@ (1) + @address(2)"]) (str "add"))
  /\ (textOf (abl [str "@Function add(a)"; str "x = @add@ (1) + @address(2)"])
        {| lr_line := 1; lr_start := 4; lr_end := 9 |}
      = "@"%char :: str "add"
      \/ textOf (abl [str "@Function add(a)"; str "x = @add@ (1) + @address(2)"])
           {| lr_line := 1; lr_start := 4; lr_end := 9 |}
         = "@"%char :: str "add" ++ ["@"%char]).
Proof.
  assert (Hin : In {| lr_line := 1; lr_start := 4; lr_end := 9 |}
                  (findFunctionReferences
                     (abl [str "@Function add(a)"; str "x = @add@ (1) + @address(2)"])
                     (str "add")))
    by (vm_compute; left; reflexivity).
  split; [exact Hin|].
  apply (references_are_call_sites
           (abl [str "@Function add(a)"; str "x = @add@ (1) + @address(2)"]) (str "add")
           {| lr_line := 1; lr_start := 4; lr_end := 9 |} eq_refl Hin).
Defined.

(** X19.  Every range that [collectRenameRanges] collects for an
    identifier [name] lies within a line of the document and reads exactly
    [name], so a rename replaces nothing but occurrences of the old name. *)
Theorem rename_ranges_read_name (doc : TextDocument) (name : text) (r : LineRange) :
  isSimpleIdent name = true ->
  In r (collectRenameRanges doc name) ->
  lr_line r < lineCount doc
  /\ lr_end r = lr_start r + length name
  /\ lr_end r <= length (lineAt doc (lr_line r))
  /\ textOf doc r = name.
Proof.
  intros Hid Hin. unfold collectRenameRanges in Hin. apply in_app_or in Hin.
  destruct Hin as [Hin | Hin]; apply in_flat_map in Hin; destruct Hin as ([line t] & Hit & Hin);
    apply (numbered_bound doc) in Hit; destruct Hit as [Hline Ht].
  - destruct (declOf name t); [|contradiction].
    destruct (indexOf t name) as [idx|] eqn:Hidx; [|contradiction].
    destruct Hin as [<- | []]. unfold textOf. cbn [lr_line lr_start lr_end]. rewrite Ht.
    apply indexOfFrom_first in Hidx. destruct Hidx as (_ & Hp & _).
    rewrite Nat.sub_0_r in Hp.
    assert (Hs : startsWith t name idx = true) by exact Hp.
    pose proof (startsWith_skipn _ _ _ Hs) as Hsk.
    assert (Hpos : 0 < length name) by (destruct name; [discriminate | cbn; lia]).
    pose proof (startsWith_length _ _ _ Hs Hpos) as Hlen.
    split; [exact Hline|]. split; [reflexivity|]. split; [exact Hlen|].
    unfold slice. rewrite Hsk.
    replace (idx + length name - idx) with (length name) by lia.
    rewrite firstn_app, Nat.sub_diag, firstn_all. cbn [firstn]. apply app_nil_r.
  - destruct (isBlankLine t); [contradiction|]. destruct (isCommentLine t); [contradiction|].
    apply in_map_iff in Hin. destruct Hin as ([start m] & <- & Hm).
    apply execAll_In in Hm. destruct Hm as (k & Hk & _ & Hm). cbn [Nat.add] in Hk. subst k.
    apply callAt_at in Hm. destruct Hm as (_ & Hlen & Hslice & _).
    unfold textOf. cbn [lr_line lr_start lr_end fst]. rewrite Ht.
    split; [exact Hline|]. split; [reflexivity|]. split; [lia | exact Hslice].
Qed.

Lemma rename_ranges_read_name_witness :
  In {| lr_line := 1; lr_start := 5; lr_end := 8 |}
     (collectRenameRanges
        (abl [str "@Function add(a)"; str "x = @add@ (1) + @address(2)"]) (str "add"))
  /\ textOf (abl [str "@Function add(a)"; str "x = @add@ (1) + @address(2)"])
       {| lr_line := 1; lr_start := 5; lr_end := 8 |}
     = str "add".
Proof.
  assert (Hin : In {| lr_line := 1; lr_start := 5; lr_end := 8 |}
                  (collectRenameRanges
                     (abl [str "@Function add(a)"; str "x = @add@ (1) + @address(2)"])
                     (str "add")))
    by (vm_compute; right; left; reflexivity).
  split; [exact Hin|].
  apply (rename_ranges_read_name
           (abl [str "@Function add(a)"; str "x = @add@ (1) + @address(2)"]) (str "add")
           {| lr_line := 1; lr_start := 5; lr_end := 8 |} eq_refl Hin).
Defined.

(* ================================================================== *)
(** * The caret token under the cursor *)
(* ================================================================== *)

Lemma caretPathEnd_spec : forall rest i d,
  i <= caretPathEnd rest i d <= i + length rest
  /\ (caretPathEnd rest i d = i + length rest
      \/ exists c, nth_error rest (caretPathEnd rest i d - i) = Some c
                   /\ isPathChar c = false).
Proof.
  induction rest as [|ch rest IH]; intros i d; cbn [caretPathEnd length].
  - split; [lia|]. left. lia.
  - assert (Hstep : forall d',
              i <= caretPathEnd rest (i + 1) d' <= i + S (length rest)
              /\ (caretPathEnd rest (i + 1) d' = i + S (length rest)
                  \/ exists c, nth_error (ch :: rest) (caretPathEnd rest (i + 1) d' - i) = Some c
                               /\ isPathChar c = false)).
    { intros d'. destruct (IH (i + 1) d') as (Hb & [He | (c & Hc & Hp)]).
      - split; [lia|]. left. lia.
      - split; [lia|]. right. exists c. split; [|exact Hp].
        replace (caretPathEnd rest (i + 1) d' - i)
          with (S (caretPathEnd rest (i + 1) d' - (i + 1))) by lia.
        exact Hc. }
    destruct (0 <? d); [apply Hstep|].
    destruct (eqc ch "["%char) eqn:E1; [apply Hstep|].
    destruct (eqc ch "."%char) eqn:E2; [apply Hstep|].
    destruct (eqc ch "!"%char) eqn:E3; [apply Hstep|].
    destruct (isWordChar ch) eqn:E4; [apply Hstep|].
    split; [lia|]. right. exists ch. rewrite Nat.sub_diag. split; [reflexivity|].
    unfold isPathChar. rewrite E1, E2, E3, E4. reflexivity.
Qed.

Lemma caretTokenFrom_spec lineText char start token s e :
  caretTokenFrom lineText char start = Some (token, s, e) ->
  s = start
  /\ s <= char < e /\ e <= length lineText
  /\ charAt lineText s = Some "^"%char
  /\ optLetter (charAt lineText (s + 1)) = true
  /\ token = slice lineText s e
  /\ (forall k c, s < k <= char -> charAt lineText k = Some c -> isBlankTab c = false)
  /\ (e = length lineText
      \/ exists c, charAt lineText e = Some c /\ isPathChar c = false).
Proof.
  unfold caretTokenFrom.
  destruct (optIs (charAt lineText start) "^"%char) eqn:Hc; [|discriminate].
  cbn [negb]. cbv zeta.
  destruct (existsb _ _) eqn:Hws; [discriminate|].
  destruct (length lineText <=? start + 1) eqn:Hlen; [discriminate|].
  destruct (optLetter (charAt lineText (start + 1))) eqn:Hl; [|discriminate].
  cbn [orb negb].
  set (i := skipWhile isWordChar lineText (start + 1)).
  destruct (caretPathEnd_spec (sliceFrom lineText i) i 0) as (Hb & Hstop).
  set (e0 := caretPathEnd (sliceFrom lineText i) i 0) in *.
  destruct ((start <=? char) && (char <? e0)) eqn:Hin; [|discriminate].
  intros E. inversion E; subst token s e. clear E.
  apply andb_true_iff in Hin. destruct Hin as [H1 H2].
  apply Nat.leb_le in H1. apply Nat.ltb_lt in H2. apply Nat.leb_gt in Hlen.
  apply optIs_true in Hc.
  assert (Hi : i <= length lineText).
  { subst i. unfold skipWhile.
    pose proof (takeWhile_dropWhile isWordChar (skipn (start + 1) lineText)) as Hsplit.
    apply (f_equal (@length ascii)) in Hsplit. rewrite length_app, length_skipn in Hsplit. lia. }
  assert (Hrest : length (sliceFrom lineText i) = length lineText - i)
    by (unfold sliceFrom; apply length_skipn).
  rewrite Hrest in Hb, Hstop.
  split; [reflexivity|]. split; [lia|]. split; [lia|]. split; [exact Hc|].
  split; [exact Hl|]. split; [reflexivity|]. split.
  - intros k c Hk Hkc. pose proof (charAt_lt _ _ _ Hkc) as Hklt.
    destruct (isBlankTab c) eqn:Hbl; [|reflexivity]. exfalso.
    assert (Hex : existsb (fun c0 => eqc c0 " "%char || eqc c0 "009"%char)
                    (slice lineText (start + 1)
                       (Nat.min char (length lineText - 1) + 1)) = true).
    { apply existsb_exists. exists c. split.
      - unfold slice. apply (nth_error_In _ (k - (start + 1))).
        rewrite nth_error_firstn.
        assert (Hk' : k - (start + 1) < Nat.min char (length lineText - 1) + 1 - (start + 1))
          by lia.
        apply Nat.ltb_lt in Hk'. rewrite Hk'.
        rewrite nth_error_skipn. replace (start + 1 + (k - (start + 1))) with k by lia.
        exact Hkc.
      - apply blank_cases in Hbl. destruct Hbl as [-> | ->]; reflexivity. }
    rewrite Hex in Hws. discriminate.
  - destruct Hstop as [He | (c & Hn & Hp)]; [left; lia|].
    right. exists c. split; [|exact Hp].
    unfold sliceFrom in Hn. rewrite nth_error_skipn in Hn.
    replace (i + (e0 - i)) with e0 in Hn by lia. exact Hn.
Qed.

Lemma extractCaretLoop_spec lineText char : forall start token s e,
  extractCaretLoop lineText char start = Some (token, s, e) ->
  s <= start
  /\ caretTokenFrom lineText char s = Some (token, s, e)
  /\ forall s', s < s' <= start -> caretTokenFrom lineText char s' = None.
Proof.
  induction start as [|start IH]; intros token s e H; cbn [extractCaretLoop] in H.
  - destruct (caretTokenFrom lineText char 0) as [r|] eqn:E; [|discriminate].
    inversion H; subst r. pose proof (caretTokenFrom_spec _ _ _ _ _ _ E) as (-> & _).
    split; [lia|]. split; [exact E|]. intros s' Hs'. lia.
  - destruct (caretTokenFrom lineText char (S start)) as [r|] eqn:E.
    + inversion H; subst r. pose proof (caretTokenFrom_spec _ _ _ _ _ _ E) as (-> & _).
      split; [lia|]. split; [exact E|]. intros s' Hs'. lia.
    + apply IH in H. destruct H as (Hle & Hs & Hnone).
      split; [lia|]. split; [exact Hs|]. intros s' Hs'.
      destruct (Nat.eq_dec s' (S start)) as [-> | Hne]; [exact E | apply Hnone; lia].
Qed.

(** X20.  A caret token that [extractCaretTokenAt] finds holds the cursor
    and is the text of the line between its start and its end; it starts
    with a caret and a letter, there is no space or tab from its start to
    the cursor, it ends where the line ends or before a character that
    cannot go on a path, and no caret nearer to the cursor starts such a
    token. *)
Theorem caret_token_holds_cursor (lineText : text) (char : nat) (token : text) (s e : nat) :
  extractCaretTokenAt lineText char = Some (token, s, e) ->
  s <= char < e /\ e <= length lineText
  /\ token = slice lineText s e
  /\ length token = e - s
  /\ charAt lineText s = Some "^"%char
  /\ optLetter (charAt lineText (s + 1)) = true
  /\ (forall k c, s < k <= char -> charAt lineText k = Some c -> isBlankTab c = false)
  /\ (e = length lineText \/ exists c, charAt lineText e = Some c /\ isPathChar c = false)
  /\ (forall s', s < s' <= char -> caretTokenFrom lineText char s' = None).
Proof.
  unfold extractCaretTokenAt. intros H. apply extractCaretLoop_spec in H.
  destruct H as (_ & Hs & Hnone).
  apply caretTokenFrom_spec in Hs.
  destruct Hs as (_ & Hin & Hend & Hc & Hl & Ht & Hws & Hstop).
  split; [exact Hin|]. split; [exact Hend|]. split; [exact Ht|].
  split; [rewrite Ht; unfold slice; rewrite length_firstn, length_skipn; lia|].
  repeat split; auto; apply Hin.
Qed.

Lemma caret_token_holds_cursor_witness :
  extractCaretTokenAt (str "x = ^Data.Item[a b].Name + 1") 12
  = Some (str "^Data.Item[a b].Name", 4, 24)
  /\ 4 <= 12 < 24.
Proof.
  split; [vm_compute; reflexivity|].
  apply (caret_token_holds_cursor (str "x = ^Data.Item[a b].Name + 1") 12
           (str "^Data.Item[a b].Name") 4 24).
  vm_compute. reflexivity.
Defined.

(** The first occurrence of a short name can lie inside the keyword: for
    [@Function n] the position is column 3. *)
Lemma function_definitions_last_wins_witness :
  findFunctionDefinitions (abl [str "@Function n"]) !! str "n"
  = Some {| p_line := 0; p_character := 3 |}
  /\ firstOccurrence (lineAt (abl [str "@Function n"]) 0) (str "n") 3.
Proof.
  assert (E : findFunctionDefinitions (abl [str "@Function n"]) !! str "n"
              = Some {| p_line := 0; p_character := 3 |}) by (vm_compute; reflexivity).
  split; [exact E|].
  pose proof (function_definitions_last_wins (abl [str "@Function n"]) (str "n")) as H.
  rewrite E in H. exact (proj2 (proj2 H)).
Defined.

(* ================================================================== *)
(** * Data and class references are always highlighted *)
(* ================================================================== *)

Lemma caretFree_trans line a b c :
  caretFree line a b -> caretFree line b c -> caretFree line a c.
Proof.
  intros H1 H2 k x Hk Hx. destruct (Nat.lt_ge_cases k b).
  - apply (H1 k); [lia | exact Hx].
  - apply (H2 k); [lia | exact Hx].
Qed.

Lemma caretFree_empty line a b : b <= a -> caretFree line a b.
Proof. intros H k c Hk. lia. Qed.

Lemma caretFree_sub line a b a' b' :
  a <= a' -> b' <= b -> caretFree line a b -> caretFree line a' b'.
Proof. intros Ha Hb H k c Hk Hc. apply (H k c); [lia | exact Hc]. Qed.

Lemma caretFree_skipWhile p line j :
  (forall c, p c = true -> notCaret c = true) ->
  caretFree line j (skipWhile p line j).
Proof. intros Hp k c Hk Hc. apply Hp. eapply skipWhile_range; eassumption. Qed.

Lemma caretFree_startsWith line pat i :
  startsWith line pat i = true -> forallb notCaret pat = true ->
  caretFree line i (i + length pat).
Proof.
  intros Hs Hq k c Hk Hc.
  destruct (nth_error pat (k - i)) as [x|] eqn:Hx.
  - pose proof (startsWith_charAt _ _ _ _ _ Hs Hx) as Hc'.
    replace (i + (k - i)) with k in Hc' by lia.
    rewrite forallb_forall in Hq. apply Hq. apply nth_error_In in Hx. congruence.
  - apply nth_error_None in Hx. lia.
Qed.

Lemma caretFree_optIs line j x :
  optIs (charAt line j) x = true -> notCaret x = true -> caretFree line j (j + 1).
Proof.
  intros H Hq k c Hk Hc. apply optIs_true in H. replace k with j in Hc by lia. congruence.
Qed.

Lemma space_notCaret c : isSpace c = true -> notCaret c = true.
Proof.
  destruct c as [[] [] [] [] [] [] [] []]; intros H; try discriminate H; reflexivity.
Qed.

Lemma word_notCaret c : isWordChar c = true -> notCaret c = true.
Proof.
  destruct c as [[] [] [] [] [] [] [] []]; intros H; try discriminate H; reflexivity.
Qed.

Lemma caretFree_optional_at line j :
  caretFree line j (if optIs (charAt line j) "@"%char then j + 1 else j).
Proof.
  destruct (optIs (charAt line j) "@"%char) eqn:H.
  - eapply caretFree_optIs; [exact H | reflexivity].
  - apply caretFree_empty. lia.
Qed.

Lemma ifParenIndex_caretFree line i (isIf : bool) j :
  startsWith line (str (if isIf then "@If" else "@Else")%string) i = true ->
  ifParenIndex line i isIf = Some j ->
  caretFree line i (j + 1).
Proof.
  intros Hs. unfold ifParenIndex.
  set (j0 := if isIf then i + 3 else i + 5).
  set (j1 := skipWhile isSpace line j0).
  set (j2 := if negb isIf && startsWith line (str "If") j1 then j1 + 2 else j1).
  set (j3 := skipWhile isSpace line j2).
  set (j4 := if optIs (charAt line j3) "@"%char then j3 + 1 else j3).
  set (j5 := skipWhile isSpace line j4).
  destruct (optIs (charAt line j5) "("%char) eqn:Hp; [|discriminate].
  intros E. inversion E; subst j. clear E.
  assert (H0 : caretFree line i j0).
  { unfold j0. destruct isIf.
    - apply (caretFree_startsWith line (str "@If") i Hs). reflexivity.
    - apply (caretFree_startsWith line (str "@Else") i Hs). reflexivity. }
  assert (H1 : caretFree line j0 j1) by apply caretFree_skipWhile, space_notCaret.
  assert (H2 : caretFree line j1 j2).
  { unfold j2. destruct (negb isIf && startsWith line (str "If") j1) eqn:Hif.
    - apply andb_true_iff in Hif. destruct Hif as [_ Hif].
      apply (caretFree_startsWith line (str "If") j1 Hif). reflexivity.
    - apply caretFree_empty; lia. }
  assert (H3 : caretFree line j2 j3) by apply caretFree_skipWhile, space_notCaret.
  assert (H4 : caretFree line j3 j4) by apply caretFree_optional_at.
  assert (H5 : caretFree line j4 j5) by apply caretFree_skipWhile, space_notCaret.
  assert (H6 : caretFree line j5 (j5 + 1)).
  { eapply caretFree_optIs; [exact Hp | reflexivity]. }
  apply (caretFree_trans _ _ j0); [exact H0|].
  apply (caretFree_trans _ _ j1); [exact H1|].
  apply (caretFree_trans _ _ j2); [exact H2|].
  apply (caretFree_trans _ _ j3); [exact H3|].
  apply (caretFree_trans _ _ j4); [exact H4|].
  apply (caretFree_trans _ _ j5); [exact H5|].
  exact H6.
Qed.

(** The text of a match of the Map pattern holds no caret. *)
Lemma mapNameAt_caretFree s len :
  TokenRe.mapNameAt s = Some len ->
  exists pat, prefixBy eqc pat s = true /\ length pat = len /\ forallb notCaret pat = true.
Proof.
  unfold TokenRe.mapNameAt.
  destruct (Re.lit eqc (str "@Map.") s) as [r|] eqn:H0; [|discriminate].
  apply lit_eqc_app in H0.
  assert (Hkw : forall kw r1,
             r = str kw ++ r1 -> forallb notCaret (str kw) = true ->
             exists pat, prefixBy eqc pat s = true
               /\ length pat
                  = length s - length r1
                    + match r1 with
                      | c :: _ => if eqc c "@"%char then 1 else 0
                      | [] => 0
                      end
               /\ forallb notCaret pat = true).
  { intros kw r1 Hr Hq. subst r. subst s.
    assert (Hlen : length (str "@Map." ++ str kw ++ r1) - length r1
                   = length (str "@Map." ++ str kw)).
    { rewrite !length_app. lia. }
    rewrite Hlen.
    destruct r1 as [|c r1'].
    - exists (str "@Map." ++ str kw). repeat split.
      + apply prefixBy_eqc_iff. exists []. rewrite <- app_assoc. reflexivity.
      + lia.
      + rewrite forallb_app, Hq. reflexivity.
    - destruct (eqc c "@"%char) eqn:Hc.
      + apply eqc_true in Hc. subst c.
        exists ((str "@Map." ++ str kw) ++ ["@"%char]). repeat split.
        * apply prefixBy_eqc_iff. exists r1'. rewrite <- !app_assoc. reflexivity.
        * rewrite length_app. simpl. lia.
        * rewrite !forallb_app, Hq. reflexivity.
      + exists (str "@Map." ++ str kw). repeat split.
        * apply prefixBy_eqc_iff. exists (c :: r1'). rewrite <- app_assoc. reflexivity.
        * lia.
        * rewrite forallb_app, Hq. reflexivity. }
  destruct (Re.lit eqc (str "Get") r) as [r1|] eqn:H1.
  { apply lit_eqc_app in H1. intros E. inversion E; subst len.
    destruct (Hkw "Get"%string r1 H1 eq_refl) as (pat & P1 & P2 & P3).
    exists pat. rewrite <- P2. auto. }
  destruct (Re.lit eqc (str "Set") r) as [r2|] eqn:H2.
  { apply lit_eqc_app in H2. intros E. inversion E; subst len.
    destruct (Hkw "Set"%string r2 H2 eq_refl) as (pat & P1 & P2 & P3).
    exists pat. rewrite <- P2. auto. }
  destruct (Re.lit eqc (str "Clear") r) as [r3|] eqn:H3; [|discriminate].
  apply lit_eqc_app in H3. intros E. inversion E; subst len.
  destruct (Hkw "Clear"%string r3 H3 eq_refl) as (pat & P1 & P2 & P3).
  exists pat. rewrite <- P2. auto.
Qed.

Lemma mapCall_caretFree line lineNo i tok j :
  mapCall line lineNo i = Some (tok, j) -> caretFree line i (j + 1).
Proof.
  unfold mapCall.
  destruct (TokenRe.mapNameAt (sliceFrom line i)) as [len|] eqn:Hm; [|discriminate].
  apply mapNameAt_caretFree in Hm. destruct Hm as (pat & Hp & Hl & Hq).
  set (j1 := skipWhile isSpace line (i + len)).
  set (j2 := if optIs (charAt line j1) "@"%char then j1 + 1 else j1).
  destruct (optIs (charAt line j2) "("%char) eqn:Hparen; [|discriminate].
  intros E. inversion E; subst. clear E.
  assert (H0 : caretFree line i (i + length pat)).
  { apply caretFree_startsWith; [exact Hp | exact Hq]. }
  assert (H1 : caretFree line (i + length pat) j1)
    by apply caretFree_skipWhile, space_notCaret.
  assert (H2 : caretFree line j1 j2) by apply caretFree_optional_at.
  assert (H3 : caretFree line j2 (j2 + 1)).
  { eapply caretFree_optIs; [exact Hparen | reflexivity]. }
  apply (caretFree_trans _ _ (i + length pat)); [exact H0|].
  apply (caretFree_trans _ _ j1); [exact H1|].
  apply (caretFree_trans _ _ j2); [exact H2|].
  exact H3.
Qed.

Lemma atNameRe_word s name :
  TokenRe.atNameRe s = Some name ->
  prefixBy eqc ("@"%char :: name) s = true /\ forallb isWordChar name = true.
Proof.
  unfold TokenRe.atNameRe. destruct s as [|c r]; [discriminate|].
  destruct (eqc c "@"%char) eqn:Hc; [|discriminate]. apply eqc_true in Hc. subst c.
  unfold Re.ident. destruct r as [|x r]; [discriminate|].
  destruct (isIdentStart x) eqn:Hx; [|discriminate].
  intros E. inversion E; subst name. clear E. split.
  - apply prefixBy_eqc_iff. exists (dropWhile isWordChar r).
    simpl. rewrite takeWhile_dropWhile. reflexivity.
  - cbn [forallb]. apply andb_true_iff. split.
    + unfold isWordChar. rewrite Hx. reflexivity.
    + apply takeWhile_all.
Qed.

Lemma genericCall_caretFree line lineNo i ch tok k j :
  genericCall line lineNo i ch = Some (tok, k, j) -> caretFree line i (j + 1).
Proof.
  unfold genericCall. destruct (eqc ch "@"%char); [|discriminate].
  destruct (TokenRe.atNameRe (sliceFrom line i)) as [name|] eqn:Hn; [|discriminate].
  apply atNameRe_word in Hn. destruct Hn as [Hp Hq].
  destruct (bool_decide (name = str "Map") && optIs _ "."%char); [discriminate|].
  destruct (has AT_CONTROL_WORDS name); [discriminate|].
  destruct (has WRITER_KEYWORDS name); [discriminate|].
  destruct (getCallParenIndex line i (length name)) as [parenIdx|] eqn:Hg; [|discriminate].
  intros E. inversion E; subst. clear E.
  unfold getCallParenIndex in Hg.
  set (j0 := i + 1 + length name) in *.
  set (j1 := if (j0 <? length line) && optIs (charAt line j0) "@"%char then j0 + 1 else j0) in *.
  set (j2 := skipWhile isSpace line j1) in *.
  destruct ((j2 <? length line) && optIs (charAt line j2) "("%char) eqn:Hparen; [|discriminate].
  inversion Hg; subst j. clear Hg.
  apply andb_true_iff in Hparen. destruct Hparen as [_ Hparen].
  assert (H0 : caretFree line i j0).
  { replace j0 with (i + length ("@"%char :: name)) by (unfold j0; simpl; lia).
    apply caretFree_startsWith; [exact Hp|]. cbn [forallb].
    rewrite (forallb_impl isWordChar notCaret name word_notCaret Hq). reflexivity. }
  assert (H1 : caretFree line j0 j1).
  { unfold j1. destruct ((j0 <? length line) && optIs (charAt line j0) "@"%char) eqn:Ha.
    - apply andb_true_iff in Ha. destruct Ha as [_ Ha].
      eapply caretFree_optIs; [exact Ha | reflexivity].
    - apply caretFree_empty; lia. }
  assert (H2 : caretFree line j1 j2) by apply caretFree_skipWhile, space_notCaret.
  assert (H3 : caretFree line j2 (j2 + 1)).
  { eapply caretFree_optIs; [exact Hparen | reflexivity]. }
  apply (caretFree_trans _ _ j0); [exact H0|].
  apply (caretFree_trans _ _ j1); [exact H1|].
  apply (caretFree_trans _ _ j2); [exact H2|].
  exact H3.
Qed.

Lemma logicToken_caretFree line lineNo i ch tok skip :
  logicToken line lineNo i ch = Some (tok, skip) ->
  caretFree line (i + 1) (i + skip + 1).
Proof.
  unfold logicToken.
  assert (Hlit : forall pat, startsWith line pat i = true -> forallb notCaret pat = true ->
                   0 < length pat ->
                   caretFree line (i + 1) (i + (length pat - 1) + 1)).
  { intros pat Hs Hq Hpos.
    eapply caretFree_sub; [| |apply (caretFree_startsWith _ _ _ Hs Hq)]; lia. }
  destruct (startsWith line (str "And") i && isWordBoundary line i 3) eqn:Hand.
  { intros E. inversion E; subst. apply andb_true_iff in Hand. destruct Hand as [Hs _].
    apply (Hlit (str "And") Hs eq_refl). cbn. lia. }
  destruct (startsWith line (str "Or") i && isWordBoundary line i 2) eqn:Hor.
  { intros E. inversion E; subst. apply andb_true_iff in Hor. destruct Hor as [Hs _].
    apply (Hlit (str "Or") Hs eq_refl). cbn. lia. }
  destruct (startsWith line (str ">=") i) eqn:Hge.
  { intros E. inversion E; subst. apply (Hlit (str ">=") Hge eq_refl). cbn. lia. }
  destruct (startsWith line (str "<=") i) eqn:Hle.
  { intros E. inversion E; subst. apply (Hlit (str "<=") Hle eq_refl). cbn. lia. }
  destruct (startsWith line (str "<>") i) eqn:Hne.
  { intros E. inversion E; subst. apply (Hlit (str "<>") Hne eq_refl). cbn. lia. }
  cbn [orb].
  destruct (eqc ch "="%char || eqc ch ">"%char || eqc ch "<"%char); [|discriminate].
  intros E. inversion E; subst. apply caretFree_empty. lia.
Qed.

(** One round of the scan: a data or class reference at the index gets its
    span, and the round jumps over no caret. *)
Lemma scanAt_caret line lineNo i ch st :
  charAt line i = Some ch -> inSingleQuote st = false ->
  (startsWith line (str "^Data") i = true ->
   In (dataSpan lineNo i 5) (fst (fst (scanAt line lineNo i ch st))))
  /\ (startsWith line (str "^Class") i = true ->
      In (dataSpan lineNo i 6) (fst (fst (scanAt line lineNo i ch st))))
  /\ caretFree line (i + 1) (snd (fst (scanAt line lineNo i ch st)) + 1).
Proof.
  intros Hch Hq.
  assert (Hhead : forall pat, startsWith line ("^"%char :: pat) i = true -> ch = "^"%char).
  { intros pat Hs.
    pose proof (startsWith_charAt line ("^"%char :: pat) i 0 "^"%char Hs eq_refl) as Hc.
    rewrite Nat.add_0_r in Hc. congruence. }
  unfold scanAt.
  destruct (eqc ch "^"%char && startsWith line (str "^Data") i) eqn:B1.
  { cbn [fst snd]. split; [|split; [|apply caretFree_empty; lia]].
    - intros _. apply in_or_app. right. left. reflexivity.
    - intros Hs. exfalso. apply andb_true_iff in B1. destruct B1 as [_ B1].
      pose proof (startsWith_charAt line (str "^Data") i 1 "D"%char B1 eq_refl) as H1.
      pose proof (startsWith_charAt line (str "^Class") i 1 "C"%char Hs eq_refl) as H2.
      congruence. }
  destruct (eqc ch "^"%char && startsWith line (str "^Class") i) eqn:B2.
  { cbn [fst snd]. split; [|split; [|apply caretFree_empty; lia]].
    - intros Hs. exfalso. rewrite (Hhead _ Hs), Hs in B1. discriminate.
    - intros _. apply in_or_app. right. left. reflexivity. }
  assert (Hno1 : startsWith line (str "^Data") i = true -> False).
  { intros Hs. rewrite (Hhead _ Hs), Hs in B1. discriminate. }
  assert (Hno2 : startsWith line (str "^Class") i = true -> False).
  { intros Hs. rewrite (Hhead _ Hs), Hs in B2. discriminate. }
  split; [intros Hs; exfalso; exact (Hno1 Hs)|].
  split; [intros Hs; exfalso; exact (Hno2 Hs)|].
  rewrite Hq.
  destruct (eqc ch "^"%char
            && (startsWith line (str "^Data") i || startsWith line (str "^Class") i)) eqn:B3.
  { exfalso. destruct (eqc ch "^"%char); [|discriminate].
    cbn [andb] in *. rewrite B1, B2 in B3. discriminate. }
  destruct (isIfAt line i || isElseIfAt line i) eqn:B4.
  { destruct (ifParenIndex line i (isIfAt line i)) as [j|] eqn:Hj; cbn [fst snd];
      [|apply caretFree_empty; lia].
    assert (Hs : startsWith line (str (if isIfAt line i then "@If" else "@Else")%string) i
                 = true).
    { destruct (isIfAt line i) eqn:Hif.
      - unfold isIfAt in Hif. apply andb_true_iff in Hif. apply Hif.
      - cbn [orb] in B4. unfold isElseIfAt in B4.
        apply andb_true_iff in B4. destruct B4 as [B4 _].
        apply andb_true_iff in B4. apply B4. }
    eapply caretFree_sub; [| |apply (ifParenIndex_caretFree _ _ _ _ Hs Hj)]; lia. }
  destruct (leavesIfMode line i st); [cbn [fst snd]; apply caretFree_empty; lia|].
  destruct (if ifMode st || (0 <? ifParenDepth st) then logicToken line lineNo i ch else None)
    as [[tok skip]|] eqn:B5.
  { cbn [fst snd]. destruct (ifMode st || (0 <? ifParenDepth st)); [|discriminate].
    eapply logicToken_caretFree. exact B5. }
  destruct (mapCall line lineNo i) as [[tok j]|] eqn:B6.
  { cbn [fst snd]. eapply caretFree_sub; [| |apply (mapCall_caretFree _ _ _ _ _ B6)]; lia. }
  destruct (genericCall line lineNo i ch) as [[[tok k] j]|] eqn:B7.
  { cbn [fst snd].
    eapply caretFree_sub; [| |apply (genericCall_caretFree _ _ _ _ _ _ _ B7)]; lia. }
  cbn [fst snd]. apply caretFree_empty. lia.
Qed.

(** Every data or class reference at or after [i] gets its span in the
    loop started at [i]. *)
Lemma scanLoop_caret line lineNo fuel : forall i st k kw,
  inSingleQuote st = false ->
  length line - i <= fuel ->
  i <= k ->
  kw = str "^Data" \/ kw = str "^Class" ->
  startsWith line kw k = true ->
  In (dataSpan lineNo k (length kw)) (scanLoop fuel line lineNo i st).
Proof.
  induction fuel as [|fuel IH]; intros i st k kw Hq Hfuel Hik Hkw Hs.
  - assert (Hk : charAt line k = Some "^"%char).
    { rewrite <- (Nat.add_0_r k).
      destruct Hkw as [-> | ->]; eapply startsWith_charAt; try exact Hs; reflexivity. }
    apply charAt_lt in Hk. lia.
  - assert (Hk : charAt line k = Some "^"%char).
    { rewrite <- (Nat.add_0_r k).
      destruct Hkw as [-> | ->]; eapply startsWith_charAt; try exact Hs; reflexivity. }
    destruct (charAt line i) as [c0|] eqn:Hc0.
    2: { apply nth_error_None in Hc0. apply charAt_lt in Hk. lia. }
    rewrite (scanLoop_unfold _ _ _ _ _ _ Hc0).
    destruct (scanAt_spec line lineNo i c0 st Hc0 Hq) as (Hle & Hq' & _ & _).
    destruct (scanAt_caret line lineNo i c0 st Hc0 Hq) as (Hdata & Hclass & Hjump).
    apply in_or_app. destruct (Nat.eq_dec k i) as [-> | Hne].
    + left. destruct Hkw as [-> | ->]; [apply Hdata | apply Hclass]; exact Hs.
    + right.
      destruct (Nat.le_gt_cases k (snd (fst (scanAt line lineNo i c0 st)))) as [Hin | Hout].
      * exfalso. specialize (Hjump k "^"%char ltac:(lia) Hk). discriminate Hjump.
      * apply (IH _ _ k kw);
          [exact Hq' | apply charAt_lt in Hc0; lia | lia | exact Hkw | exact Hs].
Qed.

(** X21.  Every [^Data] and every [^Class] of a line gets an [ablData]
    span of five, respectively six, characters at its column, wherever it
    stands on the line: in a condition, in the arguments of a call or in a
    quoted literal. *)
Theorem data_and_class_always_highlighted (doc : TextDocument) (lineNo i : nat) :
  lineNo < lineCount doc ->
  (startsWith (lineAt doc lineNo) (str "^Data") i = true ->
   In (dataSpan lineNo i 5) (provideTokens doc))
  /\ (startsWith (lineAt doc lineNo) (str "^Class") i = true ->
      In (dataSpan lineNo i 6) (provideTokens doc)).
Proof.
  intros Hline.
  assert (Hgen : forall kw, kw = str "^Data" \/ kw = str "^Class" ->
            startsWith (lineAt doc lineNo) kw i = true ->
            In (dataSpan lineNo i (length kw)) (provideTokens doc)).
  { intros kw Hkw Hs. unfold provideTokens. apply in_flat_map.
    exists lineNo. split; [apply in_seq; lia|].
    unfold lineTokens. apply in_or_app. right. unfold scanLine.
    apply (scanLoop_caret _ _ _ 0 initialLineState i kw); auto; lia. }
  split; intros Hs.
  - apply (Hgen (str "^Data")); [left; reflexivity | exact Hs].
  - apply (Hgen (str "^Class")); [right; reflexivity | exact Hs].
Qed.

(** The reference inside the quoted literal of [@Set x = '^Data.Name']
    gets its span. *)
Lemma data_and_class_always_highlighted_witness :
  startsWith (lineAt (abl [str "@Set x = '^Data.Name'"]) 0) (str "^Data") 10 = true
  /\ In (dataSpan 0 10 5) (provideTokens (abl [str "@Set x = '^Data.Name'"])).
Proof.
  assert (Hline : 0 < lineCount (abl [str "@Set x = '^Data.Name'"])) by (vm_compute; lia).
  assert (Hs : startsWith (lineAt (abl [str "@Set x = '^Data.Name'"]) 0) (str "^Data") 10
               = true) by (vm_compute; reflexivity).
  split; [exact Hs|].
  exact (proj1 (data_and_class_always_highlighted
                  (abl [str "@Set x = '^Data.Name'"]) 0 10 Hline) Hs).
Defined.

(* ================================================================== *)
(** * Quoted literals and the mask *)
(* ================================================================== *)

(** Two configurations the automaton reaches lie on one path. *)
Lemma qreach_linear e c0 c1 c2 :
  qreach e c0 c1 -> qreach e c0 c2 -> qreach e c1 c2 \/ qreach e c2 c1.
Proof.
  intros H1 H2. induction H2 as [|c c2 H2 IH Hs].
  - right. exact H1.
  - destruct IH as [IH|IH].
    + left. eapply qr_step; eassumption.
    + apply qreach_first in IH. destruct IH as [->|(c' & Hs' & Hr)].
      * left. eapply qr_step; [apply qr_here | exact Hs].
      * right. rewrite (qstep_deterministic _ _ _ _ Hs Hs'). exact Hr.
Qed.

Lemma qreach_same_index e c1 c2 :
  qreach e c1 c2 -> fst (fst c1) = fst (fst c2) -> c1 = c2.
Proof.
  intros Hr Hi. apply qreach_first in Hr. destruct Hr as [->|(c' & Hs & Hr)]; [reflexivity|].
  exfalso. apply qreach_index in Hr. apply qstep_qnext in Hs.
  destruct c1 as [[i q] d], c' as [[j q'] d']. apply qnext_index in Hs.
  simpl in *. lia.
Qed.

(** At one column the automaton is in one state. *)
Lemma qreach_state e c0 i q d q' d' :
  qreach e c0 (i, q, d) -> qreach e c0 (i, q', d') -> q = q' /\ d = d'.
Proof.
  intros H1 H2. destruct (qreach_linear _ _ _ _ H1 H2) as [H|H];
    apply qreach_same_index in H; try reflexivity; inversion H; auto.
Qed.

Lemma qreach_snoc e c0 c1 c2 :
  qreach e c0 c1 -> qnext e c1 = Some c2 -> qreach e c0 c2.
Proof. intros H Hn. eapply qr_step; [exact H | apply qstep_qnext; exact Hn]. Qed.

Lemma charAt_after (line : text) i k : charAt (skipn i line) k = charAt line (i + k).
Proof. unfold charAt. apply nth_error_skipn. Qed.

(** The mask, column by column: a character that is shown lies outside the
    quoted literals and is the character of the line, and a column outside
    the quoted literals shows the character of the line. *)
Lemma stripSingleQuoted2From_columns line : forall rest i q d,
  skipn i line = rest ->
  qreach line (0, false, 0) (i, q, d) ->
  forall k,
    (forall c, charAt (stripSingleQuoted2From q rest) k = Some c -> c <> space ->
               outsideQuotes line (i + k) /\ charAt line (i + k) = Some c)
    /\ (outsideQuotes line (i + k) ->
        charAt (stripSingleQuoted2From q rest) k = charAt line (i + k)).
Proof.
  intros rest. induction rest as [rest IH] using (induction_ltof1 _ (@length ascii)).
  unfold ltof in IH. intros i q d Hrest Hr k.
  destruct rest as [|ch rest1].
  { cbn [stripSingleQuoted2From]. split.
    - intros c H. destruct k; discriminate H.
    - intros _. rewrite <- charAt_after, Hrest. reflexivity. }
  destruct (skipn_cons_charAt _ _ _ _ Hrest) as [Hch Hrest1].
  cbn [stripSingleQuoted2From].
  destruct (eqc ch quote) eqn:Hq.
  - apply eqc_true in Hq. subst ch.
    destruct rest1 as [|next rest2].
    + (* a quote at the end of the line *)
      destruct k as [|k].
      * split; [intros c H; inversion H; subst; congruence|].
        intros [_ Hn]. rewrite Nat.add_0_r in Hn. congruence.
      * split.
        -- intros c H. destruct k; discriminate H.
        -- intros _. cbn. rewrite <- charAt_after, Hrest. destruct k; reflexivity.
    + destruct (skipn_cons_charAt _ _ _ _ Hrest1) as [Hnext Hrest2].
      destruct (eqc next quote) eqn:Hq2.
      * apply eqc_true in Hq2. subst next.
        assert (Hn : qnext line (i, q, d) = Some (i + 2, q, d)).
        { unfold qnext. rewrite Hch, eqc_refl, Hnext. reflexivity. }
        pose proof (qreach_snoc _ _ _ _ Hr Hn) as Hr2.
        destruct k as [|[|k]].
        -- split; [intros c H; inversion H; subst; congruence|].
           intros [_ Hx]. rewrite Nat.add_0_r in Hx. congruence.
        -- split; [intros c H; inversion H; subst; congruence|].
           intros [_ Hx]. congruence.
        -- replace (i + S (S k)) with (i + 2 + k) by lia.
           replace (i + 1 + 1) with (i + 2) in Hrest2 by lia.
           apply (IH rest2 ltac:(simpl; lia) (i + 2) q d Hrest2 Hr2 k).
      * assert (Hn : qnext line (i, q, d) = Some (i + 1, negb q, d)).
        { unfold qnext. rewrite Hch, eqc_refl, Hnext. cbn [optIs]. rewrite Hq2. reflexivity. }
        pose proof (qreach_snoc _ _ _ _ Hr Hn) as Hr2.
        destruct k as [|k].
        -- split; [intros c H; inversion H; subst; congruence|].
           intros [_ Hx]. rewrite Nat.add_0_r in Hx. congruence.
        -- replace (i + S k) with (i + 1 + k) by lia.
           apply (IH (next :: rest2) ltac:(simpl; lia) (i + 1) (negb q) d Hrest1 Hr2 k).
  - assert (Hne : ch <> quote) by (intros E; subst ch; rewrite eqc_refl in Hq; discriminate).
    assert (Hn : exists d', qnext line (i, q, d) = Some (i + 1, q, d')).
    { unfold qnext. rewrite Hch, Hq. destruct q; [eauto|].
      destruct (eqc ch "("%char); [eauto|]. destruct (eqc ch ")"%char); eauto. }
    destruct Hn as [d' Hn]. pose proof (qreach_snoc _ _ _ _ Hr Hn) as Hr2.
    destruct k as [|k].
    + rewrite Nat.add_0_r. split.
      * intros c H Hc. destruct q; inversion H; subst; [congruence|].
        split; [|exact Hch]. split; [eauto | congruence].
      * intros [[d0 Hr0] _]. destruct (qreach_state _ _ _ _ _ _ _ Hr Hr0) as [-> _].
        cbn. symmetry. exact Hch.
    + replace (i + S k) with (i + 1 + k) by lia.
      apply (IH rest1 ltac:(simpl; lia) (i + 1) q d' Hrest1 Hr2 k).
Qed.

Lemma mask_shows line k c :
  charAt (stripSingleQuoted2 line) k = Some c -> c <> space ->
  outsideQuotes line k /\ charAt line k = Some c.
Proof.
  intros H Hc.
  exact (proj1 (stripSingleQuoted2From_columns line line 0 false 0 eq_refl
                  (qr_here _ _) k) c H Hc).
Qed.


(* ================================================================== *)
(** * Uses of a variable, in the text and in the validator *)
(* ================================================================== *)

Lemma blanks_forallb ws : blanks ws <-> forallb isSpace ws = true.
Proof.
  unfold blanks. rewrite forallb_forall, List.Forall_forall. reflexivity.
Qed.





(** The end of a word, as the text that follows it. *)
Lemma wordEnd_iff (r : text) :
  Re.wordEnd r = true <-> forall ch, charAt r 0 = Some ch -> isWordChar ch = false.
Proof.
  destruct r as [|c r]; cbn.
  - split; [intros _ ch H; discriminate | reflexivity].
  - rewrite negb_true_iff. split.
    + intros H ch E. inversion E; subst. exact H.
    + intros H. apply H. reflexivity.
Qed.


Lemma spaces0_skip ws (r : text) :
  blanks ws -> (forall ch, charAt r 0 = Some ch -> isSpace ch = false) ->
  Re.spaces0 (ws ++ r) = r.
Proof.
  intros Hws Hr. unfold Re.spaces0.
  rewrite dropWhile_app_all by (apply blanks_forallb; exact Hws).
  apply dropWhile_fixed. destruct r as [|c r]; [exact I|]. apply Hr. reflexivity.
Qed.

Lemma spaces1_skip ws (r : text) :
  blanks ws -> ws <> [] -> (forall ch, charAt r 0 = Some ch -> isSpace ch = false) ->
  Re.spaces1 (ws ++ r) = Some r.
Proof.
  intros Hws Hne Hr. destruct ws as [|w ws]; [congruence|].
  inversion Hws; subst. cbn [app Re.spaces1]. rewrite H1. f_equal.
  apply (spaces0_skip ws r); assumption.
Qed.










Lemma spaces1_blanks r r1 :
  Re.spaces1 r = Some r1 ->
  exists ws, r = ws ++ r1 /\ forallb isSpace ws = true /\ ws <> [].
Proof.
  unfold Re.spaces1. destruct r as [|c r']; [discriminate|].
  destruct (isSpace c) eqn:Hc; [|discriminate]. intros E. inversion E.
  exists (c :: takeWhile isSpace r'). split; [|split].
  - simpl. rewrite takeWhile_dropWhile. reflexivity.
  - cbn [forallb]. rewrite Hc. apply takeWhile_all.
  - discriminate.
Qed.

Lemma spaces0_blanks r : exists ws, r = ws ++ Re.spaces0 r /\ forallb isSpace ws = true.
Proof.
  exists (takeWhile isSpace r). split.
  - symmetry. apply takeWhile_dropWhile.
  - apply takeWhile_all.
Qed.













(** A diagnostic of the validator lies on a line on which uses are
    checked, is about a name, and marks a range that reads the name outside
    the quoted literals of the line. *)
Lemma undeclared_diagnostic_shape doc d :
  In d (varDiagnostics (varWalk doc (lineCount doc))) ->
  d_line d < lineCount doc
  /\ isUseLine doc (d_line d) = true
  /\ exists name,
       aboutName name d
       /\ name <> []
       /\ d_end d = d_start d + length name
       /\ startsWith (lineAt doc (d_line d)) name (d_start d) = true
       /\ plainSpan (lineAt doc (d_line d)) (d_start d) (d_end d).
Proof.
  intros Hin.
  apply varDiagnostics_In in Hin. destruct Hin as (l & Hl & Hin).
  apply lineUseDiagnostics_In in Hin. destruct Hin as (Huse & [name start] & Hu & _ & ->).
  unfold aboutName, undeclaredDiagnostic. cbn [d_line d_start d_end d_message fst snd].
  split; [exact Hl|]. split; [exact Huse|].
  apply usesOf_holds_name in Hu. destruct Hu as (Hs & Hne & Hw).
  exists name. split.
  { destruct (scopeOf doc l =? -1)%Z; [left | right]; reflexivity. }
  split; [exact Hne|]. split; [reflexivity|]. split.
  - eapply mask_reveals; [apply stripSingleQuoted2From_mask | exact Hw | exact Hs].
  - intros k Hk.
    destruct (nth_error name (k - start)) as [ch|] eqn:Hch.
    2:{ apply nth_error_None in Hch. lia. }
    pose proof (startsWith_charAt _ _ _ _ _ Hs Hch) as Hc.
    replace (start + (k - start)) with k in Hc by lia.
    assert (Hword : isWordChar ch = true).
    { rewrite forallb_forall in Hw. apply Hw. eapply nth_error_In. exact Hch. }
    exact (proj1 (mask_shows _ _ _ Hc (word_not_space _ Hword))).
Qed.




(** X9.  Every undeclared-variable diagnostic lies on a line of the
    document on which uses are checked, is about a name used there, and
    marks a range of that line that reads exactly that name and lies
    outside the quoted literals of the line. *)
Theorem undeclared_diagnostics_mark_names (doc : TextDocument) (ds : list Diagnostic) :
  provideUndeclaredVarDiagnostics doc = Some ds ->
  forall d, In d ds ->
    d_line d < lineCount doc
    /\ isUseLine doc (d_line d) = true
    /\ exists name,
         aboutName name d
         /\ name <> []
         /\ d_end d = d_start d + length name
         /\ startsWith (lineAt doc (d_line d)) name (d_start d) = true
         /\ plainSpan (lineAt doc (d_line d)) (d_start d) (d_end d).
Proof.
  unfold provideUndeclaredVarDiagnostics. destruct (negb (isAbl doc)); [discriminate|].
  intros E d Hin. inversion E; subst ds. clear E.
  apply undeclared_diagnostic_shape. exact Hin.
Qed.

(** A quoted [@Set] is not a use; the use after the literal is marked at
    its name. *)
Lemma undeclared_diagnostics_mark_names_witness :
  provideUndeclaredVarDiagnostics (abl [str "'@Set a' @Set total"])
  = Some [undeclaredDiagnostic 0 (-1)%Z (str "total", 14)]
  /\ d_line (undeclaredDiagnostic 0 (-1)%Z (str "total", 14)) < 1
  /\ isUseLine (abl [str "'@Set a' @Set total"])
       (d_line (undeclaredDiagnostic 0 (-1)%Z (str "total", 14))) = true
  /\ exists name,
       aboutName name (undeclaredDiagnostic 0 (-1)%Z (str "total", 14))
       /\ name <> []
       /\ d_end (undeclaredDiagnostic 0 (-1)%Z (str "total", 14))
          = d_start (undeclaredDiagnostic 0 (-1)%Z (str "total", 14)) + length name
       /\ startsWith (lineAt (abl [str "'@Set a' @Set total"])
                        (d_line (undeclaredDiagnostic 0 (-1)%Z (str "total", 14))))
            name (d_start (undeclaredDiagnostic 0 (-1)%Z (str "total", 14)))
          = true
       /\ plainSpan (lineAt (abl [str "'@Set a' @Set total"])
                       (d_line (undeclaredDiagnostic 0 (-1)%Z (str "total", 14))))
            (d_start (undeclaredDiagnostic 0 (-1)%Z (str "total", 14)))
            (d_end (undeclaredDiagnostic 0 (-1)%Z (str "total", 14))).
Proof.
  split; [reflexivity|].
  apply (undeclared_diagnostics_mark_names (abl [str "'@Set a' @Set total"])
           [undeclaredDiagnostic 0 (-1)%Z (str "total", 14)]).
  - reflexivity.
  - left. reflexivity.
Defined.

(* ================================================================== *)
(** * Keywords, in the text and in the patterns *)
(* ================================================================== *)

Lemma lit_eqci_iff pat : forall s r,
  Re.lit eqci pat s = Some r <-> exists w, s = w ++ r /\ sameLetters w pat.
Proof.
  unfold sameLetters. induction pat as [|p pat IH]; intros s r; cbn [Re.lit].
  - split.
    + intros E. inversion E. exists []. split; reflexivity.
    + intros (w & -> & Hw). destruct w; [reflexivity | discriminate Hw].
  - destruct s as [|c s].
    + split; [discriminate|]. intros (w & Hs & Hw).
      destruct w; [discriminate Hw | discriminate Hs].
    + destruct (eqci p c) eqn:Hc.
      * rewrite IH. unfold eqci in Hc. apply Ascii.eqb_eq in Hc. split.
        -- intros (w & -> & Hw). exists (c :: w). split; [reflexivity|].
           cbn [map]. congruence.
        -- intros (w & Hs & Hw). destruct w as [|x w]; [discriminate Hw|].
           cbn [map app] in *. inversion Hs; subst. inversion Hw.
           exists w. auto.
      * split; [discriminate|]. intros (w & Hs & Hw).
        destruct w as [|x w]; [discriminate Hw|].
        cbn [map app] in *. inversion Hs; subst. inversion Hw as [[Hx Hrest]].
        unfold eqci in Hc. rewrite Hx, Ascii.eqb_refl in Hc. discriminate Hc.
Qed.

Lemma blank_upcase c : isSpace c = true -> upcase c = c.
Proof.
  destruct c as [[] [] [] [] [] [] [] []]; intros H; try discriminate H; reflexivity.
Qed.

(** A text that reads a keyword whose first character, in upper case, is
    no white space does not start with white space. *)
Lemma sameLetters_head (w : text) p kw (r : text) ch :
  sameLetters w (p :: kw) -> isSpace (upcase p) = false ->
  charAt (w ++ r) 0 = Some ch -> isSpace ch = false.
Proof.
  unfold sameLetters. intros Hw Hp H.
  destruct w as [|x w]; [discriminate Hw|]. cbn in H. inversion H; subst x.
  cbn [map] in Hw. inversion Hw as [[Hx _]].
  destruct (isSpace ch) eqn:Hs; [|reflexivity].
  rewrite (blank_upcase _ Hs) in Hx. congruence.
Qed.

Lemma spaces0_split t :
  exists ws, t = ws ++ Re.spaces0 t /\ blanks ws.
Proof.
  destruct (spaces0_blanks t) as (ws & H & Hws). exists ws.
  split; [exact H | apply blanks_forallb; exact Hws].
Qed.

Lemma spaces0_head t ch : charAt (Re.spaces0 t) 0 = Some ch -> isSpace ch = false.
Proof.
  unfold Re.spaces0. destruct (dropWhile isSpace t) as [|c r] eqn:E; [discriminate|].
  intros H. cbn in H. inversion H; subst. eapply dropWhile_head. exact E.
Qed.

(** [^\s*Kw\b] with the [i] flag, in words. *)
Lemma keywordRest_iff kw p kw' t :
  str kw = p :: kw' -> isSpace (upcase p) = false ->
  (Re.test (Re.keywordRest kw t) = true <-> opensWith (str kw) t).
Proof.
  intros Hkw Hp. unfold Re.keywordRest, opensWith. split.
  - destruct (Re.lit eqci (str kw) (Re.spaces0 t)) as [r|] eqn:Hl; [|discriminate].
    destruct (Re.wordEnd r) eqn:He; [|discriminate]. intros _.
    apply lit_eqci_iff in Hl. destruct Hl as (w & Hs & Hw).
    destruct (spaces0_split t) as (ws & Ht & Hws).
    exists ws, w, r. split; [rewrite <- Hs; exact Ht|].
    split; [exact Hws|]. split; [exact Hw|]. exact (proj1 (wordEnd_iff _) He).
  - intros (ws & w & rest & -> & Hws & Hw & He).
    rewrite spaces0_skip; [|exact Hws|].
    2:{ intros ch. rewrite Hkw in Hw. eapply sameLetters_head; eassumption. }
    replace (Re.lit eqci (str kw) (w ++ rest)) with (Some rest)
      by (symmetry; apply lit_eqci_iff; eauto).
    rewrite (proj2 (wordEnd_iff rest) He). reflexivity.
Qed.

(** [^\s*Kw1\s+Kw2\b] with the [i] flag, in words. *)
Lemma keyword2Rest_iff kw1 p1 kw1' kw2 p2 kw2' t :
  str kw1 = p1 :: kw1' -> isSpace (upcase p1) = false ->
  str kw2 = p2 :: kw2' -> isSpace (upcase p2) = false ->
  (Re.test (Re.keyword2Rest kw1 kw2 t) = true <-> opensWith2 (str kw1) (str kw2) t).
Proof.
  intros Hkw1 Hp1 Hkw2 Hp2. unfold Re.keyword2Rest, opensWith2. split.
  - destruct (Re.lit eqci (str kw1) (Re.spaces0 t)) as [r|] eqn:Hl; [|discriminate].
    destruct (Re.spaces1 r) as [r1|] eqn:Hs1; [|discriminate].
    destruct (Re.lit eqci (str kw2) r1) as [r2|] eqn:Hl2; [|discriminate].
    destruct (Re.wordEnd r2) eqn:He; [|discriminate]. intros _.
    apply lit_eqci_iff in Hl. destruct Hl as (w1 & Hs & Hw1).
    apply lit_eqci_iff in Hl2. destruct Hl2 as (w2 & Hs2 & Hw2).
    destruct (spaces0_split t) as (ws & Ht & Hws).
    apply spaces1_blanks in Hs1. destruct Hs1 as (gap & Hr & Hg & Hne).
    exists ws, w1, gap, w2, r2.
    split; [rewrite <- Hs2, <- Hr, <- Hs; exact Ht|].
    split; [exact Hws|]. split; [exact Hw1|].
    split; [apply blanks_forallb; exact Hg|].
    split; [exact Hne|].
    split; [exact Hw2|]. exact (proj1 (wordEnd_iff _) He).
  - intros (ws & w1 & gap & w2 & rest & -> & Hws & Hw1 & Hg & Hne & Hw2 & He).
    rewrite spaces0_skip; [|exact Hws|].
    2:{ intros ch. rewrite Hkw1 in Hw1. eapply sameLetters_head; eassumption. }
    replace (Re.lit eqci (str kw1) (w1 ++ gap ++ w2 ++ rest)) with (Some (gap ++ w2 ++ rest))
      by (symmetry; apply lit_eqci_iff; eauto).
    rewrite spaces1_skip; [|exact Hg|exact Hne|].
    2:{ intros ch. rewrite Hkw2 in Hw2. eapply sameLetters_head; eassumption. }
    replace (Re.lit eqci (str kw2) (w2 ++ rest)) with (Some rest)
      by (symmetry; apply lit_eqci_iff; eauto).
    rewrite (proj2 (wordEnd_iff rest) He). reflexivity.
Qed.

Lemma isIfLine_iff t :
  isIfLine t <-> Re.test (Re.ifRe t) = true \/ Re.test (Re.elseIfRe t) = true.
Proof.
  unfold isIfLine, Re.ifRe, Re.elseIfRe.
  rewrite (keywordRest_iff "@If" "@"%char (str "If") t eq_refl eq_refl).
  rewrite (keyword2Rest_iff "@Else" "@"%char (str "Else") "If" "I"%char (str "f") t
             eq_refl eq_refl eq_refl eq_refl).
  reflexivity.
Qed.

Lemma thenStartRe_iff t : Re.thenStartRe t = true <-> opensWith (str "@Then") t.
Proof.
  unfold Re.thenStartRe.
  exact (keywordRest_iff "@Then" "@"%char (str "Then") t eq_refl eq_refl).
Qed.

(** [/@Then\b/i] anywhere in the line, in words. *)
Lemma thenAnywhereRe_iff t : Re.thenAnywhereRe t = true <-> thenOnSameLine t.
Proof.
  unfold thenOnSameLine, holdsKeyword. split.
  - induction t as [|c t IH]; cbn [Re.thenAnywhereRe].
    + cbn. discriminate.
    + destruct (Re.lit eqci (str "@Then") (c :: t)) as [r|] eqn:Hl.
      * destruct (Re.wordEnd r) eqn:He.
        -- intros _. apply lit_eqci_iff in Hl. destruct Hl as (w & Hs & Hw).
           exists [], w, r. split; [exact Hs|]. split; [exact Hw|].
           exact (proj1 (wordEnd_iff _) He).
        -- intros H. destruct (IH H) as (pre & w & rest & -> & Hw & Hr).
           exists (c :: pre), w, rest. auto.
      * intros H. destruct (IH H) as (pre & w & rest & -> & Hw & Hr).
        exists (c :: pre), w, rest. auto.
  - intros (pre & w & rest & -> & Hw & He).
    apply thenAnywhereRe_app. unfold FormatRe.atThen.
    replace (Re.lit eqci (str "@Then") (w ++ rest)) with (Some rest)
      by (symmetry; apply lit_eqci_iff; eauto).
    exact (proj2 (wordEnd_iff _) He).
Qed.

Lemma isBlankLine_iff t : isBlankLine t = true <-> blankLine t.
Proof.
  unfold isBlankLine, blankLine, blanks, trim. split.
  - destruct (rev (dropWhile isSpace (rev (dropWhile isSpace t)))) as [|x xs] eqn:E;
      [|discriminate].
    intros _. apply (f_equal (@rev ascii)) in E. rewrite rev_involutive in E. cbn in E.
    apply dropWhile_nil_Forall in E.
    destruct (dropWhile isSpace t) as [|c r] eqn:Hd.
    + apply dropWhile_nil_Forall. exact Hd.
    + exfalso. pose proof (dropWhile_head _ _ _ _ Hd) as Hc.
      rewrite List.Forall_forall in E. specialize (E c).
      rewrite E in Hc; [discriminate|]. apply in_rev. rewrite rev_involutive. left. reflexivity.
  - intros H.
    replace (dropWhile isSpace t) with (@nil ascii); [reflexivity|].
    symmetry. rewrite <- (app_nil_r t).
    rewrite dropWhile_app_all by (apply blanks_forallb; exact H). reflexivity.
Qed.

Lemma isCommentLine_iff t : isCommentLine t = true <-> commentLine t.
Proof.
  unfold isCommentLine, commentLine. split.
  - destruct (dropWhile isBlankTab t) as [|c r] eqn:E; [discriminate|].
    intros Hc. apply eqc_true in Hc. subst c.
    exists (takeWhile isBlankTab t), r. split.
    + rewrite <- E. symmetry. apply takeWhile_dropWhile.
    + apply List.Forall_forall. intros ch Hin.
      pose proof (takeWhile_all isBlankTab t) as Ha. rewrite forallb_forall in Ha.
      apply Ha. exact Hin.
  - intros (ws & rest & -> & Hws).
    rewrite dropWhile_app_all.
    + reflexivity.
    + apply forallb_forall. rewrite List.Forall_forall in Hws. exact Hws.
Qed.

Lemma thenOnNextLine_iff doc line : thenOnNextLine doc line <-> thenSupplied doc line.
Proof.
  unfold thenOnNextLine, thenSupplied. split.
  - intros (k & Hk & Hlt & Hb & Hc & Ht & Hbetween). exists k.
    split; [exact Hk|]. split; [exact Hlt|].
    split; [rewrite <- isBlankLine_iff; congruence|].
    split; [rewrite <- isCommentLine_iff; congruence|].
    split; [apply thenStartRe_iff; exact Ht|].
    intros k' Hk'. rewrite <- isBlankLine_iff, <- isCommentLine_iff. apply Hbetween. exact Hk'.
  - intros (k & Hk & Hlt & Hb & Hc & Ht & Hbetween). exists k.
    split; [exact Hk|]. split; [exact Hlt|].
    split; [apply not_true_is_false; rewrite isBlankLine_iff; exact Hb|].
    split; [apply not_true_is_false; rewrite isCommentLine_iff; exact Hc|].
    split; [apply thenStartRe_iff; exact Ht|].
    intros k' Hk'. rewrite isBlankLine_iff, isCommentLine_iff. apply Hbetween. exact Hk'.
Qed.

(** The "missing [@Then]" diagnostics of an [@If] or [@Else If] line, by the
    two tests of the validator. *)
Lemma thenAt_on_if_line doc line :
  languageId doc = str "abl" ->
  line < lineCount doc ->
  Re.test (Re.ifRe (lineAt doc line)) = true
  \/ Re.test (Re.elseIfRe (lineAt doc line)) = true ->
  exists ds,
    provideIfDiagnostics doc = Some ds
    /\ List.filter (thenAt line) ds
       = emitIf (negb (Re.thenAnywhereRe (lineAt doc line))
                 && negb (hasThenNearNextLine doc line))
           (lineDiagnostic doc line msgThenMissing).
Proof.
  intros Habl Hlt Hif. pose proof (if_line_not_comment _ Hif) as Hnc.
  unfold provideIfDiagnostics, isAbl. rewrite bool_decide_eq_true_2 by exact Habl.
  cbn [negb]. eexists. split; [reflexivity|].
  unfold provideForDiagnostics.
  rewrite List.filter_app, forLoop_thenAt. cbn [forDiagnostics].
  rewrite !List.filter_app, ifLoop_thenAt. cbn [diagnostics List.filter app].
  rewrite !filter_thenAt_map by reflexivity. rewrite !app_nil_r.
  replace (0 <=? line) with true by reflexivity.
  replace (line <? 0 + lineCount doc) with true by (symmetry; apply Nat.ltb_lt; lia).
  cbn [andb]. unfold thenMissingAt. rewrite Hnc.
  replace (Re.test (Re.ifRe (lineAt doc line)) || Re.test (Re.elseIfRe (lineAt doc line)))
    with true by (destruct Hif as [-> | ->]; [reflexivity | rewrite orb_true_r; reflexivity]).
  reflexivity.
Qed.

(** C5.  For an [@If] or [@Else If] line of an ABL document, the list of the
    "missing [@Then]" diagnostics on that line is one whole-line diagnostic
    when [@Then] occurs neither on the line itself nor at the start of the
    next non-blank, non-comment line among the two that follow, and is empty
    when [@Then] is found by either route. *)
Theorem then_missing_iff (doc : TextDocument) (line : nat) :
  languageId doc = str "abl" ->
  line < lineCount doc ->
  isIfLine (lineAt doc line) ->
  exists ds,
    provideIfDiagnostics doc = Some ds
    /\ ((~ thenOnSameLine (lineAt doc line) /\ ~ thenSupplied doc line
         /\ List.filter (thenAt line) ds = [lineDiagnostic doc line msgThenMissing])
        \/ ((thenOnSameLine (lineAt doc line) \/ thenSupplied doc line)
            /\ List.filter (thenAt line) ds = [])).
Proof.
  intros Habl Hlt Hif. apply isIfLine_iff in Hif.
  destruct (thenAt_on_if_line doc line Habl Hlt Hif) as (ds & E & Hf).
  exists ds. split; [exact E|]. rewrite Hf.
  destruct (Re.thenAnywhereRe (lineAt doc line)) eqn:Hsame; cbn [negb andb emitIf].
  - right. split; [|reflexivity]. left. apply thenAnywhereRe_iff. exact Hsame.
  - destruct (hasThenNearNextLine doc line) eqn:Hnear; cbn [negb emitIf].
    + right. split; [|reflexivity]. right.
      apply thenOnNextLine_iff, hasThenNearNextLine_spec. exact Hnear.
    + left. split; [|split; [|reflexivity]].
      * intros H. apply thenAnywhereRe_iff in H. congruence.
      * intros H. apply thenOnNextLine_iff, hasThenNearNextLine_spec in H. congruence.
Qed.

(** An [@If] whose [@Then] is missing, one whose [@Then] stands on the same
    line, one whose [@Then] comes on the line after a blank line, and an
    [@Else If] whose [@Then] stands on the same line. *)
Lemma then_missing_iff_witness :
  (exists ds,
     provideIfDiagnostics (abl [str "@If a = b"; str "x"; str "@End If"]) = Some ds
     /\ List.filter (thenAt 0) ds
        = [lineDiagnostic (abl [str "@If a = b"; str "x"; str "@End If"]) 0 msgThenMissing])
  /\ (exists ds,
        provideIfDiagnostics (abl [str "@If a = b @Then"; str "x"; str "@End If"]) = Some ds
        /\ List.filter (thenAt 0) ds = [])
  /\ (exists ds,
        provideIfDiagnostics (abl [str "@If a = b"; []; str "  @then"; str "@End If"])
        = Some ds
        /\ List.filter (thenAt 0) ds = [])
  /\ (exists ds,
        provideIfDiagnostics
          (abl [str "@If a"; str "@Then"; str "@else  if b @THEN"; str "@End If"]) = Some ds
        /\ List.filter (thenAt 2) ds = []).
Proof.
  split; [|split; [|split]].
  - destruct (then_missing_iff (abl [str "@If a = b"; str "x"; str "@End If"]) 0
                eq_refl ltac:(cbn; lia)
                ltac:(apply isIfLine_iff; left; reflexivity))
      as (ds & E & [(_ & _ & H)|([H|H] & _)]).
    + exists ds. split; [exact E | exact H].
    + exfalso. apply thenAnywhereRe_iff in H. discriminate H.
    + exfalso. apply thenOnNextLine_iff, hasThenNearNextLine_spec in H. discriminate H.
  - destruct (then_missing_iff (abl [str "@If a = b @Then"; str "x"; str "@End If"]) 0
                eq_refl ltac:(cbn; lia)
                ltac:(apply isIfLine_iff; left; reflexivity))
      as (ds & E & [(H & _)|(_ & H)]).
    + exfalso. apply H. exists (str "@If a = b "), (str "@Then"), [].
      split; [reflexivity|]. split; [reflexivity|]. intros ch Hch. discriminate Hch.
    + exists ds. split; [exact E | exact H].
  - destruct (then_missing_iff
                (abl [str "@If a = b"; []; str "  @then"; str "@End If"]) 0
                eq_refl ltac:(cbn; lia)
                ltac:(apply isIfLine_iff; left; reflexivity))
      as (ds & E & [(_ & H & _)|(_ & H)]).
    + exfalso. apply H. exists 2.
      split; [right; reflexivity|]. split; [cbn; lia|].
      split; [intros Hb; apply isBlankLine_iff in Hb; discriminate Hb|].
      split; [intros Hc; apply isCommentLine_iff in Hc; discriminate Hc|].
      split.
      * exists (str "  "), (str "@then"), [].
        split; [reflexivity|]. split; [repeat constructor|].
        split; [reflexivity|]. intros ch Hch. discriminate Hch.
      * intros k' Hk'. assert (k' = 1) by lia. subst k'. left. constructor.
    + exists ds. split; [exact E | exact H].
  - destruct (then_missing_iff
                (abl [str "@If a"; str "@Then"; str "@else  if b @THEN"; str "@End If"]) 2
                eq_refl ltac:(cbn; lia)
                ltac:(right; exists [], (str "@else"), (str "  "), (str "if"),
                                    (str " b @THEN");
                      split; [reflexivity|]; split; [constructor|];
                      split; [reflexivity|]; split; [repeat constructor|];
                      split; [discriminate|]; split; [reflexivity|];
                      intros ch Hch; inversion Hch; reflexivity))
      as (ds & E & [(H & _)|(_ & H)]).
    + exfalso. apply H. exists (str "@else  if b "), (str "@THEN"), [].
      split; [reflexivity|]. split; [reflexivity|]. intros ch Hch. discriminate Hch.
    + exists ds. split; [exact E | exact H].
Defined.

(* ================================================================== *)
(** * An [@] inside an open call *)
(* ================================================================== *)

Lemma scanVisits_quote line lineNo i st :
  scanVisits line lineNo i st -> inSingleQuote st = false.
Proof.
  induction 1 as [|i ch st toks i' st' _ IH Hch Hs]; [reflexivity|].
  destruct (scanAt_spec line lineNo i ch st Hch IH) as (_ & Hq & _).
  rewrite Hs in Hq. exact Hq.
Qed.

(** The tokens of the loop from a column the scan visits are tokens of the
    line. *)
Lemma scanVisits_loop line lineNo i st :
  scanVisits line lineNo i st ->
  forall tok, In tok (scanLoop (length line - i) line lineNo i st) ->
              In tok (scanLine line lineNo).
Proof.
  induction 1 as [|i ch st toks i' st' Hv IH Hch Hs]; intros tok Hin.
  - rewrite Nat.sub_0_r in Hin. exact Hin.
  - apply IH. pose proof (charAt_lt _ _ _ Hch) as Hlt.
    replace (length line - i) with (S (length line - i - 1)) by lia.
    rewrite (scanLoop_unfold _ _ _ _ _ _ Hch), Hs. cbn [fst snd].
    apply in_or_app. right.
    pose proof (scanVisits_quote _ _ _ _ Hv) as Hq.
    destruct (scanAt_spec line lineNo i ch st Hch Hq) as (Hle & Hq' & _).
    rewrite Hs in Hle, Hq'. cbn [fst snd] in Hle, Hq'.
    destruct (le_lt_dec (i' + 1) (length line)) as [Hin'|Hout].
    + replace (length line - i - 1) with (length line - (i' + 1) + (i' - i)) by lia.
      rewrite scanLoop_fuel by (try exact Hq'; lia). exact Hin.
    + replace (length line - (i' + 1)) with 0 in Hin by lia. contradiction Hin.
Qed.

(** The tokens of a round of the scan are tokens of the line. *)
Lemma scanVisits_tokens line lineNo i ch st tok :
  scanVisits line lineNo i st -> charAt line i = Some ch ->
  In tok (fst (fst (scanAt line lineNo i ch st))) ->
  In tok (scanLine line lineNo).
Proof.
  intros Hv Hch Hin. apply (scanVisits_loop _ _ _ _ Hv).
  pose proof (charAt_lt _ _ _ Hch) as Hlt.
  replace (length line - i) with (S (length line - i - 1)) by lia.
  rewrite (scanLoop_unfold _ _ _ _ _ _ Hch). apply in_or_app. left. exact Hin.
Qed.

Lemma scanLine_provideTokens doc lineNo tok :
  lineNo < lineCount doc -> In tok (scanLine (lineAt doc lineNo) lineNo) ->
  In tok (provideTokens doc).
Proof.
  intros Hlt Hin. unfold provideTokens. apply in_flat_map. exists lineNo.
  split; [apply in_seq; lia|]. unfold lineTokens. apply in_or_app. right. exact Hin.
Qed.

(** An [@] is no logic operator. *)
Lemma logicToken_at line lineNo i :
  charAt line i = Some "@"%char -> logicToken line lineNo i "@"%char = None.
Proof.
  intros Hch. unfold logicToken.
  assert (Hno : forall p pat, p <> "@"%char -> startsWith line (p :: pat) i = false).
  { intros p pat Hp. destruct (startsWith line (p :: pat) i) eqn:E; [|reflexivity].
    apply (startsWith_head _ _ _ p pat eq_refl) in E. congruence. }
  cbn [str list_ascii_of_string].
  rewrite !Hno by discriminate. reflexivity.
Qed.

(** The round of an [@] that starts no construct of its own, under an open
    call frame and attached to its neighbours, pushes the one-character
    span of the category of the frame. *)
Lemma scanAt_inner_at line lineNo i st t below :
  inSingleQuote st = false ->
  charAt line i = Some "@"%char ->
  stack st = t :: below ->
  attachedAt line i = true ->
  opensConstruct line lineNo i st = false ->
  In {| t_line := lineNo; t_char := i; t_length := 1; t_kind := tokenKindOf (kind t) |}
     (fst (fst (scanAt line lineNo i "@"%char st))).
Proof.
  intros Hq Hch Hs Ha Ho. unfold opensConstruct in Ho.
  apply orb_false_iff in Ho. destruct Ho as [Ho Hg].
  apply orb_false_iff in Ho. destruct Ho as [Ho Hm].
  apply orb_false_iff in Ho. destruct Ho as [Ho Hl].
  apply test_false in Hg. apply test_false in Hm.
  unfold scanAt. change (eqc "@"%char "^"%char) with false. cbn [andb].
  rewrite Hq, Ho, Hl, Hm, Hg.
  rewrite (logicToken_at _ _ _ Hch).
  replace (if ifMode st || (0 <? ifParenDepth st) then @None (Token * nat) else None)
    with (@None (Token * nat)) by (destruct (ifMode st || (0 <? ifParenDepth st)); reflexivity).
  cbn [fst snd]. apply in_or_app. right.
  unfold innerAtTokens. rewrite Hs. unfold attachedAt in Ha.
  change (eqc "@"%char "@"%char) with true. cbv iota. rewrite Ha. left. reflexivity.
Qed.

(** C4.  On the line [@Map.Get@(Key@)] the classifier emits two spans, both
    of category [ablMap]: one over the nine characters of [@Map.Get@], and
    one over the [@] before the closing parenthesis.  The second follows
    from the rule for an [@] the scan meets while a call frame is on the
    stack: when the [@] starts no construct of its own and is attached to
    its neighbours, a one-character span of the category of the innermost
    frame is among the spans of the document. *)
Theorem map_get_wrapped_call :
  provideTokens (abl [str "@Map.Get@(Key@)"])
  = [ {| t_line := 0; t_char := 0; t_length := 9; t_kind := ablMap |};
      {| t_line := 0; t_char := 13; t_length := 1; t_kind := ablMap |} ]
  /\ forall doc lineNo i st t below,
       lineNo < lineCount doc ->
       scanVisits (lineAt doc lineNo) lineNo i st ->
       charAt (lineAt doc lineNo) i = Some "@"%char ->
       stack st = t :: below ->
       attachedAt (lineAt doc lineNo) i = true ->
       opensConstruct (lineAt doc lineNo) lineNo i st = false ->
       In {| t_line := lineNo; t_char := i; t_length := 1;
             t_kind := tokenKindOf (kind t) |}
          (provideTokens doc).
Proof.
  split; [vm_compute; reflexivity|].
  intros doc lineNo i st t below Hlt Hv Hch Hs Ha Ho.
  apply (scanLine_provideTokens doc lineNo); [exact Hlt|].
  apply (scanVisits_tokens _ _ _ _ _ _ Hv Hch).
  apply (scanAt_inner_at _ _ _ _ _ below); try assumption.
  exact (scanVisits_quote _ _ _ _ Hv).
Qed.

Lemma scanVisits_step line lineNo i ch st j st' :
  scanVisits line lineNo i st ->
  charAt line i = Some ch ->
  (snd (fst (scanAt line lineNo i ch st)) + 1, snd (scanAt line lineNo i ch st)) = (j, st') ->
  scanVisits line lineNo j st'.
Proof.
  intros Hv Hch E. inversion E; subst.
  destruct (scanAt line lineNo i ch st) as [[toks i'] st''] eqn:Hs.
  exact (sv_next _ _ _ _ _ _ _ _ Hv Hch Hs).
Qed.

(** The scan of [@Map.Get@(Key@)] reaches the [@] of [Key@] in the frame
    opened by [@Map.Get@(]. *)
Lemma map_get_wrapped_call_witness :
  scanVisits (str "@Map.Get@(Key@)") 0 13 (pushFrame initialLineState ctxMap)
  /\ In {| t_line := 0; t_char := 13; t_length := 1; t_kind := ablMap |}
        (provideTokens (abl [str "@Map.Get@(Key@)"])).
Proof.
  assert (Hv : scanVisits (str "@Map.Get@(Key@)") 0 13 (pushFrame initialLineState ctxMap)).
  { apply (scanVisits_step _ _ 12 "y"%char (pushFrame initialLineState ctxMap));
      [|reflexivity|reflexivity].
    apply (scanVisits_step _ _ 11 "e"%char (pushFrame initialLineState ctxMap));
      [|reflexivity|reflexivity].
    apply (scanVisits_step _ _ 10 "K"%char (pushFrame initialLineState ctxMap));
      [|reflexivity|reflexivity].
    apply (scanVisits_step _ _ 0 "@"%char initialLineState); [|reflexivity|reflexivity].
    apply sv_start. }
  split; [exact Hv|].
  exact (proj2 map_get_wrapped_call (abl [str "@Map.Get@(Key@)"]) 0 13
           (pushFrame initialLineState ctxMap) {| kind := ctxMap; depth := 1 |} []
           ltac:(cbn; lia) Hv eq_refl eq_refl eq_refl eq_refl).
Defined.

(** An [@] that starts a call of its own gets the category of that call,
    not that of the enclosing frame: in [@Map.Get(@Trim(x))] the scan meets
    the [@] of [@Trim] in the frame of the Map call, right after an opening
    parenthesis, and the span at its column is the [ablFunc] span of
    [@Trim].  And an identifier character after the [@] does not attach
    it: in [@Map.Get(a @b)] the scan meets the [@] before [b] in the frame
    of the Map call, and no span covers its column. *)
Lemma nested_call_keeps_own_category :
  (provideTokens (abl [str "@Map.Get(@Trim(x))"])
   = [ {| t_line := 0; t_char := 0; t_length := 8; t_kind := ablMap |};
       {| t_line := 0; t_char := 9; t_length := 5; t_kind := ablFunc |} ]
   /\ scanVisits (str "@Map.Get(@Trim(x))") 0 9 (pushFrame initialLineState ctxMap)
   /\ charAt (str "@Map.Get(@Trim(x))") 9 = Some "@"%char
   /\ prevChar (str "@Map.Get(@Trim(x))") 9 = Some "("%char
   /\ ~ In {| t_line := 0; t_char := 9; t_length := 1; t_kind := ablMap |}
           (provideTokens (abl [str "@Map.Get(@Trim(x))"])))
  /\ (provideTokens (abl [str "@Map.Get(a @b)"])
      = [ {| t_line := 0; t_char := 0; t_length := 8; t_kind := ablMap |} ]
      /\ scanVisits (str "@Map.Get(a @b)") 0 11 (pushFrame initialLineState ctxMap)
      /\ charAt (str "@Map.Get(a @b)") 11 = Some "@"%char
      /\ charAt (str "@Map.Get(a @b)") 12 = Some "b"%char).
Proof.
  split.
  - split; [vm_compute; reflexivity|].
    split.
    { apply (scanVisits_step _ _ 0 "@"%char initialLineState); [|reflexivity|reflexivity].
      apply sv_start. }
    split; [reflexivity|]. split; [reflexivity|].
    intros H. vm_compute in H. destruct H as [H|[H|H]]; try discriminate H. exact H.
  - split; [vm_compute; reflexivity|].
    split; [|split; reflexivity].
    apply (scanVisits_step _ _ 10 " "%char (pushFrame initialLineState ctxMap));
      [|reflexivity|reflexivity].
    apply (scanVisits_step _ _ 9 "a"%char (pushFrame initialLineState ctxMap));
      [|reflexivity|reflexivity].
    apply (scanVisits_step _ _ 0 "@"%char initialLineState); [|reflexivity|reflexivity].
    apply sv_start.
Qed.

(* ================================================================== *)
(** * The end of a function block *)
(* ================================================================== *)

Lemma skipn_lineAt doc n :
  n < lineCount doc -> skipn n (lines doc) = lineAt doc n :: skipn (S n) (lines doc).
Proof.
  unfold lineCount, lineAt. generalize (lines doc). intros ls. revert n.
  induction ls as [|t ls IH]; intros n Hn; [simpl in Hn; lia|].
  destruct n as [|n]; [reflexivity|]. cbn [skipn nth]. apply IH. simpl in Hn. lia.
Qed.

Lemma closerInv_line doc n st :
  n < lineCount doc ->
  closerInv doc n st -> closerInv doc (S n) (blockLine (lineAt doc n) n st).
Proof.
  intros Hn (K1 & K2). rewrite (skipn_lineAt doc n Hn) in K2.
  cbn [closerFrom] in K2. unfold opensFunction, closesFunction, isReadLine in K2.
  unfold blockLine.
  destruct (isBlankLine (lineAt doc n)) eqn:Hb.
  { cbn [negb andb] in K2. split; assumption. }
  destruct (isCommentLine (lineAt doc n)) eqn:Hc.
  { cbn [negb andb] in K2. split; assumption. }
  cbn [negb andb] in K2. destruct st as [stk blocks]. cbn [fst snd] in *.
  destruct (fnDeclRe (lineAt doc n)) as [name|] eqn:Hd; cbn [Re.test negb andb] in K2.
  { split; cbn [fst snd]; [exact K1|].
    intros [|j] f Hf; cbn [nth_error] in Hf.
    - inversion Hf; subst f. reflexivity.
    - apply K2. exact Hf. }
  destruct (Re.fnEndRe (lineAt doc n)) eqn:He; [|split; assumption].
  destruct stk as [|frame below]; cbn [fst snd].
  { split; [exact K1|]. intros j f Hf. destruct j; discriminate Hf. }
  split; cbn [fst snd].
  - intros b Hin. apply in_app_or in Hin.
    destruct Hin as [Hin | [<- | []]]; [apply K1; exact Hin|].
    cbn [blockOf b_range rg_startLine rg_endLine]. apply (K2 0 frame). reflexivity.
  - intros j f Hf. apply (K2 (S j) f). exact Hf.
Qed.

Lemma closerInv_loop doc : forall ls pre st,
  lines doc = pre ++ ls ->
  closerInv doc (length pre) st ->
  closerInv doc (lineCount doc) (blockLoop ls (length pre) st).
Proof.
  induction ls as [|t ls IH]; intros pre st Hl Hinv.
  - cbn [blockLoop]. unfold lineCount. rewrite Hl, app_nil_r. exact Hinv.
  - cbn [blockLoop].
    assert (Ht : lineAt doc (length pre) = t).
    { unfold lineAt. rewrite Hl, app_nth2, Nat.sub_diag by lia. reflexivity. }
    replace (S (length pre)) with (length (pre ++ [t])) by (rewrite length_app; cbn; lia).
    apply IH.
    + rewrite Hl, <- app_assoc. reflexivity.
    + rewrite length_app. cbn [length]. rewrite Nat.add_1_r, <- Ht.
      apply closerInv_line; [|exact Hinv].
      unfold lineCount. rewrite Hl, length_app. cbn [length]. lia.
Qed.

(** X17.  The outline has exactly one block for every line that declares a
    function: the block carries the declared name, starts on that line at
    column 0, and ends at the end of the line of the [@End Function] that
    closes it, or at the end of the last line when nothing closes it.  Its
    selection range is the first occurrence of the name on the declaring
    line and lies within the range of the block.  The blocks are sorted by
    start line. *)
Theorem outline_lists_every_function (doc : TextDocument) :
  (forall b, In b (findFunctionBlocks doc) ->
     declaresAt doc (rg_startLine (b_range b)) (b_name b)
     /\ blockHead doc b
     /\ firstOccurrence (lineAt doc (rg_startLine (b_range b))) (b_name b)
          (rg_startChar (b_selectionRange b))
     /\ rangeWithin (b_selectionRange b) (b_range b)
     /\ rg_endLine (b_range b) < lineCount doc
     /\ match closerOf doc (rg_startLine (b_range b)) with
        | Some e => rg_endLine (b_range b) = e /\ closedBlock doc b
        | None => rg_endLine (b_range b) = lineCount doc - 1
        end)
  /\ (forall l name, declaresAt doc l name -> isReadLine (lineAt doc l) = true ->
        exists b, In b (findFunctionBlocks doc)
                  /\ rg_startLine (b_range b) = l /\ b_name b = name)
  /\ StronglySorted (fun a b => rg_startLine (b_range a) < rg_startLine (b_range b))
       (findFunctionBlocks doc)
  /\ (isAbl doc = true ->
      map (fun s => (s_name s, s_range s, s_selectionRange s)) (provideDocumentSymbols doc)
      = map (fun b => (b_name b, b_range b, b_selectionRange b)) (findFunctionBlocks doc)).
Proof.
  assert (Hinit : blockInv doc 0 ([], [])).
  { split; [intros f []|]. split; [intros b []|]. split; [constructor|].
    intros l0 nm Hl. lia. }
  assert (Kinit : closerInv doc 0 ([], [])).
  { split; [intros b []|]. intros j f Hf. destruct j; discriminate Hf. }
  pose proof (blockLoop_inv doc (lines doc) [] ([], []) eq_refl Hinit) as Hinv.
  pose proof (closerInv_loop doc (lines doc) [] ([], []) eq_refl Kinit) as Kinv.
  cbn [length] in Hinv, Kinv. unfold findFunctionBlocks. cbv zeta.
  set (st := blockLoop (lines doc) 0 ([], [])) in *.
  set (lastLine := lineCount doc - 1).
  set (all := snd st ++ map (fun frame => blockOf frame lastLine (lineAt doc lastLine)) (fst st)).
  destruct Hinv as (J1 & J2 & J3 & J4). destruct Kinv as (K1 & K2).
  assert (Kend : forall j, closerFrom (skipn (lineCount doc) (lines doc)) (lineCount doc) j
                           = None).
  { intros j. unfold lineCount. rewrite skipn_all. reflexivity. }
  pose proof (sortBy_perm blockLe all) as Hperm.
  assert (Hall : forall b, In b all ->
            declaresAt doc (rg_startLine (b_range b)) (b_name b)
            /\ blockHead doc b
            /\ rg_endLine (b_range b) < lineCount doc
            /\ match closerOf doc (rg_startLine (b_range b)) with
               | Some e => rg_endLine (b_range b) = e /\ closedBlock doc b
               | None => rg_endLine (b_range b) = lineCount doc - 1
               end
            /\ rg_startLine (b_range b) <= rg_endLine (b_range b)).
  { intros b Hb. apply in_app_or in Hb. destruct Hb as [Hb | Hb].
    - destruct (J2 b Hb) as (Hh & Hc & Hend). pose proof Hc as (Hlt & _).
      split; [split; [lia | apply Hh]|]. split; [exact Hh|]. split; [exact Hend|].
      split; [|lia]. rewrite (K1 b Hb). split; [reflexivity | exact Hc].
    - apply in_map_iff in Hb. destruct Hb as (f & <- & Hf).
      destruct (J1 f Hf) as (F1 & F2 & F3 & F4).
      destruct (In_nth_error _ _ Hf) as [j Hj].
      unfold blockHead, declaresAt, blockOf. cbn. subst lastLine.
      rewrite (K2 j f Hj), Kend.
      repeat split; auto; try lia. }
  split; [|split; [|split]].
  - intros b Hb. apply (Permutation_in _ Hperm) in Hb.
    destruct (Hall b Hb) as (Hd & Hh & Hend & Hcl & Hle).
    pose proof Hh as (_ & Hdecl & Hzero & Hsel & _).
    destruct (nameIndex_first _ _ Hdecl) as (Hfirst & Hfit).
    split; [exact Hd|]. split; [exact Hh|].
    split; [rewrite Hsel; exact Hfirst|].
    split; [|split; [exact Hend | exact Hcl]].
    rewrite Hsel. unfold rangeWithin, posLe, nameRangeOf. cbn.
    split; [right; split; [reflexivity | lia]|].
    destruct (Nat.eq_dec (rg_startLine (b_range b)) (rg_endLine (b_range b))) as [E | E];
      [|left; lia].
    right. split; [exact E|]. destruct Hh as (_ & _ & _ & _ & ->). rewrite <- E. exact Hfit.
  - intros l name [Hl Hd] Hread.
    destruct (J4 l name Hl Hread Hd) as [(f & Hf & Hx1 & Hx2) | (b & Hb & Hx)].
    + exists (blockOf f lastLine (lineAt doc lastLine)). split; [|cbn; auto].
      apply (Permutation_in _ (Permutation_sym Hperm)). apply in_or_app. right.
      apply in_map_iff. exists f. auto.
    + exists b. split; [|exact Hx].
      apply (Permutation_in _ (Permutation_sym Hperm)). apply in_or_app. left. exact Hb.
  - apply blocks_sorted_strict.
    + apply sortBy_sorted; [apply blockLe_total | apply blockLe_trans].
    + eapply Permutation_NoDup;
        [apply Permutation_map, Permutation_sym; exact Hperm|].
      subst all. rewrite map_app, map_map. cbn [blockOf b_range rg_startLine]. exact J3.
  - intros Habl. unfold provideDocumentSymbols, findFunctionBlocks. rewrite Habl.
    cbn [negb]. rewrite map_map. reflexivity.
Qed.

(* ================================================================== *)
(** * The unterminated-string diagnostic, line by line *)
(* ================================================================== *)

Lemma In_skipn_text (c : ascii) n (l : text) : In c (skipn n l) -> In c l.
Proof. intros H. rewrite <- (firstn_skipn n l). apply in_or_app. right. exact H. Qed.

Lemma In_firstn_text (c : ascii) n (l : text) : In c (firstn n l) -> In c l.
Proof. intros H. rewrite <- (firstn_skipn n l). apply in_or_app. left. exact H. Qed.

Lemma In_slice (c : ascii) (t : text) a b : In c (slice t a b) -> In c t.
Proof. unfold slice. intros H. eapply In_skipn_text, In_firstn_text, H. Qed.

Lemma In_dropWhile p (c : ascii) (l : text) : In c (dropWhile p l) -> In c l.
Proof.
  intros H. destruct (dropWhile_suffix p l) as [w Hw]. rewrite Hw.
  apply in_or_app. right. exact H.
Qed.

Lemma In_trim (c : ascii) (t : text) : In c (trim t) -> In c t.
Proof.
  unfold trim. intros H. apply in_rev in H. apply In_dropWhile in H.
  apply in_rev in H. apply In_dropWhile in H. exact H.
Qed.

Lemma In_stripOuterParensLoop (c : ascii) fuel : forall t,
  In c (stripOuterParensLoop fuel t) -> In c t.
Proof.
  induction fuel as [|fuel IH]; intros t H; cbn [stripOuterParensLoop] in H; [exact H|].
  destruct (startsWith0 t (str "(") && endsWith t (str ")")); [|exact H].
  apply IH, In_trim, In_slice in H. exact H.
Qed.

(** An operand that fails the quote check holds a quote. *)
Lemma bad_operand_quote o : isQuotedOperandOk o = false -> In quote o.
Proof.
  unfold isQuotedOperandOk. intros H.
  destruct (startsWith0 (trim (stripOuterParens o)) (str "'")) eqn:Hs; [|discriminate H].
  unfold startsWith0 in Hs. apply prefixBy_eqc_iff in Hs. destruct Hs as [r Hr].
  assert (Hin : In quote (trim (stripOuterParens o))) by (rewrite Hr; left; reflexivity).
  apply In_trim in Hin. unfold stripOuterParens in Hin.
  apply In_stripOuterParensLoop, In_trim in Hin. exact Hin.
Qed.

Lemma badComparison_quote p : badComparison p = true -> In quote p.
Proof.
  unfold badComparison.
  pose proof (splitCompareFrom_spec p (length p) p 0 0 false (Nat.le_refl _) eq_refl) as H.
  fold (splitCompareTopLevel p) in H.
  destruct (splitCompareTopLevel p) as [r|]; [|discriminate].
  destruct H as (j & o & _ & _ & -> & _). cbn [left right]. intros Hb.
  apply orb_true_iff in Hb. destruct Hb as [Hb|Hb]; apply negb_true_iff in Hb;
    apply bad_operand_quote in Hb.
  - eapply In_firstn_text. exact Hb.
  - eapply In_skipn_text. exact Hb.
Qed.

Lemma In_joinWith (c : ascii) : forall frags seps f,
  length frags = S (length seps) -> In f frags -> In c f -> In c (joinWith frags seps).
Proof.
  induction frags as [|g frags IH]; intros seps f Hlen Hf Hc; [contradiction|].
  destruct seps as [|sep seps]; cbn [joinWith].
  - destruct frags; [|discriminate Hlen]. destruct Hf as [<-|[]]. exact Hc.
  - destruct Hf as [<-|Hf]; [apply in_or_app; left; exact Hc|].
    apply in_or_app. right. apply in_or_app. right.
    apply (IH seps f); [simpl in Hlen; lia | exact Hf | exact Hc].
Qed.

Lemma fragment_chars (c : ascii) (s f : text) :
  In f (splitByAndOrTopLevel s) -> In c f -> In c s.
Proof.
  intros Hf Hc.
  destruct (splitByAndOrFrom_join s s 0 0 0 false 0 eq_refl ltac:(lia))
    as (seps & Hlen & _ & Hjoin).
  fold (splitByAndOrTopLevel s) in Hlen, Hjoin.
  change (skipn 0 s) with s in Hjoin.
  rewrite <- Hjoin. eapply In_joinWith; eassumption.
Qed.

Lemma In_replaceFirst_keyword (c : ascii) kw t :
  In c (Re.replaceFirst (Re.keywordRest kw) t) -> In c t.
Proof.
  unfold Re.replaceFirst. destruct (Re.keywordRest kw t) as [r|] eqn:E; [|auto].
  apply keywordRest_lit in E. apply lit_suffix in E. destruct E as [m Hm].
  intros H. apply (In_dropWhile isSpace). fold (Re.spaces0 t). rewrite Hm.
  apply in_or_app. right. exact H.
Qed.

Lemma In_replaceFirst_keyword2 (c : ascii) kw1 kw2 t :
  In c (Re.replaceFirst (Re.keyword2Rest kw1 kw2) t) -> In c t.
Proof.
  unfold Re.replaceFirst. destruct (Re.keyword2Rest kw1 kw2 t) as [r|] eqn:E; [|auto].
  apply keyword2Rest_lit in E. destruct E as (r0 & r1 & H0 & H1 & H2).
  apply lit_suffix in H0. destruct H0 as [m0 Hm0].
  apply spaces1_app in H1. destruct H1 as [ws Hws].
  apply lit_suffix in H2. destruct H2 as [m2 Hm2].
  intros H. apply (In_dropWhile isSpace). fold (Re.spaces0 t). rewrite Hm0, Hws, Hm2.
  apply in_or_app. right. apply in_or_app. right. apply in_or_app. right. exact H.
Qed.

Lemma In_conditionText (c : ascii) t : In c (conditionText t) -> In c t.
Proof.
  unfold conditionText. intros H.
  apply In_replaceFirst_keyword2, In_replaceFirst_keyword in H.
  destruct (indexOf (toLowerCase t) (str "@then")); [|exact H].
  eapply In_firstn_text. exact H.
Qed.

(** A line with the "unterminated string" problem is an [@If] or
    [@Else If] line that holds a quote. *)
Lemma unterminatedAt_line doc l :
  unterminatedAt doc l = true ->
  isIfLine (lineAt doc l) /\ In quote (lineAt doc l).
Proof.
  unfold unterminatedAt. intros H.
  apply andb_true_iff in H. destruct H as [H Hbad].
  apply andb_true_iff in H. destruct H as [_ Hif].
  split.
  - apply isIfLine_iff. apply orb_true_iff in Hif. exact Hif.
  - apply existsb_exists in Hbad. destruct Hbad as (p & Hp & Hb).
    apply badComparison_quote in Hb.
    apply In_conditionText. eapply fragment_chars; eassumption.
Qed.

(** The "unterminated string" diagnostics of a line, by the test of the
    validator. *)
Lemma unterminatedOn_filter doc ds l :
  provideIfDiagnostics doc = Some ds ->
  List.filter (unterminatedOn l) ds
  = emitIf ((l <? lineCount doc) && unterminatedAt doc l)
      (lineDiagnostic doc l msgUnterminated).
Proof.
  unfold provideIfDiagnostics. destruct (negb (isAbl doc)); [discriminate|].
  intros E. inversion E as [E']. clear E E'.
  unfold provideForDiagnostics.
  rewrite List.filter_app, forLoop_unterminatedOn. cbn [forDiagnostics].
  rewrite !List.filter_app, ifLoop_unterminatedOn. cbn [diagnostics List.filter app].
  rewrite !filter_unterminatedOn_map by reflexivity. rewrite !app_nil_r.
  replace (0 <=? l) with true by reflexivity.
  reflexivity.
Qed.

(** X8.  The "unterminated string" diagnostic is reported at most once per
    line, however many comparisons of the condition have a badly quoted
    operand: among the diagnostics of a document at most one with that
    message lies on a given line, it marks the whole line, and the line is
    then an [@If] or [@Else If] line of the document that holds a single
    quote. *)
Theorem unterminated_once_per_line (doc : TextDocument) (ds : list Diagnostic) (l : nat) :
  provideIfDiagnostics doc = Some ds ->
  length (List.filter (unterminatedOn l) ds) <= 1
  /\ forall d, In d (List.filter (unterminatedOn l) ds) ->
       d = lineDiagnostic doc l msgUnterminated
       /\ l < lineCount doc
       /\ isIfLine (lineAt doc l)
       /\ In quote (lineAt doc l).
Proof.
  intros E. rewrite (unterminatedOn_filter doc ds l E).
  destruct (l <? lineCount doc) eqn:Hl; cbn [andb emitIf].
  - destruct (unterminatedAt doc l) eqn:Hu; cbn [emitIf length].
    + split; [lia|]. intros d [<-|[]]. split; [reflexivity|].
      split; [apply Nat.ltb_lt; exact Hl|]. apply unterminatedAt_line. exact Hu.
    + split; [lia|]. intros d [].
  - cbn [length]. split; [lia|]. intros d [].
Qed.

(** Two bad comparisons on one line, one diagnostic. *)
Lemma unterminated_once_per_line_witness :
  provideIfDiagnostics (abl [str "@If a = 'x' y And b = 'z' w @Then"; str "@End If"])
  = Some [lineDiagnostic (abl [str "@If a = 'x' y And b = 'z' w @Then"; str "@End If"]) 0
            msgUnterminated]
  /\ map badComparison
       (splitByAndOrTopLevel (conditionText (str "@If a = 'x' y And b = 'z' w @Then")))
     = [true; true]
  /\ length (List.filter (unterminatedOn 0)
               [lineDiagnostic (abl [str "@If a = 'x' y And b = 'z' w @Then"; str "@End If"]) 0
                  msgUnterminated]) <= 1.
Proof.
  split; [reflexivity|]. split; [vm_compute; reflexivity|].
  exact (proj1 (unterminated_once_per_line
                  (abl [str "@If a = 'x' y And b = 'z' w @Then"; str "@End If"]) _ 0 eq_refl)).
Defined.
